(** * Network Defender: the path-planning and strategy engine

    A shallow embedding of the JavaScript sources (Pathfinding.js,
    TopologyGenerator.js, PerfectAI.js, EconomicRL.js, Enemy.js,
    LevelManagerStackelberg.js, PlayingState.js, GameEngine.js) and the
    properties the design document states about them.

    Conventions of the embedding.
    - A JavaScript number is a rational [Q]; where the code itself creates
      [Infinity] (the A* score tables) the type [num] adds it.  Rounding of
      IEEE doubles is not modelled.
    - [Math.hypot] is a builtin with no rational counterpart: it is a
      parameter [hypot] of every function that reaches [Graphics.distance].
    - [Math.random] is a stream [rnd : nat -> Q] read through a call counter;
      [Array.prototype.sort] with a random comparator is an oracle
      [shuffle] that returns some rearrangement of its argument.
    - A [Map] or a plain object used as a dictionary is a [gmap]; a [Set]
      whose iteration order matters is a duplicate-free list in insertion
      order.
    - A loop that the source does not bound takes [fuel]; running out of it
      is the outcome [OutOfFuel], a [TypeError] is the outcome [Threw]. *)

From Stdlib Require Import QArith Qround Qabs Qminmax Qpower Lqa Lia Sorted.
From stdpp Require Import base option list gmap strings pretty.

Local Open Scope Q_scope.

(** ** JavaScript numbers *)

Module JS.

Definition Qltb (a b : Q) : bool := negb (Qle_bool b a).

(** A number that may be [Infinity]. *)
Inductive num : Type :=
  | Fin (q : Q)
  | Inf.

(** [a < b] *)
Definition num_lt (a b : num) : bool :=
  match a, b with
  | Fin x, Fin y => Qltb x y
  | Fin _, Inf => true
  | Inf, _ => false
  end.

(** [a + c] for a finite [c] *)
Definition num_add (a : num) (c : Q) : num :=
  match a with
  | Fin x => Fin (x + c)
  | Inf => Inf
  end.

(** How a call ends: it returns, throws a [TypeError], or is still running
    when the fuel is spent. *)
Inductive outcome (A : Type) : Type :=
  | Ret (a : A)
  | Threw
  | OutOfFuel.
Arguments Ret {A} a.
Arguments Threw {A}.
Arguments OutOfFuel {A}.

#[global] Instance outcome_ret : MRet outcome := λ A a, Ret a.
#[global] Instance outcome_bind : MBind outcome := λ A B f m,
  match m with
  | Ret a => f a
  | Threw => Threw
  | OutOfFuel => OutOfFuel
  end.

(** An [undefined] where an object is needed: the access throws. *)
Definition orThrow {A : Type} (o : option A) : outcome A :=
  match o with
  | Some a => Ret a
  | None => Threw
  end.

(** A loop that ran out of fuel. *)
Definition orDiverge {A : Type} (o : option A) : outcome A :=
  match o with
  | Some a => Ret a
  | None => OutOfFuel
  end.

(** [Math.floor] *)
Definition floor (q : Q) : Q := inject_Z (Qfloor q).

(** A natural number as a JavaScript number. *)
Definition ofNat (n : nat) : Q := inject_Z (Z.of_nat n).

(** [Set.prototype.add] on an insertion-ordered set. *)
Definition set_add (x : nat) (s : list nat) : list nat :=
  if bool_decide (x ∈ s) then s else s ++ [x].

(** [Set.prototype.delete] *)
Definition set_delete (x : nat) (s : list nat) : list nat :=
  filter (λ y, y ≠ x) s.

End JS.
Import JS.

(** ** Nodes of a topology: [{id, x, y, type}] *)

Inductive NodeType : Type := source | normal | chokepoint | goal.

#[global] Instance NodeType_eq_dec : EqDecision NodeType.
Proof. solve_decision. Defined.

Record Node : Type := mkNode {
  node_id : nat;
  node_x : Q;
  node_y : Q;
  node_type : NodeType
}.

(** ** Graphics.js *)

Module Graphics.

(** [static distance(x1, y1, x2, y2) { return Math.hypot(x2 - x1, y2 - y1); }] *)
Definition distance (hypot : Q → Q → Q) (x1 y1 x2 y2 : Q) : Q :=
  hypot (x2 - x1) (y2 - y1).

End Graphics.

(** ** Pathfinding.js *)

Module Pathfinding.

Section Defs.
Variable hypot : Q → Q → Q.

(** [static heuristic(nodeA, nodeB)] *)
Definition heuristic (nodeA nodeB : Node) : Q :=
  Graphics.distance hypot (node_x nodeA) (node_y nodeA) (node_x nodeB) (node_y nodeB).

(** [static buildGraph(edges, nodeCount)]: an adjacency list per node index;
    [graph.get(from).push(to)] throws when [from] is not a key. *)
Definition emptyGraph (nodeCount : nat) : gmap nat (list nat) :=
  list_to_map ((λ i, (i, [])) <$> seq 0 nodeCount).

Definition addEdge (graph : option (gmap nat (list nat))) (e : nat * nat)
  : option (gmap nat (list nat)) :=
  g ← graph;
  l1 ← g !! e.1;
  let g1 := <[e.1 := l1 ++ [e.2]]> g in
  l2 ← g1 !! e.2;
  Some (<[e.2 := l2 ++ [e.1]]> g1).

Definition buildGraph (edges : list (nat * nat)) (nodeCount : nat)
  : option (gmap nat (list nat)) :=
  foldl addEdge (Some (emptyGraph nodeCount)) edges.

(** [static reconstructPath(cameFrom, current)] *)
Fixpoint reconstructLoop (fuel : nat) (cameFrom : gmap nat nat) (current : nat)
    (path : list nat) : option (list nat) :=
  match fuel with
  | O => None
  | S fuel' =>
      match cameFrom !! current with
      | Some prev => reconstructLoop fuel' cameFrom prev (prev :: path)
      | None => Some path
      end
  end.

Definition reconstructPath (fuel : nat) (cameFrom : gmap nat nat) (current : nat)
  : option (list nat) :=
  reconstructLoop fuel cameFrom current [current].

(** The mutable state of the A* loop. [calls] counts the [Math.random]
    calls made so far. *)
Record astar : Type := mkAstar {
  openSet : list nat;
  cameFrom : gmap nat nat;
  gScore : gmap nat num;
  fScore : gmap nat num;
  calls : nat
}.

(** The scan of [openSet] for the node with the lowest [fScore]: a strictly
    lower score replaces the candidate, so the first of equals wins. *)
Definition lowestStep (fS : gmap nat num) (acc : option nat * num) (node : nat)
  : option nat * num :=
  match fS !! node with
  | Some f => if num_lt f acc.2 then (Some node, f) else acc
  | None => acc
  end.

Definition lowest (st : astar) : option nat :=
  (foldl (lowestStep (fScore st)) (None, Inf) (openSet st)).1.

(** The body of [for (const neighbor of neighbors)]. *)
Definition relax (nodes : list Node) (goal : nat) (randomize : bool) (rnd : nat → Q)
    (current : nat) (acc : option astar) (neighbor : nat) : option astar :=
  st ← acc;
  nc ← nodes !! current;
  nn ← nodes !! neighbor;
  let cost0 := Graphics.distance hypot (node_x nc) (node_y nc) (node_x nn) (node_y nn) in
  let cost := if randomize
              then cost0 * (1 + (rnd (calls st) * (4 # 10) - (2 # 10)))
              else cost0 in
  let calls' := if randomize then S (calls st) else calls st in
  let tentativeGScore := (λ g, num_add g cost) <$> gScore st !! current in
  let lower := match tentativeGScore, gScore st !! neighbor with
               | Some t, Some g => num_lt t g
               | _, _ => false
               end in
  if lower then
    t ← tentativeGScore;
    ng ← nodes !! goal;
    Some {| openSet := set_add neighbor (openSet st);
            cameFrom := <[neighbor := current]> (cameFrom st);
            gScore := <[neighbor := t]> (gScore st);
            fScore := <[neighbor := num_add t (heuristic nn ng)]> (fScore st);
            calls := calls' |}
  else
    Some {| openSet := openSet st; cameFrom := cameFrom st; gScore := gScore st;
            fScore := fScore st; calls := calls' |}.

(** [while (openSet.size > 0) { ... }] and the [return []] after it. *)
Fixpoint search (fuel : nat) (nodes : list Node) (graph : gmap nat (list nat))
    (goal : nat) (randomize : bool) (rnd : nat → Q) (st : astar)
  : outcome (list nat) :=
  match fuel with
  | O => OutOfFuel
  | S fuel' =>
      match openSet st with
      | [] => Ret []
      | _ :: _ =>
          match lowest st with
          | Some current =>
              if decide (current = goal) then
                match reconstructPath (S fuel') (cameFrom st) current with
                | Some path => Ret path
                | None => OutOfFuel
                end
              else
                let st1 := {| openSet := set_delete current (openSet st);
                              cameFrom := cameFrom st; gScore := gScore st;
                              fScore := fScore st; calls := calls st |} in
                let neighbors := default [] (graph !! current) in
                match foldl (relax nodes goal randomize rnd current) (Some st1) neighbors with
                | Some st2 => search fuel' nodes graph goal randomize rnd st2
                | None => Threw
                end
          | None =>
              (* [current] is still [null]: nothing is deleted, [graph.get(null) || []]
                 is empty, and the loop goes round again with the same state *)
              search fuel' nodes graph goal randomize rnd st
          end
      end
  end.

(** [static findPath(nodes, edges, start, goal, randomize = false)] *)
Definition initScores (nodeCount : nat) : gmap nat num :=
  list_to_map ((λ i, (i, Inf)) <$> seq 0 nodeCount).

Definition findPath (fuel : nat) (rnd : nat → Q) (nodes : list Node)
    (edges : list (nat * nat)) (start goal : nat) (randomize : bool)
  : outcome (list nat) :=
  if decide (start = goal) then Ret [start]
  else
    match buildGraph edges (length nodes) with
    | None => Threw
    | Some graph =>
        match nodes !! start, nodes !! goal with
        | Some ns, Some ng =>
            let st := {| openSet := [start];
                         cameFrom := ∅;
                         gScore := <[start := Fin 0]> (initScores (length nodes));
                         fScore := <[start := Fin (heuristic ns ng)]> (initScores (length nodes));
                         calls := O |} in
            search fuel nodes graph goal randomize rnd st
        | _, _ => Threw
        end
    end.

End Defs.

End Pathfinding.

(** ** TopologyGenerator.js *)

Module TopologyGenerator.

(** [static lcg()]: the seeded generator of [generateStackelbergMap]. It
    returns the new seed and the sample in [0, 1). *)
Definition lcg (seed : Z) : Z * Q :=
  let a := 1664525%Z in
  let c := 1013904223%Z in
  let m := (2 ^ 32)%Z in
  let seed' := ((a * seed + c) mod m)%Z in
  (seed', inject_Z seed' / inject_Z m).

(** *** simpleBFS *)

Record bfs : Type := mkBfs {
  queue : list nat;
  prev : gmap nat nat;
  visited : gset nat
}.

(** The body of [for (const neighbor of neighbors)]. *)
Definition visit (curr : nat) (st : bfs) (neighbor : nat) : bfs :=
  if decide (neighbor ∈ visited st) then st
  else {| queue := queue st ++ [neighbor];
          prev := <[neighbor := curr]> (prev st);
          visited := {[neighbor]} ∪ visited st |}.

(** [while (queue.length > 0)]. [sorts] counts the calls of
    [neighbors.sort(() => Math.random() - 0.5)], each answered by [shuffle]. *)
Fixpoint bfsLoop (fuel : nat) (adj : list (list nat)) (goal : nat) (randomize : bool)
    (shuffle : nat → list nat → list nat) (sorts : nat) (st : bfs)
  : outcome (bfs * nat) :=
  match fuel with
  | O => OutOfFuel
  | S fuel' =>
      match queue st with
      | [] => Ret (st, sorts)
      | curr :: rest =>
          let st1 := {| queue := rest; prev := prev st; visited := visited st |} in
          if decide (curr = goal) then Ret (st1, sorts)
          else
            match adj !! curr with
            | None => Threw
            | Some ns =>
                let neighbors := if randomize then shuffle sorts ns else ns in
                let sorts' := if randomize then S sorts else sorts in
                bfsLoop fuel' adj goal randomize shuffle sorts'
                  (foldl (visit curr) st1 neighbors)
            end
      end
  end.

(** [while (curr !== undefined) { path.unshift(curr); curr = prev.get(curr); }] *)
Fixpoint walkBack (fuel : nat) (prev : gmap nat nat) (curr : option nat)
    (path : list nat) : option (list nat) :=
  match fuel with
  | O => None
  | S fuel' =>
      match curr with
      | None => Some path
      | Some c => walkBack fuel' prev (prev !! c) (c :: path)
      end
  end.

(** [static simpleBFS(adj, start, goal, randomize = false)]; [None] is [null]. *)
Definition simpleBFS (fuel : nat) (adj : list (list nat)) (start goal : nat)
    (randomize : bool) (shuffle : nat → list nat → list nat) (sorts : nat)
  : outcome (option (list nat) * nat) :=
  '(st, sorts') ← bfsLoop fuel adj goal randomize shuffle sorts
                    {| queue := [start]; prev := ∅; visited := {[start]} |};
  match prev st !! goal with
  | None => Ret (None, sorts')
  | Some _ =>
      path ← orDiverge (walkBack fuel (prev st) (Some goal) []);
      Ret (Some path, sorts')
  end.

(** *** identifyChokepoints *)

(** [adj[u].push(v); adj[v].push(u);] throws when [adj[u]] is [undefined]. *)
Definition pushEdge (adj : option (list (list nat))) (e : nat * nat)
  : option (list (list nat)) :=
  a ← adj;
  l1 ← a !! e.1;
  let a1 := <[e.1 := l1 ++ [e.2]]> a in
  l2 ← a1 !! e.2;
  Some (<[e.2 := l2 ++ [e.1]]> a1).

Definition buildAdj (nodeCount : nat) (edges : list (nat * nat))
  : option (list (list nat)) :=
  foldl pushEdge (Some (replicate nodeCount [])) edges.

(** The counters. [nodeScore[nodeId]++] on an index past the end would store
    [NaN] there; [hasNaN] records that it happened. *)
Record scores : Type := mkScores {
  nodeScore : list nat;
  hasNaN : bool
}.

Definition bump (source goal : nat) (sc : scores) (nodeId : nat) : scores :=
  if decide (nodeId ≠ source ∧ nodeId ≠ goal) then
    match nodeScore sc !! nodeId with
    | Some k => {| nodeScore := <[nodeId := S k]> (nodeScore sc); hasNaN := hasNaN sc |}
    | None => {| nodeScore := nodeScore sc; hasNaN := true |}
    end
  else sc.

(** The body of [goals.forEach(goal => ...)]. *)
Definition samplePair (fuel : nat) (adj : list (list nat))
    (shuffle : nat → list nat → list nat) (source : nat)
    (acc : outcome (scores * nat)) (goal : nat) : outcome (scores * nat) :=
  '(sc, sorts) ← acc;
  '(path, sorts') ← simpleBFS fuel adj source goal true shuffle sorts;
  match path with
  | Some p => Ret (foldl (bump source goal) sc p, sorts')
  | None => Ret (sc, sorts')
  end.

Definition sampleSource (fuel : nat) (adj : list (list nat))
    (shuffle : nat → list nat → list nat) (goals : list nat)
    (acc : outcome (scores * nat)) (source : nat) : outcome (scores * nat) :=
  foldl (samplePair fuel adj shuffle source) acc goals.

(** [for (let i = 0; i < 50; i++) { sources.forEach(...) }] *)
Definition sample (fuel : nat) (adj : list (list nat))
    (shuffle : nat → list nat → list nat) (sources goals : list nat)
    (nodeCount : nat) : outcome (scores * nat) :=
  foldl (λ acc (_ : nat), foldl (sampleSource fuel adj shuffle goals) acc sources)
        (Ret ({| nodeScore := replicate nodeCount O; hasNaN := false |}, O))
        (seq 0 50).

(** [score / maxScore > 0.4 && degree >= 3] *)
Definition isChokepoint (adj : list (list nat)) (maxScore : nat) (i score : nat) : bool :=
  Qltb (4 # 10) (ofNat score / ofNat maxScore)
  && bool_decide (3 ≤ length (default [] (adj !! i)))%nat.

Definition select (adj : list (list nat)) (sc : scores) : list nat :=
  if hasNaN sc then []
  else
    let maxScore := max_list (nodeScore sc) in
    if decide (maxScore = O) then []
    else (imap (λ i score, (i, score)) (nodeScore sc)
           ≫= λ p, if isChokepoint adj maxScore p.1 p.2 then [p.1] else []).

(** [static identifyChokepoints(nodes, edges, sources, goals)] *)
Definition identifyChokepoints (fuel : nat) (shuffle : nat → list nat → list nat)
    (nodes : list Node) (edges : list (nat * nat)) (sources goals : list nat)
  : outcome (list nat) :=
  adj ← orThrow (buildAdj (length nodes) edges);
  '(sc, _) ← sample fuel adj shuffle sources goals (length nodes);
  Ret (select adj sc).

(** *** generateRLTopology *)

(** What a generator returns: [{name, nodes, edges, sources, goals,
    chokepoints, aiReasoning}]. *)
Record topology : Type := mkTopology {
  name : string;
  nodes : list Node;
  edges : list (nat * nat);
  sources : list nat;
  goals : list nat;
  chokepoints : list nat;
  aiReasoning : option string
}.

(** The arrays under construction and the number of [Math.random] calls. *)
Record gen : Type := mkGen {
  g_nodes : list Node;
  g_edges : list (nat * nat);
  g_chokepoints : list nat;
  g_calls : nat
}.

(** [numLayers], [nodesPerLayer] and [randomness] of a style. *)
Definition layerParams (type : string) : nat * nat * Q :=
  if decide (type = "DIRECT") then (3%nat, 2%nat, 1 # 10)
  else if decide (type = "EVASIVE") then (5%nat, 3%nat, 4 # 10)
  else if decide (type = "SPREAD") then (4%nat, 2%nat, 8 # 10)
  else (4%nat, 2%nat, 3 # 10).

(** The body of [for (let j = 0; j < count; j++)]: one node of a layer.
    [width = 1200], [height = 700], [marginX = marginY = 100]. *)
Definition placeNode (rnd : nat → Q) (type : string) (randomness layerX spacing : Q)
    (count : nat) (acc : gen * list nat * nat) (j : nat) : gen * list nat * nat :=
  let '(g, currentLayer, currentIndex) := acc in
  let y0 := 100 + (ofNat j + 1) * spacing in
  let y1 := if decide (type = "SPREAD") then
              let ya := if decide (j = O) then 100 + 50 else y0 in
              if decide (j = (count - 1)%nat) then 700 - 100 - 50 else ya
            else y0 in
  let y2 := y1 + (rnd (g_calls g) - (1 # 2)) * 100 * randomness in
  let x := layerX + (rnd (S (g_calls g)) - (1 # 2)) * 60 * randomness in
  let y3 := Qmax 50 (Qmin (700 - 50) y2) in
  let nodeType :=
    if Qltb (rnd (S (S (g_calls g)))) (3 # 10)
       || (bool_decide (type = "BALANCED") && bool_decide (j = O))
    then chokepoint else normal in
  ({| g_nodes := g_nodes g ++ [mkNode currentIndex (floor x) (floor y3) nodeType];
      g_edges := g_edges g;
      g_chokepoints := if decide (nodeType = chokepoint)
                       then g_chokepoints g ++ [currentIndex] else g_chokepoints g;
      g_calls := S (S (S (g_calls g))) |},
   currentLayer ++ [currentIndex],
   S currentIndex).

(** The body of [for (let i = 1; i <= numLayers; i++)]. *)
Definition placeLayer (rnd : nat → Q) (type : string) (nodesPerLayer : nat)
    (randomness layerWidth : Q) (acc : gen * list (list nat) * nat) (i : nat)
  : gen * list (list nat) * nat :=
  let '(g, layerIndices, currentIndex) := acc in
  let layerX := 100 + ofNat i * layerWidth in
  let count := if bool_decide (type = "EVASIVE") && bool_decide (i mod 2 = 0)%nat
               then S nodesPerLayer else nodesPerLayer in
  let spacing := (700 - 2 * 100) / (ofNat count + 1) in
  let '(g', currentLayer, currentIndex') :=
    foldl (placeNode rnd type randomness layerX spacing count) (g, [], currentIndex)
          (seq 0 count) in
  (g', layerIndices ++ [currentLayer], currentIndex').

(** [arr[Math.floor(Math.random() * arr.length)]] *)
Definition pick (arr : list nat) (r : Q) : option nat :=
  let k := Qfloor (r * ofNat (length arr)) in
  if (k <? 0)%Z then None else arr !! Z.to_nat k.

(** [current.forEach(u => { ... })] of the partial fan-out. A pick that
    yields [undefined] is stored in an edge and makes [identifyChokepoints]
    throw; the model throws at the pick. *)
Definition fanOut (rnd : nat → Q) (next : list nat)
    (acc : outcome (list (nat * nat) * nat)) (u : nat)
  : outcome (list (nat * nat) * nat) :=
  '(es, k) ← acc;
  target ← orThrow (pick next (rnd k));
  let es1 := es ++ [(u, target)] in
  if Qltb (rnd (S k)) (1 # 2) then
    target2 ← orThrow (pick next (rnd (S (S k))));
    Ret (if decide (target ≠ target2) then es1 ++ [(u, target2)] else es1, S (S (S k)))
  else Ret (es1, S (S k)).

(** [next.forEach(v => { ... })]: every node of the next layer gets an input. *)
Definition fanIn (rnd : nat → Q) (current : list nat)
    (acc : outcome (list (nat * nat) * nat)) (v : nat)
  : outcome (list (nat * nat) * nat) :=
  '(es, k) ← acc;
  if existsb (λ e, bool_decide (e.2 = v)) es then Ret (es, k)
  else
    src ← orThrow (pick current (rnd k));
    Ret (es ++ [(src, v)], S k).

(** The body of [for (let i = 0; i < layerIndices.length - 1; i++)]. *)
Definition connectLayers (rnd : nat → Q) (type : string) (layerIndices : list (list nat))
    (acc : outcome (list (nat * nat) * nat)) (i : nat)
  : outcome (list (nat * nat) * nat) :=
  let current := default [] (layerIndices !! i) in
  let next := default [] (layerIndices !! S i) in
  if decide (type = "DIRECT") then
    '(es, k) ← acc;
    Ret (es ++ (current ≫= λ u, (λ v, (u, v)) <$> next), k)
  else
    foldl (fanIn rnd current) (foldl (fanOut rnd next) acc current) next.

(** The cross connections inside one layer. *)
Definition crossLayer (rnd : nat → Q) (acc : list (nat * nat) * nat) (layer : list nat)
  : list (nat * nat) * nat :=
  if bool_decide (1 < length layer)%nat then
    foldl (λ (a : list (nat * nat) * nat) (k : nat),
             match layer !! k, layer !! S k with
             | Some u, Some v =>
                 if Qltb (rnd a.2) (3 # 10) then (a.1 ++ [(u, v)], S a.2) else (a.1, S a.2)
             | _, _ => a
             end)
          acc (seq 0 (length layer - 1))
  else acc.

(** [static getReasoning(topoType, playerStrategy)] *)
Definition getReasoning (topoType playerStrategy : string) : string :=
  if decide (topoType = "DIRECT")
  then "Detected weakness to speed. Rushing core with direct paths."
  else if decide (topoType = "SPREAD")
  then "Firewall concentration detected. Spreading nodes to minimize AOE impact."
  else if decide (topoType = "EVASIVE")
  then "IDS heavy defense detected. Using evasive routing to delay detection."
  else "Balanced approach for general testing.".

(** [nodes.forEach((node, i) => { if (identifiedChokepoints.includes(i))
    node.type = 'chokepoint'; })] *)
Definition markIdentified (identified : list nat) (ns : list Node) : list Node :=
  imap (λ i node,
          if bool_decide (i ∈ identified)
          then mkNode (node_id node) (node_x node) (node_y node) chokepoint
          else node) ns.

(** [static generateRLTopology(type, currentAction, strategy)] *)
Definition generateRLTopology (fuel : nat) (rnd : nat → Q)
    (shuffle : nat → list nat → list nat) (type currentAction strategy : string)
  : outcome topology :=
  let usableWidth := 1200 - 2 * 100 - 250 in
  let g0 := {| g_nodes := [mkNode 0 100 (700 / 2) source]; g_edges := [];
               g_chokepoints := []; g_calls := O |} in
  let '(numLayers, nodesPerLayer, randomness) := layerParams type in
  let layerWidth := usableWidth / (ofNat numLayers + 1) in
  let '(g1, layerIndices, goalIndex) :=
    foldl (placeLayer rnd type nodesPerLayer randomness layerWidth) (g0, [], 1%nat)
          (seq 1 numLayers) in
  let ns := g_nodes g1 ++ [mkNode goalIndex (1200 - 250 - 100) (700 / 2) goal] in
  let es1 := (λ idx, (O, idx)) <$> default [] (layerIndices !! O) in
  '(es2, k2) ← foldl (connectLayers rnd type layerIndices) (Ret (es1, g_calls g1))
                 (seq 0 (length layerIndices - 1));
  let es3 := es2 ++ ((λ idx, (idx, goalIndex))
                       <$> default [] (layerIndices !! (length layerIndices - 1)%nat)) in
  let '(es4, k4) :=
    if bool_decide (type ≠ "DIRECT") && bool_decide (type ≠ "SPREAD")
    then foldl (crossLayer rnd) (es3, k2) layerIndices
    else (es3, k2) in
  identifiedChokepoints ← identifyChokepoints fuel shuffle ns es4 [O] [goalIndex];
  Ret {| name := "Smart " +:+ type +:+ " (" +:+ currentAction +:+ ")";
         nodes := markIdentified identifiedChokepoints ns;
         edges := es4;
         sources := [O];
         goals := [goalIndex];
         chokepoints := identifiedChokepoints;
         aiReasoning := Some (getReasoning type strategy) |}.

(** *** generateStackelbergMap *)

(** The arrays under construction and [this.seed]. The products of [lcg]
    are exact here; a double rounds them once they pass 2^53. *)
Record mesh : Type := mkMesh {
  m_seed : Z;
  m_nodes : list Node;
  m_edges : list (nat * nat);
  m_chokepoints : list nat
}.

(** [nodeGrid[p][l]] *)
Definition gridAt (nodeGrid : list (list nat)) (p l : nat) : option nat :=
  nodeGrid !! p ≫= λ row, row !! l.

(** The body of [for (let l = 1; l <= layers; l++)]: one node of a lane. The
    third sample is drawn only when [l] is not 2. *)
Definition meshNode (pathY layerWidth : Q) (acc : mesh * list nat * nat) (l : nat)
  : mesh * list nat * nat :=
  let '(m, row, nodeId) := acc in
  let '(s1, r1) := lcg (m_seed m) in
  let x := 150 + ofNat l * layerWidth + (r1 - (1 # 2)) * 80 in
  let '(s2, r2) := lcg s1 in
  let y := pathY + (r2 - (1 # 2)) * 100 in
  let '(s3, type) :=
    if decide (l = 2%nat) then (s2, chokepoint)
    else let '(s3, r3) := lcg s2 in
         (s3, if Qltb r3 (3 # 10) then chokepoint else normal) in
  ({| m_seed := s3;
      m_nodes := m_nodes m ++ [mkNode nodeId (floor x) (floor y) type];
      m_edges := m_edges m;
      m_chokepoints := if decide (type = chokepoint)
                       then m_chokepoints m ++ [nodeId] else m_chokepoints m |},
   row ++ [nodeId],
   S nodeId).

(** The body of [for (let p = 0; p < paths.length; p++)]. *)
Definition meshLane (numPaths layers : nat) (layerWidth : Q)
    (acc : mesh * list (list nat) * nat) (p : nat) : mesh * list (list nat) * nat :=
  let '(m, nodeGrid, nodeId) := acc in
  let pathY := 150 + ofNat p * (700 - 2 * 150) / (ofNat numPaths - 1) in
  let '(m', row, nodeId') :=
    foldl (meshNode pathY layerWidth) (m, [], nodeId) (seq 1 layers) in
  (m', nodeGrid ++ [row], nodeId').

Definition pushPair (es : list (nat * nat)) (a b : option nat) : option (list (nat * nat)) :=
  u ← a; v ← b; Some (es ++ [(u, v)]).

(** The body of [for (let l = 0; l < layers; l++)] of the cross connections. *)
Definition meshCross (numPaths layers : nat) (crossProb : Q) (nodeGrid : list (list nat))
    (acc : option (Z * list (nat * nat))) (l : nat) : option (Z * list (nat * nat)) :=
  acc1 ← foldl (λ (a : option (Z * list (nat * nat))) (p : nat),
                  '(seed, es) ← a;
                  let '(seed', r) := lcg seed in
                  if Qltb r crossProb
                  then es' ← pushPair es (gridAt nodeGrid p l) (gridAt nodeGrid (S p) l);
                       Some (seed', es')
                  else Some (seed', es))
               acc (seq 0 (numPaths - 1));
  let '(seed, es) := acc1 in
  if bool_decide (3 ≤ numPaths)%nat && bool_decide (l = layers / 2)%nat then
    let '(seed1, r1) := lcg seed in
    if Qltb r1 (2 # 10) then
      let '(seed2, r2) := lcg seed1 in
      let skip := (Z.to_nat (Qfloor (r2 * (ofNat numPaths - 2))) + 1)%nat in
      es' ← pushPair es (gridAt nodeGrid 0 l) (gridAt nodeGrid (S skip) l);
      Some (seed2, es')
    else Some (seed1, es)
  else Some (seed, es).

(** [Math.min(...xs)] and [Math.max(...xs)] of a non-empty array. *)
Definition minOf (xs : list Q) : Q := foldr Qmin (default 0 (head xs)) xs.
Definition maxOf (xs : list Q) : Q := foldr Qmax (default 0 (head xs)) xs.

(** [finalNodes.forEach((node, i) => { if (finalChokepoints.includes(i))
    node.type = 'chokepoint'; else if (node.type === 'chokepoint')
    node.type = 'normal'; })] *)
Definition retype (identified : list nat) (ns : list Node) : list Node :=
  imap (λ i node,
          if bool_decide (i ∈ identified)
          then mkNode (node_id node) (node_x node) (node_y node) chokepoint
          else if decide (node_type node = chokepoint)
               then mkNode (node_id node) (node_x node) (node_y node) normal
               else node) ns.

(** [static generateStackelbergMap()]; [now] is [Date.now() +
    performance.now()] and [salt] the [Math.random()] of the seed. *)
Definition generateStackelbergMap (fuel : nat) (now salt : Q)
    (shuffle : nat → list nat → list nat) : outcome topology :=
  let seed0 := (Qfloor (now * 10000) + Qfloor (salt * 10000000))%Z in
  let goalId := 99%nat in
  let '(seed1, r1) := lcg seed0 in
  let numPaths := (2 + Z.to_nat (Qfloor (r1 * 3)))%nat in
  let '(seed2, r2) := lcg seed1 in
  let layers := (2 + Z.to_nat (Qfloor (r2 * 3)))%nat in
  let layerWidth := (1200 - 2 * 150 - 100) / (ofNat layers + 1) in
  let m0 := {| m_seed := seed2; m_nodes := [mkNode 0 150 (700 / 2) source];
               m_edges := []; m_chokepoints := [] |} in
  let '(m1, nodeGrid, _) :=
    foldl (meshLane numPaths layers layerWidth) (m0, [], 1%nat) (seq 0 numPaths) in
  let ns := m_nodes m1 ++ [mkNode goalId (1200 - 150) (700 / 2) goal] in
  es1 ← orThrow (foldl (λ a p, es ← a; pushPair es (Some O) (gridAt nodeGrid p 0))
                       (Some []) (seq 0 numPaths));
  es2 ← orThrow (foldl (λ a p,
                          foldl (λ b l, es ← b;
                                   pushPair es (gridAt nodeGrid p l) (gridAt nodeGrid p (S l)))
                                a (seq 0 (layers - 1)))
                       (Some es1) (seq 0 numPaths));
  es3 ← orThrow (foldl (λ a p, es ← a;
                          pushPair es (gridAt nodeGrid p (layers - 1)) (Some goalId))
                       (Some es2) (seq 0 numPaths));
  let '(seed3, r3) := lcg (m_seed m1) in
  let crossProb := (5 # 10) + r3 * (3 # 10) in
  '(seed4, es4) ← orThrow (foldl (meshCross numPaths layers crossProb nodeGrid)
                                 (Some (seed3, es3)) (seq 0 layers));
  (* sequential ids *)
  let finalNodes := imap (λ idx node, mkNode idx (node_x node) (node_y node) (node_type node)) ns in
  let idMap : gmap nat nat :=
    foldl (λ m (p : nat * Node), <[node_id p.2 := p.1]> m) ∅ (imap (λ idx node, (idx, node)) ns) in
  finalEdges ← orThrow (mapM (λ e : nat * nat,
                                a ← idMap !! e.1; b ← idMap !! e.2; Some (a, b)) es4);
  (* centre on the screen *)
  let xs := node_x <$> finalNodes in
  let ys := node_y <$> finalNodes in
  let offsetX := 600 - (minOf xs + maxOf xs) / 2 in
  let offsetY := 350 - (minOf ys + maxOf ys) / 2 in
  let centred := (λ node, mkNode (node_id node) (node_x node + offsetX)
                                 (node_y node + offsetY) (node_type node)) <$> finalNodes in
  finalChokepoints ← identifyChokepoints fuel shuffle centred finalEdges
                       [O] [(length centred - 1)%nat];
  let '(_, r5) := lcg seed4 in
  Ret {| name := "Stackelberg Mesh " +:+ pretty (Qfloor (r5 * 1000));
         nodes := retype finalChokepoints centred;
         edges := finalEdges;
         sources := [O];
         goals := [(length centred - 1)%nat];
         chokepoints := finalChokepoints;
         aiReasoning := None |}.

End TopologyGenerator.

(** ** Config.js *)

Module Config.

(** [Config.TOWERS[type]]: the fields the engine reads. *)
Record towerConfig : Type := mkTowerConfig {
  tc_damage : Q;
  tc_range : Q;
  tc_cooldown : Q;
  tc_distractDuration : option Q
}.

Definition TOWERS (type : string) : option towerConfig :=
  if decide (type = "Firewall") then Some (mkTowerConfig 18 120 750 None)
  else if decide (type = "IDS") then Some (mkTowerConfig 4 150 500 None)
  else if decide (type = "Honeypot") then Some (mkTowerConfig 1 250 200 (Some 3000))
  else None.

(** [Config.ENEMIES[type]] *)
Record enemyConfig : Type := mkEnemyConfig {
  ec_health : num;
  ec_speed : Q;
  ec_size : Q;
  ec_reward : Q;
  ec_stealthy : bool;
  ec_legitimate : bool
}.

Definition ENEMIES (type : string) : option enemyConfig :=
  if decide (type = "BASIC") then Some (mkEnemyConfig (Fin 20) (15 # 10) 8 15 false false)
  else if decide (type = "FAST") then Some (mkEnemyConfig (Fin 12) 4 7 20 false false)
  else if decide (type = "TANK") then Some (mkEnemyConfig (Fin 50) (8 # 10) 12 35 false false)
  else if decide (type = "STEALTH") then Some (mkEnemyConfig (Fin 18) (25 # 10) 7 30 true false)
  else if decide (type = "ENCRYPTED") then Some (mkEnemyConfig (Fin 25) (18 # 10) 9 25 false false)
  else if decide (type = "ADAPTIVE") then Some (mkEnemyConfig (Fin 30) 2 10 40 false false)
  else if decide (type = "LEGITIMATE") then Some (mkEnemyConfig Inf (15 # 10) 8 (-50) false true)
  else None.

(** [Config.GRAPHICS.ENEMY_SIZE_MULTIPLIER] *)
Definition ENEMY_SIZE_MULTIPLIER : Q := 1.

(** [Config.RL_PARAMS] *)
Definition RL_epsilon : Q := 1 # 10.
Definition RL_alpha : Q := 1 # 10.
Definition RL_gamma : Q := 95 # 100.

(** [Config.LEVELS[2].phases], in seconds. *)
Definition phases_commitment : Q := 30.
Definition phases_training : Q := 5.
Definition phases_battle : Q := 30.

End Config.

(** ** PerfectAI.js *)

Module PerfectAI.

(** A placed tower as the AI reads it: [{x, y, type, damage, range, cooldownMax}]. *)
Record Tower : Type := mkTower {
  t_x : Q;
  t_y : Q;
  t_type : string;
  t_damage : Q;
  t_range : Q;
  t_cooldownMax : Q
}.

(** The level manager as [PerfectAI] reads it. *)
Record level : Type := mkLevel {
  lm_nodes : list Node;
  lm_paths : list (list nat);
  lm_committedTowers : list Tower
}.

(** [coverage[index] = {damagePerSecond, firepower, isCovered}]. A tower of a
    type other than the three keys of [firepower] would store [NaN] under a
    new key; the model leaves [firepower] as it is then. *)
Record nodeCoverage : Type := mkCoverage {
  damagePerSecond : Q;
  firepower : gmap string Q;
  isCovered : bool
}.

Section Defs.
Variable hypot : Q → Q → Q.

Definition coverTower (node : Node) (acc : Q * gmap string Q) (tower : Tower)
  : Q * gmap string Q :=
  let dist := Graphics.distance hypot (t_x tower) (t_y tower) (node_x node) (node_y node) in
  if Qle_bool dist (t_range tower) then
    (acc.1 + t_damage tower * (1 / (t_cooldownMax tower / 1000)),
     alter (λ f, f + t_damage tower) (t_type tower) acc.2)
  else acc.

(** [analyzeTowerCoverage(towers)] *)
Definition analyzeTowerCoverage (lm : level) (towers : list Tower) : list nodeCoverage :=
  (λ node,
     let '(totalDamage, fp) :=
       foldl (coverTower node)
             (0, {[ "Firewall" := 0; "IDS" := 0; "Honeypot" := 0 ]}) towers in
     {| damagePerSecond := totalDamage; firepower := fp;
        isCovered := Qltb 0 totalDamage |}) <$> lm_nodes lm.

End Defs.

(** An entry of [pathAnalysis]. *)
Record pathInfo : Type := mkPathInfo {
  pathIndex : nat;
  path : list nat;
  totalDamage : Q;
  weakestNode : option nat;
  minDamage : num;
  avgDamagePerNode : Q
}.

(** The body of [path.forEach(nodeIndex => ...)]; [coverage[nodeIndex]]
    being [undefined] throws. *)
Definition scanNode (coverage : list nodeCoverage)
    (acc : option (Q * num * option nat)) (nodeIndex : nat)
  : option (Q * num * option nat) :=
  '(total, minD, weakest) ← acc;
  nodeCov ← coverage !! nodeIndex;
  let total' := total + damagePerSecond nodeCov in
  if num_lt (Fin (damagePerSecond nodeCov)) minD
  then Some (total', Fin (damagePerSecond nodeCov), Some nodeIndex)
  else Some (total', minD, weakest).

(** [Array.prototype.sort] is stable: an insertion sort by [totalDamage]. *)
Fixpoint insertByDamage (x : pathInfo) (l : list pathInfo) : list pathInfo :=
  match l with
  | [] => [x]
  | y :: l' =>
      if Qltb (totalDamage x) (totalDamage y) then x :: y :: l'
      else y :: insertByDamage x l'
  end.

Definition sortByDamage (l : list pathInfo) : list pathInfo :=
  foldl (λ acc x, insertByDamage x acc) [] l.

(** [findWeakestPaths(coverage)] *)
Definition findWeakestPaths (lm : level) (coverage : list nodeCoverage)
  : outcome (list pathInfo) :=
  infos ← orThrow (mapM (λ ip : nat * list nat,
             '(total, minD, weakest) ← foldl (scanNode coverage) (Some (0, Inf, None)) ip.2;
             Some {| pathIndex := ip.1; path := ip.2; totalDamage := total;
                     weakestNode := weakest; minDamage := minD;
                     avgDamagePerNode := total / ofNat (length ip.2) |})
          (imap (λ i p, (i, p)) (lm_paths lm)));
  Ret (sortByDamage infos).

(** The rows and columns of the 7x3 payoff matrix. *)
Inductive Posture : Type := FW_HEAVY | IDS_HEAVY | BALANCED.

Definition payoffMatrix (type : string) (posture : Posture) : option Q :=
  let row (a b c : Q) := Some match posture with
                              | FW_HEAVY => a | IDS_HEAVY => b | BALANCED => c
                              end in
  if decide (type = "BASIC") then row (2 # 10) (7 # 10) (4 # 10)
  else if decide (type = "FAST") then row (1 # 10) (8 # 10) (5 # 10)
  else if decide (type = "TANK") then row (6 # 10) (3 # 10) (4 # 10)
  else if decide (type = "STEALTH") then row (9 # 10) (2 # 10) (4 # 10)
  else if decide (type = "ENCRYPTED") then row (8 # 10) (4 # 10) (5 # 10)
  else if decide (type = "ADAPTIVE") then row (7 # 10) (6 # 10) (8 # 10)
  else if decide (type = "LEGITIMATE") then row 1 1 1
  else None.

(** [Object.keys(payoffMatrix)] *)
Definition payoffKeys : list string :=
  ["BASIC"; "FAST"; "TANK"; "STEALTH"; "ENCRYPTED"; "ADAPTIVE"; "LEGITIMATE"].

(** [fCount > iCount * 1.5 ? 'FW_HEAVY' : (iCount > fCount ? 'IDS_HEAVY' : 'BALANCED')] *)
Definition countType (type : string) (towers : list Tower) : nat :=
  length (filter (λ t, t_type t = type) towers).

Definition postureOf (towers : list Tower) : Posture :=
  let fCount := countType "Firewall" towers in
  let iCount := countType "IDS" towers in
  if Qltb (ofNat iCount * (15 # 10)) (ofNat fCount) then FW_HEAVY
  else if bool_decide (fCount < iCount)%nat then IDS_HEAVY
  else BALANCED.

(** [strategy[pathId] = {priority, enemyMix, spawnRate}]; [enemyMix] keeps the
    key order of the object. *)
Record pathStrategy : Type := mkPathStrategy {
  priority : Q;
  enemyMix : list (string * Q);
  spawnRate : Q
}.

Definition candidates : list string :=
  filter (λ t, t ≠ "LEGITIMATE") payoffKeys.

(** [weights[type] = payoff * pathWeakness] *)
Definition weightOf (posture : Posture) (info : pathInfo) (type : string) : Q :=
  let payoff := default 0 (payoffMatrix type posture) in
  let pathWeakness := 100 / (totalDamage info + 1) in
  payoff * pathWeakness.

Definition strategyFor (posture : Posture) (info : pathInfo) : pathStrategy :=
  let weights := (λ type, (type, weightOf posture info type)) <$> candidates in
  let totalWeight := foldl (λ acc w, acc + w.2) 0 weights in
  {| priority := if Qltb (totalDamage info) 20 then 5 else 2;
     enemyMix := (λ w : string * Q, (w.1, w.2 / totalWeight)) <$> weights;
     spawnRate := Qmax (4 # 10) ((12 # 10) - totalDamage info / 50) |}.

(** [calculateOptimalAttack(coverage, pathAnalysis)]; the second component is
    [this.postureUsed]. *)
Definition calculateOptimalAttack (lm : level) (coverage : list nodeCoverage)
    (pathAnalysis : list pathInfo) : gmap nat pathStrategy * Posture :=
  let towers := lm_committedTowers lm in
  let posture := postureOf towers in
  (foldl (λ strategy info, <[pathIndex info := strategyFor posture info]> strategy)
         ∅ pathAnalysis,
   posture).

(** [calculateDefenseValue(coverage)] *)
Definition calculateDefenseValue (coverage : list nodeCoverage) : Q :=
  Qmin 100 (foldl (λ total node, total + damagePerSecond node) 0 coverage).

(** [calculateAttackValue(strategy)]; the sum over [Object.values] does not
    depend on the order of the keys. *)
Definition calculateAttackValue (strategy : gmap nat pathStrategy) : Q :=
  Qmin 100 (foldl (λ total kv, total + priority kv.2 * spawnRate kv.2) 0
                  (map_to_list strategy) * 10).

(** What [analyzeAndGenerate] returns and stores; the display strings of
    [summarizeWeaknesses] are left out. *)
Record analysis : Type := mkAnalysis {
  a_coverage : list nodeCoverage;
  a_pathAnalysis : list pathInfo;
  a_defenseValue : Q;
  a_attackValue : Q
}.

Record generated : Type := mkGenerated {
  gen_strategy : gmap nat pathStrategy;
  gen_analysis : analysis;
  gen_posture : Posture
}.

(** [analyzeAndGenerate(towers)] *)
Definition analyzeAndGenerate (hypot : Q → Q → Q) (lm : level) (towers : list Tower)
  : outcome generated :=
  let coverage := analyzeTowerCoverage hypot lm towers in
  pathAnalysis ← findWeakestPaths lm coverage;
  let '(optimalAttack, posture) := calculateOptimalAttack lm coverage pathAnalysis in
  Ret {| gen_strategy := optimalAttack;
         gen_analysis := {| a_coverage := coverage; a_pathAnalysis := pathAnalysis;
                            a_defenseValue := calculateDefenseValue coverage;
                            a_attackValue := calculateAttackValue optimalAttack |};
         gen_posture := posture |}.

(** [getEnemyTypeForPath(pathIndex)] with [roll = Math.random()]. *)
Fixpoint rollMix (roll cumulative : Q) (mix : list (string * Q)) : string :=
  match mix with
  | [] => "BASIC"
  | (type, probability) :: rest =>
      if Qle_bool roll (cumulative + probability) then type
      else rollMix roll (cumulative + probability) rest
  end.

Definition getEnemyTypeForPath (perfectStrategy : option (gmap nat pathStrategy))
    (pathIndex : nat) (roll : Q) : string :=
  match perfectStrategy with
  | None => "BASIC"
  | Some strat =>
      match strat !! pathIndex with
      | None => "BASIC"
      | Some s => rollMix roll 0 (enemyMix s)
      end
  end.

End PerfectAI.

(** ** EconomicRL.js *)

Module EconomicRL.

(** A value stored in the Q-table: a number, or the [NaN] that arithmetic on
    a missing ([undefined]) entry produces. *)
Inductive cell : Type :=
  | Num (q : Q)
  | NaN.

(** The level manager as [EconomicRL] reads it. *)
Record level : Type := mkLevel {
  credits : Q;
  chokepointCount : nat;
  nodeCount : nat;
  currentTowers : list PerfectAI.Tower;
  packetsBlocked : nat;
  packetsLeaked : nat
}.

Record waveResult : Type := mkWaveResult {
  blocked : Q;
  leaked : Q
}.

Record agent : Type := mkAgent {
  Qtable : gmap string (gmap string cell);
  epsilon : Q;
  alpha : Q;
  gamma : Q;
  currentState : option string;
  currentAction : option string;
  episodeReward : Q;
  totalEpisodes : nat;
  calls : nat;        (* [Math.random] calls so far *)
  saves : nat         (* [saveQTable] calls so far *)
}.

Definition actions : list string := ["AGGRESSIVE"; "BALANCED"; "DEFENSIVE"].

(** [new EconomicRL(levelManager)] with what [loadQTable] found in storage:
    [(data.Q, data.episodes, data.epsilon)]. *)
Definition new (loaded : option (gmap string (gmap string cell) * nat * Q)) : agent :=
  {| Qtable := match loaded with Some (q, _, _) => q | None => ∅ end;
     epsilon := match loaded with
                | Some (_, _, e) => Qmax (1 # 10) (e * (995 # 1000))
                | None => Config.RL_epsilon
                end;
     alpha := Config.RL_alpha;
     gamma := Config.RL_gamma;
     currentState := None;
     currentAction := None;
     episodeReward := 0;
     totalEpisodes := O;
     calls := O;
     saves := O |}.

(** [lm.calculateSuccessRate()] *)
Definition calculateSuccessRate (lm : level) : Q :=
  let total := (packetsBlocked lm + packetsLeaked lm)%nat in
  if decide (total = O) then 0
  else ofNat (packetsBlocked lm) / ofNat total * 100.

(** [getState()]: the composite state key. *)
Definition getState (lm : level) : string :=
  let creditState := if Qltb (credits lm) 500 then "LOW"
                     else if Qltb (credits lm) 1500 then "MED" else "HIGH" in
  let densityState :=
    if Qltb (2 # 10) (ofNat (chokepointCount lm) / ofNat (nodeCount lm))
    then "DENSE" else "SPARSE" in
  let towerRatio := match PerfectAI.postureOf (currentTowers lm) with
                    | PerfectAI.FW_HEAVY => "FW_HEAVY"
                    | PerfectAI.IDS_HEAVY => "IDS_HEAVY"
                    | PerfectAI.BALANCED => "BALANCED"
                    end in
  let performanceState := if Qltb 70 (calculateSuccessRate lm)
                          then "DEFENDER_STRONG" else "ATTACKER_STRONG" in
  creditState +:+ "_" +:+ densityState +:+ "_" +:+ towerRatio +:+ "_" +:+ performanceState.

(** [qValues[action]]: a missing key reads as [undefined], which behaves as
    [NaN] in every comparison and sum. *)
Definition readCell (row : gmap string cell) (action : string) : cell :=
  default NaN (row !! action).

(** [a > b] *)
Definition cell_gt (a b : cell) : bool :=
  match a, b with
  | Num x, Num y => Qltb y x
  | _, _ => false
  end.

(** [getBestAction(state)] with [this.Q] and the call counter threaded. *)
Definition initRow (rnd : nat → Q) (k : nat) : gmap string cell :=
  {[ "AGGRESSIVE" := Num (rnd k * 2);
     "BALANCED" := Num (rnd (S k) * 2);
     "DEFENSIVE" := Num (rnd (S (S k)) * 2) ]}.

Definition getBestAction (rnd : nat → Q) (ag : agent) (state : string) : agent * string :=
  let '(table, k) :=
    match Qtable ag !! state with
    | Some _ => (Qtable ag, calls ag)
    | None => (<[state := initRow rnd (calls ag)]> (Qtable ag), S (S (S (calls ag))))
    end in
  let qValues := default ∅ (table !! state) in
  let best :=
    foldl (λ (acc : string * cell) action,
             if cell_gt (readCell qValues action) acc.2
             then (action, readCell qValues action) else acc)
          ("AGGRESSIVE", readCell qValues "AGGRESSIVE") actions in
  ({| Qtable := table; epsilon := epsilon ag; alpha := alpha ag; gamma := gamma ag;
      currentState := currentState ag; currentAction := currentAction ag;
      episodeReward := episodeReward ag; totalEpisodes := totalEpisodes ag;
      calls := k; saves := saves ag |},
   best.1).

(** [selectAction(state)]; the explored action is [undefined] ([None]) only
    for a sample outside [0, 1). *)
Definition selectAction (rnd : nat → Q) (ag : agent) (state : string)
  : agent * option string :=
  if Qltb (rnd (calls ag)) (epsilon ag) then
    let k := Qfloor (rnd (S (calls ag)) * ofNat (length actions)) in
    ({| Qtable := Qtable ag; epsilon := epsilon ag; alpha := alpha ag; gamma := gamma ag;
        currentState := currentState ag; currentAction := currentAction ag;
        episodeReward := episodeReward ag; totalEpisodes := totalEpisodes ag;
        calls := S (S (calls ag)); saves := saves ag |},
     if (k <? 0)%Z then None else actions !! Z.to_nat k)
  else
    let ag1 := {| Qtable := Qtable ag; epsilon := epsilon ag; alpha := alpha ag;
                  gamma := gamma ag; currentState := currentState ag;
                  currentAction := currentAction ag; episodeReward := episodeReward ag;
                  totalEpisodes := totalEpisodes ag; calls := S (calls ag);
                  saves := saves ag |} in
    let '(ag2, a) := getBestAction rnd ag1 state in
    (ag2, Some a).

(** [startEpisode()] *)
Definition startEpisode (rnd : nat → Q) (lm : level) (ag : agent) : agent :=
  let state := getState lm in
  let '(ag1, action) := selectAction rnd ag state in
  {| Qtable := Qtable ag1; epsilon := epsilon ag1; alpha := alpha ag1; gamma := gamma ag1;
     currentState := Some state; currentAction := action;
     episodeReward := episodeReward ag1; totalEpisodes := S (totalEpisodes ag1);
     calls := calls ag1; saves := saves ag1 |}.

(** [calculateReward(waveResult)] *)
Definition calculateReward (lm : level) (w : waveResult) : Q :=
  let r0 := 0 + leaked w * 10 in
  let r1 := r0 - blocked w * 5 in
  let r2 := if Qle_bool (credits lm) 0 then r1 + 50 else r1 in
  if Qltb 2000 (credits lm) then r2 - 20 else r2.

(** [Math.max(...cells)] *)
Definition cell_max (cs : list cell) : option cell :=
  foldl (λ acc c,
           match acc, c with
           | None, _ => Some c
           | Some (Num a), Num b => Some (Num (Qmax a b))
           | Some _, _ => Some NaN
           end) None cs.

(** [newQ = currentQ + alpha * (reward + gamma * maxNextQ - currentQ)] *)
Definition qUpdate (alpha gamma reward : Q) (currentQ maxNextQ : cell) : cell :=
  match currentQ, maxNextQ with
  | Num c, Num m => Num (c + alpha * (reward + gamma * m - c))
  | _, _ => NaN
  end.

(** A string or [null] used as a condition. *)
Definition truthy (o : option string) : bool :=
  match o with
  | Some s => bool_decide (s ≠ "")
  | None => false
  end.

(** [updateQTable(waveResult)]. [this.Q[key][a]] throws when [this.Q[key]] is
    [undefined]. *)
Definition updateQTable (rnd : nat → Q) (lm : level) (w : waveResult) (ag : agent)
  : outcome agent :=
  match currentState ag, currentAction ag with
  | Some s, Some a =>
      if truthy (Some s) && truthy (Some a) then
        let reward := calculateReward lm w in
        let nextState := getState lm in
        row ← orThrow (Qtable ag !! s);
        let currentQ := readCell row a in
        nextRow ← orThrow (Qtable ag !! nextState);
        let maxNextQ := default NaN (cell_max (readCell nextRow <$> actions)) in
        let newQ := qUpdate (alpha ag) (gamma ag) reward currentQ maxNextQ in
        Ret {| Qtable := <[s := <[a := newQ]> row]> (Qtable ag);
               epsilon := epsilon ag; alpha := alpha ag; gamma := gamma ag;
               currentState := currentState ag; currentAction := currentAction ag;
               episodeReward := episodeReward ag + reward;
               totalEpisodes := totalEpisodes ag;
               calls := S (calls ag);
               saves := if Qltb (rnd (calls ag)) (1 # 10) then S (saves ag) else saves ag |}
      else Ret ag
  | _, _ => Ret ag
  end.

End EconomicRL.

(** ** Enemy.js *)

Module Enemy.

Record t : Type := mkEnemy {
  type : string;
  config : Config.enemyConfig;
  path : list nat;
  nodes : list Node;
  edges : option (list (nat * nat));     (* [null] unless the caller passes them *)
  currentPathIndex : nat;
  x : Q;
  y : Q;
  targetX : Q;
  targetY : Q;
  health : num;
  maxHealth : num;
  speed : Q;
  baseSpeed : Q;
  alive : bool;
  reachedGoal : bool;
  slowFactor : Q;
  slowTimer : Q;
  attractionTimer : Q;
  attractionX : Q;
  attractionY : Q;
  attractedToNode : option nat;
  originalPath : option (list nat);
  distractionPauseTimer : Q;
  processedHoneypots : gset nat;
  distractionTimer : Q;
  revealed : bool;
  offsetX : Q;
  offsetY : Q;
  size : Q
}.

(** [nodes[path[i]]], [undefined] when either index misses. *)
Definition nodeAt (nodes : list Node) (path : list nat) (i : nat) : option Node :=
  path !! i ≫= λ id, nodes !! id.

(** [constructor(type, path, nodes, edges = null)]; [r1], [r2] are the two
    [Math.random] samples of the visual jitter. Reading [.x] of a missing node
    or a field of a missing config throws. *)
Definition new (r1 r2 : Q) (type : string) (path : list nat) (nodes : list Node)
    (edges : option (list (nat * nat))) : outcome t :=
  first ← orThrow (nodeAt nodes path 0);
  second ← orThrow (nodeAt nodes path 1);
  cfg ← orThrow (Config.ENEMIES type);
  Ret {| type := type; config := cfg; path := path; nodes := nodes; edges := edges;
         currentPathIndex := O;
         x := node_x first; y := node_y first;
         targetX := node_x second; targetY := node_y second;
         health := Config.ec_health cfg; maxHealth := Config.ec_health cfg;
         speed := Config.ec_speed cfg; baseSpeed := Config.ec_speed cfg;
         alive := true; reachedGoal := false;
         slowFactor := 1; slowTimer := 0;
         attractionTimer := 0; attractionX := 0; attractionY := 0;
         attractedToNode := None; originalPath := None;
         distractionPauseTimer := 0;
         processedHoneypots := ∅;
         distractionTimer := 0;
         revealed := negb (Config.ec_stealthy cfg);
         offsetX := r1 * 20 - 10; offsetY := r2 * 20 - 10;
         size := Config.ec_size cfg * Config.ENEMY_SIZE_MULTIPLIER |}.

(** Field updates, written once. *)
Definition withStatus (e : t) (attractionTimer' slowFactor' slowTimer' : Q) : t :=
  {| type := type e; config := config e; path := path e; nodes := nodes e;
     edges := edges e; currentPathIndex := currentPathIndex e; x := x e; y := y e;
     targetX := targetX e; targetY := targetY e; health := health e;
     maxHealth := maxHealth e; speed := speed e; baseSpeed := baseSpeed e;
     alive := alive e; reachedGoal := reachedGoal e; slowFactor := slowFactor';
     slowTimer := slowTimer'; attractionTimer := attractionTimer';
     attractionX := attractionX e; attractionY := attractionY e;
     attractedToNode := attractedToNode e; originalPath := originalPath e;
     distractionPauseTimer := distractionPauseTimer e;
     processedHoneypots := processedHoneypots e;
     distractionTimer := distractionTimer e; revealed := revealed e;
     offsetX := offsetX e; offsetY := offsetY e; size := size e |}.

Definition withMotion (e : t) (index : nat) (x' y' targetX' targetY' : Q)
    (reached : bool) : t :=
  {| type := type e; config := config e; path := path e; nodes := nodes e;
     edges := edges e; currentPathIndex := index; x := x'; y := y';
     targetX := targetX'; targetY := targetY'; health := health e;
     maxHealth := maxHealth e; speed := speed e; baseSpeed := baseSpeed e;
     alive := alive e; reachedGoal := reached; slowFactor := slowFactor e;
     slowTimer := slowTimer e; attractionTimer := attractionTimer e;
     attractionX := attractionX e; attractionY := attractionY e;
     attractedToNode := attractedToNode e; originalPath := originalPath e;
     distractionPauseTimer := distractionPauseTimer e;
     processedHoneypots := processedHoneypots e;
     distractionTimer := distractionTimer e; revealed := revealed e;
     offsetX := offsetX e; offsetY := offsetY e; size := size e |}.

Definition withRoute (e : t) (path' : list nat) (index : nat)
    (attracted : option nat) (original : option (list nat))
    (processed : gset nat) : t :=
  {| type := type e; config := config e; path := path'; nodes := nodes e;
     edges := edges e; currentPathIndex := index; x := x e; y := y e;
     targetX := targetX e; targetY := targetY e; health := health e;
     maxHealth := maxHealth e; speed := speed e; baseSpeed := baseSpeed e;
     alive := alive e; reachedGoal := reachedGoal e; slowFactor := slowFactor e;
     slowTimer := slowTimer e; attractionTimer := attractionTimer e;
     attractionX := attractionX e; attractionY := attractionY e;
     attractedToNode := attracted; originalPath := original;
     distractionPauseTimer := distractionPauseTimer e;
     processedHoneypots := processed;
     distractionTimer := distractionTimer e; revealed := revealed e;
     offsetX := offsetX e; offsetY := offsetY e; size := size e |}.

Definition withAttraction (e : t) (timer ax ay : Q) : t :=
  {| type := type e; config := config e; path := path e; nodes := nodes e;
     edges := edges e; currentPathIndex := currentPathIndex e; x := x e; y := y e;
     targetX := targetX e; targetY := targetY e; health := health e;
     maxHealth := maxHealth e; speed := speed e; baseSpeed := baseSpeed e;
     alive := alive e; reachedGoal := reachedGoal e; slowFactor := slowFactor e;
     slowTimer := slowTimer e; attractionTimer := timer;
     attractionX := ax; attractionY := ay;
     attractedToNode := attractedToNode e; originalPath := originalPath e;
     distractionPauseTimer := distractionPauseTimer e;
     processedHoneypots := processedHoneypots e;
     distractionTimer := distractionTimer e; revealed := revealed e;
     offsetX := offsetX e; offsetY := offsetY e; size := size e |}.

Definition withHealth (e : t) (health' : num) (alive' revealed' : bool) : t :=
  {| type := type e; config := config e; path := path e; nodes := nodes e;
     edges := edges e; currentPathIndex := currentPathIndex e; x := x e; y := y e;
     targetX := targetX e; targetY := targetY e; health := health';
     maxHealth := maxHealth e; speed := speed e; baseSpeed := baseSpeed e;
     alive := alive'; reachedGoal := reachedGoal e; slowFactor := slowFactor e;
     slowTimer := slowTimer e; attractionTimer := attractionTimer e;
     attractionX := attractionX e; attractionY := attractionY e;
     attractedToNode := attractedToNode e; originalPath := originalPath e;
     distractionPauseTimer := distractionPauseTimer e;
     processedHoneypots := processedHoneypots e;
     distractionTimer := distractionTimer e; revealed := revealed';
     offsetX := offsetX e; offsetY := offsetY e; size := size e |}.

(** [isAlive()] *)
Definition isAlive (e : t) : bool := alive e && negb (reachedGoal e).

(** [update(deltaTime)]; [sqrt] is [Math.sqrt]. *)
Definition update (sqrt : Q → Q) (deltaTime : Q) (e : t) : outcome t :=
  if negb (alive e) || reachedGoal e then Ret e
  else
    (* status effects *)
    let '(aTimer, sFactor) :=
      if Qltb 0 (attractionTimer e) then (attractionTimer e - deltaTime, slowFactor e)
      else (attractionTimer e, 1) in
    let '(sTimer, sFactor') :=
      if Qltb 0 (slowTimer e) then
        (slowTimer e - deltaTime,
         if Qle_bool (slowTimer e - deltaTime) 0 then 1 else sFactor)
      else (slowTimer e, sFactor) in
    let e1 := withStatus e aTimer sFactor' sTimer in
    (* move towards the target node *)
    let dx := targetX e1 - x e1 in
    let dy := targetY e1 - y e1 in
    let distance := sqrt (dx * dx + dy * dy) in
    let effectiveSpeed := speed e1 * slowFactor e1 * (deltaTime / 16) in
    if Qltb distance effectiveSpeed then
      let index := S (currentPathIndex e1) in
      if bool_decide (length (path e1) ≤ index)%nat then
        Ret (withMotion e1 index (x e1) (y e1) (targetX e1) (targetY e1) true)
      else
        nextNode ← orThrow (nodeAt (nodes e1) (path e1) index);
        let e2 := withMotion e1 index (node_x nextNode) (node_y nextNode)
                             (targetX e1) (targetY e1) false in
        let e3 :=
          if bool_decide (path e2 !! index = attractedToNode e2 ∧ is_Some (attractedToNode e2))
          then withRoute e2 (path e2) index None (originalPath e2)
                         (processedHoneypots e2 ∪ from_option singleton ∅ (attractedToNode e2))
          else e2 in
        if bool_decide (index < length (path e3) - 1)%nat then
          targetNode ← orThrow (nodeAt (nodes e3) (path e3) (S index));
          Ret (withMotion e3 index (x e3) (y e3) (node_x targetNode) (node_y targetNode) false)
        else Ret e3
    else
      Ret (withMotion e1 (currentPathIndex e1)
             (x e1 + dx / distance * effectiveSpeed)
             (y e1 + dy / distance * effectiveSpeed)
             (targetX e1) (targetY e1) false).

(** [health - amount] *)
Definition num_sub (a : num) (c : Q) : num :=
  match a with
  | Fin q => Fin (q - c)
  | Inf => Inf
  end.

(** [takeDamage(amount)] *)
Definition takeDamage (amount : Q) (e : t) : t :=
  if Config.ec_legitimate (config e) then e
  else
    let h := num_sub (health e) amount in
    withHealth e h (if num_lt (Fin 0) h then alive e else false) (revealed e).

(** [applySlow(factor, duration = 1000)] *)
Definition applySlow (factor duration : Q) (e : t) : t :=
  withStatus e (attractionTimer e) (Qmin (slowFactor e) factor) (Qmax (slowTimer e) duration).

(** [applyAttraction(duration, targetX, targetY)] *)
Definition applyAttraction (duration tx ty : Q) (e : t) : t :=
  withAttraction e (Qmax (attractionTimer e) duration) tx ty.

(** [reveal()] *)
Definition reveal (e : t) : t := withHealth e (health e) (alive e) true.

(** [restoreOriginalPath()] *)
Definition restoreOriginalPath (e : t) : outcome t :=
  match originalPath e with
  | None => Ret e
  | Some original =>
      let e1 := withRoute e original (currentPathIndex e) None None (processedHoneypots e) in
      if bool_decide (currentPathIndex e1 < length (path e1) - 1)%nat then
        nextNode ← orThrow (nodeAt (nodes e1) (path e1) (S (currentPathIndex e1)));
        Ret (withMotion e1 (currentPathIndex e1) (x e1) (y e1)
                        (node_x nextNode) (node_y nextNode) (reachedGoal e1))
      else Ret e1
  end.

(** How [rerouteToNode] leaves its [try] block: by a [return] statement, by
    running to its end, or through the [catch] clause. *)
Inductive exit : Type := Returned | Completed | Caught.

(** [Pathfinding.findPath(this.nodes, this.edges, a, b, false)] where
    [this.edges] may be [null]: iterating [null] throws. *)
Definition route (hypot : Q → Q → Q) (fuel : nat) (e : t) (a b : nat)
  : outcome (list nat) :=
  match edges e with
  | Some es => Pathfinding.findPath hypot fuel (λ _, 0) (nodes e) es a b false
  | None => if decide (a = b) then Ret [a] else Threw
  end.

(** The [try] block after the three guards, as a computation that may throw;
    the enemy it carries is the state at the point of the exit. *)
Definition splice (hypot : Q → Q → Q) (fuel : nat) (nodeId : nat) (e1 : t)
    (prevNodeId nextNodeId goalNodeId : nat) : outcome (t * exit) :=
  match route hypot fuel e1 prevNodeId nodeId with
  | OutOfFuel => OutOfFuel
  | Threw => Ret (e1, Caught)
  | Ret pathFromPrev =>
  match route hypot fuel e1 nextNodeId nodeId with
  | OutOfFuel => OutOfFuel
  | Threw => Ret (e1, Caught)
  | Ret pathFromNext =>
  match route hypot fuel e1 nodeId goalNodeId with
  | OutOfFuel => OutOfFuel
  | Threw => Ret (e1, Caught)
  | Ret pathHpToGoal =>
      if bool_decide (length pathHpToGoal = O) then Ret (e1, Returned)
      else
        match nodes e1 !! prevNodeId, nodes e1 !! nextNodeId with
        | Some prevNode, Some nextNode =>
            let distToPrev := Graphics.distance hypot (x e1) (y e1)
                                (node_x prevNode) (node_y prevNode) in
            let distToNext := Graphics.distance hypot (x e1) (y e1)
                                (node_x nextNode) (node_y nextNode) in
            let decide_route : option bool :=    (* [useNext], or [None] for the early return *)
              if bool_decide (0 < length pathFromPrev)%nat then
                if decide (prevNodeId = nodeId) then Some false
                else if bool_decide (length pathFromNext = O) then Some false
                else
                  let costPrev := distToPrev + ofNat (length pathFromPrev) * 100 in
                  let costNext := distToNext + ofNat (length pathFromNext) * 100 in
                  if Qltb costPrev (costNext * (11 # 10)) then Some false else Some true
              else if bool_decide (length pathFromNext = O) then None
              else Some true in
            match decide_route with
            | None => Ret (e1, Returned)
            | Some useNext =>
                let pathToHp := if useNext then prevNodeId :: pathFromNext
                                else nextNodeId :: pathFromPrev in
                let fullPath := pathToHp ++ drop 1 pathHpToGoal in
                let e2 := withRoute e1 fullPath O (attractedToNode e1) (originalPath e1)
                                    (processedHoneypots e1) in
                let e3 := match nodeAt (nodes e2) fullPath 0 with
                          | Some startNode =>
                              withMotion e2 O (node_x startNode) (node_y startNode)
                                         (targetX e2) (targetY e2) (reachedGoal e2)
                          | None => e2
                          end in
                if bool_decide (1 < length fullPath)%nat then
                  match nodeAt (nodes e3) fullPath 1 with
                  | Some targetNode =>
                      Ret (withMotion e3 O (x e3) (y e3) (node_x targetNode)
                                      (node_y targetNode) (reachedGoal e3), Completed)
                  | None => Ret (e3, Caught)
                  end
                else Ret (e3, Completed)
            end
        | _, _ => Ret (e1, Caught)
        end
  end end end.

(** [rerouteToNode(nodeId)] *)
Definition rerouteToNode (hypot : Q → Q → Q) (fuel : nat) (nodeId : nat) (e : t)
  : outcome (t * exit) :=
  if decide (nodeId ∈ processedHoneypots e) then Ret (e, Returned)
  else if bool_decide (is_Some (attractedToNode e) ∧ attractedToNode e ≠ Some nodeId)
  then Ret (e, Returned)
  else
    let isLeavingHoneypot := bool_decide (path e !! currentPathIndex e = Some nodeId) in
    if bool_decide (attractedToNode e = Some nodeId) && negb isLeavingHoneypot
    then Ret (e, Returned)
    else if bool_decide (length (path e) = O) then Ret (e, Returned)
    else if bool_decide (length (path e) - 1 ≤ currentPathIndex e)%nat then Ret (e, Returned)
    else
      let original := match originalPath e with
                      | Some p => Some p
                      | None => Some (path e)
                      end in
      let e1 := withRoute e (path e) (currentPathIndex e) (Some nodeId) original
                          (processedHoneypots e) in
      match path e1 !! currentPathIndex e1, path e1 !! S (currentPathIndex e1),
            last (path e1) with
      | Some prevNodeId, Some nextNodeId, Some goalNodeId =>
          splice hypot fuel nodeId e1 prevNodeId nextNodeId goalNodeId
      | _, _, _ => Ret (e1, Returned)
      end.

End Enemy.

(** ** Tower.js: the pull of a Honeypot *)

Module Tower.

Record t : Type := mkTower {
  x : Q;
  y : Q;
  type : string;
  config : Config.towerConfig;
  damage : Q;
  range : Q;
  nearestNodeId : option nat
}.

(** The body of [for (const enemy of enemies)] in [updateHoneypot(deltaTime,
    enemies)]. [config.distractDuration] is [undefined] for the other tower
    types, which are never updated through this method. *)
Definition attract (hypot : Q → Q → Q) (fuel : nat) (deltaTime : Q) (tower : t)
    (enemy : Enemy.t) : outcome Enemy.t :=
  if negb (Enemy.isAlive enemy) then Ret enemy
  else if Config.ec_legitimate (Enemy.config enemy) then Ret enemy
  else
    let distance := Graphics.distance hypot (x tower) (y tower) (Enemy.x enemy) (Enemy.y enemy) in
    if Qle_bool distance (range tower) then
      e1 ← match nearestNodeId tower with
           | Some nodeId => r ← Enemy.rerouteToNode hypot fuel nodeId enemy; Ret r.1
           | None => Ret enemy
           end;
      let e2 := Enemy.applyAttraction (default 0 (Config.tc_distractDuration (config tower)))
                                      (x tower) (y tower) e1 in
      Ret (Enemy.takeDamage (damage tower * (deltaTime / 1000)) e2)
    else Ret enemy.

End Tower.

(** ** LevelManagerStackelberg.js (with the fields of LevelManager.js it uses) *)

Module LevelManagerStackelberg.

Inductive Phase : Type := commitment | training | battle | scoring.

#[global] Instance Phase_eq_dec : EqDecision Phase.
Proof. solve_decision. Defined.

(** What is sent through [eventBus.emit]. *)
Inductive event : Type :=
  | phaseTimerUpdate (phase : Phase) (elapsed remaining total : Q)
  | phaseChange (phase : Phase) (canPlaceTowers : bool)
  | aiAnalysisComplete
  | stackelbergComplete (score : Q) (survived : bool) (defenseRating : nat)
  | aiTip.

Record t : Type := mkLM {
  (* [levelConfig.phases], in seconds *)
  phases_commitment : Q;
  phases_training : Q;
  phases_battle : Q;
  currentPhase : Phase;
  phaseTimer : Q;
  aiAnalysis : option PerfectAI.generated;
  towersLocked : bool;
  committedTowers : list PerfectAI.Tower;
  battleActive : bool;
  (* LevelManager *)
  mode : string;
  nodes : list Node;
  paths : list (list nat);
  spawnTimer : Q;
  spawnInterval : Q;
  packetsSpawned : nat;
  totalPackets : nat;
  packetsBlocked : nat;
  packetsLeaked : nat;
  coreHealth : Q;
  optimalSuccessRate : Q;
  optimalHealthRetention : Q;
  (* delays handed to [setTimeout] that the host has not scheduled yet; the
     callback is always the analysis closure of [startTrainingPhase] *)
  requestedTimeouts : list Q;
  emitted : list event
}.

Definition withPhase (lm : t) (phase : Phase) (timer : Q) (locked active : bool)
    (requested : list Q) (evs : list event) : t :=
  {| phases_commitment := phases_commitment lm; phases_training := phases_training lm;
     phases_battle := phases_battle lm; currentPhase := phase; phaseTimer := timer;
     aiAnalysis := aiAnalysis lm; towersLocked := locked;
     committedTowers := committedTowers lm; battleActive := active;
     mode := mode lm; nodes := nodes lm; paths := paths lm;
     spawnTimer := spawnTimer lm; spawnInterval := spawnInterval lm;
     packetsSpawned := packetsSpawned lm; totalPackets := totalPackets lm;
     packetsBlocked := packetsBlocked lm; packetsLeaked := packetsLeaked lm;
     coreHealth := coreHealth lm; optimalSuccessRate := optimalSuccessRate lm;
     optimalHealthRetention := optimalHealthRetention lm;
     requestedTimeouts := requested; emitted := emitted lm ++ evs |}.

Definition withAnalysis (lm : t) (a : option PerfectAI.generated) (evs : list event) : t :=
  {| phases_commitment := phases_commitment lm; phases_training := phases_training lm;
     phases_battle := phases_battle lm; currentPhase := currentPhase lm;
     phaseTimer := phaseTimer lm; aiAnalysis := a; towersLocked := towersLocked lm;
     committedTowers := committedTowers lm; battleActive := battleActive lm;
     mode := mode lm; nodes := nodes lm; paths := paths lm;
     spawnTimer := spawnTimer lm; spawnInterval := spawnInterval lm;
     packetsSpawned := packetsSpawned lm; totalPackets := totalPackets lm;
     packetsBlocked := packetsBlocked lm; packetsLeaked := packetsLeaked lm;
     coreHealth := coreHealth lm; optimalSuccessRate := optimalSuccessRate lm;
     optimalHealthRetention := optimalHealthRetention lm;
     requestedTimeouts := requestedTimeouts lm; emitted := emitted lm ++ evs |}.

Definition withSpawn (lm : t) (timer : Q) (spawned : nat) : t :=
  {| phases_commitment := phases_commitment lm; phases_training := phases_training lm;
     phases_battle := phases_battle lm; currentPhase := currentPhase lm;
     phaseTimer := phaseTimer lm; aiAnalysis := aiAnalysis lm;
     towersLocked := towersLocked lm; committedTowers := committedTowers lm;
     battleActive := battleActive lm; mode := mode lm; nodes := nodes lm;
     paths := paths lm; spawnTimer := timer; spawnInterval := spawnInterval lm;
     packetsSpawned := spawned; totalPackets := totalPackets lm;
     packetsBlocked := packetsBlocked lm; packetsLeaked := packetsLeaked lm;
     coreHealth := coreHealth lm; optimalSuccessRate := optimalSuccessRate lm;
     optimalHealthRetention := optimalHealthRetention lm;
     requestedTimeouts := requestedTimeouts lm; emitted := emitted lm |}.

(** [LevelManager.shouldSpawnEnemy(deltaTime)] (the [super] call) *)
Definition baseShouldSpawnEnemy (deltaTime : Q) (lm : t) : t * bool :=
  let timer := spawnTimer lm + deltaTime in
  if Qle_bool (spawnInterval lm) timer then
    (withSpawn lm 0 (packetsSpawned lm),
     negb (bool_decide (mode lm = "NORMAL")
           && bool_decide (totalPackets lm ≤ packetsSpawned lm)%nat))
  else (withSpawn lm timer (packetsSpawned lm), false).

(** [shouldSpawnEnemy(deltaTime)] *)
Definition shouldSpawnEnemy (deltaTime : Q) (lm : t) : t * bool :=
  if negb (bool_decide (currentPhase lm = battle)) || negb (battleActive lm)
  then (lm, false)
  else baseShouldSpawnEnemy deltaTime lm.

(** [getPhaseDuration()] *)
Definition getPhaseDuration (lm : t) : Q :=
  match currentPhase lm with
  | commitment => phases_commitment lm
  | training => phases_training lm
  | battle => phases_battle lm
  | scoring => 0
  end.

(** [startCommitmentPhase()] *)
Definition startCommitmentPhase (lm : t) : t :=
  withPhase lm commitment 0 false (battleActive lm) (requestedTimeouts lm)
            [phaseChange commitment true].

(** [startTrainingPhase()]: the analysis is handed to [setTimeout(..., 3000)]. *)
Definition startTrainingPhase (lm : t) : t :=
  withPhase lm training 0 true (battleActive lm) (requestedTimeouts lm ++ [3000])
            [phaseChange training false].

(** The callback of that timeout. An exception in it leaves the level
    manager as it was. *)
Definition analysisCallback (hypot : Q → Q → Q) (lm : t) : t :=
  match PerfectAI.analyzeAndGenerate hypot
          (PerfectAI.mkLevel (nodes lm) (paths lm) (committedTowers lm))
          (committedTowers lm) with
  | Ret a => withAnalysis lm (Some a) [aiAnalysisComplete]
  | _ => lm
  end.

(** [startBattlePhase()] *)
Definition startBattlePhase (lm : t) : t :=
  withPhase lm battle 0 (towersLocked lm) true (requestedTimeouts lm)
            [phaseChange battle false].

(** [calculateSuccessRate()] *)
Definition calculateSuccessRate (lm : t) : Q :=
  let total := (packetsBlocked lm + packetsLeaked lm)%nat in
  if decide (total = O) then 0 else ofNat (packetsBlocked lm) / ofNat total * 100.

(** [calculateStackelbergScore()] *)
Definition calculateStackelbergScore (lm : t) : Q :=
  let defenseValue := match aiAnalysis lm with
                      | Some a => PerfectAI.a_defenseValue (PerfectAI.gen_analysis a)
                      | None => 0
                      end in
  let survivability := coreHealth lm / optimalHealthRetention lm * 50 in
  let successRate := calculateSuccessRate lm / optimalSuccessRate lm * 100 in
  floor (Qmin 100 (defenseValue * (3 # 10) + Qmax 0 survivability + successRate * (5 # 10))).

(** [getDefenseRating()] *)
Definition getDefenseRating (lm : t) : nat :=
  let score := calculateStackelbergScore lm in
  if Qle_bool 80 score then 3%nat
  else if Qle_bool 60 score then 2%nat
  else if Qle_bool 40 score then 1%nat
  else O.

(** [startScoringPhase()] *)
Definition startScoringPhase (lm : t) : t :=
  let lm1 := withPhase lm scoring (phaseTimer lm) (towersLocked lm) false
                       (requestedTimeouts lm) [] in
  withAnalysis lm1 (aiAnalysis lm1)
    [phaseChange scoring false;
     stackelbergComplete (calculateStackelbergScore lm1) (Qltb 0 (coreHealth lm1))
                         (getDefenseRating lm1);
     aiTip].

(** [advancePhase()] *)
Definition advancePhase (lm : t) : t :=
  match currentPhase lm with
  | commitment => startTrainingPhase lm
  | training => startBattlePhase lm
  | battle => startScoringPhase lm
  | scoring => lm
  end.

(** [updatePhase(deltaTime)] *)
Definition updatePhase (deltaTime : Q) (lm : t) : t :=
  let timer := phaseTimer lm + deltaTime in
  let elapsed := floor (timer / 1000) in
  let remaining := getPhaseDuration lm - elapsed in
  let lm1 := withPhase lm (currentPhase lm) timer (towersLocked lm) (battleActive lm)
                       (requestedTimeouts lm)
                       [phaseTimerUpdate (currentPhase lm) elapsed remaining
                                         (getPhaseDuration lm)] in
  if Qle_bool remaining 0 then advancePhase lm1 else lm1.

(** [getEnemyType()] without an analysis falls back to ['BASIC']; with one it
    asks [PerfectAI] ([pathIndex] and [roll] stand for the random choices). *)
Definition getEnemyType (pathIndex : nat) (roll : Q) (lm : t) : string :=
  match aiAnalysis lm with
  | None => "BASIC"
  | Some a =>
      if negb (battleActive lm) then "BASIC"
      else PerfectAI.getEnemyTypeForPath (Some (PerfectAI.gen_strategy a)) pathIndex roll
  end.

(** [new LevelManagerStackelberg(levelConfig, difficulty)] for a finished
    topology. *)
Definition new (commit train fight : Q) (ns : list Node) (ps : list (list nat))
    (chokepointCount : nat) (health interval : Q) : t :=
  {| phases_commitment := commit; phases_training := train; phases_battle := fight;
     currentPhase := commitment; phaseTimer := 0; aiAnalysis := None;
     towersLocked := false; committedTowers := []; battleActive := false;
     mode := "PERFECT_AI"; nodes := ns; paths := ps;
     spawnTimer := 0; spawnInterval := interval;
     packetsSpawned := O; totalPackets := O; packetsBlocked := O; packetsLeaked := O;
     coreHealth := health;
     optimalSuccessRate := Qmax 40 (100 - ofNat (length ps) * 8 + ofNat chokepointCount * 6);
     optimalHealthRetention := Qmax 50 (100 - ofNat (length ps) * 5);
     requestedTimeouts := []; emitted := [] |}.

End LevelManagerStackelberg.

(** ** PlayingState.js: the playing state around a level of the Stackelberg game *)

Module PlayingState.

Import LevelManagerStackelberg.

(** [this.levelManager.committedTowers = [...this.towers]], the assignment
    at the end of [placeTower]. *)
Definition setCommittedTowers (lm : LevelManagerStackelberg.t)
    (towers : list PerfectAI.Tower) : LevelManagerStackelberg.t :=
  {| phases_commitment := phases_commitment lm; phases_training := phases_training lm;
     phases_battle := phases_battle lm; currentPhase := currentPhase lm;
     phaseTimer := phaseTimer lm; aiAnalysis := aiAnalysis lm;
     towersLocked := towersLocked lm;
     committedTowers := towers; battleActive := battleActive lm;
     mode := mode lm; nodes := nodes lm; paths := paths lm;
     spawnTimer := spawnTimer lm; spawnInterval := spawnInterval lm;
     packetsSpawned := packetsSpawned lm; totalPackets := totalPackets lm;
     packetsBlocked := packetsBlocked lm; packetsLeaked := packetsLeaked lm;
     coreHealth := coreHealth lm; optimalSuccessRate := optimalSuccessRate lm;
     optimalHealthRetention := optimalHealthRetention lm;
     requestedTimeouts := requestedTimeouts lm; emitted := emitted lm |}.

(** The fields that bear on the level manager. *)
Record t : Type := mkState {
  levelManager : LevelManagerStackelberg.t;
  towers : list PerfectAI.Tower;
  paused : bool;
  towersLocked : bool
}.

Definition withLevelManager (s : t) (l : LevelManagerStackelberg.t) : t :=
  {| levelManager := l; towers := towers s; paused := paused s;
     towersLocked := towersLocked s |}.

(** [enter(data)] for a level with [aiType: 'PERFECT']. *)
Definition enter (level : LevelManagerStackelberg.t) : t :=
  {| levelManager := startCommitmentPhase level; towers := []; paused := false;
     towersLocked := false |}.

(** The listeners on what the level manager emits: [handlePhaseChange] and
    [handleStackelbergComplete]. The listeners of the other events only
    log or show a message. *)
Definition handle (s : t) (ev : event) : t :=
  match ev with
  | phaseChange _ canPlaceTowers =>
      {| levelManager := levelManager s; towers := towers s; paused := paused s;
         towersLocked := negb canPlaceTowers |}
  | stackelbergComplete _ _ _ =>
      {| levelManager := levelManager s; towers := towers s; paused := true;
         towersLocked := towersLocked s |}
  | _ => s
  end.

(** [update(deltaTime)], the part that drives the level manager: the phase
    timer, then the spawn check; [spawnEnemy] counts the packet when the
    level has a path to send it on (the enemy it builds on that path, the
    towers and the enemies updated after it are left out). [emit] calls the
    listeners at
    once; they touch no field of the level manager, which reads none of
    theirs, so they are run here on what the call has emitted. *)
Definition update (deltaTime : Q) (s : t) : t :=
  if paused s then s
  else
    let lm1 := updatePhase deltaTime (levelManager s) in
    let '(lm2, spawn) := shouldSpawnEnemy deltaTime lm1 in
    let lm3 := if spawn && negb (bool_decide (paths lm2 = []))
               then withSpawn lm2 (spawnTimer lm2) (S (packetsSpawned lm2))
               else lm2 in
    foldl handle (withLevelManager s lm3)
          (drop (length (emitted (levelManager s))) (emitted lm3)).

(** [placeTower(nodeIndex)] for a click that passes the chokepoint, occupancy
    and money checks of [canPlaceTower]; [tower] is the tower it builds. The
    lock is the first check of [handleCanvasClick] and of [canPlaceTower]. *)
Definition placeTower (tower : PerfectAI.Tower) (s : t) : t :=
  if towersLocked s then s
  else
    let towers' := towers s ++ [tower] in
    {| levelManager := setCommittedTowers (levelManager s) towers'; towers := towers';
       paused := paused s; towersLocked := towersLocked s |}.

(** [handleTogglePause()] *)
Definition handleTogglePause (s : t) : t :=
  {| levelManager := levelManager s; towers := towers s; paused := negb (paused s);
     towersLocked := towersLocked s |}.

End PlayingState.

(** ** GameEngine.js: the frame loop, and the host that drives it *)

Module GameEngine.

Import LevelManagerStackelberg.

(** The host: the engine's [lastTime], the playing state and the timeouts
    that are pending, oldest first. A timeout is kept as the time before
    which the host cannot run its callback: the timestamp of the frame that
    requested it plus the delay (the call itself is made no earlier than that
    timestamp). The callback is always the analysis closure of
    [startTrainingPhase]. *)
Record world : Type := mkWorld {
  lastTime : Q;
  state : PlayingState.t;
  timers : list Q
}.

Definition lm (w : world) : LevelManagerStackelberg.t :=
  PlayingState.levelManager (state w).

(** [gameLoop(currentTime)]: the delta is capped at 100 ms; the timeouts
    requested during the frame are handed to the host. No callback of a
    timeout runs inside a frame. *)
Definition frame (w : world) (currentTime : Q) : world :=
  let deltaTime := if Qltb 100 (currentTime - lastTime w) then 100
                   else currentTime - lastTime w in
  let s := PlayingState.update deltaTime (state w) in
  let l := PlayingState.levelManager s in
  {| lastTime := currentTime;
     state := PlayingState.withLevelManager s
                (withPhase l (currentPhase l) (phaseTimer l)
                           (LevelManagerStackelberg.towersLocked l)
                           (battleActive l) [] []);
     timers := timers w ++ ((λ delay, currentTime + delay) <$> requestedTimeouts l) |}.

(** The host runs the callback of the oldest pending timeout at time [now].
    It cannot do so before the timeout is due; how long after, and after how
    many frames, is the host's choice. *)
Definition runTimeout (hypot : Q → Q → Q) (w : world) (now : Q) : world :=
  match timers w with
  | due :: rest =>
      if Qle_bool due now
      then {| lastTime := lastTime w;
              state := PlayingState.withLevelManager (state w)
                         (analysisCallback hypot (lm w));
              timers := rest |}
      else w
  | [] => w
  end.

(** What happens next: an animation frame with a given timestamp, the host
    running a timeout, the player toggling the pause, or the player placing
    a tower. *)
Inductive input : Type :=
  | Frame (currentTime : Q)
  | RunTimeout (now : Q)
  | TogglePause
  | PlaceTower (tower : PerfectAI.Tower).

Definition step (hypot : Q → Q → Q) (w : world) (i : input) : world :=
  match i with
  | Frame currentTime => frame w currentTime
  | RunTimeout now => runTimeout hypot w now
  | TogglePause =>
      {| lastTime := lastTime w; state := PlayingState.handleTogglePause (state w);
         timers := timers w |}
  | PlaceTower tower =>
      {| lastTime := lastTime w; state := PlayingState.placeTower tower (state w);
         timers := timers w |}
  end.

Definition run (hypot : Q → Q → Q) (w : world) (inputs : list input) : world :=
  foldl (step hypot) w inputs.

(** The engine started at time [0] on a fresh level that the playing state
    has just entered. *)
Definition start (level : LevelManagerStackelberg.t) : world :=
  {| lastTime := 0; state := PlayingState.enter level; timers := [] |}.

End GameEngine.

(** * Verification *)

(** ** Sample data *)

(** [Math.hypot] replaced by the taxicab length, on which the model
    evaluates. *)
Definition manhattan (dx dy : Q) : Q := Qabs dx + Qabs dy.

Definition line_nodes : list Node :=
  [mkNode 0 0 0 source; mkNode 1 3 4 normal; mkNode 2 6 8 goal].
Definition line_edges : list (nat * nat) := [(0, 1); (1, 2)]%nat.

Example findPath_line :
  Pathfinding.findPath manhattan 8 (λ _, 0) line_nodes line_edges 0 2 false
  = Ret [0; 1; 2]%nat.
Proof. vm_compute. reflexivity. Qed.

(** ** Agent construction (Enemy.js) *)

Section EnemyConstruction.

Lemma nodeAt_singleton (nodes : list Node) (s : nat) : Enemy.nodeAt nodes [s] 1 = None.
Proof. reflexivity. Qed.

Lemma new_singleton_throws r1 r2 type (s : nat) nodes edges :
  Enemy.new r1 r2 type [s] nodes edges = Threw.
Proof.
  unfold Enemy.new. rewrite nodeAt_singleton.
  destruct (Enemy.nodeAt nodes [s] 0); reflexivity.
Qed.

Lemma new_returns_length r1 r2 type (path : list nat) nodes edges e :
  Enemy.new r1 r2 type path nodes edges = Ret e → (2 ≤ length path)%nat.
Proof.
  unfold Enemy.new. intros H.
  destruct path as [|a [|b path]]; simpl; try lia.
  - discriminate H.
  - rewrite nodeAt_singleton in H. destruct (Enemy.nodeAt nodes [a] 0); discriminate H.
Qed.

(** C10. The constructor reads [nodes[path[1]]] unconditionally: a path needs
    two nodes for the construction to return, the second node of a
    one-element path is missing, the construction on it throws, and
    [findPath] with equal endpoints returns just such a path. *)
Theorem C10_agent_needs_two_nodes :
  ∀ (r1 r2 : Q) (type : string) (nodes : list Node) (edges : option (list (nat * nat))),
    (∀ path : list nat,
        match Enemy.new r1 r2 type path nodes edges with
        | Ret _ => (2 ≤ length path)%nat
        | _ => True
        end)
    ∧ (∀ s : nat,
        Enemy.nodeAt nodes [s] 1 = None
        ∧ Enemy.new r1 r2 type [s] nodes edges = Threw)
    ∧ (∀ hypot fuel rnd es (s : nat) randomize,
        Pathfinding.findPath hypot fuel rnd nodes es s s randomize = Ret [s]
        ∧ match Pathfinding.findPath hypot fuel rnd nodes es s s randomize with
          | Ret path => Enemy.new r1 r2 type path nodes edges = Threw
          | _ => False
          end).
Proof.
  intros r1 r2 type nodes edges. split; [|split].
  - intros path. destruct (Enemy.new r1 r2 type path nodes edges) eqn:E; [|done..].
    by eapply new_returns_length.
  - intros s. split; [apply nodeAt_singleton | apply new_singleton_throws].
  - intros hypot fuel rnd es s randomize.
    assert (Pathfinding.findPath hypot fuel rnd nodes es s s randomize = Ret [s]) as ->.
    { unfold Pathfinding.findPath. by rewrite decide_True. }
    split; [done | apply new_singleton_throws].
Qed.

End EnemyConstruction.

(** A path of two nodes of the topology is enough. *)
Example new_line :
  ∃ e, Enemy.new (1 # 2) (1 # 2) "BASIC" [0; 1]%nat line_nodes (Some line_edges) = Ret e
       ∧ Enemy.targetX e == 3.
Proof. eexists. split; [vm_compute; reflexivity | reflexivity]. Qed.

(** ** The visited-attractor set (Enemy.js, Tower.js) *)

Section VisitedAttractors.
Variable hypot : Q → Q → Q.
Variable sqrt : Q → Q.

(** An attractor in the visited set stops [rerouteToNode] at its first line. *)
Lemma reroute_visited fuel (H : nat) (e : Enemy.t) :
  H ∈ Enemy.processedHoneypots e →
  Enemy.rerouteToNode hypot fuel H e = Ret (e, Enemy.Returned).
Proof. intros Hin. unfold Enemy.rerouteToNode. by rewrite decide_True. Qed.

Lemma splice_keeps_visited fuel H (e1 : Enemy.t) p n g e' k :
  Enemy.splice hypot fuel H e1 p n g = Ret (e', k) →
  Enemy.processedHoneypots e' = Enemy.processedHoneypots e1.
Proof.
  unfold Enemy.splice. intros Hs.
  repeat (case_match; simplify_eq/=; try done).
Qed.

Lemma reroute_keeps_visited fuel H (e : Enemy.t) e' k :
  Enemy.rerouteToNode hypot fuel H e = Ret (e', k) →
  Enemy.processedHoneypots e' = Enemy.processedHoneypots e.
Proof.
  unfold Enemy.rerouteToNode. intros Hr.
  repeat (case_match; simplify_eq/=; try done);
    by (apply splice_keeps_visited in Hr).
Qed.

(** [update] adds the active attractor, and only on arrival at it. *)
Lemma update_grows_visited dt (e e' : Enemy.t) :
  Enemy.update sqrt dt e = Ret e' →
  Enemy.processedHoneypots e ⊆ Enemy.processedHoneypots e'
  ∧ ∀ H, H ∈ Enemy.processedHoneypots e' →
         H ∈ Enemy.processedHoneypots e
         ∨ (Enemy.attractedToNode e = Some H
            ∧ Enemy.path e !! S (Enemy.currentPathIndex e) = Some H).
Proof.
  unfold Enemy.update. intros Hu.
  repeat (case_match; simplify_eq/=; try done);
    try (split; [set_solver | intros; by left]).
  all: try (destruct (Enemy.nodeAt _ _ _); simplify_eq/=).
  all: repeat (case_match; simplify_eq/=; try done).
  all: try (destruct (Enemy.nodeAt _ _ _); simplify_eq/=).
  all: try (split; [set_solver | intros; by left]).
  all: match goal with
       | Hb : bool_decide _ = true |- _ => apply bool_decide_eq_true in Hb; destruct Hb as [Hp [h Hh]]
       end.
  all: rewrite Hh in *; simpl; split; [set_solver|].
  all: intros H' [Hin | Hin]%elem_of_union; [by left | right].
  all: apply elem_of_singleton in Hin; subst; done.
Qed.

(** Arrival at the node of the active attractor: the agent is within one
    step of its target and the next node of its path is the attractor [H].
    [update] then returns, with [H] added to the set and the active
    attractor cleared. *)
Lemma update_adds_on_arrival dt (H : nat) (e : Enemy.t) :
  Enemy.alive e = true → Enemy.reachedGoal e = false →
  Forall (λ i, (i < length (Enemy.nodes e))%nat) (Enemy.path e) →
  Enemy.attractedToNode e = Some H →
  Enemy.path e !! S (Enemy.currentPathIndex e) = Some H →
  let dx := Enemy.targetX e - Enemy.x e in
  let dy := Enemy.targetY e - Enemy.y e in
  let attracted := if Qltb 0 (Enemy.attractionTimer e) then Enemy.slowFactor e else 1 in
  let slowFactor :=
    if Qltb 0 (Enemy.slowTimer e)
    then if Qle_bool (Enemy.slowTimer e - dt) 0 then 1 else attracted
    else attracted in
  Qltb (sqrt (dx * dx + dy * dy)) (Enemy.speed e * slowFactor * (dt / 16)) = true →
  ∃ e', Enemy.update sqrt dt e = Ret e'
        ∧ Enemy.processedHoneypots e' = Enemy.processedHoneypots e ∪ {[H]}
        ∧ Enemy.attractedToNode e' = None
        ∧ Enemy.currentPathIndex e' = S (Enemy.currentPathIndex e).
Proof.
  intros Halive Hrg Hpath Hatt Hnext dx dy attracted slowFactor Harr.
  rewrite Forall_forall in Hpath.
  assert (S (Enemy.currentPathIndex e) < length (Enemy.path e))%nat as Hlt
    by (by eapply lookup_lt_Some).
  destruct (lookup_lt_is_Some_2 (Enemy.nodes e) H) as [node Hnode].
  { apply Hpath. by eapply list_elem_of_lookup_2. }
  unfold Enemy.update. rewrite Halive, Hrg. cbn [negb orb].
  unfold slowFactor, attracted in Harr.
  destruct (Qltb 0 (Enemy.attractionTimer e)), (Qltb 0 (Enemy.slowTimer e)).
  all: cbn [Enemy.withStatus Enemy.targetX Enemy.targetY Enemy.x Enemy.y Enemy.speed
            Enemy.slowFactor Enemy.currentPathIndex Enemy.path Enemy.nodes].
  all: fold dx dy; rewrite Harr.
  all: rewrite bool_decide_eq_false_2 by lia.
  all: assert (Enemy.nodeAt (Enemy.nodes e) (Enemy.path e) (S (Enemy.currentPathIndex e))
               = Some node) as -> by (unfold Enemy.nodeAt; rewrite Hnext; exact Hnode).
  all: cbn [orThrow mbind outcome_bind].
  all: cbn [Enemy.withMotion Enemy.path Enemy.attractedToNode Enemy.withStatus].
  all: rewrite Hnext, Hatt.
  all: rewrite (bool_decide_eq_true_2 (Some H = Some H ∧ is_Some (Some H)))
         by (split; [done | by eexists]).
  all: cbn [Enemy.withRoute Enemy.path Enemy.nodes Enemy.processedHoneypots
            Enemy.originalPath Enemy.x Enemy.y from_option].
  all: case_bool_decide as Hmore; [|by eexists].
  all: destruct (lookup_lt_is_Some_2 (Enemy.path e) (S (S (Enemy.currentPathIndex e))))
         as [id2 Hid2]; [lia|].
  all: destruct (lookup_lt_is_Some_2 (Enemy.nodes e) id2) as [node2 Hnode2];
         [apply Hpath; by eapply list_elem_of_lookup_2|].
  all: unfold Enemy.nodeAt; rewrite Hid2;
         cbn [mbind option_bind Enemy.nodes Enemy.withMotion Enemy.withStatus].
  all: rewrite Hnode2; cbn [orThrow mbind outcome_bind].
  all: by eexists.
Qed.

Lemma restore_keeps_visited (e e' : Enemy.t) :
  Enemy.restoreOriginalPath e = Ret e' →
  Enemy.processedHoneypots e' = Enemy.processedHoneypots e.
Proof.
  unfold Enemy.restoreOriginalPath. intros Hr.
  repeat (case_match; simplify_eq/=; try done).
  destruct (Enemy.nodeAt _ _ _); by simplify_eq/=.
Qed.

Lemma takeDamage_keeps_route amount (e : Enemy.t) :
  let e' := Enemy.takeDamage amount e in
  Enemy.path e' = Enemy.path e
  ∧ Enemy.currentPathIndex e' = Enemy.currentPathIndex e
  ∧ Enemy.attractedToNode e' = Enemy.attractedToNode e
  ∧ Enemy.originalPath e' = Enemy.originalPath e
  ∧ Enemy.processedHoneypots e' = Enemy.processedHoneypots e.
Proof. unfold Enemy.takeDamage. by case_match. Qed.

(** A whole pull of a Honeypot at a visited node leaves the route alone. *)
Lemma attract_visited fuel dt (tower : Tower.t) (H : nat) (e : Enemy.t) :
  Tower.nearestNodeId tower = Some H →
  H ∈ Enemy.processedHoneypots e →
  ∃ e', Tower.attract hypot fuel dt tower e = Ret e'
        ∧ Enemy.path e' = Enemy.path e
        ∧ Enemy.currentPathIndex e' = Enemy.currentPathIndex e
        ∧ Enemy.attractedToNode e' = Enemy.attractedToNode e
        ∧ Enemy.originalPath e' = Enemy.originalPath e
        ∧ Enemy.processedHoneypots e' = Enemy.processedHoneypots e.
Proof.
  intros Hn Hin. unfold Tower.attract. rewrite Hn, (reroute_visited _ _ _ Hin).
  repeat case_match; try (by eexists).
  eexists. split; [reflexivity|]. simpl.
  match goal with
  | |- context [Enemy.takeDamage ?a ?e0] =>
      destruct (takeDamage_keeps_route a e0) as (-> & -> & -> & -> & ->)
  end.
  done.
Qed.

(** C7. The visited-attractor set only grows: [update] adds the active
    attractor on arrival at that node and nothing else, and no other method
    changes the set. The attractor is added: when a moving agent on a path of
    nodes is within one step of its target and the next node of its path is
    its active attractor [H], [update] returns, [H] is in the set afterwards
    and the active attractor is cleared. Once [H] is in the set,
    [rerouteToNode(H)] returns at once with the agent unchanged, and the
    whole pull of a Honeypot standing at [H] changes neither the path, the
    traversal index, the active attractor, the saved path nor the set. *)
Theorem C7_visited_attractor_idempotent :
  ∀ (fuel : nat) (e : Enemy.t),
    (∀ dt, match Enemy.update sqrt dt e with
           | Ret e' =>
               Enemy.processedHoneypots e ⊆ Enemy.processedHoneypots e'
               ∧ ∀ H, H ∈ Enemy.processedHoneypots e' →
                      H ∈ Enemy.processedHoneypots e
                      ∨ (Enemy.attractedToNode e = Some H
                         ∧ Enemy.path e !! S (Enemy.currentPathIndex e) = Some H)
           | _ => True
           end)
    ∧ (∀ dt H,
         Enemy.alive e = true → Enemy.reachedGoal e = false →
         Forall (λ i, (i < length (Enemy.nodes e))%nat) (Enemy.path e) →
         Enemy.attractedToNode e = Some H →
         Enemy.path e !! S (Enemy.currentPathIndex e) = Some H →
         let dx := Enemy.targetX e - Enemy.x e in
         let dy := Enemy.targetY e - Enemy.y e in
         let attracted :=
           if Qltb 0 (Enemy.attractionTimer e) then Enemy.slowFactor e else 1 in
         let slowFactor :=
           if Qltb 0 (Enemy.slowTimer e)
           then if Qle_bool (Enemy.slowTimer e - dt) 0 then 1 else attracted
           else attracted in
         Qltb (sqrt (dx * dx + dy * dy)) (Enemy.speed e * slowFactor * (dt / 16)) = true →
         ∃ e', Enemy.update sqrt dt e = Ret e'
               ∧ Enemy.processedHoneypots e' = Enemy.processedHoneypots e ∪ {[H]}
               ∧ Enemy.attractedToNode e' = None
               ∧ Enemy.currentPathIndex e' = S (Enemy.currentPathIndex e))
    ∧ (∀ H, match Enemy.rerouteToNode hypot fuel H e with
            | Ret (e', _) => Enemy.processedHoneypots e' = Enemy.processedHoneypots e
            | _ => True
            end)
    ∧ (match Enemy.restoreOriginalPath e with
       | Ret e' => Enemy.processedHoneypots e' = Enemy.processedHoneypots e
       | _ => True
       end)
    ∧ (∀ a b c,
         Enemy.processedHoneypots (Enemy.applyAttraction a b c e) = Enemy.processedHoneypots e
         ∧ Enemy.processedHoneypots (Enemy.applySlow a b e) = Enemy.processedHoneypots e
         ∧ Enemy.processedHoneypots (Enemy.takeDamage a e) = Enemy.processedHoneypots e
         ∧ Enemy.processedHoneypots (Enemy.reveal e) = Enemy.processedHoneypots e)
    ∧ (∀ H, H ∈ Enemy.processedHoneypots e →
            Enemy.rerouteToNode hypot fuel H e = Ret (e, Enemy.Returned)
            ∧ ∀ dt tower, Tower.nearestNodeId tower = Some H →
                ∃ e', Tower.attract hypot fuel dt tower e = Ret e'
                      ∧ Enemy.path e' = Enemy.path e
                      ∧ Enemy.currentPathIndex e' = Enemy.currentPathIndex e
                      ∧ Enemy.attractedToNode e' = Enemy.attractedToNode e
                      ∧ Enemy.originalPath e' = Enemy.originalPath e
                      ∧ Enemy.processedHoneypots e' = Enemy.processedHoneypots e).
Proof.
  intros fuel e. split; [|split; [|split; [|split; [|split]]]].
  - intros dt. destruct (Enemy.update sqrt dt e) eqn:E; [|done..].
    by apply (update_grows_visited dt).
  - intros dt H. by apply update_adds_on_arrival.
  - intros H. destruct (Enemy.rerouteToNode hypot fuel H e) as [[e' k]| |] eqn:E; [|done..].
    by eapply reroute_keeps_visited.
  - destruct (Enemy.restoreOriginalPath e) eqn:E; [|done..].
    by apply restore_keeps_visited.
  - intros a b c. repeat split. apply takeDamage_keeps_route.
  - intros H Hin. split; [by apply reroute_visited|].
    intros dt tower Hn. by eapply attract_visited.
Qed.

End VisitedAttractors.

(** An agent on the line [0 - 1 - 2] that has already passed the attractor
    at node 1. *)
Definition visited_enemy : Enemy.t :=
  {| Enemy.type := "BASIC";
     Enemy.config := Config.mkEnemyConfig (Fin 20) (15 # 10) 8 15 false false;
     Enemy.path := [0; 1; 2]%nat; Enemy.nodes := line_nodes;
     Enemy.edges := Some line_edges; Enemy.currentPathIndex := 1%nat;
     Enemy.x := 3; Enemy.y := 4; Enemy.targetX := 6; Enemy.targetY := 8;
     Enemy.health := Fin 20; Enemy.maxHealth := Fin 20;
     Enemy.speed := 15 # 10; Enemy.baseSpeed := 15 # 10;
     Enemy.alive := true; Enemy.reachedGoal := false;
     Enemy.slowFactor := 1; Enemy.slowTimer := 0;
     Enemy.attractionTimer := 0; Enemy.attractionX := 0; Enemy.attractionY := 0;
     Enemy.attractedToNode := None; Enemy.originalPath := None;
     Enemy.distractionPauseTimer := 0;
     Enemy.processedHoneypots := {[1%nat]};
     Enemy.distractionTimer := 0; Enemy.revealed := true;
     Enemy.offsetX := 0; Enemy.offsetY := 0; Enemy.size := 8 |}.

(** An agent on the same line that stands one step before node 1, the
    attractor it is drawn to. *)
Definition arriving_enemy : Enemy.t :=
  {| Enemy.type := "BASIC";
     Enemy.config := Config.mkEnemyConfig (Fin 20) (15 # 10) 8 15 false false;
     Enemy.path := [0; 1; 2]%nat; Enemy.nodes := line_nodes;
     Enemy.edges := Some line_edges; Enemy.currentPathIndex := 0%nat;
     Enemy.x := 3; Enemy.y := 4; Enemy.targetX := 3; Enemy.targetY := 4;
     Enemy.health := Fin 20; Enemy.maxHealth := Fin 20;
     Enemy.speed := 15 # 10; Enemy.baseSpeed := 15 # 10;
     Enemy.alive := true; Enemy.reachedGoal := false;
     Enemy.slowFactor := 1; Enemy.slowTimer := 0;
     Enemy.attractionTimer := 2000; Enemy.attractionX := 3; Enemy.attractionY := 4;
     Enemy.attractedToNode := Some 1%nat; Enemy.originalPath := Some [0; 1; 2]%nat;
     Enemy.distractionPauseTimer := 0;
     Enemy.processedHoneypots := ∅;
     Enemy.distractionTimer := 0; Enemy.revealed := true;
     Enemy.offsetX := 0; Enemy.offsetY := 0; Enemy.size := 8 |}.

Lemma C7_witness :
  Enemy.rerouteToNode manhattan 8 1 visited_enemy = Ret (visited_enemy, Enemy.Returned)
  ∧ ∃ e', Enemy.update (λ q, q) 16 arriving_enemy = Ret e'
          ∧ Enemy.processedHoneypots e' = ∅ ∪ {[1%nat]}
          ∧ Enemy.attractedToNode e' = None
          ∧ Enemy.currentPathIndex e' = 1%nat.
Proof.
  split.
  - apply (C7_visited_attractor_idempotent manhattan (λ q, q) 8 visited_enemy).
    vm_compute. reflexivity.
  - destruct (C7_visited_attractor_idempotent manhattan (λ q, q) 8 arriving_enemy)
      as (_ & Harrival & _).
    apply (Harrival 16 1%nat).
    + reflexivity.
    + reflexivity.
    + simpl. repeat constructor.
    + reflexivity.
    + reflexivity.
    + reflexivity.
Defined.

(** ** Comparisons on rationals *)

Lemma Qltb_lt (a b : Q) : Qltb a b = true ↔ a < b.
Proof.
  unfold Qltb. rewrite negb_true_iff. split.
  - intros H. apply Qnot_le_lt. intros Hle. apply Qle_bool_iff in Hle. congruence.
  - intros H. destruct (Qle_bool b a) eqn:E; [|done].
    apply Qle_bool_iff in E. lra.
Qed.

Lemma Qltb_ge (a b : Q) : Qltb a b = false ↔ b <= a.
Proof.
  unfold Qltb. rewrite negb_false_iff. apply Qle_bool_iff.
Qed.

Lemma Qle_bool_gt (a b : Q) : Qle_bool a b = false ↔ b < a.
Proof.
  split.
  - intros H. apply Qnot_le_lt. intros Hle. apply Qle_bool_iff in Hle. congruence.
  - intros H. destruct (Qle_bool a b) eqn:E; [|done]. apply Qle_bool_iff in E. lra.
Qed.

(** ** The Q-table of the learning agent (EconomicRL.js) *)

Section QTable.
Variable rnd : nat → Q.

(** [updateQTable] throws as soon as the row of the current state is missing. *)
Lemma update_missing_current lm w (ag : EconomicRL.agent) (s a : string) :
  EconomicRL.currentState ag = Some s →
  EconomicRL.currentAction ag = Some a →
  s ≠ "" → a ≠ "" →
  EconomicRL.Qtable ag !! s = None →
  EconomicRL.updateQTable rnd lm w ag = Threw.
Proof.
  intros Hs Ha Hs' Ha' Hq. unfold EconomicRL.updateQTable.
  rewrite Hs, Ha. simpl. rewrite !bool_decide_eq_true_2 by done. simpl.
  by rewrite Hq.
Qed.

(** It throws as well when only the row of the next state is missing. *)
Lemma update_missing_next lm w (ag : EconomicRL.agent) (s a : string) row :
  EconomicRL.currentState ag = Some s →
  EconomicRL.currentAction ag = Some a →
  s ≠ "" → a ≠ "" →
  EconomicRL.Qtable ag !! s = Some row →
  EconomicRL.Qtable ag !! EconomicRL.getState lm = None →
  EconomicRL.updateQTable rnd lm w ag = Threw.
Proof.
  intros Hs Ha Hs' Ha' Hq Hn. unfold EconomicRL.updateQTable.
  rewrite Hs, Ha. simpl. rewrite !bool_decide_eq_true_2 by done. simpl.
  by rewrite Hq, Hn.
Qed.

(** The exploration branch of [selectAction] leaves the table as it is. *)
Lemma explore_keeps_table (ag : EconomicRL.agent) (state : string) :
  rnd (EconomicRL.calls ag) < EconomicRL.epsilon ag →
  EconomicRL.Qtable (EconomicRL.selectAction rnd ag state).1 = EconomicRL.Qtable ag.
Proof.
  intros H. unfold EconomicRL.selectAction.
  apply Qltb_lt in H. by rewrite H.
Qed.

End QTable.

(** A level with 1500 credits, and the same level after the player has
    spent 1100 of them. *)
Definition rich_level : EconomicRL.level :=
  {| EconomicRL.credits := 1500; EconomicRL.chokepointCount := 2;
     EconomicRL.nodeCount := 10; EconomicRL.currentTowers := [];
     EconomicRL.packetsBlocked := 0; EconomicRL.packetsLeaked := 0 |}.
Definition poor_level : EconomicRL.level :=
  {| EconomicRL.credits := 400; EconomicRL.chokepointCount := 2;
     EconomicRL.nodeCount := 10; EconomicRL.currentTowers := [];
     EconomicRL.packetsBlocked := 3; EconomicRL.packetsLeaked := 12 |}.
Definition first_wave : EconomicRL.waveResult :=
  {| EconomicRL.blocked := 3; EconomicRL.leaked := 12 |}.

(** C6. On a fresh table, the first episode that explores ([Math.random]
    below epsilon) selects an action without creating the row of the state,
    and the update that follows reads that missing row and throws; and an
    episode that exploits creates the row of the current state only, so the
    update throws when the wave has moved the level to a state not seen
    before. *)
Theorem C6_update_reads_missing_row :
  (let ag := EconomicRL.startEpisode (λ _, 0) rich_level (EconomicRL.new None) in
   EconomicRL.currentState ag = Some "HIGH_SPARSE_BALANCED_ATTACKER_STRONG"
   ∧ EconomicRL.currentAction ag = Some "AGGRESSIVE"
   ∧ EconomicRL.Qtable ag !! "HIGH_SPARSE_BALANCED_ATTACKER_STRONG" = None
   ∧ EconomicRL.updateQTable (λ _, 0) rich_level first_wave ag = Threw)
  ∧
  (let ag := EconomicRL.startEpisode (λ _, 1 # 2) rich_level (EconomicRL.new None) in
   EconomicRL.currentState ag = Some "HIGH_SPARSE_BALANCED_ATTACKER_STRONG"
   ∧ is_Some (EconomicRL.Qtable ag !! "HIGH_SPARSE_BALANCED_ATTACKER_STRONG")
   ∧ EconomicRL.getState poor_level = "LOW_SPARSE_BALANCED_ATTACKER_STRONG"
   ∧ EconomicRL.Qtable ag !! "LOW_SPARSE_BALANCED_ATTACKER_STRONG" = None
   ∧ EconomicRL.updateQTable (λ _, 1 # 2) poor_level first_wave ag = Threw).
Proof.
  split.
  - repeat split; vm_compute; reflexivity.
  - split; [vm_compute; reflexivity|].
    split; [vm_compute; eexists; reflexivity|].
    repeat split; vm_compute; reflexivity.
Qed.

(** ** Repeated Q-updates with a constant reward (EconomicRL.js) *)

(** The number stored for [(s, a)]. *)
Definition valueAt (ag : EconomicRL.agent) (s a : string) : option Q :=
  match EconomicRL.Qtable ag !! s with
  | Some row => match row !! a with
                | Some (EconomicRL.Num q) => Some q
                | _ => None
                end
  | None => None
  end.

(** [updateQTable(waveResult)] called [n] times on the same level state. *)
Fixpoint repeatUpdate (rnd : nat → Q) (lm : EconomicRL.level) (w : EconomicRL.waveResult)
    (n : nat) (ag : EconomicRL.agent) : outcome EconomicRL.agent :=
  match n with
  | O => Ret ag
  | S n' => ag' ← EconomicRL.updateQTable rnd lm w ag; repeatUpdate rnd lm w n' ag'
  end.

Lemma Qpower_S (c : Q) (n : nat) : c ^ Z.of_nat (S n) == c * c ^ Z.of_nat n.
Proof.
  replace (Z.of_nat (S n)) with (1 + Z.of_nat n)%Z by lia.
  rewrite Qpower_plus' by lia. by rewrite Qpower_1_r.
Qed.

Lemma Qpower_unit_interval (c : Q) (n : nat) :
  0 <= c → c <= 1 → 0 <= c ^ Z.of_nat n ∧ c ^ Z.of_nat n <= 1.
Proof.
  intros H0 H1. induction n as [|n [IH0 IH1]].
  - change (Z.of_nat 0) with 0%Z. simpl. split; lra.
  - rewrite Qpower_S. set (p := c ^ Z.of_nat n) in *. clearbody p. split; nra.
Qed.

(** Bernoulli's bound, in the form used below. *)
Lemma Qpower_bernoulli (c : Q) (n : nat) :
  0 <= c → c <= 1 → c ^ Z.of_nat n * (1 + ofNat n * (1 - c)) <= 1.
Proof.
  intros H0 H1. induction n as [|n IH].
  - unfold ofNat. change (Z.of_nat 0) with 0%Z. simpl. unfold inject_Z. lra.
  - destruct (Qpower_unit_interval c n H0 H1) as [Hp0 Hp1].
    rewrite Qpower_S.
    assert (ofNat (S n) == ofNat n + 1) as ->.
    { unfold ofNat. rewrite Nat2Z.inj_succ, <- Z.add_1_r, inject_Z_plus. reflexivity. }
    assert (0 <= ofNat n) by (unfold ofNat; rewrite <- (Zle_Qle 0); lia).
    set (p := c ^ Z.of_nat n) in *. set (m := ofNat n) in *. clearbody p m.
    assert (c * (p * (1 + m * (1 - c))) <= c * 1)
      by (rewrite !(Qmult_comm c); apply Qmult_le_compat_r; assumption).
    assert (c * p <= 1) by nra.
    assert ((c * p) * (1 - c) <= 1 * (1 - c)) by (apply Qmult_le_compat_r; lra).
    lra.
Qed.

(** A factor below 1 shrinks any distance below any tolerance. *)
Lemma Qpower_vanishes (c D eps : Q) :
  0 <= c → c < 1 → 0 <= D → 0 < eps →
  ∃ N : nat, ∀ n, (N ≤ n)%nat → c ^ Z.of_nat n * D < eps.
Proof.
  intros H0 H1 HD He.
  assert (0 < eps * (1 - c)) as Hpos by nra.
  set (b := eps * (1 - c)) in *.
  destruct (Qarchimedean (D / b)) as [p Hp].
  exists (Pos.to_nat p). intros n Hn.
  pose proof (Qpower_bernoulli c n H0 (Qlt_le_weak _ _ H1)) as Hb.
  destruct (Qpower_unit_interval c n H0 (Qlt_le_weak _ _ H1)) as [Hp0 Hp1].
  assert (inject_Z (Z.pos p) <= ofNat n) as Hpn.
  { unfold ofNat. rewrite <- Zle_Qle. lia. }
  assert (0 <= inject_Z (Z.pos p)) as HP0 by (rewrite <- (Zle_Qle 0); lia).
  assert (D < inject_Z (Z.pos p) * b) as HD'.
  { assert (D == D / b * b) as HDe by (clearbody b; field; lra).
    rewrite HDe at 1. apply Qmult_lt_compat_r; done. }
  set (q := c ^ Z.of_nat n) in *. set (m := ofNat n) in *.
  set (P := inject_Z (Z.pos p)) in *. clearbody q m P.
  assert (P * b <= m * b) as H2 by (apply Qmult_le_compat_r; lra).
  assert (m * b == eps * (m * (1 - c))) as H2' by (unfold b; ring).
  assert (0 <= m * (1 - c)) as H4 by nra.
  assert (D * (q * (1 + m * (1 - c))) <= D * 1) as H3
    by (rewrite !(Qmult_comm D); apply Qmult_le_compat_r; done).
  apply Qnot_le_lt. intros Hge.
  assert (eps * (1 + m * (1 - c)) <= (q * D) * (1 + m * (1 - c))) as H5
    by (apply Qmult_le_compat_r; lra).
  assert ((q * D) * (1 + m * (1 - c)) == D * (q * (1 + m * (1 - c)))) as H6 by ring.
  lra.
Qed.

Section QLearning.
Variable rnd : nat → Q.
Variable lm : EconomicRL.level.
Variable w : EconomicRL.waveResult.
Variables s a : string.
Variables α γ : Q.

Let r : Q := EconomicRL.calculateReward lm w.
Let T : Q := r / (1 - γ).
Let c : Q := 1 - α * (1 - γ).

Hypothesis alpha_range : 0 < α ∧ α <= 1.
Hypothesis gamma_range : 0 <= γ ∧ γ < 1.
Hypothesis s_truthy : s ≠ "".
Hypothesis a_truthy : a ≠ "".
Hypothesis a_action : a ∈ EconomicRL.actions.
Hypothesis state_fixed : EconomicRL.getState lm = s.

(** The setting: the episode is at [(s, a)], the entry holds
    [q], and no other action of [s] is worth more than [q] or than the
    fixed point. *)
Definition settled (ag : EconomicRL.agent) (q : Q) : Prop :=
  EconomicRL.alpha ag = α ∧ EconomicRL.gamma ag = γ
  ∧ EconomicRL.currentState ag = Some s
  ∧ EconomicRL.currentAction ag = Some a
  ∧ valueAt ag s a = Some q
  ∧ ∀ b, b ∈ EconomicRL.actions → b ≠ a →
         ∃ v, valueAt ag s b = Some v ∧ v <= q ∧ v <= T.

Lemma fixed_point : T * (1 - γ) == r.
Proof. unfold T. field. lra. Qed.

Lemma factor_range : 0 <= c ∧ c < 1.
Proof. unfold c. split; nra. Qed.

Lemma Qmax_of_le (x y : Q) : x <= y → Qmax x y == y.
Proof. intros H. apply Q.max_r. done. Qed.

Lemma Qmax_of_ge (x y : Q) : y <= x → Qmax x y == x.
Proof. intros H. apply Q.max_l. done. Qed.

(** With the entry of [a] on top, [Math.max] over the row is that entry. *)
Lemma max_is_entry (ag : EconomicRL.agent) (q : Q) row :
  settled ag q →
  EconomicRL.Qtable ag !! s = Some row →
  ∃ m, EconomicRL.cell_max
         [EconomicRL.readCell row "AGGRESSIVE"; EconomicRL.readCell row "BALANCED";
          EconomicRL.readCell row "DEFENSIVE"]
       = Some (EconomicRL.Num m) ∧ m == q.
Proof.
  intros (_ & _ & _ & _ & Hq & Hothers) Hrow.
  unfold valueAt in Hq, Hothers. rewrite Hrow in Hq, Hothers.
  assert (∀ b, b ∈ EconomicRL.actions →
               ∃ v, row !! b = Some (EconomicRL.Num v) ∧ v <= q ∧ (b = a → v = q)) as Hall.
  { intros b Hb. destruct (decide (b = a)) as [->|Hne].
    - exists q. repeat case_match; simplify_eq. split; [done|]. split; [lra|done].
    - destruct (Hothers b Hb Hne) as (v & Hv & Hle & _).
      exists v. repeat case_match; simplify_eq. split; [done|]. split; [done|]. done. }
  destruct (Hall "AGGRESSIVE") as (v1 & E1 & L1 & I1); [repeat constructor|].
  destruct (Hall "BALANCED") as (v2 & E2 & L2 & I2); [repeat constructor|].
  destruct (Hall "DEFENSIVE") as (v3 & E3 & L3 & I3); [repeat constructor|].
  unfold EconomicRL.readCell. rewrite E1, E2, E3. simpl.
  eexists. split; [reflexivity|].
  assert (a = "AGGRESSIVE" ∨ a = "BALANCED" ∨ a = "DEFENSIVE") as Ha.
  { clear -a_action. unfold EconomicRL.actions in a_action.
    rewrite !elem_of_cons, elem_of_nil in a_action. tauto. }
  destruct Ha as [Ha | [Ha | Ha]].
  - rewrite <- (I1 (eq_sym Ha)) in *.
    rewrite (Qmax_of_ge v1 v2) by done. by rewrite Qmax_of_ge.
  - rewrite <- (I2 (eq_sym Ha)) in *.
    rewrite (Qmax_of_le v1 v2) by done. by rewrite Qmax_of_ge.
  - rewrite <- (I3 (eq_sym Ha)) in *.
    apply Qmax_of_le. destruct (Q.max_spec v1 v2) as [[_ ->] | [_ ->]]; done.
Qed.

(** One update in that setting: it returns, the setting persists, and the
    distance to [r / (1 - γ)] is multiplied by [1 - α (1 - γ)]. *)
Lemma update_step (ag : EconomicRL.agent) (q : Q) :
  settled ag q →
  ∃ ag' q', EconomicRL.updateQTable rnd lm w ag = Ret ag'
            ∧ settled ag' q'
            ∧ q' - T == c * (q - T).
Proof.
  intros Hset.
  pose proof Hset as (Hal & Hga & Hs & Ha & Hq & Hothers).
  unfold valueAt in Hq.
  destruct (EconomicRL.Qtable ag !! s) as [row|] eqn:Hrow; [|done].
  destruct (row !! a) as [[q0|]|] eqn:Hca; simplify_eq.
  destruct (max_is_entry ag q row Hset Hrow) as (m & Hm & Hmq).
  unfold EconomicRL.updateQTable. rewrite Hs, Ha. simpl.
  rewrite !bool_decide_eq_true_2 by done. simpl.
  rewrite state_fixed, Hrow. simpl. rewrite Hm. simpl.
  unfold EconomicRL.readCell at 1. rewrite Hca. simpl.
  eexists. eexists. split; [reflexivity|].
  fold r. rewrite Hal, Hga.
  pose proof fixed_point as HT. pose proof factor_range as [Hc0 Hc1].
  assert (q + α * (r + γ * m - q) - T == c * (q - T)) as Hstep.
  { unfold c. rewrite Hmq. rewrite <- HT. ring. }
  split; [|exact Hstep].
  unfold settled, valueAt. simpl. rewrite lookup_insert_eq.
  rewrite lookup_insert_eq. repeat split; try done.
  intros b Hb Hne. rewrite lookup_insert_ne by done.
  destruct (Hothers b Hb Hne) as (v & Hv & Hle & HleT).
  unfold valueAt in Hv. rewrite Hrow in Hv.
  exists v. split; [done|]. split; [|done].
  unfold c in Hstep, Hc0, Hc1. nra.
Qed.

(** [n] updates: closed form of the distance. *)
Lemma update_closed_form (n : nat) (ag : EconomicRL.agent) (q : Q) :
  settled ag q →
  ∃ ag' q', repeatUpdate rnd lm w n ag = Ret ag'
            ∧ valueAt ag' s a = Some q'
            ∧ q' - T == c ^ Z.of_nat n * (q - T).
Proof.
  revert ag q. induction n as [|n IH]; intros ag q Hset.
  - exists ag, q. split; [done|]. split; [apply Hset|]. simpl. ring.
  - destruct (update_step ag q Hset) as (ag1 & q1 & Hu & Hset1 & Hd1).
    destruct (IH ag1 q1 Hset1) as (ag' & q' & Hr & Hv & Hd).
    exists ag', q'. split; [simpl; rewrite Hu; exact Hr|]. split; [done|].
    rewrite Hd, Hd1, Qpower_S. ring.
Qed.

(** C5. At a fixed [(s, a)] whose entry is the largest of its row, with the
    level (hence the reward [r] and the next state) unchanged, [n] updates
    return and leave [Q(s,a)] at distance [(1 - α(1-γ))^n] times the initial
    distance from [r / (1-γ)]; so the entry converges to [r / (1-γ)]. *)
Theorem C5_q_update_converges :
  ∀ (ag : EconomicRL.agent) (q0 : Q),
    settled ag q0 →
    (∀ n, ∃ ag' q', repeatUpdate rnd lm w n ag = Ret ag'
                    ∧ valueAt ag' s a = Some q'
                    ∧ q' - r / (1 - γ) == (1 - α * (1 - γ)) ^ Z.of_nat n * (q0 - r / (1 - γ)))
    ∧ (∀ eps, 0 < eps →
         ∃ N : nat, ∀ n ag' q',
           (N ≤ n)%nat →
           repeatUpdate rnd lm w n ag = Ret ag' →
           valueAt ag' s a = Some q' →
           Qabs (q' - r / (1 - γ)) < eps).
Proof.
  intros ag q0 Hset. split.
  - intros n. apply update_closed_form, Hset.
  - intros eps Heps. pose proof factor_range as [Hc0 Hc1].
    destruct (Qpower_vanishes c (Qabs (q0 - T)) eps Hc0 Hc1 (Qabs_nonneg _) Heps)
      as [N HN].
    exists N. intros n ag' q' Hn Hr Hv.
    destruct (update_closed_form n ag q0 Hset) as (ag2 & q2 & Hr2 & Hv2 & Hd).
    rewrite Hr in Hr2. simplify_eq.
    fold T. rewrite Hd, Qabs_Qmult.
    rewrite (Qabs_pos (c ^ Z.of_nat n)); [by apply HN|].
    apply Qpower_unit_interval; lra.
Qed.

End QLearning.

(** An agent in the middle of an episode on [rich_level], with its action on
    top of the row. *)
Definition settled_agent : EconomicRL.agent :=
  {| EconomicRL.Qtable :=
       {[ "HIGH_SPARSE_BALANCED_ATTACKER_STRONG" :=
            {[ "AGGRESSIVE" := EconomicRL.Num 1; "BALANCED" := EconomicRL.Num 0;
               "DEFENSIVE" := EconomicRL.Num 0 ]} ]};
     EconomicRL.epsilon := Config.RL_epsilon;
     EconomicRL.alpha := Config.RL_alpha;
     EconomicRL.gamma := Config.RL_gamma;
     EconomicRL.currentState := Some "HIGH_SPARSE_BALANCED_ATTACKER_STRONG";
     EconomicRL.currentAction := Some "AGGRESSIVE";
     EconomicRL.episodeReward := 0;
     EconomicRL.totalEpisodes := 1;
     EconomicRL.calls := 2;
     EconomicRL.saves := 0 |}.

Lemma C5_witness :
  ∃ ag' q',
    repeatUpdate (λ _, 1 # 2) rich_level first_wave 3 settled_agent = Ret ag'
    ∧ valueAt ag' "HIGH_SPARSE_BALANCED_ATTACKER_STRONG" "AGGRESSIVE" = Some q'
    ∧ q' - EconomicRL.calculateReward rich_level first_wave / (1 - Config.RL_gamma)
      == (1 - Config.RL_alpha * (1 - Config.RL_gamma)) ^ Z.of_nat 3
         * (1 - EconomicRL.calculateReward rich_level first_wave / (1 - Config.RL_gamma)).
Proof.
  refine (proj1 (C5_q_update_converges (λ _, 1 # 2) rich_level first_wave
            "HIGH_SPARSE_BALANCED_ATTACKER_STRONG" "AGGRESSIVE"
            Config.RL_alpha Config.RL_gamma _ _ _ _ _ _ settled_agent 1 _) 3%nat).
  - vm_compute. split; [reflexivity | discriminate].
  - vm_compute. split; [discriminate | reflexivity].
  - discriminate.
  - discriminate.
  - repeat constructor.
  - vm_compute. reflexivity.
  - unfold settled. repeat split; try reflexivity.
    intros b Hb Hne. unfold EconomicRL.actions in Hb.
    rewrite !elem_of_cons, elem_of_nil in Hb.
    destruct Hb as [-> | [-> | [-> | []]]]; [done| |];
      (exists 0; split; [vm_compute; reflexivity|]; split; vm_compute; discriminate).
Defined.

(** ** Folds *)

Lemma foldl_invariant {A B : Type} (P : A → Prop) (f : A → B → A) (l : list B) (a : A) :
  P a → (∀ a x, x ∈ l → P a → P (f a x)) → P (foldl f a l).
Proof.
  revert a. induction l as [|x l IH]; intros a Ha Hstep; [done|].
  simpl. apply IH.
  - apply Hstep; [left | done].
  - intros a' y Hy. apply Hstep. by right.
Qed.

(** ** The enemy mix of the equilibrium AI (PerfectAI.js) *)

(** The weight the design document gives to an enemy type on a path of
    total damage [D]: [payoff(type, posture) × (100 / (D + 1))], normalized
    over the six types that are not legitimate traffic. *)
Definition threatTypes : list string :=
  ["BASIC"; "FAST"; "TANK"; "STEALTH"; "ENCRYPTED"; "ADAPTIVE"].

Definition rawWeight (posture : PerfectAI.Posture) (D : Q) (type : string) : Q :=
  default 0 (PerfectAI.payoffMatrix type posture) * (100 / (D + 1)).

Definition normalizedWeight (posture : PerfectAI.Posture) (D : Q) (type : string) : Q :=
  rawWeight posture D type
  / (rawWeight posture D "BASIC" + rawWeight posture D "FAST" + rawWeight posture D "TANK"
     + rawWeight posture D "STEALTH" + rawWeight posture D "ENCRYPTED"
     + rawWeight posture D "ADAPTIVE").

(** The sum of the probabilities of a mix. *)
Definition mixTotal (mix : list (string * Q)) : Q :=
  foldr (λ tp acc, tp.2 + acc) 0 mix.

Definition validTower (t : PerfectAI.Tower) : Prop :=
  0 <= PerfectAI.t_damage t ∧ 0 < PerfectAI.t_cooldownMax t.

Section EnemyMix.
Variable hypot : Q → Q → Q.

Lemma candidates_eq : PerfectAI.candidates = threatTypes.
Proof. vm_compute. reflexivity. Qed.

Lemma coverTower_nonneg node acc tower :
  validTower tower → 0 <= acc.1 → 0 <= (PerfectAI.coverTower hypot node acc tower).1.
Proof.
  intros [Hd Hc] Hacc. unfold PerfectAI.coverTower. case_match; [|done]. simpl.
  assert (0 < PerfectAI.t_cooldownMax tower / 1000) as H1.
  { apply Qlt_shift_div_l; lra. }
  assert (0 < 1 / (PerfectAI.t_cooldownMax tower / 1000)) as H2.
  { apply Qlt_shift_div_l; lra. }
  nra.
Qed.

Lemma coverage_nonneg lm towers :
  Forall validTower towers →
  Forall (λ c, 0 <= PerfectAI.damagePerSecond c)
         (PerfectAI.analyzeTowerCoverage hypot lm towers).
Proof.
  intros Hv. unfold PerfectAI.analyzeTowerCoverage.
  apply Forall_fmap, Forall_forall. intros node _. simpl.
  match goal with
  | |- context [foldl ?f ?a ?l] =>
      assert (0 <= (foldl f a l).1) as Hfold
  end.
  { apply (foldl_invariant (λ acc, 0 <= acc.1)); [simpl; lra|].
    intros acc t Ht Hacc. apply coverTower_nonneg; [|done].
    rewrite Forall_forall in Hv. by apply Hv. }
  destruct (foldl _ _ towers). simpl in *. done.
Qed.

Lemma scanNode_nonneg coverage nodes acc :
  Forall (λ c, 0 <= PerfectAI.damagePerSecond c) coverage →
  (∀ t m w, acc = Some (t, m, w) → 0 <= t) →
  ∀ t m w, foldl (PerfectAI.scanNode coverage) acc nodes = Some (t, m, w) → 0 <= t.
Proof.
  intros Hc. revert acc. induction nodes as [|n nodes IH]; intros acc Hacc t m w; simpl.
  - apply Hacc.
  - apply IH. intros t' m' w' Hs.
    unfold PerfectAI.scanNode in Hs.
    destruct acc as [[[t0 m0] w0]|]; [|done]. simpl in Hs.
    destruct (coverage !! n) as [cov|] eqn:E; [|done]. simpl in Hs.
    assert (0 <= PerfectAI.damagePerSecond cov).
    { rewrite Forall_forall in Hc. apply Hc. by eapply list_elem_of_lookup_2. }
    assert (0 <= t0) by (by eapply Hacc).
    case_match; simplify_eq; lra.
Qed.

Lemma insertByDamage_perm x l : PerfectAI.insertByDamage x l ≡ₚ x :: l.
Proof.
  induction l as [|y l IH]; [done|]. simpl. case_match; [done|].
  rewrite IH. apply Permutation_swap.
Qed.

Lemma sortByDamage_perm l : PerfectAI.sortByDamage l ≡ₚ l.
Proof.
  unfold PerfectAI.sortByDamage.
  assert (∀ acc, foldl (λ acc x, PerfectAI.insertByDamage x acc) acc l ≡ₚ acc ++ l) as H.
  { induction l as [|x l IH]; intros acc; simpl.
    - by rewrite app_nil_r.
    - rewrite IH, insertByDamage_perm. simpl. apply Permutation_middle. }
  apply (H []).
Qed.

(** What [findWeakestPaths] returns: one entry per path, carrying its index,
    its nodes and the sum of the damage per second along it. *)
Lemma findWeakestPaths_entries lm coverage infos :
  Forall (λ c, 0 <= PerfectAI.damagePerSecond c) coverage →
  PerfectAI.findWeakestPaths lm coverage = Ret infos →
  NoDup (PerfectAI.pathIndex <$> infos)
  ∧ (∀ i, i ∈ (PerfectAI.pathIndex <$> infos) ↔ (i < length (PerfectAI.lm_paths lm))%nat)
  ∧ ∀ info, info ∈ infos →
      PerfectAI.lm_paths lm !! PerfectAI.pathIndex info = Some (PerfectAI.path info)
      ∧ 0 <= PerfectAI.totalDamage info.
Proof.
  intros Hc. unfold PerfectAI.findWeakestPaths.
  destruct (mapM _ _) as [raw|] eqn:Hm; [|done]. simpl. intros [= <-].
  apply mapM_Some in Hm.
  assert (∀ i info, raw !! i = Some info →
            PerfectAI.pathIndex info = i
            ∧ PerfectAI.lm_paths lm !! i = Some (PerfectAI.path info)
            ∧ 0 <= PerfectAI.totalDamage info) as Hraw.
  { intros i info Hi.
    destruct (Forall2_lookup_r _ _ _ _ _ Hm Hi) as ([j p] & Hjp & Hf).
    rewrite list_lookup_imap in Hjp.
    destruct (PerfectAI.lm_paths lm !! i) as [p'|] eqn:Hp; simplify_eq/=.
    destruct (foldl _ _ _) as [[[t m] w]|] eqn:Hfold; simplify_eq/=.
    repeat split; try done.
    eapply scanNode_nonneg; [done| |exact Hfold]. intros ??? [= <- _ _]. lra. }
  assert (length raw = length (PerfectAI.lm_paths lm)) as Hlen.
  { apply Forall2_length in Hm. by rewrite length_imap in Hm. }
  assert (PerfectAI.pathIndex <$> raw = seq 0 (length raw)) as Hidx.
  { apply list_eq. intros i. rewrite list_lookup_fmap.
    destruct (raw !! i) as [info|] eqn:Hi; simpl.
    - destruct (Hraw i info Hi) as (-> & _).
      symmetry. apply lookup_seq. split; [done|]. by eapply lookup_lt_Some.
    - symmetry. apply lookup_seq_ge. by apply lookup_ge_None. }
  pose proof (sortByDamage_perm raw) as Hperm.
  split; [|split].
  - rewrite Hperm, Hidx. apply NoDup_seq.
  - intros i. rewrite Hperm, Hidx, elem_of_seq. lia.
  - intros info Hin. rewrite Hperm in Hin.
    apply list_elem_of_lookup in Hin as [i Hi].
    destruct (Hraw i info Hi) as (<- & ? & ?). done.
Qed.

End EnemyMix.

Section EnemyMixTheorem.
Variable hypot : Q → Q → Q.

Lemma scanNode_total coverage (nodes : list nat) acc0 :
  (∀ n, n ∈ nodes → (n < length coverage)%nat) →
  is_Some (foldl (PerfectAI.scanNode coverage) (Some acc0) nodes).
Proof.
  revert acc0. induction nodes as [|n nodes IH]; intros acc0 Hr; cbn [foldl]; [done|].
  assert (∃ acc1, PerfectAI.scanNode coverage (Some acc0) n = Some acc1) as [acc1 ->].
  { destruct acc0 as [[t m] w]. unfold PerfectAI.scanNode. simpl.
    destruct (lookup_lt_is_Some_2 coverage n) as [cov ->]; [apply Hr; left|]. simpl.
    case_match; by eexists. }
  apply IH. intros; apply Hr; by right.
Qed.

Lemma findWeakestPaths_total lm coverage :
  length coverage = length (PerfectAI.lm_nodes lm) →
  (∀ p, p ∈ PerfectAI.lm_paths lm →
        ∀ n, n ∈ p → (n < length (PerfectAI.lm_nodes lm))%nat) →
  ∃ infos, PerfectAI.findWeakestPaths lm coverage = Ret infos.
Proof.
  intros Hlen Hr. unfold PerfectAI.findWeakestPaths.
  destruct (mapM _ _) as [raw|] eqn:Hm; [by eexists|].
  exfalso. revert Hm. apply (not_eq_None_Some (mapM _ _)), mapM_is_Some, Forall_forall.
  intros [i p] Hin. simpl.
  apply list_elem_of_lookup in Hin as [j Hj]. rewrite list_lookup_imap in Hj.
  destruct (PerfectAI.lm_paths lm !! j) as [p'|] eqn:Hp; simplify_eq/=.
  match goal with
  | |- context [foldl (PerfectAI.scanNode coverage) _ ?l] =>
      destruct (scanNode_total coverage l (0, Inf, None)) as [[[t m] w] ->]; [|done]
  end.
  intros n Hn. rewrite Hlen. eapply Hr; [|done]. by eapply list_elem_of_lookup_2.
Qed.

Lemma strategy_lookup posture (infos : list PerfectAI.pathInfo) info
    (m : gmap nat PerfectAI.pathStrategy) :
  NoDup (PerfectAI.pathIndex <$> infos) →
  info ∈ infos →
  foldl (λ strategy i, <[PerfectAI.pathIndex i := PerfectAI.strategyFor posture i]> strategy)
        m infos
  !! PerfectAI.pathIndex info = Some (PerfectAI.strategyFor posture info).
Proof.
  revert m. induction infos as [|x l IH]; intros m Hnd Hin; [by apply elem_of_nil in Hin|].
  rewrite fmap_cons in Hnd. apply NoDup_cons in Hnd as [Hx Hnd]. simpl.
  apply elem_of_cons in Hin as [-> | Hin]; [|by apply IH].
  clear IH Hnd.
  assert (∀ m' : gmap nat PerfectAI.pathStrategy,
            m' !! PerfectAI.pathIndex x = Some (PerfectAI.strategyFor posture x) →
            foldl (λ strategy i,
                     <[PerfectAI.pathIndex i := PerfectAI.strategyFor posture i]> strategy)
                  m' l !! PerfectAI.pathIndex x
            = Some (PerfectAI.strategyFor posture x)) as Hkeep.
  { induction l as [|y l IH]; intros m' Hm'; [done|]. simpl.
    rewrite fmap_cons, not_elem_of_cons in Hx. destruct Hx as [Hne Hx].
    apply IH; [done|]. by rewrite lookup_insert_ne. }
  apply Hkeep. by rewrite lookup_insert_eq.
Qed.

Lemma payoff_positive posture type :
  type ∈ threatTypes →
  ∃ p, PerfectAI.payoffMatrix type posture = Some p ∧ 0 < p.
Proof.
  unfold threatTypes. rewrite !elem_of_cons, elem_of_nil.
  intros [-> | [-> | [-> | [-> | [-> | [-> | []]]]]]]; destruct posture;
    (eexists; split; [vm_compute; reflexivity | reflexivity]).
Qed.

(** The mix the code stores is the normalized weight of the design
    document, type by type and in the key order of the payoff matrix, and
    its probabilities add up to 1. *)
Lemma mix_normalized posture (info : PerfectAI.pathInfo) :
  0 <= PerfectAI.totalDamage info →
  Forall2 (λ (tp : string * Q) (type : string),
             tp.1 = type
             ∧ tp.2 == normalizedWeight posture (PerfectAI.totalDamage info) type)
          (PerfectAI.enemyMix (PerfectAI.strategyFor posture info)) threatTypes
  ∧ mixTotal (PerfectAI.enemyMix (PerfectAI.strategyFor posture info)) == 1.
Proof.
  intros HD. unfold PerfectAI.strategyFor. rewrite candidates_eq.
  unfold threatTypes, mixTotal, normalizedWeight, rawWeight, PerfectAI.weightOf.
  cbn -[PerfectAI.payoffMatrix Qdiv Qmult Qplus].
  set (D := PerfectAI.totalDamage info) in *.
  assert (0 < 100 / (D + 1)) as Hk by (apply Qlt_shift_div_l; lra).
  set (k := 100 / (D + 1)) in *. clearbody k.
  destruct (payoff_positive posture "BASIC") as (p1 & E1 & ?); [repeat constructor|].
  destruct (payoff_positive posture "FAST") as (p2 & E2 & ?); [repeat constructor|].
  destruct (payoff_positive posture "TANK") as (p3 & E3 & ?); [repeat constructor|].
  destruct (payoff_positive posture "STEALTH") as (p4 & E4 & ?); [repeat constructor|].
  destruct (payoff_positive posture "ENCRYPTED") as (p5 & E5 & ?); [repeat constructor|].
  destruct (payoff_positive posture "ADAPTIVE") as (p6 & E6 & ?); [repeat constructor|].
  rewrite !E1, !E2, !E3, !E4, !E5, !E6. cbn -[Qdiv Qmult Qplus PerfectAI.payoffMatrix].
  set (W := 0 + p1 * k + p2 * k + p3 * k + p4 * k + p5 * k + p6 * k).
  assert (W == p1 * k + p2 * k + p3 * k + p4 * k + p5 * k + p6 * k) as HW
    by (unfold W; ring).
  assert (0 < W) as HWpos.
  { assert (0 < p1 * k) by (apply Qmult_lt_0_compat; done).
    assert (0 < p2 * k) by (apply Qmult_lt_0_compat; done).
    assert (0 < p3 * k) by (apply Qmult_lt_0_compat; done).
    assert (0 < p4 * k) by (apply Qmult_lt_0_compat; done).
    assert (0 < p5 * k) by (apply Qmult_lt_0_compat; done).
    assert (0 < p6 * k) by (apply Qmult_lt_0_compat; done).
    lra. }
  split.
  - repeat (constructor;
              [split; [reflexivity
                      | cbn -[Qdiv Qmult Qplus PerfectAI.payoffMatrix];
                        rewrite ?E1, ?E2, ?E3, ?E4, ?E5, ?E6;
                        cbn -[Qdiv Qmult Qplus]; rewrite <- HW; reflexivity]|]).
    constructor.
  - clearbody W.
    assert (p1 * k / W + (p2 * k / W + (p3 * k / W + (p4 * k / W
              + (p5 * k / W + (p6 * k / W + 0)))))
            == (p1 * k + p2 * k + p3 * k + p4 * k + p5 * k + p6 * k) * / W) as ->
      by (unfold Qdiv; ring).
    rewrite <- HW. field. lra.
Qed.

Lemma posture_blocker_heavy (towers : list PerfectAI.Tower) :
  PerfectAI.countType "Firewall" towers = 3%nat →
  PerfectAI.countType "IDS" towers = 0%nat →
  PerfectAI.postureOf towers = PerfectAI.FW_HEAVY.
Proof. intros Hf Hi. unfold PerfectAI.postureOf. rewrite Hf, Hi. reflexivity. Qed.

(** C3. For a committed snapshot of towers (damage not negative, cooldown
    positive) and paths over the nodes of the level, the analysis returns;
    every path has its entry, whose enemy mix gives each of the six threat
    types the weight [payoff(type, posture) × (100 / (totalDamage + 1))]
    normalized over the six, so that the mix sums to 1 (in particular within
    1e-6); and three Firewalls with no IDS is the posture [FW_HEAVY]. *)
Theorem C3_enemy_mix_normalized :
  ∀ (lm : PerfectAI.level) (towers : list PerfectAI.Tower),
    Forall validTower towers →
    (∀ p, p ∈ PerfectAI.lm_paths lm →
          ∀ n, n ∈ p → (n < length (PerfectAI.lm_nodes lm))%nat) →
    ∃ res,
      PerfectAI.analyzeAndGenerate hypot lm towers = Ret res
      ∧ PerfectAI.gen_posture res = PerfectAI.postureOf (PerfectAI.lm_committedTowers lm)
      ∧ (PerfectAI.countType "Firewall" (PerfectAI.lm_committedTowers lm) = 3%nat →
         PerfectAI.countType "IDS" (PerfectAI.lm_committedTowers lm) = 0%nat →
         PerfectAI.gen_posture res = PerfectAI.FW_HEAVY)
      ∧ ∀ i p, PerfectAI.lm_paths lm !! i = Some p →
          ∃ info strat,
            info ∈ PerfectAI.a_pathAnalysis (PerfectAI.gen_analysis res)
            ∧ PerfectAI.pathIndex info = i
            ∧ PerfectAI.path info = p
            ∧ PerfectAI.gen_strategy res !! i = Some strat
            ∧ Forall2 (λ (tp : string * Q) (type : string),
                         tp.1 = type
                         ∧ tp.2 == normalizedWeight (PerfectAI.gen_posture res)
                                     (PerfectAI.totalDamage info) type)
                      (PerfectAI.enemyMix strat) threatTypes
            ∧ mixTotal (PerfectAI.enemyMix strat) == 1
            ∧ Qabs (mixTotal (PerfectAI.enemyMix strat) - 1) <= 1 # 1000000.
Proof.
  intros lm towers Hv Hpaths.
  pose proof (coverage_nonneg hypot lm towers Hv) as Hcov.
  destruct (findWeakestPaths_total lm (PerfectAI.analyzeTowerCoverage hypot lm towers))
    as [infos Hinfos]; [|done|].
  { unfold PerfectAI.analyzeTowerCoverage. by rewrite length_fmap. }
  destruct (findWeakestPaths_entries lm _ infos Hcov Hinfos) as (Hnd & Hdom & Hent).
  unfold PerfectAI.analyzeAndGenerate. rewrite Hinfos. simpl.
  eexists. split; [reflexivity|]. simpl. split; [done|].
  split; [apply posture_blocker_heavy|].
  intros i p Hp.
  assert (i ∈ PerfectAI.pathIndex <$> infos) as Hi.
  { apply Hdom. by eapply lookup_lt_Some. }
  apply list_elem_of_fmap in Hi as (info & -> & Hin).
  destruct (Hent info Hin) as [Hpath HD].
  destruct (mix_normalized (PerfectAI.postureOf (PerfectAI.lm_committedTowers lm)) info HD)
    as [Hmix Hsum].
  exists info, (PerfectAI.strategyFor (PerfectAI.postureOf (PerfectAI.lm_committedTowers lm)) info).
  split; [done|]. split; [done|]. split; [congruence|].
  split; [by apply strategy_lookup|].
  split; [done|]. split; [done|].
  set (total := mixTotal _) in *. clearbody total.
  apply (proj2 (Qabs_Qle_condition (total - 1) (1 # 1000000))).
  split; lra.
Qed.

End EnemyMixTheorem.

(** Three Firewalls on the line [0 - 1 - 2], all within range of node 1. *)
Definition three_firewalls : list PerfectAI.Tower :=
  [PerfectAI.mkTower 3 4 "Firewall" 18 120 750;
   PerfectAI.mkTower 3 5 "Firewall" 18 120 750;
   PerfectAI.mkTower 4 4 "Firewall" 18 120 750].
Definition line_level : PerfectAI.level :=
  PerfectAI.mkLevel line_nodes [[0; 1; 2]%nat] three_firewalls.

Lemma C3_witness :
  ∃ res,
    PerfectAI.analyzeAndGenerate manhattan line_level three_firewalls = Ret res
    ∧ PerfectAI.gen_posture res = PerfectAI.FW_HEAVY
    ∧ ∃ strat, PerfectAI.gen_strategy res !! 0%nat = Some strat
               ∧ mixTotal (PerfectAI.enemyMix strat) == 1.
Proof.
  destruct (C3_enemy_mix_normalized manhattan line_level three_firewalls)
    as (res & Hres & _ & Hposture & Hmix).
  - repeat constructor; vm_compute; discriminate.
  - intros p Hp n Hn. simpl in Hp. rewrite elem_of_cons, elem_of_nil in Hp.
    destruct Hp as [-> | []].
    rewrite !elem_of_cons, elem_of_nil in Hn. simpl. lia.
  - exists res. split; [exact Hres|]. split; [apply Hposture; reflexivity|].
    destruct (Hmix 0%nat [0; 1; 2]%nat eq_refl) as (info & strat & _ & _ & _ & Hs & _ & Hsum & _).
    exists strat. split; [exact Hs | exact Hsum].
Defined.

(** ** The phase controller (LevelManagerStackelberg.js, PlayingState.js,
    GameEngine.js) *)

Section Phases.
Import LevelManagerStackelberg GameEngine.
Variable hypot : Q → Q → Q.

(** The timer alone decides whether [updatePhase] leaves the training
    phase; the analysis is neither read nor written. *)
Lemma updatePhase_training (dt : Q) (l : LevelManagerStackelberg.t) :
  currentPhase l = training →
  aiAnalysis (updatePhase dt l) = aiAnalysis l
  ∧ requestedTimeouts (updatePhase dt l) = requestedTimeouts l
  ∧ ((phases_training l - floor ((phaseTimer l + dt) / 1000) <= 0
      ∧ currentPhase (updatePhase dt l) = battle
      ∧ battleActive (updatePhase dt l) = true
      ∧ phaseTimer (updatePhase dt l) = 0)
     ∨ (0 < phases_training l - floor ((phaseTimer l + dt) / 1000)
        ∧ currentPhase (updatePhase dt l) = training
        ∧ phaseTimer (updatePhase dt l) = phaseTimer l + dt)).
Proof.
  intros Hp. unfold updatePhase, getPhaseDuration. rewrite Hp. simpl.
  destruct (Qle_bool _ 0) eqn:E.
  - apply Qle_bool_iff in E. unfold advancePhase. simpl. rewrite ?Hp. simpl.
    repeat split; try done. left. done.
  - apply Qle_bool_gt in E. simpl. repeat split; try done. right. done.
Qed.

Lemma updatePhase_commitment (dt : Q) (l : LevelManagerStackelberg.t) :
  currentPhase l = commitment →
  aiAnalysis (updatePhase dt l) = aiAnalysis l
  ∧ ((currentPhase (updatePhase dt l) = training
      ∧ requestedTimeouts (updatePhase dt l) = requestedTimeouts l ++ [3000]
      ∧ phaseTimer (updatePhase dt l) = 0)
     ∨ (currentPhase (updatePhase dt l) = commitment
        ∧ requestedTimeouts (updatePhase dt l) = requestedTimeouts l)).
Proof.
  intros Hp. unfold updatePhase, getPhaseDuration. rewrite Hp. simpl.
  destruct (Qle_bool _ 0) eqn:E.
  - unfold advancePhase. simpl. rewrite ?Hp. simpl. split; [done|]. by left.
  - simpl. split; [done|]. by right.
Qed.

Lemma updatePhase_late (dt : Q) (l : LevelManagerStackelberg.t) :
  currentPhase l = battle ∨ currentPhase l = scoring →
  aiAnalysis (updatePhase dt l) = aiAnalysis l
  ∧ requestedTimeouts (updatePhase dt l) = requestedTimeouts l
  ∧ (currentPhase (updatePhase dt l) = battle ∨ currentPhase (updatePhase dt l) = scoring).
Proof.
  intros Hp. unfold updatePhase, getPhaseDuration.
  destruct Hp as [Hp | Hp]; rewrite Hp; simpl;
    destruct (Qle_bool _ 0) eqn:E; unfold advancePhase; simpl; rewrite ?Hp; simpl; auto.
Qed.

(** In every phase: [updatePhase] leaves the analysis alone, and it requests
    a timeout, of 3000 ms, exactly when it moves from the commitment phase
    to the training phase. *)
Lemma updatePhase_requests (dt : Q) (l : LevelManagerStackelberg.t) :
  aiAnalysis (updatePhase dt l) = aiAnalysis l
  ∧ (requestedTimeouts (updatePhase dt l) = requestedTimeouts l
     ∨ (requestedTimeouts (updatePhase dt l) = requestedTimeouts l ++ [3000]
        ∧ currentPhase l = commitment
        ∧ currentPhase (updatePhase dt l) = training)).
Proof.
  destruct (currentPhase l) eqn:Hp.
  - destruct (updatePhase_commitment dt l Hp) as [Ha [(Ht & Hr & _) | (_ & Hr)]];
      (split; [exact Ha|]); [right | left]; done.
  - destruct (updatePhase_training dt l Hp) as (Ha & Hr & _). split; [exact Ha | by left].
  - destruct (updatePhase_late dt l) as (Ha & Hr & _); [by left|].
    split; [exact Ha | by left].
  - destruct (updatePhase_late dt l) as (Ha & Hr & _); [by right|].
    split; [exact Ha | by left].
Qed.

(** The spawn check reads the phase and the active flag, never the analysis. *)
Lemma shouldSpawnEnemy_fields (dt : Q) (l : LevelManagerStackelberg.t) :
  let r := shouldSpawnEnemy dt l in
  currentPhase r.1 = currentPhase l
  ∧ aiAnalysis r.1 = aiAnalysis l
  ∧ phaseTimer r.1 = phaseTimer l
  ∧ requestedTimeouts r.1 = requestedTimeouts l
  ∧ packetsSpawned r.1 = packetsSpawned l
  ∧ phases_training r.1 = phases_training l
  ∧ (r.2 = true → currentPhase l = battle ∧ battleActive l = true).
Proof.
  unfold shouldSpawnEnemy, baseShouldSpawnEnemy. simpl.
  destruct (bool_decide (currentPhase l = battle)) eqn:Eb; simpl;
    [|repeat split; done].
  apply bool_decide_eq_true in Eb.
  destruct (battleActive l) eqn:Ea; simpl; [|repeat split; done].
  destruct (Qle_bool _ _); simpl; repeat split; done.
Qed.

Lemma shouldSpawnEnemy_ignores_analysis (dt : Q) (l : LevelManagerStackelberg.t) a :
  (shouldSpawnEnemy dt (withAnalysis l a [])).2 = (shouldSpawnEnemy dt l).2.
Proof.
  unfold shouldSpawnEnemy, baseShouldSpawnEnemy. simpl.
  repeat case_match; simplify_eq/=; try done; congruence.
Qed.

(** The listeners of the playing state leave the level manager and the
    towers alone. *)
Lemma handle_levelManager (evs : list event) (s : PlayingState.t) :
  PlayingState.levelManager (foldl PlayingState.handle s evs) = PlayingState.levelManager s
  ∧ PlayingState.towers (foldl PlayingState.handle s evs) = PlayingState.towers s.
Proof.
  revert s. induction evs as [|ev evs IH]; intros s; [done|]. simpl.
  destruct (IH (PlayingState.handle s ev)) as [-> ->]. by destruct ev.
Qed.

(** The part of [PlayingState.update] that is modelled. *)
Lemma update_fields (dt : Q) (s : PlayingState.t) :
  let l := PlayingState.levelManager s in
  let l' := PlayingState.levelManager (PlayingState.update dt s) in
  (PlayingState.paused s = true → PlayingState.update dt s = s)
  ∧ (PlayingState.paused s = false →
       currentPhase l' = currentPhase (updatePhase dt l)
       ∧ aiAnalysis l' = aiAnalysis (updatePhase dt l)
       ∧ phaseTimer l' = phaseTimer (updatePhase dt l)
       ∧ requestedTimeouts l' = requestedTimeouts (updatePhase dt l)
       ∧ (packetsSpawned l' = packetsSpawned (updatePhase dt l)
          ∨ (packetsSpawned l' = S (packetsSpawned (updatePhase dt l))
             ∧ currentPhase (updatePhase dt l) = battle
             ∧ battleActive (updatePhase dt l) = true))).
Proof.
  unfold PlayingState.update. split; [by intros ->|]. intros ->.
  pose proof (shouldSpawnEnemy_fields dt (updatePhase dt (PlayingState.levelManager s))) as H.
  simpl in H.
  destruct (shouldSpawnEnemy dt (updatePhase dt (PlayingState.levelManager s)))
    as [l2 spawn]; simpl in H.
  destruct H as (H1 & H2 & H3 & H4 & H5 & _ & Hg).
  match goal with
  | |- context [foldl PlayingState.handle ?s0 ?evs] =>
      destruct (handle_levelManager evs s0) as [-> _]
  end.
  cbn [PlayingState.levelManager PlayingState.withLevelManager].
  destruct (spawn && negb (bool_decide (paths l2 = []))) eqn:Es.
  - apply andb_true_iff in Es as [-> _].
    cbn [currentPhase aiAnalysis phaseTimer requestedTimeouts packetsSpawned withSpawn].
    repeat split; try done. right. split; [by rewrite H5|]. by apply Hg.
  - repeat split; try done. by left.
Qed.

(** The level the analysis runs on: every path stays inside the node list. *)
Definition pathsInRange (l : LevelManagerStackelberg.t) : Prop :=
  ∀ p, p ∈ paths l → ∀ n, n ∈ p → (n < length (nodes l))%nat.

Lemma analysisCallback_fields (l : LevelManagerStackelberg.t) :
  let l' := analysisCallback hypot l in
  currentPhase l' = currentPhase l
  ∧ phaseTimer l' = phaseTimer l
  ∧ requestedTimeouts l' = requestedTimeouts l
  ∧ packetsSpawned l' = packetsSpawned l
  ∧ phases_training l' = phases_training l
  ∧ nodes l' = nodes l ∧ paths l' = paths l
  ∧ (is_Some (aiAnalysis l) → is_Some (aiAnalysis l'))
  ∧ (pathsInRange l → is_Some (aiAnalysis l')).
Proof.
  unfold analysisCallback. simpl.
  destruct (PerfectAI.analyzeAndGenerate _ _ _) as [a| |] eqn:E; simpl;
    repeat split; try done; try (intros; by eexists).
  all: intros Hr; exfalso.
  all: unfold PerfectAI.analyzeAndGenerate in E.
  all: destruct (findWeakestPaths_total
             (PerfectAI.mkLevel (nodes l) (paths l) (committedTowers l))
             (PerfectAI.analyzeTowerCoverage hypot
                (PerfectAI.mkLevel (nodes l) (paths l) (committedTowers l))
                (committedTowers l))) as [infos Hi];
    [unfold PerfectAI.analyzeTowerCoverage; by rewrite length_fmap | exact Hr |].
  all: rewrite Hi in E; simpl in E; done.
Qed.

End Phases.

Section PhaseSteps.
Import LevelManagerStackelberg GameEngine.
Variable hypot : Q → Q → Q.

(** The fields no method of the level manager assigns after construction. *)
Definition static (l : LevelManagerStackelberg.t) : list Node * list (list nat) * Q :=
  (nodes l, paths l, phases_training l).

Lemma updatePhase_static dt l :
  static (updatePhase dt l) = static l
  ∧ packetsSpawned (updatePhase dt l) = packetsSpawned l.
Proof.
  unfold updatePhase, advancePhase, static.
  destruct (Qle_bool _ 0); simpl; [|done].
  destruct (currentPhase l); done.
Qed.

Lemma shouldSpawnEnemy_static dt l :
  static (shouldSpawnEnemy dt l).1 = static l.
Proof.
  unfold shouldSpawnEnemy, baseShouldSpawnEnemy.
  repeat case_match; done.
Qed.

Lemma update_static dt (s : PlayingState.t) :
  static (PlayingState.levelManager (PlayingState.update dt s))
  = static (PlayingState.levelManager s).
Proof.
  unfold PlayingState.update. destruct (PlayingState.paused s); [done|].
  destruct (updatePhase_static dt (PlayingState.levelManager s)) as [Hs _].
  pose proof (shouldSpawnEnemy_static dt (updatePhase dt (PlayingState.levelManager s)))
    as Hsp.
  destruct (shouldSpawnEnemy dt (updatePhase dt (PlayingState.levelManager s)))
    as [l2 spawn]; simpl in Hsp.
  match goal with
  | |- context [foldl PlayingState.handle ?s0 ?evs] =>
      destruct (handle_levelManager evs s0) as [-> _]
  end.
  cbn [PlayingState.levelManager PlayingState.withLevelManager].
  rewrite <- Hs, <- Hsp. by destruct (spawn && _).
Qed.

(** What a frame does to the level manager and to the pending timeouts. *)
Lemma frame_fields (w : world) (T : Q) :
  let w' := frame w T in
  aiAnalysis (lm w') = aiAnalysis (lm w)
  ∧ requestedTimeouts (lm w') = []
  ∧ static (lm w') = static (lm w)
  ∧ (requestedTimeouts (lm w) = [] →
       timers w' = timers w
       ∨ (timers w' = timers w ++ [T + 3000]
          ∧ currentPhase (lm w) = commitment
          ∧ currentPhase (lm w') = training))
  ∧ ((packetsSpawned (lm w) < packetsSpawned (lm w'))%nat →
       currentPhase (lm w') = battle).
Proof.
  unfold frame, lm. cbn [state timers PlayingState.levelManager PlayingState.withLevelManager].
  set (dt := if Qltb 100 (T - lastTime w) then 100 else T - lastTime w).
  pose proof (update_fields dt (state w)) as [Up1 Up2]. simpl in Up1, Up2.
  pose proof (update_static dt (state w)) as Ust.
  set (l2 := PlayingState.levelManager (PlayingState.update dt (state w))) in *.
  cbn [aiAnalysis requestedTimeouts currentPhase packetsSpawned withPhase].
  destruct (PlayingState.paused (state w)) eqn:Epause.
  - unfold l2. rewrite (Up1 eq_refl).
    split; [done|]. split; [done|]. split; [done|]. split; [|lia].
    intros ->. left. simpl. by rewrite app_nil_r.
  - destruct (Up2 eq_refl) as (U1 & U2 & U3 & U4 & U5).
    destruct (updatePhase_requests dt (PlayingState.levelManager (state w))) as [Ha Hr].
    destruct (updatePhase_static dt (PlayingState.levelManager (state w))) as [_ Hsp].
    split; [congruence|]. split; [done|]. split; [exact Ust|]. split.
    + intros Hreq. rewrite U4, U1.
      destruct Hr as [-> | (-> & Hc & Ht)]; rewrite Hreq.
      * left. simpl. by rewrite app_nil_r.
      * right. done.
    + intros Hlt. destruct U5 as [U5 | (_ & Hb & _)]; [lia | congruence].
Qed.

Lemma lm_withLevelManager (a : Q) (s : PlayingState.t) (l : LevelManagerStackelberg.t)
    (r : list Q) :
  lm {| lastTime := a; state := PlayingState.withLevelManager s l; timers := r |} = l.
Proof. reflexivity. Qed.

(** What the host's run of a timeout does. *)
Lemma runTimeout_fields (w : world) (now : Q) :
  let w' := runTimeout hypot w now in
  (w' = w
   ∨ ∃ due, timers w = due :: timers w' ∧ due <= now
            ∧ lm w' = analysisCallback hypot (lm w))
  ∧ requestedTimeouts (lm w') = requestedTimeouts (lm w)
  ∧ currentPhase (lm w') = currentPhase (lm w)
  ∧ packetsSpawned (lm w') = packetsSpawned (lm w)
  ∧ static (lm w') = static (lm w)
  ∧ (is_Some (aiAnalysis (lm w)) → is_Some (aiAnalysis (lm w'))).
Proof.
  unfold runTimeout. destruct (timers w) as [|due rest] eqn:Et.
  { split; [by left|]. done. }
  destruct (Qle_bool due now) eqn:Ed; [|split; [by left | done]].
  apply Qle_bool_iff in Ed.
  pose proof (analysisCallback_fields hypot (lm w))
    as (H1 & H2 & H3 & H4 & H5 & H6 & H7 & H8 & _). simpl in *.
  rewrite !lm_withLevelManager. cbn [timers].
  split; [right; exists due; done|].
  repeat split; try done. unfold static. by rewrite H5, H6, H7.
Qed.

(** The player's moves leave the phase, the analysis and the timeouts alone. *)
Lemma placeTower_fields (tower : PerfectAI.Tower) (s : PlayingState.t) :
  let l := PlayingState.levelManager s in
  let l' := PlayingState.levelManager (PlayingState.placeTower tower s) in
  aiAnalysis l' = aiAnalysis l
  ∧ requestedTimeouts l' = requestedTimeouts l
  ∧ currentPhase l' = currentPhase l
  ∧ packetsSpawned l' = packetsSpawned l
  ∧ static l' = static l.
Proof.
  unfold PlayingState.placeTower. by destruct (PlayingState.towersLocked s).
Qed.

(** A packet is counted only by a step that ends in the battle phase. *)
Lemma spawn_in_battle (w : world) (i : input) :
  (packetsSpawned (lm w) < packetsSpawned (lm (step hypot w i)))%nat →
  currentPhase (lm (step hypot w i)) = battle.
Proof.
  destruct i as [T|now| |tower]; cbn [step].
  - apply frame_fields.
  - destruct (runTimeout_fields w now) as (_ & _ & _ & -> & _). lia.
  - unfold lm. simpl. lia.
  - unfold lm. cbn [state]. 
    destruct (placeTower_fields tower (state w)) as (_ & _ & _ & -> & _). lia.
Qed.

(** No step removes an analysis, and only the run of a timeout stores one. *)
Lemma step_analysis (w : world) (i : input) :
  (is_Some (aiAnalysis (lm w)) → is_Some (aiAnalysis (lm (step hypot w i))))
  ∧ ((∀ now, i ≠ RunTimeout now) → aiAnalysis (lm (step hypot w i)) = aiAnalysis (lm w)).
Proof.
  destruct i as [T|now| |tower]; cbn [step].
  - destruct (frame_fields w T) as (-> & _). done.
  - split; [apply runTimeout_fields|]. intros Hne. by destruct (Hne now).
  - done.
  - unfold lm. cbn [state].
    destruct (placeTower_fields tower (state w)) as (-> & _). done.
Qed.

Lemma step_static (w : world) (i : input) :
  static (lm (step hypot w i)) = static (lm w)
  ∧ (requestedTimeouts (lm w) = [] → requestedTimeouts (lm (step hypot w i)) = []).
Proof.
  destruct i as [T|now| |tower]; cbn [step].
  - destruct (frame_fields w T) as (_ & Hr & Hs & _). done.
  - destruct (runTimeout_fields w now) as (_ & -> & _ & _ & Hs & _). done.
  - done.
  - unfold lm. cbn [state].
    destruct (placeTower_fields tower (state w)) as (_ & -> & _ & _ & Hs). done.
Qed.

End PhaseSteps.

Section PhaseRuns.
Import LevelManagerStackelberg GameEngine.
Variable hypot : Q → Q → Q.
Variable level : LevelManagerStackelberg.t.

(** [due] is the due time of a timeout requested by a frame of [inputs] that
    opened the training phase. *)
Definition requestedBy (inputs : list input) (due : Q) : Prop :=
  ∃ b1 T b2,
    inputs = b1 ++ Frame T :: b2
    ∧ currentPhase (lm (run hypot (start level) b1)) = commitment
    ∧ currentPhase (lm (run hypot (start level) (b1 ++ [Frame T]))) = training
    ∧ due = T + 3000.

(** In [inputs] the host has run a timeout 3000 ms or more after the
    timestamp of a frame that opened the training phase. *)
Definition delivered (inputs : list input) : Prop :=
  ∃ b1 T b2 now b3,
    inputs = b1 ++ Frame T :: b2 ++ RunTimeout now :: b3
    ∧ currentPhase (lm (run hypot (start level) b1)) = commitment
    ∧ currentPhase (lm (run hypot (start level) (b1 ++ [Frame T]))) = training
    ∧ T + 3000 <= now.

Lemma requestedBy_snoc inputs i due :
  requestedBy inputs due → requestedBy (inputs ++ [i]) due.
Proof.
  intros (b1 & T & b2 & -> & Hc & Ht & Hd).
  exists b1, T, (b2 ++ [i]). by rewrite <- app_assoc.
Qed.

Lemma delivered_snoc inputs i :
  delivered inputs → delivered (inputs ++ [i]).
Proof.
  intros (b1 & T & b2 & now & b3 & -> & Hc & Ht & Hd).
  exists b1, T, b2, now, (b3 ++ [i]).
  split; [|done]. rewrite <- app_assoc. simpl. by rewrite <- app_assoc.
Qed.

Lemma run_snoc (w : world) inputs i :
  run hypot w (inputs ++ [i]) = step hypot (run hypot w inputs) i.
Proof. unfold run. by rewrite foldl_app. Qed.

(** Over a run of the engine on a level with no timeout requested before it
    starts: every pending timeout was requested by a frame that opened the
    training phase, and an analysis is there only if the host has run one. *)
Lemma run_delivery (inputs : list input) :
  requestedTimeouts level = [] → aiAnalysis level = None →
  let w := run hypot (start level) inputs in
  requestedTimeouts (lm w) = []
  ∧ (∀ due, due ∈ timers w → requestedBy inputs due)
  ∧ (is_Some (aiAnalysis (lm w)) → delivered inputs).
Proof.
  intros Hreq0 Hnone. induction inputs as [|i inputs IH] using rev_ind.
  { cbn. rewrite Hreq0, Hnone. split; [done|]. split.
    - intros due Hin. by apply elem_of_nil in Hin.
    - by intros [a Ha]. }
  cbn zeta in *. rewrite run_snoc.
  set (w := run hypot (start level) inputs) in *.
  destruct IH as (Hreq & Htimers & Hsome).
  split; [by apply step_static|].
  destruct i as [T|now| |tower]; cbn [step].
  - destruct (frame_fields w T) as (Ha & _ & _ & Ht & _). specialize (Ht Hreq).
    split.
    + intros due Hin. destruct Ht as [Ht | (Ht & Hc & Htr)]; rewrite Ht in Hin.
      * by apply requestedBy_snoc, Htimers.
      * apply elem_of_app in Hin as [Hin | Hin]; [by apply requestedBy_snoc, Htimers|].
        apply list_elem_of_singleton in Hin as ->.
        exists inputs, T, []. split; [done|]. split; [exact Hc|].
        split; [|done]. rewrite run_snoc. exact Htr.
    + rewrite Ha. intros Hs. by apply delivered_snoc, Hsome.
  - destruct (runTimeout_fields hypot w now) as ([-> | (due & Ht & Hle & Hlm)] & _).
    { split; [intros due Hin; by apply requestedBy_snoc, Htimers|].
      intros Hs. by apply delivered_snoc, Hsome. }
    split.
    + intros d Hin. apply requestedBy_snoc, Htimers. rewrite Ht. by right.
    + intros _. destruct (Htimers due) as (b1 & T & b2 & -> & Hc & Htr & ->).
      { rewrite Ht. by left. }
      exists b1, T, b2, now, []. split; [by rewrite <- app_assoc | done].
  - split; [intros due Hin; by apply requestedBy_snoc, Htimers|].
    intros Hs. by apply delivered_snoc, Hsome.
  - split; [intros due Hin; by apply requestedBy_snoc, Htimers|].
    unfold lm. cbn [state].
    destruct (placeTower_fields tower (state w)) as (-> & _).
    intros Hs. by apply delivered_snoc, Hsome.
Qed.

Lemma run_static (inputs : list input) :
  static (lm (run hypot (start level) inputs)) = static level.
Proof.
  unfold run. apply (foldl_invariant (λ w, static (lm w) = static level)); [done|].
  intros w i _ Hw. destruct (step_static hypot w i) as [-> _]. exact Hw.
Qed.

End PhaseRuns.

Section PhaseTheorem.
Import LevelManagerStackelberg GameEngine.
Variable hypot : Q → Q → Q.

(** C1, as the code has it. Leaving the training phase is decided by the
    phase timer alone, a tick that does so leaves the analysis as it is, and
    the spawn check reads only the phase and the active flag: nothing waits
    for the deferred analysis. Over every run of the engine on a fresh level
    (frames with any timestamps, the host running the pending timeout when
    it chooses but not before it is due, pauses and tower placements in
    between): a packet is counted only by a step that ends in the battle
    phase; an analysis is there only if the host has run a timeout 3000 ms or
    more after the timestamp of the frame that opened the training phase; a
    timeout that is due and run stores an analysis when the paths of the
    level stay inside its node list; and no step removes an analysis, nor
    does any step but the run of a timeout change it. *)
Theorem C1_battle_waits_only_for_timer :
  ∀ (commit train fight : Q) (ns : list Node) (ps : list (list nat)) (k : nat)
    (health interval : Q) (inputs : list input),
    let level := LevelManagerStackelberg.new commit train fight ns ps k health interval in
    let w := run hypot (start level) inputs in
    (∀ l dt, currentPhase l = training →
       (currentPhase (updatePhase dt l) = battle
        ↔ phases_training l - floor ((phaseTimer l + dt) / 1000) <= 0)
       ∧ aiAnalysis (updatePhase dt l) = aiAnalysis l)
    ∧ (∀ l dt a,
         (shouldSpawnEnemy dt (withAnalysis l a [])).2 = (shouldSpawnEnemy dt l).2)
    ∧ (∀ before i after, inputs = before ++ i :: after →
         (packetsSpawned (lm (run hypot (start level) before))
          < packetsSpawned (lm (run hypot (start level) (before ++ [i]))))%nat →
         currentPhase (lm (run hypot (start level) (before ++ [i]))) = battle)
    ∧ (is_Some (aiAnalysis (lm w)) →
       ∃ b1 T b2 now b3,
         inputs = b1 ++ Frame T :: b2 ++ RunTimeout now :: b3
         ∧ currentPhase (lm (run hypot (start level) b1)) = commitment
         ∧ currentPhase (lm (run hypot (start level) (b1 ++ [Frame T]))) = training
         ∧ T + 3000 <= now)
    ∧ ((∀ p, p ∈ ps → ∀ n, n ∈ p → (n < length ns)%nat) →
       ∀ due rest now, timers w = due :: rest → due <= now →
         is_Some (aiAnalysis (lm (step hypot w (RunTimeout now)))))
    ∧ (∀ i, (is_Some (aiAnalysis (lm w)) → is_Some (aiAnalysis (lm (step hypot w i))))
            ∧ ((∀ now, i ≠ RunTimeout now) →
               aiAnalysis (lm (step hypot w i)) = aiAnalysis (lm w))).
Proof.
  intros commit train fight ns ps k health interval inputs level w.
  split; [|split; [|split; [|split; [|split]]]].
  - intros l dt Hp.
    destruct (updatePhase_training dt l Hp) as (Ha & _ & [(Hle & Hb & _) | (Hgt & Hb & _)]).
    + split; [|done]. split; done.
    + split; [|done]. split; [congruence | lra].
  - intros l dt a. apply shouldSpawnEnemy_ignores_analysis.
  - intros before i after _. rewrite run_snoc. apply spawn_in_battle.
  - intros Hs. by apply (run_delivery hypot level inputs).
  - intros Hrange due rest now Ht Hle. cbn [step]. unfold runTimeout.
    rewrite Ht. rewrite (proj2 (Qle_bool_iff due now) Hle).
    unfold lm at 1. cbn [state PlayingState.levelManager PlayingState.withLevelManager].
    apply analysisCallback_fields.
    pose proof (run_static hypot level inputs) as Hst. fold w in Hst.
    unfold static in Hst. injection Hst as Hn Hp _.
    unfold pathsInRange. rewrite Hn, Hp. exact Hrange.
  - intros i. apply step_analysis.
Qed.

End PhaseTheorem.

(** [n] frames, 100 ms apart. *)
Definition frames (n : nat) : list GameEngine.input :=
  (λ k, GameEngine.Frame (ofNat (S k) * 100)) <$> seq 0 n.

(** [n] frames, 100 ms apart, under a host that tries the pending timeout
    right after every frame. *)
Definition eager (n : nat) : list GameEngine.input :=
  flat_map (λ k, [GameEngine.Frame (ofNat (S k) * 100);
                  GameEngine.RunTimeout (ofNat (S k) * 100)]) (seq 0 n).

(** The level of the game, [phases: {commitment: 30, training: 5, battle: 30}],
    on the line [0 - 1 - 2]. *)
Definition shipped_level : LevelManagerStackelberg.t :=
  LevelManagerStackelberg.new Config.phases_commitment Config.phases_training
    Config.phases_battle line_nodes [[0; 1; 2]%nat] 0 100 3000.

(** The same level with a training phase of one second and a packet every
    second. *)
Definition hasty_level : LevelManagerStackelberg.t :=
  LevelManagerStackelberg.new 30 1 30 line_nodes [[0; 1; 2]%nat] 0 100 1000.

Lemma ofNat_S (n : nat) : ofNat (S n) == ofNat n + 1.
Proof.
  unfold ofNat. rewrite Nat2Z.inj_succ, <- Z.add_1_r, inject_Z_plus. reflexivity.
Qed.

Lemma ofNat_nonneg (n : nat) : 0 <= ofNat n.
Proof. unfold ofNat. rewrite <- (Zle_Qle 0). lia. Qed.

(** On the shipped level the frame at 30 s opens the training phase and
    requests the timeout; run by the host at 33 s, it stores the analysis. *)
Lemma C1_witness :
  let w := GameEngine.run manhattan (GameEngine.start shipped_level) (frames 300) in
  LevelManagerStackelberg.currentPhase (GameEngine.lm w) = LevelManagerStackelberg.training
  ∧ GameEngine.timers w = [33000]
  ∧ is_Some (LevelManagerStackelberg.aiAnalysis
               (GameEngine.lm (GameEngine.step manhattan w (GameEngine.RunTimeout 33000)))).
Proof.
  cbn zeta.
  assert (GameEngine.timers
            (GameEngine.run manhattan (GameEngine.start shipped_level) (frames 300))
          = [33000]) as Ht by (vm_compute; reflexivity).
  split; [vm_compute; reflexivity|]. split; [exact Ht|].
  refine (proj1 (proj2 (proj2 (proj2 (proj2 (C1_battle_waits_only_for_timer manhattan
            Config.phases_commitment Config.phases_training Config.phases_battle
            line_nodes [[0; 1; 2]%nat] 0 100 3000 (frames 300))))))
          _ 33000 [] 33000 Ht _).
  - intros p Hp n Hn. rewrite elem_of_cons, elem_of_nil in Hp. destruct Hp as [-> | []].
    rewrite !elem_of_cons, elem_of_nil in Hn. simpl. lia.
  - apply Qle_refl.
Defined.

(** C1 as stated fails: with a training phase shorter than the timeout, the
    engine loop enters the battle phase and spawns a packet while the
    analysis is still pending, however eager the host: at 32 s the timeout,
    requested at 30 s, is not due. *)
Lemma C1_counterexample :
  let w := GameEngine.run manhattan (GameEngine.start hasty_level) (eager 320) in
  LevelManagerStackelberg.currentPhase (GameEngine.lm w) = LevelManagerStackelberg.battle
  ∧ LevelManagerStackelberg.aiAnalysis (GameEngine.lm w) = None
  ∧ LevelManagerStackelberg.packetsSpawned (GameEngine.lm w) = 1%nat
  ∧ GameEngine.lastTime w == 32000
  ∧ GameEngine.timers w = [33000].
Proof. vm_compute. repeat split; reflexivity. Qed.

(** The timer decides on the shipped level too: a tick that brings the
    training timer to 5 seconds opens the battle with no analysis in hand. *)
Example training_tick_opens_battle :
  let l := LevelManagerStackelberg.updatePhase 5000
             (LevelManagerStackelberg.startTrainingPhase shipped_level) in
  LevelManagerStackelberg.currentPhase l = LevelManagerStackelberg.battle
  ∧ LevelManagerStackelberg.aiAnalysis l = None
  ∧ (LevelManagerStackelberg.shouldSpawnEnemy 3000 l).2 = true.
Proof. vm_compute. repeat split; reflexivity. Qed.

(** A training phase as long as the delay of the timeout does not settle it
    either: the frame stamped 3 s after the one that opened training opens
    the battle, and whether the timeout, requested while that earlier frame
    ran, has been run by then is the host's choice. Here it has not. *)
Example equal_durations_race :
  let level := LevelManagerStackelberg.new 30 3 30 line_nodes [[0; 1; 2]%nat] 0 100 3000 in
  let w := GameEngine.run manhattan (GameEngine.start level) (frames 330) in
  LevelManagerStackelberg.currentPhase (GameEngine.lm w) = LevelManagerStackelberg.battle
  ∧ LevelManagerStackelberg.aiAnalysis (GameEngine.lm w) = None
  ∧ GameEngine.lastTime w == 33000
  ∧ GameEngine.timers w = [33000].
Proof. vm_compute. repeat split; reflexivity. Qed.

(** ** Chokepoint classification (TopologyGenerator.js) *)

(** The degree of a node: the number of edge ends at it. *)
Definition degree (edges : list (nat * nat)) (i : nat) : nat :=
  length (filter (λ e, e.1 = i) edges) + length (filter (λ e, e.2 = i) edges).

Definition edgesInRange (n : nat) (edges : list (nat * nat)) : Prop :=
  ∀ e, e ∈ edges → (e.1 < n)%nat ∧ (e.2 < n)%nat.

(** An adjacency array for [n] nodes whose entries are node indices. *)
Definition adjInRange (n : nat) (adj : list (list nat)) : Prop :=
  length adj = n ∧ ∀ i l, adj !! i = Some l → Forall (λ v, (v < n)%nat) l.

Section Adjacency.
Import TopologyGenerator.

Lemma pushEdge_lookup (a : list (list nat)) (e : nat * nat) :
  (e.1 < length a)%nat → (e.2 < length a)%nat →
  ∃ a', pushEdge (Some a) e = Some a'
        ∧ length a' = length a
        ∧ ∀ i, a' !! i
               = (λ l, l ++ (if decide (e.1 = i) then [e.2] else [])
                         ++ (if decide (e.2 = i) then [e.1] else [])) <$> a !! i.
Proof.
  intros H1 H2. unfold pushEdge. simpl.
  destruct (lookup_lt_is_Some_2 a e.1 H1) as [l1 E1]. rewrite E1. simpl.
  destruct (lookup_lt_is_Some_2 (<[e.1:=l1 ++ [e.2]]> a) e.2) as [l2 E2];
    [by rewrite length_insert|].
  rewrite E2. simpl. eexists. split; [done|].
  split; [by rewrite !length_insert|].
  intros i. destruct (decide (e.2 = i)) as [<-|Hn2].
  - rewrite list_lookup_insert_eq by (by rewrite length_insert).
    destruct (decide (e.1 = e.2)) as [He|Hn1].
    + rewrite He in *. rewrite list_lookup_insert_eq in E2 by done.
      injection E2 as <-. rewrite E1. simpl. by rewrite <- app_assoc.
    + rewrite list_lookup_insert_ne in E2 by done. rewrite E2. simpl. done.
  - rewrite list_lookup_insert_ne by done.
    destruct (decide (e.1 = i)) as [<-|Hn1].
    + rewrite list_lookup_insert_eq by done. rewrite E1. simpl. by rewrite ?app_nil_r.
    + rewrite list_lookup_insert_ne by done.
      destruct (a !! i); simpl; [|done]. by rewrite ?app_nil_r.
Qed.

Lemma buildAdj_spec (n : nat) (edges : list (nat * nat)) :
  edgesInRange n edges →
  ∃ adj, buildAdj n edges = Some adj
         ∧ adjInRange n adj
         ∧ ∀ i l, adj !! i = Some l → length l = degree edges i.
Proof.
  unfold buildAdj. induction edges as [|e edges IH] using rev_ind; intros Hr.
  - exists (replicate n []). split; [done|]. split; [split|].
    + by rewrite length_replicate.
    + intros i l [-> _]%lookup_replicate. constructor.
    + intros i l [-> _]%lookup_replicate. done.
  - destruct IH as (adj & Hb & [Hlen Hin] & Hdeg).
    { intros e' He'. apply Hr. apply elem_of_app. by left. }
    destruct (Hr e) as [H1 H2]; [apply elem_of_app; right; by left|].
    rewrite foldl_app. simpl. rewrite Hb.
    destruct (pushEdge_lookup adj e) as (a' & Hp & Hlen' & Hlook); [lia..|].
    exists a'. split; [done|]. split; [split; [lia|]|].
    + intros i l Hl. rewrite Hlook in Hl.
      destruct (adj !! i) as [l0|] eqn:E0; simplify_eq/=.
      rewrite !Forall_app. split; [by eapply Hin|].
      split; case_decide; repeat constructor; done.
    + intros i l Hl. rewrite Hlook in Hl.
      destruct (adj !! i) as [l0|] eqn:E0; simplify_eq/=.
      rewrite !length_app, (Hdeg i l0 E0). unfold degree.
      rewrite !filter_app, !length_app. simpl.
      rewrite !filter_cons, !filter_nil. simpl.
      repeat case_decide; simplify_eq/=; lia.
Qed.

End Adjacency.

(** What the breadth-first search maintains on an adjacency array for [n]
    nodes: queued nodes are visited, visited nodes are nodes, and [prev]
    leads from a visited node to one visited earlier ([d] is the depth at
    which a node was reached). *)
Definition bfsInv (n : nat) (st : TopologyGenerator.bfs) : Prop :=
  ∃ d : nat → nat,
    (∀ x, x ∈ TopologyGenerator.queue st → x ∈ TopologyGenerator.visited st)
    ∧ (∀ x, x ∈ TopologyGenerator.visited st → (x < n)%nat)
    ∧ (∀ x c, TopologyGenerator.prev st !! x = Some c →
              x ∈ TopologyGenerator.visited st ∧ c ∈ TopologyGenerator.visited st
              ∧ (d c < d x)%nat)
    ∧ (∀ x, x ∈ TopologyGenerator.visited st →
            (d x < size (TopologyGenerator.visited st))%nat).

(** The search still has this much to do. *)
Definition bfsMeasure (n : nat) (st : TopologyGenerator.bfs) : nat :=
  2 * (n - size (TopologyGenerator.visited st)) + length (TopologyGenerator.queue st).

Section BreadthFirst.
Import TopologyGenerator.
Variable n : nat.

Lemma visited_size (V : gset nat) : (∀ x, x ∈ V → (x < n)%nat) → (size V ≤ n)%nat.
Proof.
  intros H. rewrite <- (size_set_seq (C := gset nat) 0 n).
  apply subseteq_size. intros x Hx. apply elem_of_set_seq. split; [lia|]. simpl. by apply H.
Qed.

Lemma visit_inv (curr x : nat) (st : bfs) :
  bfsInv n st → curr ∈ visited st → (x < n)%nat →
  bfsInv n (visit curr st x)
  ∧ curr ∈ visited (visit curr st x)
  ∧ (bfsMeasure n (visit curr st x) ≤ bfsMeasure n st)%nat.
Proof.
  intros (d & Hq & Hv & Hp & Hd) Hc Hx. unfold visit.
  destruct (decide (x ∈ visited st)) as [Hin|Hnin].
  { split; [by exists d|]. split; [done|lia]. }
  assert (size ({[x]} ∪ visited st) = S (size (visited st))) as Hsize.
  { rewrite size_union by set_solver. by rewrite size_singleton. }
  assert (size ({[x]} ∪ visited st) ≤ n)%nat as Hle.
  { apply visited_size. intros y [->%elem_of_singleton | Hy]%elem_of_union; [done|by apply Hv]. }
  split; [|split].
  - exists (λ y, if decide (y = x) then S (d curr) else d y). simpl.
    split; [|split; [|split]].
    + intros y [Hy | ->%list_elem_of_singleton]%elem_of_app; [|set_solver].
      apply elem_of_union. right. by apply Hq.
    + intros y [->%elem_of_singleton | Hy]%elem_of_union; [done|by apply Hv].
    + intros y c Hyc. destruct (decide (y = x)) as [->|Hne].
      * rewrite lookup_insert_eq in Hyc. injection Hyc as <-.
        split; [set_solver|]. split; [set_solver|].
        rewrite decide_False by (intros ->; done). lia.
      * rewrite lookup_insert_ne in Hyc by done.
        destruct (Hp y c Hyc) as (Hy & Hc' & Hlt).
        split; [set_solver|]. split; [set_solver|].
        rewrite decide_False by (intros ->; done). done.
    + intros y Hy. rewrite Hsize. case_decide.
      * pose proof (Hd curr Hc). lia.
      * assert (y ∈ visited st) as Hy' by set_solver. pose proof (Hd y Hy'). lia.
  - simpl. set_solver.
  - unfold bfsMeasure. simpl. rewrite Hsize, length_app. simpl.
    assert (size (visited st) ≤ n)%nat by (by apply visited_size). lia.
Qed.

Lemma visits_inv (curr : nat) (ns : list nat) (st : bfs) :
  bfsInv n st → curr ∈ visited st → Forall (λ v, (v < n)%nat) ns →
  bfsInv n (foldl (visit curr) st ns)
  ∧ (bfsMeasure n (foldl (visit curr) st ns) ≤ bfsMeasure n st)%nat.
Proof.
  revert st. induction ns as [|x ns IH]; intros st Hinv Hc Hr; simpl; [split; [done|lia]|].
  apply Forall_cons in Hr as [Hx Hr].
  destruct (visit_inv curr x st Hinv Hc Hx) as (Hinv' & Hc' & Hm).
  destruct (IH _ Hinv' Hc' Hr) as [Hinv'' Hm']. split; [done|lia].
Qed.

(** The loop returns within [bfsMeasure] rounds. *)
Lemma bfsLoop_total (adj : list (list nat)) (goal : nat) (randomize : bool)
    (shuffle : nat → list nat → list nat) :
  adjInRange n adj →
  (∀ k l, shuffle k l ≡ₚ l) →
  ∀ fuel sorts st,
    bfsInv n st → (bfsMeasure n st < fuel)%nat →
    ∃ st' sorts', bfsLoop fuel adj goal randomize shuffle sorts st = Ret (st', sorts')
                  ∧ bfsInv n st'.
Proof.
  intros [Hlen Hadj] Hperm fuel. induction fuel as [|fuel IH]; intros sorts st Hinv Hm; [lia|].
  simpl. destruct (queue st) as [|curr rest] eqn:Eq; [by eexists _, _|].
  set (st1 := {| queue := rest; prev := prev st; visited := visited st |}).
  assert (bfsInv n st1 ∧ curr ∈ visited st1 ∧ S (bfsMeasure n st1) = bfsMeasure n st)
    as (Hinv1 & Hc1 & Hm1).
  { destruct Hinv as (d & Hq & Hv & Hp & Hd). split; [|split].
    - exists d. simpl. split; [|done]. intros x Hx. apply Hq. rewrite Eq. by right.
    - simpl. apply Hq. rewrite Eq. by left.
    - unfold bfsMeasure. simpl. rewrite Eq. simpl. lia. }
  destruct (decide (curr = goal)); [by eexists _, _|].
  assert (curr < n)%nat as Hcn.
  { destruct Hinv1 as (d & _ & Hv & _). by apply Hv. }
  destruct (lookup_lt_is_Some_2 adj curr) as [ns Hns]; [lia|]. rewrite Hns.
  set (neighbors := if randomize then shuffle sorts ns else ns).
  assert (Forall (λ v, (v < n)%nat) neighbors) as Hr.
  { pose proof (Hadj curr ns Hns) as Hf. unfold neighbors.
    destruct randomize; [|done]. by rewrite Hperm. }
  destruct (visits_inv curr neighbors st1 Hinv1 Hc1 Hr) as [Hinv2 Hm2].
  apply IH; [done|lia].
Qed.

(** Walking back along [prev] ends within the depth of the node. *)
Lemma walkBack_total (st : bfs) (d : nat → nat) :
  (∀ x c, prev st !! x = Some c →
          x ∈ visited st ∧ c ∈ visited st ∧ (d c < d x)%nat) →
  ∀ fuel c path,
    c ∈ visited st → (d c + 2 ≤ fuel)%nat →
    ∃ p, walkBack fuel (prev st) (Some c) path = Some p
         ∧ ∀ x, x ∈ p → x ∈ path ∨ x ∈ visited st.
Proof.
  intros Hp fuel. induction fuel as [|fuel IH]; intros c path Hc Hf; [lia|].
  simpl. destruct (prev st !! c) as [c'|] eqn:E.
  - destruct (Hp c c' E) as (_ & Hc' & Hlt).
    destruct (IH c' (c :: path) Hc') as (p & Hw & Hin); [lia|].
    exists p. split; [done|]. intros x Hx.
    destruct (Hin x Hx) as [[-> | Hx']%elem_of_cons | Hx']; auto.
  - destruct fuel as [|fuel]; [lia|]. simpl. eexists. split; [done|].
    intros x [-> | Hx]%elem_of_cons; auto.
Qed.

(** [simpleBFS] returns, and a path it returns stays inside the node list. *)
Lemma simpleBFS_total (adj : list (list nat)) (start goal : nat) (randomize : bool)
    (shuffle : nat → list nat → list nat) (fuel sorts : nat) :
  adjInRange n adj →
  (∀ k l, shuffle k l ≡ₚ l) →
  (start < n)%nat → (2 * n + 1 ≤ fuel)%nat →
  ∃ r sorts', simpleBFS fuel adj start goal randomize shuffle sorts = Ret (r, sorts')
              ∧ ∀ p, r = Some p → Forall (λ x, (x < n)%nat) p.
Proof.
  intros Hadj Hperm Hs Hf. unfold simpleBFS.
  destruct (bfsLoop_total adj goal randomize shuffle Hadj Hperm fuel sorts
              {| queue := [start]; prev := ∅; visited := {[start]} |})
    as (st' & sorts' & -> & (d & Hq & Hv & Hp & Hd)).
  { exists (λ _, O). cbn [queue prev visited]. split; [|split; [|split]].
    - intros x ->%list_elem_of_singleton. set_solver.
    - intros x ->%elem_of_singleton. done.
    - intros x c Hx. by rewrite lookup_empty in Hx.
    - intros x _. rewrite size_singleton. lia. }
  { unfold bfsMeasure. cbn [queue prev visited length]. rewrite size_singleton. lia. }
  simpl. destruct (prev st' !! goal) as [c|] eqn:Eg; [|by eexists _, _].
  destruct (Hp goal c Eg) as (Hg & _ & _).
  destruct (walkBack_total st' d Hp fuel goal [] Hg) as (p & -> & Hin).
  { pose proof (Hd goal Hg). pose proof (visited_size _ Hv). lia. }
  simpl. eexists _, _. split; [done|]. intros p' [= <-].
  apply Forall_forall. intros x Hx. destruct (Hin x Hx) as [Hx' | Hx'].
  - by apply elem_of_nil in Hx'.
  - by apply Hv.
Qed.

End BreadthFirst.

(** A fold over outcomes that never leaves [Ret] when each round returns. *)
Lemma foldl_returns {A B : Type} (P : A → Prop) (f : outcome A → B → outcome A)
    (l : list B) (a : A) :
  P a →
  (∀ a x, x ∈ l → P a → ∃ b, f (Ret a) x = Ret b ∧ P b) →
  ∃ b, foldl f (Ret a) l = Ret b ∧ P b.
Proof.
  revert a. induction l as [|x l IH]; intros a Ha Hstep; simpl; [by exists a|].
  destruct (Hstep a x) as (b & -> & Hb); [by left | done |].
  apply IH; [done|]. intros a' y Hy. apply Hstep. by right.
Qed.

(** The counters stay an array of [n] numbers. *)
Definition scoresOk (n : nat) (s : TopologyGenerator.scores * nat) : Prop :=
  length (TopologyGenerator.nodeScore s.1) = n ∧ TopologyGenerator.hasNaN s.1 = false.

Section Sampling.
Import TopologyGenerator.
Variable n : nat.
Variable shuffle : nat → list nat → list nat.
Hypothesis shuffle_perm : ∀ k l, shuffle k l ≡ₚ l.

Lemma bump_ok (source goal : nat) (sc : scores) (sorts : nat) (p : list nat) :
  scoresOk n (sc, sorts) → Forall (λ x, (x < n)%nat) p →
  scoresOk n (foldl (bump source goal) sc p, sorts).
Proof.
  revert sc. induction p as [|x p IH]; intros sc Hok Hp; simpl; [done|].
  apply Forall_cons in Hp as [Hx Hp]. apply IH; [|done].
  destruct Hok as [Hlen Hnan]. simpl in *. unfold bump.
  case_decide; [|done].
  destruct (lookup_lt_is_Some_2 (nodeScore sc) x) as [k ->]; [lia|].
  split; simpl; [by rewrite length_insert | done].
Qed.

Lemma sample_total (fuel : nat) (adj : list (list nat)) (sources goals : list nat) :
  adjInRange n adj →
  (∀ s, s ∈ sources → (s < n)%nat) →
  (2 * n + 1 ≤ fuel)%nat →
  ∃ r, sample fuel adj shuffle sources goals n = Ret r ∧ scoresOk n r.
Proof.
  intros Hadj Hs Hf. unfold sample.
  apply (foldl_returns (scoresOk n)).
  { split; simpl; [by rewrite length_replicate | done]. }
  intros r1 _ _ Hr1. apply (foldl_returns (scoresOk n)); [done|].
  intros r2 source Hsrc Hr2. unfold sampleSource.
  apply (foldl_returns (scoresOk n)); [done|].
  intros [sc sorts] goal _ Hr3. unfold samplePair. simpl.
  destruct (simpleBFS_total n adj source goal true shuffle fuel sorts)
    as (r & sorts' & -> & Hpath); [done | done | by apply Hs | done |].
  simpl. destruct r as [p|]; eexists; (split; [done|]).
  - apply bump_ok; [done|]. by apply Hpath.
  - done.
Qed.

Lemma isChokepoint_true (adj : list (list nat)) (maxScore i score : nat) :
  isChokepoint adj maxScore i score = true
  ↔ 4 # 10 < ofNat score / ofNat maxScore
    ∧ (3 ≤ length (default [] (adj !! i)))%nat.
Proof.
  unfold isChokepoint. rewrite andb_true_iff, Qltb_lt, bool_decide_eq_true. done.
Qed.

Lemma select_spec (adj : list (list nat)) (sc : scores) (i : nat) :
  hasNaN sc = false →
  i ∈ select adj sc
  ↔ max_list (nodeScore sc) ≠ O
    ∧ ∃ score, nodeScore sc !! i = Some score
               ∧ 4 # 10 < ofNat score / ofNat (max_list (nodeScore sc))
               ∧ (3 ≤ length (default [] (adj !! i)))%nat.
Proof.
  intros Hnan. unfold select. rewrite Hnan.
  destruct (decide (max_list (nodeScore sc) = O)) as [Hz|Hnz].
  { split; [by intros ?%elem_of_nil | by intros [? _]]. }
  rewrite list_elem_of_bind. split.
  - intros ([j score] & Hin & Hj). simpl in Hin.
    destruct (isChokepoint _ _ _ _) eqn:E; [|by apply elem_of_nil in Hin].
    apply list_elem_of_singleton in Hin as ->.
    apply elem_of_lookup_imap in Hj as (j' & score' & [= -> ->] & Hl).
    split; [done|]. exists score'. split; [done|]. by apply isChokepoint_true.
  - intros (_ & score & Hl & Hq & Hd).
    exists (i, score). split.
    + simpl. rewrite (proj2 (isChokepoint_true _ _ _ _)) by done. by left.
    + apply elem_of_lookup_imap. by exists i, score.
Qed.

End Sampling.

(** C4, as the code has it. [identifyChokepoints] has neither a seed nor a
    sample count: it draws 50 samples and orders the neighbours through the
    unseeded [Math.random]. Whatever those shuffles do, on a graph whose
    edges and sources are nodes it returns, and returns exactly the nodes
    whose counter divided by the largest counter exceeds 0.4 and whose
    degree is at least 3; the result is empty when the largest counter is 0. *)
Theorem C4_chokepoints_by_threshold :
  ∀ (shuffle : nat → list nat → list nat) (nodes : list Node)
    (edges : list (nat * nat)) (sources goals : list nat) (fuel : nat),
    (∀ k l, shuffle k l ≡ₚ l) →
    edgesInRange (length nodes) edges →
    (∀ s, s ∈ sources → (s < length nodes)%nat) →
    (2 * length nodes + 1 ≤ fuel)%nat →
    ∃ adj sc sorts chokepoints,
      TopologyGenerator.buildAdj (length nodes) edges = Some adj
      ∧ TopologyGenerator.sample fuel adj shuffle sources goals (length nodes)
        = Ret (sc, sorts)
      ∧ TopologyGenerator.identifyChokepoints fuel shuffle nodes edges sources goals
        = Ret chokepoints
      ∧ length (TopologyGenerator.nodeScore sc) = length nodes
      ∧ (max_list (TopologyGenerator.nodeScore sc) = O → chokepoints = [])
      ∧ ∀ i, i ∈ chokepoints
             ↔ ∃ score,
                 TopologyGenerator.nodeScore sc !! i = Some score
                 ∧ 4 # 10 < ofNat score / ofNat (max_list (TopologyGenerator.nodeScore sc))
                 ∧ (3 ≤ degree edges i)%nat.
Proof.
  intros shuffle nodes edges sources goals fuel Hperm He Hs Hf.
  destruct (buildAdj_spec (length nodes) edges He) as (adj & Hadj & Hr & Hdeg).
  destruct (sample_total (length nodes) shuffle Hperm fuel adj sources goals Hr Hs Hf)
    as ([sc sorts] & Hsample & [Hlen Hnan]).
  simpl in Hlen, Hnan.
  exists adj, sc, sorts, (TopologyGenerator.select adj sc).
  split; [done|]. split; [done|]. split.
  { unfold TopologyGenerator.identifyChokepoints. rewrite Hadj. simpl.
    rewrite Hsample. done. }
  split; [done|]. split.
  { intros Hz. unfold TopologyGenerator.select. rewrite Hnan, Hz. done. }
  intros i. rewrite select_spec by done. split.
  - intros (_ & score & Hl & Hq & Hd). exists score. split; [done|]. split; [done|].
    destruct (lookup_lt_is_Some_2 adj i) as [l Hli].
    { destruct Hr as [-> _]. rewrite <- Hlen. by eapply lookup_lt_Some. }
    rewrite Hli in Hd. simpl in Hd. by rewrite <- (Hdeg i l Hli).
  - intros (score & Hl & Hq & Hd).
    destruct (lookup_lt_is_Some_2 adj i) as [l Hli].
    { destruct Hr as [-> _]. rewrite <- Hlen. by eapply lookup_lt_Some. }
    split.
    + intros Hz. rewrite Hz in Hq. unfold ofNat in Hq at 2. simpl in Hq.
      unfold Qdiv, Qinv in Hq. simpl in Hq. rewrite Qmult_0_r in Hq. discriminate Hq.
    + exists score. split; [done|]. split; [done|].
      rewrite Hli. simpl. by rewrite (Hdeg i l Hli).
Qed.

(** The diamond [0 - {1, 2} - 5] with a leaf on each side: which of 1 and 2
    carries the sampled traffic depends on the order in which the neighbours
    of 0 are tried. *)
Definition diamond_nodes : list Node :=
  [mkNode 0 0 0 source; mkNode 1 1 1 normal; mkNode 2 1 (-1) normal;
   mkNode 3 1 2 normal; mkNode 4 1 (-2) normal; mkNode 5 2 0 goal].
Definition diamond_edges : list (nat * nat) :=
  [(0, 1); (0, 2); (1, 5); (2, 5); (1, 3); (2, 4)]%nat.

Lemma C4_witness :
  ∃ chokepoints,
    TopologyGenerator.identifyChokepoints 20 (λ _ l, l) diamond_nodes diamond_edges
      [0%nat] [5%nat] = Ret chokepoints
    ∧ ∀ i, i ∈ chokepoints → (3 ≤ degree diamond_edges i)%nat.
Proof.
  destruct (C4_chokepoints_by_threshold (λ _ l, l) diamond_nodes diamond_edges
              [0%nat] [5%nat] 20) as (adj & sc & sorts & chokepoints & _ & _ & Hid & _ & _ & Hiff).
  - intros k l. reflexivity.
  - intros e He. unfold diamond_edges in He. rewrite !elem_of_cons, elem_of_nil in He.
    simpl. destruct He as [-> | [-> | [-> | [-> | [-> | [-> | []]]]]]]; simpl; lia.
  - intros s Hs. rewrite elem_of_cons, elem_of_nil in Hs. destruct Hs as [-> | []].
    simpl. lia.
  - simpl. lia.
  - exists chokepoints. split; [exact Hid|].
    intros i Hi. apply Hiff in Hi as (score & _ & _ & Hd). exact Hd.
Defined.

(** C4 as stated fails: on one graph, with one set of sources and goals,
    two runs return different chokepoints, because the order of the
    neighbours comes from [Math.random] and not from a seed. *)
Lemma C4_counterexample :
  TopologyGenerator.identifyChokepoints 20 (λ _ l, l) diamond_nodes diamond_edges
    [0%nat] [5%nat] = Ret [1%nat]
  ∧ TopologyGenerator.identifyChokepoints 20 (λ _ l, reverse l) diamond_nodes diamond_edges
      [0%nat] [5%nat] = Ret [2%nat].
Proof. split; vm_compute; reflexivity. Qed.

(** ** Node kinds after generation (TopologyGenerator.js) *)

Section NodeKinds.
Import TopologyGenerator.

(** The last step of [generateStackelbergMap] makes the kind follow the
    analyzer in both directions. *)
Lemma retype_spec (identified : list nat) (ns : list Node) (i : nat) (node : Node) :
  retype identified ns !! i = Some node →
  (node_type node = chokepoint ↔ i ∈ identified).
Proof.
  unfold retype. rewrite list_lookup_imap.
  destruct (ns !! i) as [node0|]; simpl; [|done]. intros [= <-].
  case_bool_decide as Hin; simpl; [done|].
  case_decide as Ht; simpl; [split; [done | by intros ?]|].
  split; [done | by intros ?].
Qed.

(** The last step of [generateRLTopology] only ever sets the kind: a node
    that is not identified keeps what the generation loop gave it. *)
Lemma markIdentified_spec (identified : list nat) (ns : list Node) (i : nat) (node : Node) :
  markIdentified identified ns !! i = Some node →
  ∃ node0, ns !! i = Some node0
           ∧ node_type node = (if bool_decide (i ∈ identified) then chokepoint
                               else node_type node0).
Proof.
  unfold markIdentified. rewrite list_lookup_imap.
  destruct (ns !! i) as [node0|]; simpl; [|done]. intros [= <-].
  exists node0. split; [done|]. by case_bool_decide.
Qed.

(** On every map the Stackelberg policy returns, a node is of kind
    chokepoint exactly when the analyzer listed it. *)
Lemma stackelberg_kinds_follow_analyzer (fuel : nat) (now salt : Q)
    (shuffle : nat → list nat → list nat) (t : topology) :
  generateStackelbergMap fuel now salt shuffle = Ret t →
  ∀ i node, nodes t !! i = Some node →
            (node_type node = chokepoint ↔ i ∈ chokepoints t).
Proof.
  unfold generateStackelbergMap. intros Hgen.
  repeat match type of Hgen with
         | context [let '(_, _) := ?x in _] => destruct x
         end.
  repeat match type of Hgen with
         | context [orThrow ?x] => destruct x; simpl in Hgen; [|discriminate Hgen]
         end.
  repeat match type of Hgen with
         | context [let '(_, _) := ?x in _] => destruct x
         end.
  match type of Hgen with
  | context [orThrow (mapM ?f ?l)] => destruct (mapM f l); simpl in Hgen; [|discriminate Hgen]
  end.
  repeat match type of Hgen with
         | context [let '(_, _) := ?x in _] => destruct x
         end.
  match type of Hgen with
  | context [identifyChokepoints ?f ?s ?n ?e ?a ?b] =>
      destruct (identifyChokepoints f s n e a b) as [ids| |]; simpl in Hgen;
        [|discriminate Hgen..]
  end.
  injection Hgen as <-. simpl. intros i node. apply retype_spec.
Qed.

End NodeKinds.

(** C9. A run of the parametrized-grid policy (style BALANCED, every
    [Math.random] sample 0.6, neighbours tried in stored order): the
    generation loop marks the first node of each layer a chokepoint, the
    analyzer lists only nodes 4, 6 and 8, and the returned nodes 1, 3, 5 and
    7, each of degree 2, are still of kind chokepoint. *)
Theorem C9_grid_policy_keeps_generation_hints :
  ∃ t,
    TopologyGenerator.generateRLTopology 30 (λ _, 6 # 10) (λ _ l, l)
      "BALANCED" "BALANCED" "BALANCED" = Ret t
    ∧ TopologyGenerator.chokepoints t = [4; 6; 8]%nat
    ∧ (node_type <$> TopologyGenerator.nodes t)
      = [source; chokepoint; normal; chokepoint; chokepoint; chokepoint;
         chokepoint; chokepoint; chokepoint; goal]
    ∧ (∃ node, TopologyGenerator.nodes t !! 1%nat = Some node
               ∧ node_type node = chokepoint
               ∧ (1%nat ∉ TopologyGenerator.chokepoints t)
               ∧ degree (TopologyGenerator.edges t) 1 = 2%nat).
Proof.
  eexists. split; [vm_compute; reflexivity|].
  split; [reflexivity|]. split; [reflexivity|].
  eexists. split; [reflexivity|]. split; [reflexivity|].
  split; [|reflexivity].
  cbn [TopologyGenerator.chokepoints].
  rewrite !elem_of_cons, elem_of_nil. intros [? | [? | [? | []]]]; discriminate.
Qed.

(** ** A* path planning (Pathfinding.js) *)

(** Edges are walked in both directions. *)
Definition adjacent (edges : list (nat * nat)) (u v : nat) : Prop :=
  (u, v) ∈ edges ∨ (v, u) ∈ edges.

(** Consecutive nodes of a path are joined by an edge. *)
Fixpoint linked (edges : list (nat * nat)) (p : list nat) : Prop :=
  match p with
  | u :: rest => match rest with
                 | v :: _ => adjacent edges u v ∧ linked edges rest
                 | [] => True
                 end
  | [] => True
  end.

(** A route from [s] to [g]: a chain of edges. *)
Definition connected (edges : list (nat * nat)) (s g : nat) : Prop :=
  rtc (adjacent edges) s g.

Section Graph.
Import Pathfinding.

Lemma emptyGraph_lookup (n i : nat) :
  emptyGraph n !! i = if decide (i < n)%nat then Some [] else None.
Proof.
  unfold emptyGraph. case_decide as Hi.
  - apply elem_of_list_to_map_1.
    + rewrite <- list_fmap_compose. simpl. rewrite list_fmap_id. apply NoDup_seq.
    + apply list_elem_of_fmap. exists i. split; [done|]. apply elem_of_seq. lia.
  - apply not_elem_of_list_to_map_1.
    rewrite <- list_fmap_compose. simpl. rewrite list_fmap_id. rewrite elem_of_seq. lia.
Qed.

Lemma initScores_lookup (n i : nat) :
  initScores n !! i = if decide (i < n)%nat then Some Inf else None.
Proof.
  unfold initScores. case_decide as Hi.
  - apply elem_of_list_to_map_1.
    + rewrite <- list_fmap_compose. simpl. rewrite list_fmap_id. apply NoDup_seq.
    + apply list_elem_of_fmap. exists i. split; [done|]. apply elem_of_seq. lia.
  - apply not_elem_of_list_to_map_1.
    rewrite <- list_fmap_compose. simpl. rewrite list_fmap_id. rewrite elem_of_seq. lia.
Qed.

Lemma addEdge_lookup (g : gmap nat (list nat)) (e : nat * nat) :
  is_Some (g !! e.1) → is_Some (g !! e.2) →
  ∃ g', addEdge (Some g) e = Some g'
        ∧ ∀ i, g' !! i
               = (λ l, l ++ (if decide (e.1 = i) then [e.2] else [])
                         ++ (if decide (e.2 = i) then [e.1] else [])) <$> g !! i.
Proof.
  intros [l1 E1] H2. unfold addEdge. simpl. rewrite E1. simpl.
  assert (is_Some (<[e.1:=l1 ++ [e.2]]> g !! e.2)) as [l2 E2].
  { destruct (decide (e.1 = e.2)) as [->|Hne].
    - rewrite lookup_insert_eq. by eexists.
    - by rewrite lookup_insert_ne. }
  rewrite E2. simpl. eexists. split; [done|].
  intros i. destruct (decide (e.2 = i)) as [<-|Hn2].
  - rewrite lookup_insert_eq.
    destruct (decide (e.1 = e.2)) as [He|Hn1].
    + rewrite He in *. rewrite lookup_insert_eq in E2.
      injection E2 as <-. rewrite E1. simpl. by rewrite <- app_assoc.
    + rewrite lookup_insert_ne in E2 by done. rewrite E2. simpl. done.
  - rewrite lookup_insert_ne by done.
    destruct (decide (e.1 = i)) as [<-|Hn1].
    + rewrite lookup_insert_eq. rewrite E1. simpl. by rewrite ?app_nil_r.
    + rewrite lookup_insert_ne by done.
      destruct (g !! i); simpl; [|done]. by rewrite ?app_nil_r.
Qed.

(** [buildGraph] returns on edges between nodes; node [i] is a key exactly
    when it is a node, and its list holds the nodes adjacent to it. *)
Lemma buildGraph_spec (n : nat) (edges : list (nat * nat)) :
  edgesInRange n edges →
  ∃ graph, buildGraph edges n = Some graph
           ∧ ∀ i, if decide (i < n)%nat
                  then ∃ l, graph !! i = Some l
                            ∧ (∀ v, v ∈ l ↔ adjacent edges i v)
                            ∧ Forall (λ v, (v < n)%nat) l
                  else graph !! i = None.
Proof.
  unfold buildGraph. induction edges as [|e edges IH] using rev_ind; intros Hr.
  - exists (emptyGraph n). split; [done|]. intros i.
    rewrite emptyGraph_lookup. case_decide; [|done].
    exists []. split; [done|]. split; [|constructor].
    intros v. unfold adjacent. rewrite !elem_of_nil. split; [done | tauto].
  - destruct IH as (g & Hb & Hg).
    { intros e' He'. apply Hr. apply elem_of_app. by left. }
    destruct (Hr e) as [H1 H2]; [apply elem_of_app; right; by left|].
    rewrite foldl_app. simpl. rewrite Hb.
    destruct (addEdge_lookup g e) as (g' & -> & Hlook).
    { pose proof (Hg e.1) as H. rewrite decide_True in H by done.
      destruct H as (l & -> & _). by eexists. }
    { pose proof (Hg e.2) as H. rewrite decide_True in H by done.
      destruct H as (l & -> & _). by eexists. }
    exists g'. split; [done|]. intros i. pose proof (Hg i) as Hi. rewrite Hlook.
    case_decide as Hlt; [|by rewrite Hi].
    destruct Hi as (l & -> & Hadj & Hall). simpl. eexists. split; [done|]. split.
    + intros v. unfold adjacent in *. rewrite !elem_of_app, Hadj.
      rewrite !list_elem_of_singleton.
      destruct e as [a b]. simpl.
      assert (∀ x y : nat, (x, y) = (a, b) ↔ x = a ∧ y = b) as Hpair.
      { intros x y. split; [intros [= -> ->]; done | intros [-> ->]; done]. }
      rewrite !Hpair.
      repeat case_decide; subst;
        rewrite ?elem_of_nil, ?list_elem_of_singleton; intuition congruence.
    + rewrite !Forall_app. split; [done|].
      split; case_decide; repeat constructor; done.
Qed.

End Graph.

(** Every list of at most [k] node indices below [n]. *)
Fixpoint words (n k : nat) : list (list nat) :=
  match k with
  | O => [[]]
  | S k' => [] :: (x ← seq 0 n; (λ p, x :: p) <$> words n k')
  end.

Lemma words_complete (n k : nat) (p : list nat) :
  Forall (λ x, (x < n)%nat) p → (length p ≤ k)%nat → p ∈ words n k.
Proof.
  revert p. induction k as [|k IH]; intros p Hall Hlen.
  - destruct p; simpl in Hlen; [by left | lia].
  - destruct p as [|x p]; [by left|]. simpl. right.
    apply list_elem_of_bind. exists x. split.
    + apply list_elem_of_fmap. exists p. split; [done|].
      apply IH; [by inversion Hall | simpl in Hlen; lia].
    + apply elem_of_seq. inversion Hall. lia.
Qed.

Lemma nodup_bounded (n : nat) (p : list nat) :
  NoDup p → Forall (λ x, (x < n)%nat) p → (length p ≤ n)%nat.
Proof.
  intros Hnd Hall.
  assert (p ⊆+ seq 0 n) as Hsub.
  { apply NoDup_submseteq; [done|]. intros x Hx. apply elem_of_seq.
    rewrite Forall_forall in Hall. specialize (Hall x Hx). lia. }
  apply submseteq_length in Hsub. by rewrite length_seq in Hsub.
Qed.

Lemma nodup_words_bounded (n : nat) (U : list (list nat)) :
  NoDup U → (∀ p, p ∈ U → NoDup p ∧ Forall (λ x, (x < n)%nat) p) →
  (length U ≤ length (words n n))%nat.
Proof.
  intros Hnd Hall. apply submseteq_length. apply NoDup_submseteq; [done|].
  intros p Hp. destruct (Hall p Hp) as [H1 H2].
  apply words_complete; [done|]. by apply nodup_bounded.
Qed.

(** A score that is a finite number. *)
Definition finite (g : gmap nat num) (x : nat) : Prop :=
  ∃ q, g !! x = Some (Fin q).

(** The order in which scores were settled: a lower score, or the same score
    set earlier. *)
Definition before (g : gmap nat num) (t : nat → nat) (c x : nat) : Prop :=
  ∃ qc qx, g !! c = Some (Fin qc) ∧ g !! x = Some (Fin qx)
           ∧ (qc < qx ∨ (qc == qx ∧ (t c < t x)%nat)).

(** The chain of predecessors of [x], oldest first. *)
Inductive chainTo (cf : gmap nat nat) : nat → list nat → Prop :=
  | chain_start x : cf !! x = None → chainTo cf x [x]
  | chain_step x c p : cf !! x = Some c → chainTo cf c p → chainTo cf x (p ++ [x]).

Section Reconstruct.
Import Pathfinding.

Lemma lowestStep_keeps (fS : gmap nat num) (L l : list nat) (acc : option nat * num) :
  (∃ c, acc.1 = Some c ∧ c ∈ L) → (∀ x, x ∈ l → x ∈ L) →
  ∃ c, (foldl (lowestStep fS) acc l).1 = Some c ∧ c ∈ L.
Proof.
  revert acc. induction l as [|x l IH]; intros acc Hacc Hl; [done|].
  simpl. apply IH.
  - unfold lowestStep. destruct (fS !! x) as [f|]; [|done].
    destruct (num_lt f acc.2); [|done].
    exists x. split; [done|]. apply Hl. by left.
  - intros y Hy. apply Hl. by right.
Qed.

(** The scan finds a node of a non-empty open set whose scores are finite. *)
Lemma lowest_in (st : astar) :
  openSet st ≠ [] → (∀ x, x ∈ openSet st → finite (fScore st) x) →
  ∃ c, lowest st = Some c ∧ c ∈ openSet st.
Proof.
  unfold lowest. destruct (openSet st) as [|x l] eqn:E; [done|]. intros _ Hfin.
  simpl. apply lowestStep_keeps.
  - destruct (Hfin x) as [f Hf]; [by left|].
    unfold lowestStep. rewrite Hf. simpl. exists x. split; [done | by left].
  - intros y Hy. by right.
Qed.

Lemma reconstruct_chain (cf : gmap nat nat) (x : nat) (p : list nat) :
  chainTo cf x p →
  ∀ fuel acc, (length p ≤ fuel)%nat →
    reconstructLoop fuel cf x (x :: acc) = Some (p ++ acc).
Proof.
  induction 1 as [x Hx|x c p Hx Hc IH]; intros fuel acc Hlen.
  - destruct fuel; simpl in *; [lia|]. by rewrite Hx.
  - rewrite length_app in Hlen. simpl in Hlen.
    destruct fuel as [|fuel]; [lia|]. simpl. rewrite Hx.
    rewrite IH by lia. by rewrite <- app_assoc.
Qed.

Lemma linked_snoc (edges : list (nat * nat)) (p : list nat) (c x : nat) :
  linked edges p → last p = Some c → adjacent edges c x → linked edges (p ++ [x]).
Proof.
  induction p as [|u p IH]; intros Hl Hlast Hadj; [done|].
  destruct p as [|v p].
  - simpl in *. injection Hlast as ->. done.
  - destruct Hl as [H1 H2]. split; [done|]. apply IH; done.
Qed.

Lemma linked_connected (edges : list (nat * nat)) (p : list nat) (s g : nat) :
  linked edges p → head p = Some s → last p = Some g → connected edges s g.
Proof.
  revert s. induction p as [|u p IH]; intros s Hl Hh Hlast; [done|].
  simpl in Hh. injection Hh as ->.
  destruct p as [|v p].
  - simpl in Hlast. injection Hlast as ->. apply rtc_refl.
  - destruct Hl as [H1 H2]. eapply rtc_l; [exact H1|]. apply IH; done.
Qed.

End Reconstruct.

Lemma elem_of_set_add (x y : nat) (s : list nat) :
  x ∈ set_add y s ↔ x = y ∨ x ∈ s.
Proof.
  unfold set_add. case_bool_decide as Hy.
  - split; [by right|]. intros [->|H]; done.
  - rewrite elem_of_app, list_elem_of_singleton. tauto.
Qed.

Lemma NoDup_set_add (y : nat) (s : list nat) : NoDup s → NoDup (set_add y s).
Proof.
  intros Hnd. unfold set_add. case_bool_decide as Hy; [done|].
  apply NoDup_app. split; [done|]. split; [|apply NoDup_singleton].
  intros x Hx Hxy. apply list_elem_of_singleton in Hxy as ->. done.
Qed.

Lemma elem_of_set_delete (x y : nat) (s : list nat) :
  x ∈ set_delete y s ↔ x ≠ y ∧ x ∈ s.
Proof. unfold set_delete. rewrite list_elem_of_filter. done. Qed.

Lemma NoDup_set_delete (y : nat) (s : list nat) : NoDup s → NoDup (set_delete y s).
Proof. apply NoDup_filter. Qed.

Lemma before_trans (g : gmap nat num) (t : nat → nat) (a b c : nat) :
  before g t a b → before g t b c → before g t a c.
Proof.
  intros (qa & qb & Ha & Hb & H1) (qb' & qc & Hb' & Hc & H2).
  rewrite Hb in Hb'. injection Hb' as <-.
  exists qa, qc. split; [done|]. split; [done|].
  destruct H1 as [H1|[H1 H1']], H2 as [H2|[H2 H2']].
  - left. lra.
  - left. lra.
  - left. lra.
  - right. split; [lra | lia].
Qed.

Lemma before_irrefl (g : gmap nat num) (t : nat → nat) (a : nat) :
  ¬ before g t a a.
Proof.
  intros (qa & qa' & Ha & Ha' & H). rewrite Ha in Ha'. injection Ha' as <-.
  destruct H as [H|[_ H]]; [lra | lia].
Qed.

(** The paths already expanded: those of earlier iterations and, inside an
    iteration, the one of the node being expanded. *)
Definition explored (cur : option nat) (π : nat → list nat) (U : list (list nat))
  : list (list nat) :=
  match cur with
  | Some c => π c :: U
  | None => U
  end.

Section AStar.
Import Pathfinding.

Variable hypot : Q → Q → Q.
Hypothesis hypot_nonneg : ∀ a b, 0 <= hypot a b.
Variable rnd : nat → Q.
Hypothesis rnd_range : ∀ k, 0 <= rnd k ∧ rnd k < 1.
Variable nodes : list Node.
Variable edges : list (nat * nat).
Variables start goal : nat.
Variable randomize : bool.
Hypothesis edges_ok : edgesInRange (length nodes) edges.
Hypothesis start_ok : (start < length nodes)%nat.
Hypothesis goal_ok : (goal < length nodes)%nat.

(** The invariant of the [while] loop. [cur] is the node being expanded
    inside an iteration. The ghost [t] stamps each score with the time it
    was set, [π x] is the path along which the score of [x] was set, and [U]
    collects the paths of the nodes expanded so far: each iteration adds a
    new duplicate-free path, which bounds the number of iterations. *)
Record astarInv (cur : option nat) (st : astar) (t : nat → nat) (T : nat)
    (π : nat → list nat) (U : list (list nat)) : Prop := mkAstarInv {
  inv_dom : ∀ x, is_Some (gScore st !! x) ↔ (x < length nodes)%nat;
  inv_start : gScore st !! start = Some (Fin 0);
  inv_nonneg : ∀ x q, gScore st !! x = Some (Fin q) → 0 <= q;
  inv_root : cameFrom st !! start = None;
  inv_parent : ∀ x c, cameFrom st !! x = Some c →
      adjacent edges c x ∧ before (gScore st) t c x;
  inv_reached : ∀ x, finite (gScore st) x → x = start ∨ is_Some (cameFrom st !! x);
  inv_open : ∀ x, x ∈ openSet st → finite (gScore st) x ∧ finite (fScore st) x;
  inv_open_nodup : NoDup (openSet st);
  inv_closed : ∀ x, finite (gScore st) x →
      x ∈ openSet st ∨ cur = Some x ∨ ∀ y, adjacent edges x y → finite (gScore st) y;
  inv_goal : finite (gScore st) goal → goal ∈ openSet st;
  inv_clock : ∀ x, (t x < T)%nat;
  inv_trail : ∀ x q, gScore st !! x = Some (Fin q) →
      NoDup (π x)
      ∧ (∀ z, z ∈ π x → ∃ qz, gScore st !! z = Some (Fin qz) ∧ qz <= q)
      ∧ (x = start ∧ π x = [start]
         ∨ x ≠ start ∧ ∃ p', π x = p' ++ [x] ∧ p' ∈ explored cur π U);
  inv_fresh : ∀ x, x ∈ openSet st → π x ∉ explored cur π U;
  inv_prefix : ∀ p y, p ++ [y] ∈ U → p = [] ∨ p ∈ U;
  inv_done : NoDup U
      ∧ ∀ p, p ∈ U → NoDup p ∧ Forall (λ x, (x < length nodes)%nat) p;
  inv_cur : ∀ c, cur = Some c →
      (c ∉ openSet st) ∧ finite (gScore st) c ∧ c ≠ goal ∧ (π c ∉ U)
}.

Lemma adjacent_in_range (u v : nat) :
  adjacent edges u v → (u < length nodes)%nat ∧ (v < length nodes)%nat.
Proof.
  intros [H|H]; apply edges_ok in H; simpl in H; tauto.
Qed.

Lemma trail_last cur st t T π U x :
  astarInv cur st t T π U → finite (gScore st) x → last (π x) = Some x.
Proof.
  intros Hinv [q Hq]. destruct (inv_trail _ _ _ _ _ _ Hinv x q Hq) as (_ & _ & Hs).
  destruct Hs as [[-> ->]|[_ (p' & -> & _)]]; [done|]. apply last_snoc.
Qed.

Lemma trail_in_range cur st t T π U x :
  astarInv cur st t T π U → finite (gScore st) x →
  NoDup (π x) ∧ Forall (λ z, (z < length nodes)%nat) (π x).
Proof.
  intros Hinv [q Hq]. destruct (inv_trail _ _ _ _ _ _ Hinv x q Hq) as (Hnd & Hel & _).
  split; [done|]. apply Forall_forall. intros z Hz.
  destruct (Hel z Hz) as (qz & Hqz & _).
  apply (inv_dom _ _ _ _ _ _ Hinv). by eexists.
Qed.

Lemma parent_step cur st t T π U x c L :
  astarInv cur st t T π U →
  finite (gScore st) x → NoDup (x :: L) →
  (∀ y, y ∈ L → before (gScore st) t x y) →
  Forall (λ z, (z < length nodes)%nat) L →
  cameFrom st !! x = Some c →
  adjacent edges c x ∧ before (gScore st) t c x ∧ finite (gScore st) c
  ∧ NoDup (c :: x :: L)
  ∧ Forall (λ z, (z < length nodes)%nat) (c :: x :: L)
  ∧ (∀ y, y ∈ x :: L → before (gScore st) t c y).
Proof.
  intros Hinv Hfin Hnd Hbef Hall Hc.
  destruct (inv_parent _ _ _ _ _ _ Hinv x c Hc) as [Hadj Hb].
  assert (finite (gScore st) c) as Hfc.
  { destruct Hb as (qc & ? & ? & ? & ?). by exists qc. }
  assert (∀ y, y ∈ x :: L → before (gScore st) t c y) as Hbef'.
  { intros y Hy. apply elem_of_cons in Hy as [->|Hy]; [done|].
    eapply before_trans; [exact Hb | by apply Hbef]. }
  repeat split; try done.
  - apply NoDup_cons. split; [|done].
    intros Hin. apply Hbef' in Hin. by apply before_irrefl in Hin.
  - repeat apply Forall_cons_2; [| |done]; apply (inv_dom _ _ _ _ _ _ Hinv).
    + destruct Hfc as [? ->]. by eexists.
    + destruct Hfin as [? ->]. by eexists.
Qed.

(** The predecessors of a reached node lead back to [start] along edges,
    without repetition. *)
Lemma chain_exists cur st t T π U :
  astarInv cur st t T π U →
  ∀ k x L, finite (gScore st) x → NoDup (x :: L) →
    (∀ y, y ∈ L → before (gScore st) t x y) →
    Forall (λ z, (z < length nodes)%nat) L →
    (length nodes ≤ k + length (x :: L))%nat →
    ∃ p, chainTo (cameFrom st) x p ∧ head p = Some start ∧ last p = Some x
         ∧ linked edges p ∧ NoDup p
         ∧ (∀ z, z ∈ p → z = x ∨ before (gScore st) t z x)
         ∧ (length p ≤ S k)%nat.
Proof.
  intros Hinv.
  assert (∀ k x, finite (gScore st) x → cameFrom st !! x = None →
    ∃ p, chainTo (cameFrom st) x p ∧ head p = Some start ∧ last p = Some x
         ∧ linked edges p ∧ NoDup p
         ∧ (∀ z, z ∈ p → z = x ∨ before (gScore st) t z x)
         ∧ (length p ≤ S k)%nat) as Hroot.
  { intros k x Hfin Hc.
    destruct (inv_reached _ _ _ _ _ _ Hinv x Hfin) as [->|[c' Hc']]; [|congruence].
    exists [start]. split; [by constructor|]. repeat split; try done.
    - apply NoDup_singleton.
    - intros z Hz. apply list_elem_of_singleton in Hz. by left.
    - simpl. lia. }
  induction k as [|k IH]; intros x L Hfin Hnd Hbef Hall Hlen.
  all: destruct (cameFrom st !! x) as [c|] eqn:Hc; [|by apply Hroot].
  all: destruct (parent_step _ _ _ _ _ _ _ _ _ Hinv Hfin Hnd Hbef Hall Hc)
         as (Hadj & Hb & Hfc & Hnd' & Hall' & Hbef').
  - apply nodup_bounded in Hall'; [|done]. simpl in *. lia.
  - destruct (IH c (x :: L)) as (p & Hch & Hh & Hl & Hlk & Hndp & Hel & Hlp).
    + done.
    + done.
    + done.
    + by inversion Hall'.
    + simpl in *. lia.
    + assert (∀ z, z ∈ p → before (gScore st) t z x) as Hpx.
      { intros z Hz. destruct (Hel z Hz) as [->|Hz']; [done|].
        eapply before_trans; [exact Hz' | exact Hb]. }
      exists (p ++ [x]). split; [by econstructor|].
      split; [by destruct p|]. split; [apply last_snoc|].
      split; [by eapply linked_snoc|]. split.
      * apply NoDup_app. split; [done|]. split; [|apply NoDup_singleton].
        intros z Hz Hzx. apply list_elem_of_singleton in Hzx as ->.
        by apply Hpx, before_irrefl in Hz.
      * split.
        -- intros z Hz. apply elem_of_app in Hz as [Hz|Hz]; [right; by apply Hpx|].
           apply list_elem_of_singleton in Hz. by left.
        -- rewrite length_app. simpl. lia.
Qed.

(** A neighbour whose score is lowered: the body of the [if] in the loop
    over the neighbours keeps the invariant. *)
Lemma relax_update c st t T π U y tq fq k :
  astarInv (Some c) st t T π U →
  adjacent edges c y →
  (∃ qc, gScore st !! c = Some (Fin qc) ∧ qc <= tq) →
  (∀ qy, gScore st !! y = Some (Fin qy) → tq < qy) →
  astarInv (Some c)
    {| openSet := set_add y (openSet st);
       cameFrom := <[y := c]> (cameFrom st);
       gScore := <[y := Fin tq]> (gScore st);
       fScore := <[y := Fin fq]> (fScore st);
       calls := k |}
    (λ x, if decide (x = y) then T else t x) (S T)
    (λ x, if decide (x = y) then π c ++ [y] else π x) U.
Proof.
  intros Hinv Hadj (qc & Hqc & Hle) Hlow.
  pose proof (inv_nonneg _ _ _ _ _ _ Hinv c qc Hqc) as Hqc0.
  assert (y ≠ c) as Hyc.
  { intros ->. specialize (Hlow qc Hqc). lra. }
  assert (y ≠ start) as Hys.
  { intros ->. specialize (Hlow 0 (inv_start _ _ _ _ _ _ Hinv)). lra. }
  destruct (inv_cur _ _ _ _ _ _ Hinv c eq_refl) as (Hco & Hcf & Hcg & Hcu).
  destruct (inv_trail _ _ _ _ _ _ Hinv c qc Hqc) as (Hcnd & Hcel & Hcsh).
  assert (y ∉ π c) as Hyπ.
  { intros Hin. destruct (Hcel y Hin) as (qz & Hqz & Hz).
    specialize (Hlow qz Hqz). lra. }
  assert (π c ≠ []) as Hπne.
  { destruct Hcsh as [[_ ->]|[_ (p' & -> & _)]]; [done|]. by destruct p'. }
  assert (∀ x, finite (gScore st) x → finite (<[y := Fin tq]> (gScore st)) x) as Hmono.
  { intros x [q Hq]. destruct (decide (x = y)) as [->|Hne].
    - exists tq. apply lookup_insert_eq.
    - exists q. by rewrite lookup_insert_ne. }
  constructor; simpl.
  - intros x. rewrite <- (inv_dom _ _ _ _ _ _ Hinv x).
    destruct (decide (x = y)) as [->|Hne].
    + rewrite lookup_insert_eq. split; [|by eexists]. intros _.
      apply (inv_dom _ _ _ _ _ _ Hinv). apply adjacent_in_range in Hadj. tauto.
    + by rewrite lookup_insert_ne.
  - rewrite lookup_insert_ne by done. apply (inv_start _ _ _ _ _ _ Hinv).
  - intros x q. destruct (decide (x = y)) as [->|Hne].
    + rewrite lookup_insert_eq. intros [= <-]. lra.
    + rewrite lookup_insert_ne by done. apply (inv_nonneg _ _ _ _ _ _ Hinv).
  - rewrite lookup_insert_ne by done. apply (inv_root _ _ _ _ _ _ Hinv).
  - intros x c0. destruct (decide (x = y)) as [->|Hne].
    + rewrite lookup_insert_eq. intros [= <-]. split; [done|].
      exists qc, tq. rewrite lookup_insert_ne by done. rewrite lookup_insert_eq.
      split; [done|]. split; [done|].
      rewrite decide_False by done. rewrite decide_True by done.
      pose proof (inv_clock _ _ _ _ _ _ Hinv c).
      destruct (Qlt_le_dec qc tq); [by left|]. right. split; [lra | lia].
    + rewrite lookup_insert_ne by done. intros Hc0.
      destruct (inv_parent _ _ _ _ _ _ Hinv x c0 Hc0) as [Ha (q0 & qx & H0 & Hx & Hor)].
      split; [done|].
      destruct (decide (c0 = y)) as [->|Hne0].
      * exists tq, qx. rewrite lookup_insert_eq. rewrite lookup_insert_ne by done.
        split; [done|]. split; [done|]. left.
        specialize (Hlow q0 H0). destruct Hor as [?|[? _]]; lra.
      * exists q0, qx. rewrite !lookup_insert_ne by done.
        split; [done|]. split; [done|]. simpl.
        rewrite !decide_False by done. done.
  - intros x Hx. destruct (decide (x = y)) as [->|Hne].
    + right. rewrite lookup_insert_eq. by eexists.
    + rewrite lookup_insert_ne by done. apply (inv_reached _ _ _ _ _ _ Hinv).
      destruct Hx as [q Hq]. rewrite lookup_insert_ne in Hq by done. by exists q.
  - intros x Hx. apply elem_of_set_add in Hx.
    destruct (decide (x = y)) as [->|Hne].
    + split; eexists; apply lookup_insert_eq.
    + destruct Hx as [?|Hx]; [done|].
      destruct (inv_open _ _ _ _ _ _ Hinv x Hx) as [[q Hq] [f Hf]].
      split; eexists; rewrite lookup_insert_ne by done; eassumption.
  - apply NoDup_set_add, (inv_open_nodup _ _ _ _ _ _ Hinv).
  - intros x Hx. rewrite elem_of_set_add.
    destruct (decide (x = y)) as [->|Hne]; [left; by left|].
    assert (finite (gScore st) x) as Hx'.
    { destruct Hx as [q Hq]. rewrite lookup_insert_ne in Hq by done. by exists q. }
    destruct (inv_closed _ _ _ _ _ _ Hinv x Hx') as [H|[H|H]].
    + left. by right.
    + right. by left.
    + right. right. intros z Hz. apply Hmono. by apply H.
  - intros Hg. apply elem_of_set_add.
    destruct (decide (goal = y)) as [->|Hne]; [by left|]. right.
    apply (inv_goal _ _ _ _ _ _ Hinv).
    destruct Hg as [q Hq]. rewrite lookup_insert_ne in Hq by done. by exists q.
  - intros x. pose proof (inv_clock _ _ _ _ _ _ Hinv x). case_decide; lia.
  - rewrite (decide_False (P := c = y)) by done.
    intros x q. destruct (decide (x = y)) as [->|Hne].
    + rewrite lookup_insert_eq. intros [= <-]. split.
      * apply NoDup_app. split; [done|]. split; [|apply NoDup_singleton].
        intros z Hz Hzy. apply list_elem_of_singleton in Hzy as ->. done.
      * split.
        -- intros z Hz. apply elem_of_app in Hz as [Hz|Hz].
           ++ assert (z ≠ y) by (intros ->; done).
              rewrite lookup_insert_ne by done.
              destruct (Hcel z Hz) as (qz & Hqz & Hz'). exists qz. split; [done | lra].
           ++ apply list_elem_of_singleton in Hz as ->.
              rewrite lookup_insert_eq. exists tq. split; [done | lra].
        -- right. split; [done|]. exists (π c). split; [done | by left].
    + rewrite lookup_insert_ne by done. intros Hq.
      destruct (inv_trail _ _ _ _ _ _ Hinv x q Hq) as (Hnd & Hel & Hsh).
      split; [done|]. split; [|done].
      intros z Hz. destruct (Hel z Hz) as (qz & Hqz & Hz').
      destruct (decide (z = y)) as [->|Hnz].
      * rewrite lookup_insert_eq. exists tq. split; [done|].
        specialize (Hlow qz Hqz). lra.
      * rewrite lookup_insert_ne by done. by exists qz.
  - rewrite (decide_False (P := c = y)) by done.
    intros x Hx. apply elem_of_set_add in Hx.
    destruct (decide (x = y)) as [->|Hne].
    + intros Hin. apply elem_of_cons in Hin as [Heq|Hin].
      * apply (f_equal length) in Heq. rewrite length_app in Heq. simpl in Heq. lia.
      * apply (inv_prefix _ _ _ _ _ _ Hinv) in Hin as [?|?]; done.
    + destruct Hx as [?|Hx]; [done|]. apply (inv_fresh _ _ _ _ _ _ Hinv x Hx).
  - apply (inv_prefix _ _ _ _ _ _ Hinv).
  - apply (inv_done _ _ _ _ _ _ Hinv).
  - intros c' [= <-]. rewrite (decide_False (P := c = y)) by done.
    split; [|split; [|done]].
    + rewrite elem_of_set_add. intros [?|?]; done.
    + by apply Hmono.
Qed.

Lemma inv_calls cur st t T π U k :
  astarInv cur st t T π U →
  astarInv cur
    {| openSet := openSet st; cameFrom := cameFrom st; gScore := gScore st;
       fScore := fScore st; calls := k |} t T π U.
Proof. intros []. by constructor. Qed.

Lemma cost_nonneg (c0 : Q) (k : nat) :
  0 <= c0 →
  0 <= (if randomize then c0 * (1 + (rnd k * (4 # 10) - (2 # 10))) else c0).
Proof.
  intros H. destruct randomize; [|done].
  destruct (rnd_range k) as [Hr _].
  apply Qmult_le_0_compat; [done | lra].
Qed.

(** One pass of the loop over the neighbours keeps the invariant, leaves the
    neighbour with a finite score and throws nothing. *)
Lemma relax_inv c st t T π U y :
  astarInv (Some c) st t T π U →
  adjacent edges c y →
  ∃ st' t' T' π',
    relax hypot nodes goal randomize rnd c (Some st) y = Some st'
    ∧ astarInv (Some c) st' t' T' π' U
    ∧ finite (gScore st') y
    ∧ (∀ x, finite (gScore st) x → finite (gScore st') x).
Proof.
  intros Hinv Hadj.
  destruct (inv_cur _ _ _ _ _ _ Hinv c eq_refl) as (_ & [qc Hqc] & _ & _).
  destruct (adjacent_in_range _ _ Hadj) as [Hc Hy].
  destruct (lookup_lt_is_Some_2 nodes c Hc) as [nc Hnc].
  destruct (lookup_lt_is_Some_2 nodes y Hy) as [nn Hnn].
  destruct (lookup_lt_is_Some_2 nodes goal goal_ok) as [ng Hng].
  destruct (proj2 (inv_dom _ _ _ _ _ _ Hinv y) Hy) as [gy Hgy].
  unfold relax. cbn [mbind option_bind]. rewrite Hnc, Hnn. cbn [mbind option_bind].
  rewrite Hqc, Hgy, Hng. cbn [fmap option_fmap option_map num_add mbind option_bind].
  pose proof (cost_nonneg
    (Graphics.distance hypot (node_x nc) (node_y nc) (node_x nn) (node_y nn))
    (calls st) (hypot_nonneg _ _)) as Hcost.
  set (cost := if randomize then _ else _) in *.
  assert (∀ tq fq k, qc <= tq → (∀ qy, gy = Fin qy → tq < qy) →
    let st' := {| openSet := set_add y (openSet st);
                  cameFrom := <[y := c]> (cameFrom st);
                  gScore := <[y := Fin tq]> (gScore st);
                  fScore := <[y := Fin fq]> (fScore st);
                  calls := k |} in
    ∃ t' T' π', astarInv (Some c) st' t' T' π' U
      ∧ finite (gScore st') y
      ∧ (∀ x, finite (gScore st) x → finite (gScore st') x)) as Hupd.
  { intros tq fq k Hle Hlow st'. eexists _, _, _. split.
    - apply relax_update; [done | done | by exists qc |].
      intros qy Hqy. apply Hlow. congruence.
    - split; [exists tq; apply lookup_insert_eq|].
      intros x [q Hq]. destruct (decide (x = y)) as [->|Hne].
      + exists tq. apply lookup_insert_eq.
      + exists q. simpl. by rewrite lookup_insert_ne. }
  destruct gy as [qy|]; cbn [num_lt].
  - destruct (Qltb (qc + cost) qy) eqn:E.
    + destruct (Hupd (qc + cost) (qc + cost + heuristic hypot nn ng)
                  (if randomize then S (calls st) else calls st))
        as (t' & T' & π' & H1 & H2 & H3).
      * lra.
      * intros ? [= <-]. by apply Qltb_lt.
      * eexists _, t', T', π'. split; [reflexivity|]. done.
    + eexists _, t, T, π. split; [reflexivity|].
      split; [by apply inv_calls|]. split; [by exists qy | done].
  - destruct (Hupd (qc + cost) (qc + cost + heuristic hypot nn ng)
                (if randomize then S (calls st) else calls st))
      as (t' & T' & π' & H1 & H2 & H3).
    + lra.
    + done.
    + eexists _, t', T', π'. split; [reflexivity|]. done.
Qed.

Lemma relax_fold c U l :
  ∀ st t T π,
    astarInv (Some c) st t T π U →
    (∀ y, y ∈ l → adjacent edges c y) →
    ∃ st' t' T' π',
      foldl (relax hypot nodes goal randomize rnd c) (Some st) l = Some st'
      ∧ astarInv (Some c) st' t' T' π' U
      ∧ (∀ y, y ∈ l → finite (gScore st') y)
      ∧ (∀ x, finite (gScore st) x → finite (gScore st') x).
Proof.
  induction l as [|y l IH]; intros st t T π Hinv Hadj.
  - exists st, t, T, π. split; [done|]. split; [done|]. split; [|done].
    intros y Hy. by apply elem_of_nil in Hy.
  - destruct (relax_inv c st t T π U y Hinv) as (st1 & t1 & T1 & π1 & Hr & Hinv1 & Hy1 & Hm1).
    { apply Hadj. by left. }
    destruct (IH st1 t1 T1 π1 Hinv1) as (st2 & t2 & T2 & π2 & Hf & Hinv2 & Hl2 & Hm2).
    { intros z Hz. apply Hadj. by right. }
    exists st2, t2, T2, π2. cbn [foldl]. rewrite Hr. split; [done|]. split; [done|].
    split.
    + intros z Hz. apply elem_of_cons in Hz as [->|Hz]; [by apply Hm2 | by apply Hl2].
    + intros x Hx. by apply Hm2, Hm1.
Qed.

(** Taking [current] out of the open set. *)
Lemma select_inv c st t T π U :
  astarInv None st t T π U → c ∈ openSet st → c ≠ goal →
  astarInv (Some c)
    {| openSet := set_delete c (openSet st); cameFrom := cameFrom st;
       gScore := gScore st; fScore := fScore st; calls := calls st |} t T π U.
Proof.
  intros Hinv Hc Hcg.
  destruct (inv_open _ _ _ _ _ _ Hinv c Hc) as [Hfc _].
  constructor; simpl.
  - apply (inv_dom _ _ _ _ _ _ Hinv).
  - apply (inv_start _ _ _ _ _ _ Hinv).
  - apply (inv_nonneg _ _ _ _ _ _ Hinv).
  - apply (inv_root _ _ _ _ _ _ Hinv).
  - apply (inv_parent _ _ _ _ _ _ Hinv).
  - apply (inv_reached _ _ _ _ _ _ Hinv).
  - intros x Hx. apply elem_of_set_delete in Hx as [_ Hx].
    by apply (inv_open _ _ _ _ _ _ Hinv).
  - apply NoDup_set_delete, (inv_open_nodup _ _ _ _ _ _ Hinv).
  - intros x Hx. rewrite elem_of_set_delete.
    destruct (decide (x = c)) as [->|Hne]; [right; by left|].
    destruct (inv_closed _ _ _ _ _ _ Hinv x Hx) as [H|[H|H]]; [|done|].
    + left. done.
    + right. by right.
  - intros Hg. apply elem_of_set_delete. split; [done|].
    by apply (inv_goal _ _ _ _ _ _ Hinv).
  - apply (inv_clock _ _ _ _ _ _ Hinv).
  - intros x q Hq.
    destruct (inv_trail _ _ _ _ _ _ Hinv x q Hq) as (H1 & H2 & H3).
    split; [done|]. split; [done|].
    destruct H3 as [H3|[H3 (p' & H4 & H5)]]; [by left|].
    right. split; [done|]. exists p'. split; [done | by right].
  - intros x Hx. apply elem_of_set_delete in Hx as [Hne Hx].
    intros Hin. apply elem_of_cons in Hin as [Heq|Hin].
    + apply Hne.
      destruct (inv_open _ _ _ _ _ _ Hinv x Hx) as [Hfx _].
      pose proof (trail_last _ _ _ _ _ _ x Hinv Hfx) as H1.
      pose proof (trail_last _ _ _ _ _ _ c Hinv Hfc) as H2.
      rewrite Heq in H1. congruence.
    + by apply (inv_fresh _ _ _ _ _ _ Hinv x Hx).
  - apply (inv_prefix _ _ _ _ _ _ Hinv).
  - apply (inv_done _ _ _ _ _ _ Hinv).
  - intros c' [= <-]. split; [|split; [done|split; [done|]]].
    + rewrite elem_of_set_delete. tauto.
    + by apply (inv_fresh _ _ _ _ _ _ Hinv c Hc).
Qed.

(** The end of an iteration: every neighbour of [current] has been looked
    at, and its path joins the explored ones. *)
Lemma close_inv c st t T π U :
  astarInv (Some c) st t T π U →
  (∀ y, adjacent edges c y → finite (gScore st) y) →
  astarInv None st t T π (π c :: U).
Proof.
  intros Hinv Hall.
  destruct (inv_cur _ _ _ _ _ _ Hinv c eq_refl) as (Hco & Hcf & Hcg & Hcu).
  constructor.
  - apply (inv_dom _ _ _ _ _ _ Hinv).
  - apply (inv_start _ _ _ _ _ _ Hinv).
  - apply (inv_nonneg _ _ _ _ _ _ Hinv).
  - apply (inv_root _ _ _ _ _ _ Hinv).
  - apply (inv_parent _ _ _ _ _ _ Hinv).
  - apply (inv_reached _ _ _ _ _ _ Hinv).
  - apply (inv_open _ _ _ _ _ _ Hinv).
  - apply (inv_open_nodup _ _ _ _ _ _ Hinv).
  - intros x Hx. destruct (inv_closed _ _ _ _ _ _ Hinv x Hx) as [H|[H|H]].
    + by left.
    + injection H as <-. right. by right.
    + right. by right.
  - apply (inv_goal _ _ _ _ _ _ Hinv).
  - apply (inv_clock _ _ _ _ _ _ Hinv).
  - apply (inv_trail _ _ _ _ _ _ Hinv).
  - apply (inv_fresh _ _ _ _ _ _ Hinv).
  - intros p y Hin. apply elem_of_cons in Hin as [Heq|Hin].
    + destruct Hcf as [q Hq].
      destruct (inv_trail _ _ _ _ _ _ Hinv c q Hq) as (_ & _ & Hsh).
      destruct Hsh as [[_ Hs]|[_ (p' & Hs & Hp')]]; rewrite Hs in Heq.
      * left. destruct p; [done|]. destruct p; simplify_eq.
      * apply app_inj_tail in Heq as [-> _]. by right.
    + apply (inv_prefix _ _ _ _ _ _ Hinv) in Hin as [?|?]; [by left|].
      right. by right.
  - destruct (inv_done _ _ _ _ _ _ Hinv) as [Hnd Hel]. split.
    + by apply NoDup_cons.
    + intros p Hp. apply elem_of_cons in Hp as [->|Hp]; [|by apply Hel].
      by eapply trail_in_range.
  - intros c' [=].
Qed.

Variable graph : gmap nat (list nat).
Hypothesis graph_ok : ∀ i, (i < length nodes)%nat →
  ∃ l, graph !! i = Some l ∧ ∀ v, v ∈ l ↔ adjacent edges i v.

(** What [findPath] returns for distinct [start] and [goal]. *)
Definition routeOrNothing (p : list nat) : Prop :=
  (p = [] ∧ ¬ connected edges start goal)
  ∨ (head p = Some start ∧ last p = Some goal ∧ linked edges p ∧ NoDup p).

Lemma reached_closed cur st t T π U :
  astarInv cur st t T π U → openSet st = [] → cur = None →
  ∀ x, connected edges start x → finite (gScore st) x.
Proof.
  intros Hinv Ho Hcur. unfold connected. apply rtc_ind_r; [|intros x y Hxy Hadj IH].
  - exists 0. apply (inv_start _ _ _ _ _ _ Hinv).
  - destruct (inv_closed _ _ _ _ _ _ Hinv _ IH) as [H|[H|H]].
    + rewrite Ho in H. by apply elem_of_nil in H.
    + congruence.
    + by apply H.
Qed.

(** The loop ends, with fuel for one iteration per duplicate-free path and
    for the walk back from [goal]. *)
Lemma search_total :
  ∀ fuel st t T π U,
    astarInv None st t T π U →
    (length (words (length nodes) (length nodes)) - length U + length nodes + 2
     ≤ fuel)%nat →
    ∃ p, search hypot fuel nodes graph goal randomize rnd st = Ret p
         ∧ routeOrNothing p.
Proof.
  induction fuel as [|fuel IH]; intros st t T π U Hinv Hfuel; [lia|].
  cbn [search]. destruct (openSet st) as [|x0 l0] eqn:Ho.
  - exists []. split; [done|]. left. split; [done|]. intros Hc.
    apply (reached_closed _ _ _ _ _ _ Hinv Ho eq_refl) in Hc.
    apply (inv_goal _ _ _ _ _ _ Hinv) in Hc. rewrite Ho in Hc.
    by apply elem_of_nil in Hc.
  - destruct (lowest_in st) as (c & Hlow & Hc).
    { by rewrite Ho. }
    { intros x Hx. by apply (inv_open _ _ _ _ _ _ Hinv). }
    rewrite Hlow. destruct (decide (c = goal)) as [->|Hcg].
    + destruct (inv_open _ _ _ _ _ _ Hinv goal Hc) as [Hfg _].
      destruct (chain_exists _ _ _ _ _ _ Hinv (length nodes) goal [] Hfg)
        as (p & Hch & Hh & Hl & Hlk & Hnd & _ & Hlen).
      { apply NoDup_singleton. }
      { intros y Hy. by apply elem_of_nil in Hy. }
      { constructor. }
      { simpl. lia. }
      unfold reconstructPath.
      rewrite (reconstruct_chain _ _ _ Hch (S fuel) []) by lia.
      rewrite app_nil_r. exists p. split; [done|]. right. done.
    + pose proof (select_inv c st t T π U Hinv Hc Hcg) as Hsel.
      assert (c < length nodes)%nat as Hcn.
      { destruct (inv_open _ _ _ _ _ _ Hinv c Hc) as [[q Hq] _].
        apply (inv_dom _ _ _ _ _ _ Hinv). by eexists. }
      destruct (graph_ok c Hcn) as (l & Hl & Hadj). rewrite Hl. cbn [default]. rewrite <- Ho.
      destruct (relax_fold c U l _ t T π Hsel) as (st2 & t2 & T2 & π2 & Hf & Hinv2 & Hl2 & _).
      { intros y Hy. by apply Hadj. }
      unfold id. rewrite Hf.
      assert (astarInv None st2 t2 T2 π2 (π2 c :: U)) as Hinv3.
      { apply close_inv; [done|]. intros y Hy. apply Hl2. by apply Hadj. }
      apply (IH st2 t2 T2 π2 (π2 c :: U) Hinv3).
      destruct (inv_done _ _ _ _ _ _ Hinv3) as [Hnd Hel].
      pose proof (nodup_words_bounded (length nodes) _ Hnd Hel) as Hb.
      simpl in *. lia.
Qed.

(** The state [findPath] enters the loop with. *)
Lemma init_inv (h : Q) :
  astarInv None
    {| openSet := [start]; cameFrom := ∅;
       gScore := <[start := Fin 0]> (initScores (length nodes));
       fScore := <[start := Fin h]> (initScores (length nodes));
       calls := O |}
    (λ _, O) 1 (λ _, [start]) [].
Proof.
  assert (∀ x q, <[start := Fin 0]> (initScores (length nodes)) !! x = Some (Fin q)
                 → x = start ∧ q = 0) as Honly.
  { intros x q. destruct (decide (x = start)) as [->|Hne].
    - rewrite lookup_insert_eq. by intros [= <-].
    - rewrite lookup_insert_ne by done. rewrite initScores_lookup.
      case_decide; done. }
  constructor; simpl.
  - intros x. destruct (decide (x = start)) as [->|Hne].
    + rewrite lookup_insert_eq. split; [done | by eexists].
    + rewrite lookup_insert_ne by done. rewrite initScores_lookup.
      case_decide; split; try done; try lia; by intros [? ?].
  - apply lookup_insert_eq.
  - intros x q Hq. apply Honly in Hq as [_ ->]. lra.
  - apply lookup_empty.
  - intros x c Hc. by rewrite lookup_empty in Hc.
  - intros x [q Hq]. apply Honly in Hq as [-> _]. by left.
  - intros x Hx. apply list_elem_of_singleton in Hx as ->.
    split; eexists; apply lookup_insert_eq.
  - apply NoDup_singleton.
  - intros x [q Hq]. apply Honly in Hq as [-> _]. left. by left.
  - intros [q Hq]. apply Honly in Hq as [-> _]. by left.
  - intros _. lia.
  - intros x q Hq. apply Honly in Hq as [-> ->].
    split; [apply NoDup_singleton|]. split; [|by left].
    intros z Hz. apply list_elem_of_singleton in Hz as ->.
    exists 0. rewrite lookup_insert_eq. split; [done | lra].
  - intros x _ Hin. by apply elem_of_nil in Hin.
  - intros p y Hin. by apply elem_of_nil in Hin.
  - split; [apply NoDup_nil_2|]. intros p Hin. by apply elem_of_nil in Hin.
  - intros c [=].
Qed.

End AStar.

(** Fuel that is enough for [findPath] on [n] nodes. *)
Definition findPathFuel (n : nat) : nat := length (words n n) + n + 2.

(** [findPath] between two distinct nodes of a graph returns: the empty path
    when no route joins them, a duplicate-free route otherwise. *)
Lemma findPath_total (hypot : Q → Q → Q) (rnd : nat → Q) (nodes : list Node)
    (edges : list (nat * nat)) (start goal : nat) (randomize : bool) :
  (∀ a b, 0 <= hypot a b) →
  (∀ k, 0 <= rnd k ∧ rnd k < 1) →
  edgesInRange (length nodes) edges →
  (start < length nodes)%nat → (goal < length nodes)%nat →
  start ≠ goal →
  ∀ fuel, (findPathFuel (length nodes) ≤ fuel)%nat →
    ∃ p, Pathfinding.findPath hypot fuel rnd nodes edges start goal randomize = Ret p
         ∧ routeOrNothing edges start goal p.
Proof.
  intros Hh Hr He Hs Hg Hne fuel Hfuel.
  unfold Pathfinding.findPath. rewrite decide_False by done.
  destruct (buildGraph_spec (length nodes) edges He) as (graph & -> & Hgraph).
  destruct (lookup_lt_is_Some_2 nodes start Hs) as [ns ->].
  destruct (lookup_lt_is_Some_2 nodes goal Hg) as [ng ->].
  eapply search_total; try eassumption.
  - intros i Hi. specialize (Hgraph i). rewrite decide_True in Hgraph by done.
    destruct Hgraph as (l & Hl & Hadj & _). by exists l.
  - apply init_inv; assumption.
  - unfold findPathFuel in Hfuel. simpl. lia.
Qed.

Lemma adjacent_line (u v : nat) :
  adjacent [(0, 1); (1, 2)]%nat u v →
  (u = 0 ∧ v = 1)%nat ∨ (u = 1 ∧ v = 2)%nat ∨ (u = 1 ∧ v = 0)%nat ∨ (u = 2 ∧ v = 1)%nat.
Proof.
  unfold adjacent. rewrite !elem_of_cons, !elem_of_nil.
  intros [[H|[H|[]]]|[H|[H|[]]]]; injection H as -> ->; tauto.
Qed.

Lemma connected_line : connected [(0, 1); (1, 2)]%nat 0 2.
Proof.
  apply rtc_l with 1%nat; [left; by left|].
  apply rtc_l with 2%nat; [left; right; by left|]. apply rtc_refl.
Qed.

(** The only duplicate-free route from 0 to 2 on the line 0 - 1 - 2. *)
Lemma line_route (p : list nat) :
  head p = Some 0%nat → last p = Some 2%nat →
  linked [(0, 1); (1, 2)]%nat p → NoDup p → p = [0; 1; 2]%nat.
Proof.
  intros Hh Hl Hlk Hnd.
  destruct p as [|a [|b [|c [|d p]]]]; simpl in Hh, Hl; simplify_eq.
  - destruct Hlk as [H _]. apply adjacent_line in H. lia.
  - destruct Hlk as [H _]. apply adjacent_line in H.
    assert (b = 1%nat) as -> by lia. done.
  - destruct Hlk as (H1 & H2 & H3 & _).
    apply adjacent_line in H1, H2, H3.
    assert (b = 1%nat) as -> by lia.
    apply NoDup_cons in Hnd as [Hn0 Hnd]. apply NoDup_cons in Hnd as [Hn1 _].
    destruct H2 as [?|[[_ ->]|[[_ ->]|?]]]; try lia.
    + assert (d = 1%nat) as -> by lia.
      exfalso. apply Hn1. right. by left.
    + exfalso. apply Hn0. right. by left.
Qed.

(** C2. [findPath] on a graph (edges join nodes of the graph, [start] and
    [goal] are nodes): it returns a path, which is [[start]] when
    [start = goal], the empty path (nothing is thrown) when no route joins
    the two, and otherwise begins with [start], ends with [goal] and has
    each two consecutive nodes joined by an edge (it also repeats no node);
    on the line 0 - 1 - 2 with edges [[0,1],[1,2]] the path from 0 to 2 is
    [[0,1,2]], wherever the nodes lie and with or without randomized
    costs. *)
Theorem C2_findPath_postcondition (hypot : Q → Q → Q) (rnd : nat → Q)
    (nodes : list Node) (edges : list (nat * nat)) (start goal : nat)
    (randomize : bool) (fuel : nat) :
  (∀ a b, 0 <= hypot a b) →
  (∀ k, 0 <= rnd k ∧ rnd k < 1) →
  edgesInRange (length nodes) edges →
  (start < length nodes)%nat → (goal < length nodes)%nat →
  (findPathFuel (length nodes) ≤ fuel)%nat →
  ∃ p, Pathfinding.findPath hypot fuel rnd nodes edges start goal randomize = Ret p
       ∧ (start = goal → p = [start])
       ∧ (¬ connected edges start goal → p = [])
       ∧ (start ≠ goal → connected edges start goal →
          head p = Some start ∧ last p = Some goal ∧ linked edges p ∧ NoDup p)
       ∧ (edges = [(0, 1); (1, 2)]%nat → start = 0%nat → goal = 2%nat →
          p = [0; 1; 2]%nat).
Proof.
  intros Hh Hr He Hs Hg Hfuel.
  destruct (decide (start = goal)) as [->|Hne].
  - exists [goal]. unfold Pathfinding.findPath. rewrite decide_True by done.
    split; [done|]. split; [done|]. split.
    + intros Hn. exfalso. apply Hn. apply rtc_refl.
    + split; [done|]. intros _ -> [=].
  - destruct (findPath_total hypot rnd nodes edges start goal randomize
                Hh Hr He Hs Hg Hne fuel Hfuel) as (p & Hp & Hpost).
    exists p. split; [done|]. split; [done|].
    destruct Hpost as [[-> Hn]|(H1 & H2 & H3 & H4)].
    + split; [done|]. split; [done|].
      intros -> -> ->. exfalso. apply Hn, connected_line.
    + split.
      * intros Hn. exfalso. apply Hn. by eapply linked_connected.
      * split; [done|]. intros -> -> ->. by apply line_route.
Qed.

Lemma C2_witness :
  ∃ p, Pathfinding.findPath manhattan (findPathFuel 3) (λ _, 1 # 2)
         line_nodes line_edges 0 2 true = Ret p
       ∧ p = [0; 1; 2]%nat.
Proof.
  destruct (C2_findPath_postcondition manhattan (λ _, 1 # 2) line_nodes
              line_edges 0 2 true (findPathFuel 3))
    as (p & Hp & _ & _ & _ & Hline).
  - intros a b. unfold manhattan.
    pose proof (Qabs_nonneg a). pose proof (Qabs_nonneg b). lra.
  - intros _. split; [discriminate | reflexivity].
  - intros e He. unfold line_edges in He.
    rewrite !elem_of_cons, elem_of_nil in He.
    destruct He as [->|[->|[]]]; simpl; lia.
  - simpl. lia.
  - simpl. lia.
  - reflexivity.
  - exists p. split; [exact Hp|]. by apply Hline.
Defined.

(** [findPath] between nodes of a graph returns, and returns the empty path
    when no route joins them. *)
Lemma findPath_answer (hypot : Q → Q → Q) (rnd : nat → Q) (nodes : list Node)
    (edges : list (nat * nat)) (start goal : nat) (randomize : bool) (fuel : nat) :
  (∀ a b, 0 <= hypot a b) →
  (∀ k, 0 <= rnd k ∧ rnd k < 1) →
  edgesInRange (length nodes) edges →
  (start < length nodes)%nat → (goal < length nodes)%nat →
  (findPathFuel (length nodes) ≤ fuel)%nat →
  ∃ p, Pathfinding.findPath hypot fuel rnd nodes edges start goal randomize = Ret p
       ∧ (¬ connected edges start goal → p = []).
Proof.
  intros Hh Hr He Hs Hg Hfuel.
  destruct (decide (start = goal)) as [->|Hne].
  - exists [goal]. unfold Pathfinding.findPath. rewrite decide_True by done.
    split; [done|]. intros Hn. exfalso. apply Hn, rtc_refl.
  - destruct (findPath_total hypot rnd nodes edges start goal randomize
                Hh Hr He Hs Hg Hne fuel Hfuel) as (p & Hp & Hpost).
    exists p. split; [done|]. intros Hn.
    destruct Hpost as [[-> _]|(H1 & H2 & H3 & _)]; [done|].
    exfalso. apply Hn. by eapply linked_connected.
Qed.

(** ** Re-routing that fails (Enemy.rerouteToNode) *)

Section RerouteFailure.

Variable hypot : Q → Q → Q.
Hypothesis hypot_nonneg : ∀ a b, 0 <= hypot a b.

Lemma route_answer (fuel : nat) (e : Enemy.t) (es : list (nat * nat)) (a b : nat) :
  Enemy.edges e = Some es →
  edgesInRange (length (Enemy.nodes e)) es →
  (a < length (Enemy.nodes e))%nat → (b < length (Enemy.nodes e))%nat →
  (findPathFuel (length (Enemy.nodes e)) ≤ fuel)%nat →
  ∃ p, Enemy.route hypot fuel e a b = Ret p ∧ (¬ connected es a b → p = []).
Proof.
  intros Hes He Ha Hb Hfuel. unfold Enemy.route. rewrite Hes.
  apply findPath_answer; done.
Qed.

(** The splice gives up with a [return] when a route it needs is missing. *)
Lemma splice_abandoned (fuel H : nat) (e1 : Enemy.t) (es : list (nat * nat))
    (prev next goal : nat) :
  Enemy.edges e1 = Some es →
  edgesInRange (length (Enemy.nodes e1)) es →
  (H < length (Enemy.nodes e1))%nat →
  (prev < length (Enemy.nodes e1))%nat →
  (next < length (Enemy.nodes e1))%nat →
  (goal < length (Enemy.nodes e1))%nat →
  (findPathFuel (length (Enemy.nodes e1)) ≤ fuel)%nat →
  ¬ connected es H goal ∨ (¬ connected es prev H ∧ ¬ connected es next H) →
  Enemy.splice hypot fuel H e1 prev next goal = Ret (e1, Enemy.Returned).
Proof.
  intros Hes He HH Hp Hn Hg Hfuel Hfail. unfold Enemy.splice.
  destruct (route_answer fuel e1 es prev H Hes He Hp HH Hfuel) as (p1 & -> & H1).
  destruct (route_answer fuel e1 es next H Hes He Hn HH Hfuel) as (p2 & -> & H2).
  destruct (route_answer fuel e1 es H goal Hes He HH Hg Hfuel) as (p3 & -> & H3).
  case_bool_decide as Hlen; [done|].
  destruct Hfail as [Hfail|[Hf1 Hf2]].
  { rewrite (H3 Hfail) in Hlen. done. }
  rewrite (H1 Hf1), (H2 Hf2).
  destruct (lookup_lt_is_Some_2 _ _ Hp) as [np ->].
  destruct (lookup_lt_is_Some_2 _ _ Hn) as [nn ->].
  done.
Qed.

End RerouteFailure.

(** C8, as the code has it. An agent that carries the edges of its graph
    (edges between nodes; the nodes of its path and the attractor [H] are
    nodes): when no route joins [H] to the goal of the agent, or none joins
    either of the entry nodes [prev] and [next] to [H], [rerouteToNode(H)]
    leaves its [try] block by a [return] statement, not through the [catch]
    clause, and the path and the traversal index of the agent are what they
    were. *)
Theorem C8_reroute_failure_returns (hypot : Q → Q → Q) (fuel H : nat)
    (e : Enemy.t) (es : list (nat * nat)) :
  (∀ a b, 0 <= hypot a b) →
  Enemy.edges e = Some es →
  edgesInRange (length (Enemy.nodes e)) es →
  (H < length (Enemy.nodes e))%nat →
  Forall (λ i, (i < length (Enemy.nodes e))%nat) (Enemy.path e) →
  (findPathFuel (length (Enemy.nodes e)) ≤ fuel)%nat →
  (∀ prev next goal,
     Enemy.path e !! Enemy.currentPathIndex e = Some prev →
     Enemy.path e !! S (Enemy.currentPathIndex e) = Some next →
     last (Enemy.path e) = Some goal →
     ¬ connected es H goal ∨ (¬ connected es prev H ∧ ¬ connected es next H)) →
  ∃ e', Enemy.rerouteToNode hypot fuel H e = Ret (e', Enemy.Returned)
        ∧ Enemy.path e' = Enemy.path e
        ∧ Enemy.currentPathIndex e' = Enemy.currentPathIndex e.
Proof.
  intros Hh Hes He HH Hpath Hfuel Hfail. unfold Enemy.rerouteToNode.
  destruct (decide (H ∈ Enemy.processedHoneypots e)); [by exists e|].
  case_bool_decide; [by exists e|].
  destruct (_ && _); [by exists e|].
  case_bool_decide; [by exists e|].
  case_bool_decide; [by exists e|].
  cbn [Enemy.path Enemy.currentPathIndex Enemy.withRoute].
  destruct (Enemy.path e !! Enemy.currentPathIndex e) as [prev|] eqn:Ep;
    [|eexists; split; [reflexivity | done]].
  destruct (Enemy.path e !! S (Enemy.currentPathIndex e)) as [next|] eqn:En;
    [|eexists; split; [reflexivity | done]].
  destruct (last (Enemy.path e)) as [goal|] eqn:Eg;
    [|eexists; split; [reflexivity | done]].
  rewrite Forall_forall in Hpath.
  erewrite (splice_abandoned hypot Hh fuel H _ es prev next goal); try done.
  - eexists. split; [reflexivity | done].
  - apply Hpath. by eapply list_elem_of_lookup_2.
  - apply Hpath. by eapply list_elem_of_lookup_2.
  - apply Hpath. apply last_Some in Eg as [l' ->]. apply elem_of_app. right. by left.
  - by apply Hfail.
Qed.

(** The line [0 - 1 - 2] and a node 3 that no edge reaches. *)
Definition island_nodes : list Node := line_nodes ++ [mkNode 3 9 9 normal].

(** An agent on the first edge of the line. *)
Definition stranded_enemy (edges : option (list (nat * nat))) : Enemy.t :=
  {| Enemy.type := "BASIC";
     Enemy.config := Config.mkEnemyConfig (Fin 20) (15 # 10) 8 15 false false;
     Enemy.path := [0; 1; 2]%nat; Enemy.nodes := island_nodes;
     Enemy.edges := edges; Enemy.currentPathIndex := 0%nat;
     Enemy.x := 0; Enemy.y := 0; Enemy.targetX := 3; Enemy.targetY := 4;
     Enemy.health := Fin 20; Enemy.maxHealth := Fin 20;
     Enemy.speed := 15 # 10; Enemy.baseSpeed := 15 # 10;
     Enemy.alive := true; Enemy.reachedGoal := false;
     Enemy.slowFactor := 1; Enemy.slowTimer := 0;
     Enemy.attractionTimer := 0; Enemy.attractionX := 0; Enemy.attractionY := 0;
     Enemy.attractedToNode := None; Enemy.originalPath := None;
     Enemy.distractionPauseTimer := 0;
     Enemy.processedHoneypots := ∅;
     Enemy.distractionTimer := 0; Enemy.revealed := true;
     Enemy.offsetX := 0; Enemy.offsetY := 0; Enemy.size := 8 |}.

Lemma island_unreachable (x : nat) : ¬ connected line_edges 3 x ∨ x = 3%nat.
Proof.
  destruct (decide (x = 3%nat)) as [->|Hne]; [by right|]. left. intros Hc.
  apply rtc_inv in Hc as [?|(y & Hadj & _)]; [done|].
  apply adjacent_line in Hadj. lia.
Qed.

Lemma C8_witness :
  ∃ e', Enemy.rerouteToNode manhattan (findPathFuel 4) 3
          (stranded_enemy (Some line_edges)) = Ret (e', Enemy.Returned)
        ∧ Enemy.path e' = [0; 1; 2]%nat
        ∧ Enemy.currentPathIndex e' = 0%nat.
Proof.
  apply (C8_reroute_failure_returns manhattan (findPathFuel 4) 3
           (stranded_enemy (Some line_edges)) line_edges).
  - intros a b. unfold manhattan.
    pose proof (Qabs_nonneg a). pose proof (Qabs_nonneg b). lra.
  - reflexivity.
  - intros e He. unfold line_edges in He.
    rewrite !elem_of_cons, elem_of_nil in He.
    destruct He as [->|[->|[]]]; simpl; lia.
  - simpl. lia.
  - simpl. repeat constructor.
  - apply le_n.
  - intros prev next goal _ _ Hg. simpl in Hg. injection Hg as <-.
    left. destruct (island_unreachable 2) as [Hn|Hn]; [exact Hn | lia].
Defined.

(** A node id beyond the line reaches nothing. *)
Lemma stale_unreachable (h x : nat) : (3 ≤ h)%nat → x ≠ h → ¬ connected line_edges h x.
Proof.
  intros Hh Hne Hc.
  apply rtc_inv in Hc as [?|(y & Hadj & _)]; [done|].
  apply adjacent_line in Hadj. lia.
Qed.

(** C8 as stated fails in two ways. An agent built without its edges (the
    default of the constructor): no route joins node 3 to the goal, yet the
    call does not leave by a [return]: [findPath] iterates [null], and the
    [catch] clause swallows the error, after the attractor has been
    recorded. And an agent that does hold its edges, attracted to a node id
    outside its node list (a Honeypot kept from an earlier, larger map): no
    route joins node 7 to the goal, [findPath] reads a field of the missing
    node, and the [catch] clause swallows that error in the same way. *)
Lemma C8_counterexample :
  (Enemy.edges (stranded_enemy None) = None
   ∧ ¬ connected line_edges 3 2
   ∧ ∃ e', Enemy.rerouteToNode manhattan (findPathFuel 4) 3 (stranded_enemy None)
           = Ret (e', Enemy.Caught)
           ∧ Enemy.attractedToNode e' = Some 3%nat)
  ∧ (Enemy.edges (stranded_enemy (Some line_edges)) = Some line_edges
     ∧ length (Enemy.nodes (stranded_enemy (Some line_edges))) = 4%nat
     ∧ ¬ connected line_edges 7 2
     ∧ ∃ e', Enemy.rerouteToNode manhattan (findPathFuel 4) 7
               (stranded_enemy (Some line_edges))
             = Ret (e', Enemy.Caught)
             ∧ Enemy.attractedToNode e' = Some 7%nat).
Proof.
  split.
  - split; [reflexivity|]. split.
    + destruct (island_unreachable 2) as [Hn|Hn]; [exact Hn | lia].
    + eexists. split; [vm_compute; reflexivity | reflexivity].
  - split; [reflexivity|]. split; [reflexivity|]. split.
    + apply stale_unreachable; lia.
    + eexists. split; [vm_compute; reflexivity | reflexivity].
Qed.

(** * Part III: further properties of the code *)

(** ** The path of [findPath] is a shortest one *)

(** [a <= b] on numbers that may be [Infinity]. *)
Definition num_le (a b : num) : Prop :=
  match a, b with
  | Fin x, Fin y => x <= y
  | _, Inf => True
  | Inf, Fin _ => False
  end.

Lemma num_le_trans (a b c : num) : num_le a b → num_le b c → num_le a c.
Proof. destruct a, b, c; simpl; try done. intros. lra. Qed.

Lemma num_lt_le (a b : num) : num_lt a b = true → num_le a b.
Proof.
  destruct a, b; simpl; try done. intros H. apply Qltb_lt in H. lra.
Qed.

Lemma num_lt_ge (a b : num) : num_lt a b = false → num_le b a.
Proof.
  destruct a, b; simpl; try done. intros H. by apply Qltb_ge in H.
Qed.

Lemma num_le_refl (a : num) : num_le a a.
Proof. destruct a; simpl; [lra | done]. Qed.

Section LowestScore.
Import Pathfinding.

(** The scan keeps the lowest score seen so far. *)
Lemma lowestStep_min (fS : gmap nat num) (l : list nat) :
  ∀ acc,
    (∀ c, acc.1 = Some c → fS !! c = Some acc.2) →
    let r := foldl (lowestStep fS) acc l in
    num_le r.2 acc.2
    ∧ (∀ x f, x ∈ l → fS !! x = Some f → num_le r.2 f)
    ∧ (∀ c, r.1 = Some c → fS !! c = Some r.2).
Proof.
  induction l as [|x l IH]; intros acc Hacc; simpl.
  - split; [apply num_le_refl|]. split; [|done].
    intros x f Hx. by apply elem_of_nil in Hx.
  - assert (∀ c, (lowestStep fS acc x).1 = Some c
                 → fS !! c = Some (lowestStep fS acc x).2) as Hnext.
    { unfold lowestStep. destruct (fS !! x) as [f|] eqn:Ef; [|done].
      destruct (num_lt f acc.2); [|done]. simpl. by intros c [= <-]. }
    assert (num_le (lowestStep fS acc x).2 acc.2
            ∧ ∀ f, fS !! x = Some f → num_le (lowestStep fS acc x).2 f) as [H1 H2].
    { unfold lowestStep. destruct (fS !! x) as [f|] eqn:Ef.
      - destruct (num_lt f acc.2) eqn:E; simpl.
        + split; [by apply num_lt_le|]. intros ? [= <-]. apply num_le_refl.
        + split; [apply num_le_refl|]. intros ? [= <-]. by apply num_lt_ge.
      - split; [apply num_le_refl | done]. }
    destruct (IH _ Hnext) as (H3 & H4 & H5).
    split; [by eapply num_le_trans|]. split; [|done].
    intros y f Hy Hf. apply elem_of_cons in Hy as [->|Hy].
    + eapply num_le_trans; [exact H3 | by apply H2].
    + by eapply H4.
Qed.

(** The node the scan returns has the lowest [fScore] of the open set. *)
Lemma lowest_min (st : astar) (c : nat) :
  lowest st = Some c →
  ∃ fc, fScore st !! c = Some fc
        ∧ ∀ x f, x ∈ openSet st → fScore st !! x = Some f → num_le fc f.
Proof.
  unfold lowest. intros Hc.
  destruct (lowestStep_min (fScore st) (openSet st) (None, Inf)) as (_ & H2 & H3);
    [done|].
  eexists. split; [by apply H3 | exact H2].
Qed.

End LowestScore.

(** The length of the edge between two nodes, as [findPath] measures it. *)
Definition weight (hypot : Q → Q → Q) (nodes : list Node) (u v : nat) : Q :=
  match nodes !! u, nodes !! v with
  | Some a, Some b =>
      Graphics.distance hypot (node_x a) (node_y a) (node_x b) (node_y b)
  | _, _ => 0
  end.

(** The length of a path: the sum of the lengths of its edges. *)
Fixpoint pathCost (hypot : Q → Q → Q) (nodes : list Node) (p : list nat) : Q :=
  match p with
  | u :: rest => match rest with
                 | v :: _ => weight hypot nodes u v + pathCost hypot nodes rest
                 | [] => 0
                 end
  | [] => 0
  end.

(** The straight-line distance to the goal. *)
Definition toGoal (hypot : Q → Q → Q) (nodes : list Node) (goal x : nat) : Q :=
  match nodes !! x, nodes !! goal with
  | Some a, Some b => Pathfinding.heuristic hypot a b
  | _, _ => 0
  end.

Section ShortestPath.
Import Pathfinding.

Variable hypot : Q → Q → Q.
Hypothesis hypot_nonneg : ∀ a b, 0 <= hypot a b.
Hypothesis hypot_proper : ∀ a a' b b', a == a' → b == b' → hypot a b == hypot a' b'.
Hypothesis hypot_triangle : ∀ a b c d, hypot (a + c) (b + d) <= hypot a b + hypot c d.
Variable rnd : nat → Q.
Hypothesis rnd_range : ∀ k, 0 <= rnd k ∧ rnd k < 1.
Variable nodes : list Node.
Variable edges : list (nat * nat).
Variables start goal : nat.
Hypothesis edges_ok : edgesInRange (length nodes) edges.
Hypothesis start_ok : (start < length nodes)%nat.
Hypothesis goal_ok : (goal < length nodes)%nat.

Local Notation Inv := (astarInv nodes edges start goal).
Local Notation w := (weight hypot nodes).
Local Notation cost := (pathCost hypot nodes).
Local Notation h := (toGoal hypot nodes goal).

Lemma weight_nonneg (u v : nat) : 0 <= w u v.
Proof.
  unfold weight. destruct (nodes !! u), (nodes !! v); try lra.
  apply hypot_nonneg.
Qed.

Lemma toGoal_nonneg (x : nat) : 0 <= h x.
Proof.
  unfold toGoal. destruct (nodes !! x), (nodes !! goal); try lra.
  apply hypot_nonneg.
Qed.

Lemma pathCost_nonneg (p : list nat) : 0 <= cost p.
Proof.
  induction p as [|u [|v p] IH]; simpl; try lra.
  pose proof (weight_nonneg u v). simpl in IH. lra.
Qed.

Lemma pathCost_snoc (p : list nat) (c x : nat) :
  last p = Some c → cost (p ++ [x]) == cost p + w c x.
Proof.
  induction p as [|u [|v p] IH]; intros Hl; [done| |].
  - simpl in Hl. injection Hl as ->. simpl. lra.
  - specialize (IH Hl). simpl in *. lra.
Qed.

Lemma chain_last (cf : gmap nat nat) (x : nat) (p : list nat) :
  chainTo cf x p → last p = Some x.
Proof. destruct 1; [done | apply last_snoc]. Qed.

(** The straight-line distance never exceeds the length of a route. *)
Lemma toGoal_step (x y : nat) :
  adjacent edges x y → h x <= w x y + h y.
Proof.
  intros Hadj. destruct (adjacent_in_range nodes edges edges_ok x y Hadj) as [Hx Hy].
  destruct (lookup_lt_is_Some_2 nodes x Hx) as [nx Enx].
  destruct (lookup_lt_is_Some_2 nodes y Hy) as [ny Eny].
  destruct (lookup_lt_is_Some_2 nodes goal goal_ok) as [ng Eng].
  unfold toGoal, weight, heuristic, Graphics.distance. rewrite Enx, Eny, Eng.
  eapply Qle_trans; [|apply hypot_triangle].
  apply Qle_lteq. right. apply hypot_proper; ring.
Qed.

Lemma toGoal_admissible (q : list nat) :
  ∀ x, head q = Some x → last q = Some goal → linked edges q →
       (2 ≤ length q)%nat → h x <= cost q.
Proof.
  induction q as [|u q IH]; intros x Hh Hl Hlk Hlen; [done|].
  simpl in Hh. injection Hh as ->.
  destruct q as [|v q]; [simpl in Hlen; lia|].
  destruct Hlk as [Hadj Hlk]. pose proof (toGoal_step x v Hadj) as Hstep.
  destruct q as [|z q].
  - simpl in Hl. injection Hl as ->.
    destruct (adjacent_in_range nodes edges edges_ok x goal Hadj) as [Hx Hy].
    destruct (lookup_lt_is_Some_2 nodes x Hx) as [nx Enx].
    destruct (lookup_lt_is_Some_2 nodes goal goal_ok) as [ng Eng].
    unfold toGoal, heuristic. simpl. unfold weight. rewrite Enx, Eng. lra.
  - assert (h v <= cost (v :: z :: q)) as Hv.
    { apply IH; [done | done | done | simpl; lia]. }
    change (cost (x :: v :: z :: q)) with (w x v + cost (v :: z :: q)). lra.
Qed.

(** What the loop maintains about the scores when costs are not randomized:
    a score is at least the score of the predecessor plus the edge, [fScore]
    is [gScore] plus the straight-line distance, and the edges out of a node
    that is not waiting in the open set have been relaxed. *)
Record optInv (cur : option nat) (st : astar) : Prop := mkOptInv {
  opt_parent : ∀ x c, cameFrom st !! x = Some c →
      ∃ qc qx, gScore st !! c = Some (Fin qc) ∧ gScore st !! x = Some (Fin qx)
               ∧ qc + w c x <= qx;
  opt_f : ∀ x q, gScore st !! x = Some (Fin q) →
      ∃ f, fScore st !! x = Some (Fin f) ∧ f == q + h x;
  opt_relaxed : ∀ x qx, gScore st !! x = Some (Fin qx) →
      x ∈ openSet st ∨ cur = Some x
      ∨ ∀ y, adjacent edges x y →
             ∃ qy, gScore st !! y = Some (Fin qy) ∧ qy <= qx + w x y
}.

(** The chain of predecessors is no longer than the score. *)
Lemma chain_cost cur st t T π U :
  Inv cur st t T π U → optInv cur st →
  ∀ x p, chainTo (cameFrom st) x p →
         ∀ qx, gScore st !! x = Some (Fin qx) → cost p <= qx.
Proof.
  intros Hinv Hopt x p Hch. induction Hch as [x Hx|x c p Hx Hc IH]; intros qx Hqx.
  - simpl. by eapply (inv_nonneg _ _ _ _ _ _ _ _ _ _ Hinv).
  - destruct (opt_parent _ _ Hopt x c Hx) as (qc & qx' & Hqc & Hqx' & Hle).
    rewrite Hqx in Hqx'. injection Hqx' as <-.
    rewrite (pathCost_snoc p c x (chain_last _ _ _ Hc)).
    specialize (IH qc Hqc). lra.
Qed.

Lemma opt_update c st y qc k :
  optInv (Some c) st →
  gScore st !! c = Some (Fin qc) →
  (∀ qy, gScore st !! y = Some (Fin qy) → qc + w c y < qy) →
  optInv (Some c)
    {| openSet := set_add y (openSet st);
       cameFrom := <[y := c]> (cameFrom st);
       gScore := <[y := Fin (qc + w c y)]> (gScore st);
       fScore := <[y := Fin (qc + w c y + h y)]> (fScore st);
       calls := k |}.
Proof.
  intros Hopt Hqc Hlow. pose proof (weight_nonneg c y) as Hw.
  assert (y ≠ c) as Hyc.
  { intros ->. specialize (Hlow qc Hqc). lra. }
  constructor; simpl.
  - intros x c0. destruct (decide (x = y)) as [->|Hne].
    + rewrite lookup_insert_eq. intros [= <-].
      exists qc, (qc + w c y). rewrite lookup_insert_ne by done.
      rewrite lookup_insert_eq. split; [done|]. split; [done | lra].
    + rewrite lookup_insert_ne by done. intros Hc0.
      destruct (opt_parent _ _ Hopt x c0 Hc0) as (q0 & qx & H0 & Hx & Hle).
      destruct (decide (c0 = y)) as [->|Hne0].
      * exists (qc + w c y), qx. rewrite lookup_insert_eq.
        rewrite lookup_insert_ne by done. split; [done|]. split; [done|].
        specialize (Hlow q0 H0). lra.
      * exists q0, qx. rewrite !lookup_insert_ne by done. done.
  - intros x q. destruct (decide (x = y)) as [->|Hne].
    + rewrite !lookup_insert_eq. intros [= <-]. eexists. split; [done | lra].
    + rewrite !lookup_insert_ne by done. apply (opt_f _ _ Hopt).
  - intros x qx. rewrite elem_of_set_add.
    destruct (decide (x = y)) as [->|Hne]; [intros _; left; by left|].
    rewrite lookup_insert_ne by done. intros Hqx.
    destruct (opt_relaxed _ _ Hopt x qx Hqx) as [H|[H|H]].
    + left. by right.
    + right. by left.
    + right. right. intros z Hz. destruct (H z Hz) as (qz & Hqz & Hle).
      destruct (decide (z = y)) as [->|Hnz].
      * rewrite lookup_insert_eq. eexists. split; [done|].
        specialize (Hlow qz Hqz). lra.
      * rewrite lookup_insert_ne by done. by exists qz.
Qed.

(** One neighbour, without randomized costs: the edge to it is relaxed. *)
Lemma relax_opt c st t T π U y st' :
  Inv (Some c) st t T π U → optInv (Some c) st → adjacent edges c y →
  relax hypot nodes goal false rnd c (Some st) y = Some st' →
  optInv (Some c) st'
  ∧ gScore st' !! c = gScore st !! c
  ∧ (∀ x q, gScore st !! x = Some (Fin q) →
            ∃ q', gScore st' !! x = Some (Fin q') ∧ q' <= q)
  ∧ (∃ qc qy, gScore st' !! c = Some (Fin qc) ∧ gScore st' !! y = Some (Fin qy)
              ∧ qy <= qc + w c y).
Proof.
  intros Hinv Hopt Hadj Hrel.
  destruct (inv_cur _ _ _ _ _ _ _ _ _ _ Hinv c eq_refl) as (_ & [qc Hqc] & _ & _).
  destruct (adjacent_in_range nodes edges edges_ok c y Hadj) as [Hc Hy].
  destruct (lookup_lt_is_Some_2 nodes c Hc) as [nc Hnc].
  destruct (lookup_lt_is_Some_2 nodes y Hy) as [nn Hnn].
  destruct (lookup_lt_is_Some_2 nodes goal goal_ok) as [ng Hng].
  destruct (proj2 (inv_dom _ _ _ _ _ _ _ _ _ _ Hinv y) Hy) as [gy Hgy].
  assert (w c y = Graphics.distance hypot (node_x nc) (node_y nc) (node_x nn) (node_y nn))
    as Hw by (unfold weight; by rewrite Hnc, Hnn).
  assert (h y = heuristic hypot nn ng) as Hh by (unfold toGoal; by rewrite Hnn, Hng).
  pose proof (weight_nonneg c y) as Hw0.
  unfold relax in Hrel. cbn [mbind option_bind] in Hrel.
  rewrite Hnc, Hnn in Hrel. cbn [mbind option_bind] in Hrel.
  rewrite Hqc, Hgy, Hng in Hrel.
  cbn [fmap option_fmap option_map num_add mbind option_bind] in Hrel.
  rewrite <- Hw, <- Hh in Hrel.
  assert (y ≠ c ∨ gy = Fin qc) as Hyc.
  { destruct (decide (y = c)) as [->|]; [right; congruence | by left]. }
  assert (∀ k, (∀ qy, gy = Fin qy → qc + w c y < qy) →
    let st2 := {| openSet := set_add y (openSet st);
                  cameFrom := <[y := c]> (cameFrom st);
                  gScore := <[y := Fin (qc + w c y)]> (gScore st);
                  fScore := <[y := Fin (qc + w c y + h y)]> (fScore st);
                  calls := k |} in
    optInv (Some c) st2
    ∧ gScore st2 !! c = gScore st !! c
    ∧ (∀ x q, gScore st !! x = Some (Fin q) →
              ∃ q', gScore st2 !! x = Some (Fin q') ∧ q' <= q)
    ∧ (∃ qc' qy, gScore st2 !! c = Some (Fin qc') ∧ gScore st2 !! y = Some (Fin qy)
                 ∧ qy <= qc' + w c y)) as Hupd.
  { intros k Hlow st2.
    assert (y ≠ c) as Hne.
    { destruct Hyc as [? | ->]; [done|]. specialize (Hlow qc eq_refl). lra. }
    split; [|split; [|split]].
    - apply opt_update; [done | done |]. intros qy Hqy. apply Hlow. congruence.
    - simpl. by rewrite lookup_insert_ne.
    - intros x q Hq. simpl. destruct (decide (x = y)) as [->|Hn].
      + rewrite lookup_insert_eq. eexists. split; [done|].
        rewrite Hgy in Hq. injection Hq as Hq. specialize (Hlow q Hq). lra.
      + rewrite lookup_insert_ne by done. exists q. split; [done | lra].
    - exists qc, (qc + w c y). simpl. rewrite lookup_insert_ne by done.
      rewrite lookup_insert_eq. split; [done|]. split; [done | lra]. }
  destruct gy as [qy|]; cbn [num_lt] in Hrel.
  - destruct (Qltb (qc + w c y) qy) eqn:E; injection Hrel as <-.
    + apply Hupd. intros ? [= <-]. by apply Qltb_lt.
    + simpl. split; [by destruct Hopt|]. split; [done|]. split.
      * intros x q Hq. exists q. split; [done | lra].
      * exists qc, qy. split; [done|]. split; [done|]. by apply Qltb_ge.
  - injection Hrel as <-. apply Hupd. done.
Qed.

Lemma relax_fold_opt c U l :
  ∀ st t T π,
    Inv (Some c) st t T π U → optInv (Some c) st →
    (∀ y, y ∈ l → adjacent edges c y) →
    ∃ st' t' T' π',
      foldl (relax hypot nodes goal false rnd c) (Some st) l = Some st'
      ∧ Inv (Some c) st' t' T' π' U
      ∧ optInv (Some c) st'
      ∧ gScore st' !! c = gScore st !! c
      ∧ (∀ x q, gScore st !! x = Some (Fin q) →
                ∃ q', gScore st' !! x = Some (Fin q') ∧ q' <= q)
      ∧ (∀ y, y ∈ l →
              ∃ qc qy, gScore st' !! c = Some (Fin qc)
                       ∧ gScore st' !! y = Some (Fin qy) ∧ qy <= qc + w c y).
Proof.
  induction l as [|y l IH]; intros st t T π Hinv Hopt Hadj.
  - exists st, t, T, π. split; [done|]. split; [done|]. split; [done|].
    split; [done|]. split.
    + intros x q Hq. exists q. split; [done | lra].
    + intros y Hy. by apply elem_of_nil in Hy.
  - destruct (relax_inv hypot hypot_nonneg rnd rnd_range nodes edges start goal false
                edges_ok start_ok goal_ok c st t T π U y Hinv)
      as (st1 & t1 & T1 & π1 & Hr & Hinv1 & _ & _).
    { apply Hadj. by left. }
    destruct (relax_opt c st t T π U y st1 Hinv Hopt) as (Hopt1 & Hc1 & Hm1 & Hy1);
      [apply Hadj; by left | done |].
    destruct (IH st1 t1 T1 π1 Hinv1 Hopt1)
      as (st2 & t2 & T2 & π2 & Hf & Hinv2 & Hopt2 & Hc2 & Hm2 & Hl2).
    { intros z Hz. apply Hadj. by right. }
    exists st2, t2, T2, π2. cbn [foldl]. rewrite Hr.
    split; [done|]. split; [done|]. split; [done|].
    split; [congruence|]. split.
    + intros x q Hq. destruct (Hm1 x q Hq) as (q1 & Hq1 & Hle1).
      destruct (Hm2 x q1 Hq1) as (q2 & Hq2 & Hle2). exists q2. split; [done | lra].
    + intros z Hz. apply elem_of_cons in Hz as [->|Hz]; [|by apply Hl2].
      destruct Hy1 as (qc & qy & Hqc & Hqy & Hle).
      destruct (Hm2 y qy Hqy) as (qy2 & Hqy2 & Hle2).
      exists qc, qy2. split; [congruence|]. split; [done | lra].
Qed.

Lemma select_opt c st :
  optInv None st → c ∈ openSet st →
  optInv (Some c)
    {| openSet := set_delete c (openSet st); cameFrom := cameFrom st;
       gScore := gScore st; fScore := fScore st; calls := calls st |}.
Proof.
  intros [H1 H2 H3] Hc. constructor; simpl; [done | done |].
  intros x qx Hqx. rewrite elem_of_set_delete.
  destruct (decide (x = c)) as [->|Hne]; [right; by left|].
  destruct (H3 x qx Hqx) as [H|[H|H]]; [by left | done | by right; right].
Qed.

Lemma close_opt c st :
  optInv (Some c) st →
  (∀ y, adjacent edges c y →
        ∃ qc qy, gScore st !! c = Some (Fin qc) ∧ gScore st !! y = Some (Fin qy)
                 ∧ qy <= qc + w c y) →
  optInv None st.
Proof.
  intros [H1 H2 H3] Hall. constructor; [done | done |].
  intros x qx Hqx. destruct (H3 x qx Hqx) as [H|[H|H]]; [by left | | by right; right].
  injection H as <-. right. right. intros y Hy.
  destruct (Hall y Hy) as (qc & qy & Hqc & Hqy & Hle).
  exists qy. split; [done|]. congruence.
Qed.

Lemma init_opt (ns ng : Node) :
  nodes !! start = Some ns → nodes !! goal = Some ng →
  optInv None
    {| openSet := [start]; cameFrom := ∅;
       gScore := <[start := Fin 0]> (initScores (length nodes));
       fScore := <[start := Fin (heuristic hypot ns ng)]> (initScores (length nodes));
       calls := O |}.
Proof.
  intros Hs Hg.
  assert (∀ x q, <[start := Fin 0]> (initScores (length nodes)) !! x = Some (Fin q)
                 → x = start ∧ q = 0) as Honly.
  { intros x q. destruct (decide (x = start)) as [->|Hne].
    - rewrite lookup_insert_eq. by intros [= <-].
    - rewrite lookup_insert_ne by done. rewrite initScores_lookup.
      case_decide; done. }
  constructor; simpl.
  - intros x c Hc. by rewrite lookup_empty in Hc.
  - intros x q Hq. apply Honly in Hq as [-> ->]. rewrite lookup_insert_eq.
    eexists. split; [done|]. unfold toGoal. rewrite Hs, Hg. lra.
  - intros x q Hq. apply Honly in Hq as [-> ->]. left. by left.
Qed.

Variable graph : gmap nat (list nat).
Hypothesis graph_ok : ∀ i, (i < length nodes)%nat →
  ∃ l, graph !! i = Some l ∧ ∀ v, v ∈ l ↔ adjacent edges i v.

(** When [goal] has the lowest [fScore] of the open set, its score is at
    most the length of any route that starts at a reached node. *)
Lemma goal_bound st t T π U qg :
  Inv None st t T π U → optInv None st →
  lowest st = Some goal → gScore st !! goal = Some (Fin qg) →
  ∀ q x qx, head q = Some x → gScore st !! x = Some (Fin qx) →
            last q = Some goal → linked edges q → qg <= qx + cost q.
Proof.
  intros Hinv Hopt Hlow Hqg.
  destruct (lowest_min st goal Hlow) as (fc & Hfc & Hmin).
  destruct (opt_f _ _ Hopt goal qg Hqg) as (fg & Hfg & Efg).
  rewrite Hfg in Hfc. injection Hfc as <-.
  pose proof (toGoal_nonneg goal) as Hh0.
  induction q as [|u q IH]; intros x qx Hh Hqx Hl Hlk; [done|].
  simpl in Hh. injection Hh as ->.
  destruct q as [|v r].
  - simpl in Hl. injection Hl as ->. rewrite Hqg in Hqx. injection Hqx as <-.
    simpl. lra.
  - destruct Hlk as [Hadj Hlk].
    destruct (opt_relaxed _ _ Hopt x qx Hqx) as [Hopen|[Hcur|Hrel]]; [|done|].
    + destruct (opt_f _ _ Hopt x qx Hqx) as (fx & Hfx & Efx).
      pose proof (Hmin x (Fin fx) Hopen Hfx) as Hle. simpl in Hle.
      assert (h x <= cost (x :: v :: r)) as Hadm.
      { apply toGoal_admissible; [done | done | by split | simpl; lia]. }
      lra.
    + destruct (Hrel v Hadj) as (qv & Hqv & Hle).
      specialize (IH v qv eq_refl Hqv Hl Hlk).
      change (cost (x :: v :: r)) with (w x v + cost (v :: r)). lra.
Qed.

(** Without randomized costs the loop ends with a path that is no longer
    than any route from [start] to [goal]. *)
Lemma search_shortest :
  ∀ fuel st t T π U,
    Inv None st t T π U → optInv None st →
    (length (words (length nodes) (length nodes)) - length U + length nodes + 2
     ≤ fuel)%nat →
    ∃ p, search hypot fuel nodes graph goal false rnd st = Ret p
         ∧ ∀ q, head q = Some start → last q = Some goal → linked edges q →
                cost p <= cost q.
Proof.
  induction fuel as [|fuel IH]; intros st t T π U Hinv Hopt Hfuel; [lia|].
  cbn [search]. destruct (openSet st) as [|x0 l0] eqn:Ho.
  - exists []. split; [done|]. intros q _ _ _. apply pathCost_nonneg.
  - destruct (lowest_in st) as (c & Hlow & Hc).
    { by rewrite Ho. }
    { intros x Hx. by apply (inv_open _ _ _ _ _ _ _ _ _ _ Hinv). }
    rewrite Hlow. destruct (decide (c = goal)) as [->|Hcg].
    + destruct (inv_open _ _ _ _ _ _ _ _ _ _ Hinv goal Hc) as [Hfg _].
      destruct (chain_exists nodes edges start goal start_ok goal_ok _ _ _ _ _ _ Hinv
                  (length nodes) goal [] Hfg)
        as (p & Hch & Hh & Hl & Hlk & Hnd & _ & Hlen).
      { apply NoDup_singleton. }
      { intros y Hy. by apply elem_of_nil in Hy. }
      { constructor. }
      { simpl. lia. }
      unfold reconstructPath.
      rewrite (reconstruct_chain _ _ _ Hch (S fuel) []) by lia.
      rewrite app_nil_r. exists p. split; [done|].
      intros q Hqh Hql Hqlk. destruct Hfg as [qg Hqg].
      pose proof (chain_cost _ _ _ _ _ _ Hinv Hopt goal p Hch qg Hqg) as H1.
      pose proof (goal_bound st t T π U qg Hinv Hopt Hlow Hqg q start 0 Hqh
                    (inv_start _ _ _ _ _ _ _ _ _ _ Hinv) Hql Hqlk) as H2.
      lra.
    + pose proof (select_inv nodes edges start goal c st t T π U Hinv Hc Hcg) as Hsel.
      pose proof (select_opt c st Hopt Hc) as Hsel'.
      assert (c < length nodes)%nat as Hcn.
      { destruct (inv_open _ _ _ _ _ _ _ _ _ _ Hinv c Hc) as [[q Hq] _].
        apply (inv_dom _ _ _ _ _ _ _ _ _ _ Hinv). by eexists. }
      destruct (graph_ok c Hcn) as (l & Hl & Hadj). rewrite Hl. cbn [default].
      rewrite <- Ho.
      destruct (relax_fold_opt c U l _ t T π Hsel Hsel')
        as (st2 & t2 & T2 & π2 & Hf & Hinv2 & Hopt2 & _ & _ & Hl2).
      { intros y Hy. by apply Hadj. }
      unfold id. rewrite Hf.
      assert (astarInv nodes edges start goal None st2 t2 T2 π2 (π2 c :: U)) as Hinv3.
      { apply close_inv; [done|]. intros y Hy.
        destruct (Hl2 y) as (_ & qy & _ & Hqy & _); [by apply Hadj|]. by exists qy. }
      assert (optInv None st2) as Hopt3.
      { apply (close_opt c); [done|]. intros y Hy. apply Hl2. by apply Hadj. }
      apply (IH st2 t2 T2 π2 (π2 c :: U) Hinv3 Hopt3).
      destruct (inv_done _ _ _ _ _ _ _ _ _ _ Hinv3) as [Hnd Hel].
      pose proof (nodup_words_bounded (length nodes) _ Hnd Hel) as Hb.
      simpl in *. lia.
Qed.

End ShortestPath.

(** X1. [findPath] without randomized costs returns a shortest path: on a
    graph (edges join nodes; [start] and [goal] are nodes) the path it
    returns is no longer, edge lengths summed, than any route from [start]
    to [goal]. [Math.hypot] enters through being non-negative and obeying
    the triangle inequality. *)
Theorem findPath_shortest (hypot : Q → Q → Q) (rnd : nat → Q) (nodes : list Node)
    (edges : list (nat * nat)) (start goal : nat) (fuel : nat) :
  (∀ a b, 0 <= hypot a b) →
  (∀ a a' b b', a == a' → b == b' → hypot a b == hypot a' b') →
  (∀ a b c d, hypot (a + c) (b + d) <= hypot a b + hypot c d) →
  (∀ k, 0 <= rnd k ∧ rnd k < 1) →
  edgesInRange (length nodes) edges →
  (start < length nodes)%nat → (goal < length nodes)%nat →
  (findPathFuel (length nodes) ≤ fuel)%nat →
  ∃ p, Pathfinding.findPath hypot fuel rnd nodes edges start goal false = Ret p
       ∧ ∀ q, head q = Some start → last q = Some goal → linked edges q →
              pathCost hypot nodes p <= pathCost hypot nodes q.
Proof.
  intros Hh Hp Ht Hr He Hs Hg Hfuel. unfold Pathfinding.findPath.
  destruct (decide (start = goal)) as [->|Hne].
  - exists [goal]. split; [done|]. intros q _ _ _. by apply pathCost_nonneg.
  - destruct (buildGraph_spec (length nodes) edges He) as (graph & -> & Hgraph).
    destruct (lookup_lt_is_Some_2 nodes start Hs) as [ns Ens].
    destruct (lookup_lt_is_Some_2 nodes goal Hg) as [ng Eng].
    rewrite Ens, Eng.
    eapply (search_shortest hypot Hh Hp Ht rnd Hr nodes edges start goal He Hs Hg graph).
    + intros i Hi. specialize (Hgraph i). rewrite decide_True in Hgraph by done.
      destruct Hgraph as (l & Hl & Hadj & _). by exists l.
    + apply init_inv; assumption.
    + by apply init_opt.
    + unfold findPathFuel in Hfuel. simpl. lia.
Qed.

Lemma manhattan_nonneg (a b : Q) : 0 <= manhattan a b.
Proof.
  unfold manhattan. pose proof (Qabs_nonneg a). pose proof (Qabs_nonneg b). lra.
Qed.

Lemma manhattan_proper (a a' b b' : Q) :
  a == a' → b == b' → manhattan a b == manhattan a' b'.
Proof. intros Ha Hb. unfold manhattan. by rewrite Ha, Hb. Qed.

Lemma manhattan_triangle (a b c d : Q) :
  manhattan (a + c) (b + d) <= manhattan a b + manhattan c d.
Proof.
  unfold manhattan.
  pose proof (Qabs_triangle a c). pose proof (Qabs_triangle b d). lra.
Qed.

Lemma line_edges_ok (n : nat) : (3 ≤ n)%nat → edgesInRange n line_edges.
Proof.
  intros Hn e He. unfold line_edges in He.
  rewrite !elem_of_cons, elem_of_nil in He.
  destruct He as [->|[->|[]]]; simpl; lia.
Qed.

Lemma findPath_shortest_witness :
  ∃ p, Pathfinding.findPath manhattan (findPathFuel 3) (λ _, 0) line_nodes
         line_edges 0 2 false = Ret p
       ∧ pathCost manhattan line_nodes p <= pathCost manhattan line_nodes [0; 1; 2]%nat.
Proof.
  destruct (findPath_shortest manhattan (λ _, 0) line_nodes line_edges 0 2
              (findPathFuel 3) manhattan_nonneg manhattan_proper manhattan_triangle)
    as (p & Hp & Hmin).
  - intros _. split; [apply Qle_refl | reflexivity].
  - apply line_edges_ok. simpl. lia.
  - simpl. lia.
  - simpl. lia.
  - apply le_n.
  - exists p. split; [exact Hp|]. apply Hmin; [reflexivity | reflexivity |].
    simpl. split; [left; by left|]. split; [left; right; by left | exact I].
Defined.

(** ** Malformed input to the path planner *)

Section GraphErrors.
Import Pathfinding.

Lemma addEdge_None (e : nat * nat) : addEdge None e = None.
Proof. done. Qed.

Lemma buildGraph_in_range (n : nat) (edges : list (nat * nat)) :
  is_Some (buildGraph edges n) → edgesInRange n edges.
Proof.
  unfold buildGraph. induction edges as [|e edges IH] using rev_ind; intros Hsome.
  - intros e He. by apply elem_of_nil in He.
  - rewrite foldl_app in Hsome. simpl in Hsome.
    destruct (foldl addEdge (Some (emptyGraph n)) edges) as [g|] eqn:Eg;
      [|by destruct Hsome].
    specialize (IH (ltac:(by eexists))).
    destruct (buildGraph_spec n edges IH) as (g' & Hg' & Hdom).
    unfold buildGraph in Hg'. rewrite Eg in Hg'. injection Hg' as <-.
    assert (∀ i, is_Some (g !! i) → (i < n)%nat) as Hlt.
    { intros i Hi. specialize (Hdom i). case_decide; [done|].
      rewrite Hdom in Hi. by destruct Hi. }
    destruct Hsome as [g2 Hg2]. unfold addEdge in Hg2. simpl in Hg2.
    destruct (g !! e.1) as [l1|] eqn:E1; [|done]. simpl in Hg2.
    destruct (<[e.1:=l1 ++ [e.2]]> g !! e.2) as [l2|] eqn:E2; [|done].
    assert (e.1 < n)%nat as H1 by (apply Hlt; by eexists).
    assert (e.2 < n)%nat as H2.
    { destruct (decide (e.1 = e.2)) as [<-|Hne]; [done|].
      rewrite lookup_insert_ne in E2 by done. apply Hlt. by eexists. }
    intros e' He'. apply elem_of_app in He' as [He'|He']; [by apply IH|].
    apply list_elem_of_singleton in He' as ->. done.
Qed.

End GraphErrors.

(** X2. [buildGraph] returns exactly when every edge joins two node
    indices below [nodeCount] (otherwise [graph.get(from).push] throws); the
    map it returns has the indices below [nodeCount] as keys, lists under
    each node the nodes an edge joins it to, and is symmetric. *)
Theorem buildGraph_characterised (edges : list (nat * nat)) (n : nat) :
  (is_Some (Pathfinding.buildGraph edges n) ↔ edgesInRange n edges)
  ∧ ∀ graph, Pathfinding.buildGraph edges n = Some graph →
      (∀ i, is_Some (graph !! i) ↔ (i < n)%nat)
      ∧ (∀ u v l, graph !! u = Some l → (v ∈ l ↔ adjacent edges u v))
      ∧ (∀ u v lu lv, graph !! u = Some lu → graph !! v = Some lv →
                      (v ∈ lu ↔ u ∈ lv)).
Proof.
  split.
  - split; [apply buildGraph_in_range|]. intros He.
    destruct (buildGraph_spec n edges He) as (g & -> & _). by eexists.
  - intros graph Hg.
    assert (edgesInRange n edges) as He by (apply buildGraph_in_range; by eexists).
    destruct (buildGraph_spec n edges He) as (g & Hg' & Hspec).
    rewrite Hg in Hg'. injection Hg' as <-.
    assert (∀ u v l, graph !! u = Some l → (v ∈ l ↔ adjacent edges u v)) as Hadj.
    { intros u v l Hl. specialize (Hspec u). case_decide; [|congruence].
      destruct Hspec as (l' & Hl' & Hiff & _). rewrite Hl in Hl'.
      injection Hl' as <-. apply Hiff. }
    split; [|split; [exact Hadj|]].
    + intros i. specialize (Hspec i). case_decide as Hi.
      * destruct Hspec as (l & -> & _). split; [done | by eexists].
      * rewrite Hspec. split; [by intros [? ?] | done].
    + intros u v lu lv Hu Hv. rewrite (Hadj u v lu Hu), (Hadj v u lv Hv).
      unfold adjacent. tauto.
Qed.

(** X3. [findPath] validates nothing. With [start = goal] it returns
    [[start]] whatever the graph is, even when [start] is not a node. With
    [start ≠ goal] it throws exactly when an edge, [start] or [goal] is not
    a node index; on every other input it returns a path. *)
Theorem findPath_throws_iff (hypot : Q → Q → Q) (rnd : nat → Q) (nodes : list Node)
    (edges : list (nat * nat)) (start goal : nat) (randomize : bool) (fuel : nat) :
  (∀ a b, 0 <= hypot a b) →
  (∀ k, 0 <= rnd k ∧ rnd k < 1) →
  (findPathFuel (length nodes) ≤ fuel)%nat →
  (start = goal →
     Pathfinding.findPath hypot fuel rnd nodes edges start goal randomize = Ret [start])
  ∧ (start ≠ goal →
     (Pathfinding.findPath hypot fuel rnd nodes edges start goal randomize = Threw
      ↔ ¬ (edgesInRange (length nodes) edges
           ∧ (start < length nodes)%nat ∧ (goal < length nodes)%nat))
     ∧ (Pathfinding.findPath hypot fuel rnd nodes edges start goal randomize ≠ Threw
        → ∃ p, Pathfinding.findPath hypot fuel rnd nodes edges start goal randomize
               = Ret p)).
Proof.
  intros Hh Hr Hfuel. split.
  { intros ->. unfold Pathfinding.findPath. by rewrite decide_True. }
  intros Hne.
  assert (edgesInRange (length nodes) edges
          ∧ (start < length nodes)%nat ∧ (goal < length nodes)%nat
          → ∃ p, Pathfinding.findPath hypot fuel rnd nodes edges start goal randomize
                 = Ret p) as Hgood.
  { intros (He & Hs & Hg).
    destruct (findPath_total hypot rnd nodes edges start goal randomize
                Hh Hr He Hs Hg Hne fuel Hfuel) as (p & Hp & _). by exists p. }
  assert (¬ (edgesInRange (length nodes) edges
             ∧ (start < length nodes)%nat ∧ (goal < length nodes)%nat)
          → Pathfinding.findPath hypot fuel rnd nodes edges start goal randomize = Threw)
    as Hbad.
  { intros Hn. unfold Pathfinding.findPath. rewrite decide_False by done.
    destruct (Pathfinding.buildGraph edges (length nodes)) as [g|] eqn:Eg; [|done].
    assert (edgesInRange (length nodes) edges) as He
      by (apply buildGraph_in_range; by eexists).
    destruct (nodes !! start) as [ns|] eqn:Es; [|done].
    destruct (nodes !! goal) as [ng|] eqn:Eg'; [|done].
    exfalso. apply Hn. split; [done|]. split; eapply lookup_lt_Some; eassumption. }
  split.
  - split; [|exact Hbad]. intros Ht Hok. destruct (Hgood Hok) as [p Hp]. congruence.
  - intros Hnt.
    destruct (decide (start < length nodes)%nat) as [Hs|Hs];
      [|exfalso; apply Hnt, Hbad; tauto].
    destruct (decide (goal < length nodes)%nat) as [Hg|Hg];
      [|exfalso; apply Hnt, Hbad; tauto].
    destruct (Pathfinding.buildGraph edges (length nodes)) as [g|] eqn:Eg.
    + apply Hgood. split; [|done]. apply buildGraph_in_range. by eexists.
    + exfalso. apply Hnt. unfold Pathfinding.findPath.
      rewrite decide_False by done. by rewrite Eg.
Qed.

Lemma findPath_throws_iff_witness :
  Pathfinding.findPath manhattan (findPathFuel 3) (λ _, 0) line_nodes line_edges
    7 7 false = Ret [7%nat]
  ∧ Pathfinding.findPath manhattan (findPathFuel 3) (λ _, 0) line_nodes line_edges
      0 7 false = Threw.
Proof.
  destruct (findPath_throws_iff manhattan (λ _, 0) line_nodes line_edges 7 7 false
              (findPathFuel 3) manhattan_nonneg) as [H1 _].
  { intros _. split; [apply Qle_refl | reflexivity]. }
  { apply le_n. }
  destruct (findPath_throws_iff manhattan (λ _, 0) line_nodes line_edges 0 7 false
              (findPathFuel 3) manhattan_nonneg) as [_ H2].
  { intros _. split; [apply Qle_refl | reflexivity]. }
  { apply le_n. }
  split; [by apply H1|].
  destruct H2 as [[_ H2] _]; [done|]. apply H2. simpl. lia.
Defined.

(** ** Breadth-first search of the chokepoint analysis (simpleBFS) *)

(** One step along an adjacency array. *)
Definition steps (adj : list (list nat)) (u v : nat) : Prop :=
  ∃ l, adj !! u = Some l ∧ v ∈ l.

(** Consecutive nodes of a path are one step apart. *)
Fixpoint chained (adj : list (list nat)) (p : list nat) : Prop :=
  match p with
  | u :: rest => match rest with
                 | v :: _ => steps adj u v ∧ chained adj rest
                 | [] => True
                 end
  | [] => True
  end.

Lemma chained_snoc (adj : list (list nat)) (p : list nat) (c x : nat) :
  chained adj p → last p = Some c → steps adj c x → chained adj (p ++ [x]).
Proof.
  induction p as [|u p IH]; intros Hl Hlast Hadj; [done|].
  destruct p as [|v p].
  - simpl in *. injection Hlast as ->. done.
  - destruct Hl as [H1 H2]. split; [done|]. apply IH; done.
Qed.

(** What the search knows: [prev] leads back to [start] along steps, every
    visited node can be reached, and a visited node that is not waiting in
    the queue (nor [goal], nor the node [cur] being expanded) has all its
    neighbours visited. *)
Record bfsGood (adj : list (list nat)) (start goal : nat) (cur : option nat)
    (st : TopologyGenerator.bfs) : Prop := mkBfsGood {
  good_start : start ∈ TopologyGenerator.visited st
               ∧ TopologyGenerator.prev st !! start = None;
  good_prev : ∀ x c, TopologyGenerator.prev st !! x = Some c →
      steps adj c x ∧ c ∈ TopologyGenerator.visited st
      ∧ x ∈ TopologyGenerator.visited st;
  good_reached : ∀ x, x ∈ TopologyGenerator.visited st → x ≠ start →
      is_Some (TopologyGenerator.prev st !! x);
  good_reachable : ∀ x, x ∈ TopologyGenerator.visited st → rtc (steps adj) start x;
  good_closed : ∀ x, x ∈ TopologyGenerator.visited st →
      x ∈ TopologyGenerator.queue st ∨ x = goal ∨ cur = Some x
      ∨ ∀ y, steps adj x y → y ∈ TopologyGenerator.visited st
}.

Section BreadthFirstCorrect.
Import TopologyGenerator.
Variable adj : list (list nat).
Variables start goal : nat.

Lemma visit_good (curr y : nat) (st : bfs) :
  bfsGood adj start goal (Some curr) st → curr ∈ visited st → steps adj curr y →
  bfsGood adj start goal (Some curr) (visit curr st y)
  ∧ y ∈ visited (visit curr st y)
  ∧ (∀ x, x ∈ visited st → x ∈ visited (visit curr st y)).
Proof.
  intros [[Hs1 Hs2] Hp Hr Hre Hc] Hcurr Hstep. unfold visit.
  destruct (decide (y ∈ visited st)) as [Hin|Hnin].
  { split; [by constructor|]. split; done. }
  assert (y ≠ start) as Hys by (intros ->; done).
  split; [|split; [simpl; set_solver | intros x Hx; simpl; set_solver]].
  constructor; simpl.
  - split; [set_solver|]. by rewrite lookup_insert_ne.
  - intros x c. destruct (decide (x = y)) as [->|Hne].
    + rewrite lookup_insert_eq. intros [= <-]. split; [done|]. set_solver.
    + rewrite lookup_insert_ne by done. intros Hx.
      destruct (Hp x c Hx) as (H1 & H2 & H3). split; [done|]. set_solver.
  - intros x Hx Hxs. destruct (decide (x = y)) as [->|Hne].
    + rewrite lookup_insert_eq. by eexists.
    + rewrite lookup_insert_ne by done. apply Hr; [set_solver | done].
  - intros x Hx. apply elem_of_union in Hx as [Hx|Hx].
    + apply elem_of_singleton in Hx as ->.
      eapply rtc_r; [by apply Hre | done].
    + by apply Hre.
  - intros x Hx. apply elem_of_union in Hx as [Hx|Hx].
    + apply elem_of_singleton in Hx as ->. left. apply elem_of_app. right. by left.
    + destruct (Hc x Hx) as [H|[H|[H|H]]].
      * left. apply elem_of_app. by left.
      * right. by left.
      * right. right. by left.
      * right. right. right. intros z Hz. specialize (H z Hz). set_solver.
Qed.

Lemma visits_good (curr : nat) (ns : list nat) :
  ∀ st, bfsGood adj start goal (Some curr) st → curr ∈ visited st →
        (∀ y, y ∈ ns → steps adj curr y) →
        bfsGood adj start goal (Some curr) (foldl (visit curr) st ns)
        ∧ (∀ y, y ∈ ns → y ∈ visited (foldl (visit curr) st ns))
        ∧ (∀ x, x ∈ visited st → x ∈ visited (foldl (visit curr) st ns)).
Proof.
  induction ns as [|y ns IH]; intros st Hgood Hcurr Hsteps; simpl.
  - split; [done|]. split; [|done]. intros y Hy. by apply elem_of_nil in Hy.
  - destruct (visit_good curr y st Hgood Hcurr) as (H1 & H2 & H3).
    { apply Hsteps. by left. }
    destruct (IH _ H1 (H3 _ Hcurr)) as (H4 & H5 & H6).
    { intros z Hz. apply Hsteps. by right. }
    split; [done|]. split.
    + intros z Hz. apply elem_of_cons in Hz as [->|Hz]; [by apply H6 | by apply H5].
    + intros x Hx. by apply H6, H3.
Qed.

(** Where the loop stops: [goal] has been taken from the queue, or the
    queue is empty. *)
Lemma bfsLoop_good (randomize : bool) (shuffle : nat → list nat → list nat) :
  (∀ k l, shuffle k l ≡ₚ l) →
  ∀ fuel sorts st st' sorts',
    bfsLoop fuel adj goal randomize shuffle sorts st = Ret (st', sorts') →
    bfsGood adj start goal None st →
    (∀ x, x ∈ queue st → x ∈ visited st) →
    bfsGood adj start goal None st'
    ∧ (goal ∈ visited st' ∨ queue st' = []).
Proof.
  intros Hperm fuel. induction fuel as [|fuel IH]; intros sorts st st' sorts' Hrun Hgood Hq;
    [done|].
  simpl in Hrun. destruct (queue st) as [|curr rest] eqn:Eq.
  { injection Hrun as <- <-. split; [done | by right]. }
  assert (curr ∈ visited st) as Hcurr by (apply Hq; by left).
  destruct Hgood as [Hs Hp Hr Hre Hc].
  destruct (decide (curr = goal)) as [->|Hne].
  { injection Hrun as <- <-. split; [|by left].
    constructor; simpl; try done.
    intros x Hx. destruct (Hc x Hx) as [H|[H|[H|H]]]; [|by right; left|done|by right; right; right].
    rewrite Eq in H. apply elem_of_cons in H as [->|H]; [right; by left | by left]. }
  destruct (adj !! curr) as [ns|] eqn:Ens; [|done].
  set (neighbors := if randomize then shuffle sorts ns else ns) in *.
  assert (∀ y, y ∈ neighbors ↔ y ∈ ns) as Hsame.
  { intros y. unfold neighbors. destruct randomize; [|done]. by rewrite Hperm. }
  set (st1 := {| queue := rest; prev := prev st; visited := visited st |}) in *.
  assert (bfsGood adj start goal (Some curr) st1) as Hgood1.
  { constructor; simpl; try done.
    intros x Hx. destruct (Hc x Hx) as [H|[H|[H|H]]]; [|by right; left|done|by right; right; right].
    rewrite Eq in H. apply elem_of_cons in H as [->|H]; [right; right; by left | by left]. }
  destruct (visits_good curr neighbors st1 Hgood1 Hcurr) as (Hgood2 & Hall & Hmono).
  { intros y Hy. exists ns. split; [done|]. by apply Hsame. }
  apply IH in Hrun; [done | |].
  - destruct Hgood2 as [Hs2 Hp2 Hr2 Hre2 Hc2]. constructor; try done.
    intros x Hx. destruct (Hc2 x Hx) as [H|[H|[H|H]]]; [by left | by right; left | | by right; right; right].
    injection H as <-. right. right. right. intros y (l & Hl & Hy).
    apply Hall, Hsame. congruence.
  - clear Hrun. assert (∀ l s, (∀ x, x ∈ queue s → x ∈ visited s) →
             ∀ x, x ∈ queue (foldl (visit curr) s l) → x ∈ visited (foldl (visit curr) s l))
      as Hqv.
    { induction l as [|y l IHl]; intros s Hs' x; simpl; [apply Hs'|].
      apply IHl. intros z. unfold visit. destruct (decide (y ∈ visited s)); [apply Hs'|].
      simpl. intros Hz. apply elem_of_app in Hz as [Hz|Hz]; [|set_solver].
      apply Hs' in Hz. set_solver. }
    apply Hqv. simpl. intros x Hx. apply Hq. by right.
Qed.

Lemma walkBack_chain (st : bfs) :
  bfsGood adj start goal None st →
  ∀ fuel c path p,
    walkBack fuel (prev st) (Some c) path = Some p → c ∈ visited st →
    ∃ pre, p = pre ++ path ∧ head pre = Some start ∧ last pre = Some c
           ∧ chained adj pre.
Proof.
  intros [Hs Hp Hr Hre Hc] fuel.
  induction fuel as [|fuel IH]; intros c path p Hw Hcv; [done|].
  simpl in Hw. destruct (prev st !! c) as [c'|] eqn:E.
  - destruct (Hp c c' E) as (Hstep & Hc' & _).
    destruct (IH c' (c :: path) p Hw Hc') as (pre & -> & Hh & Hl & Hch).
    exists (pre ++ [c]). split; [by rewrite <- app_assoc|].
    split; [by destruct pre|]. split; [apply last_snoc|].
    by eapply chained_snoc.
  - destruct fuel as [|fuel]; [done|]. simpl in Hw. injection Hw as <-.
    destruct (decide (c = start)) as [->|Hne].
    + exists [start]. done.
    + destruct (Hr c Hcv Hne) as [? ?]. congruence.
Qed.

End BreadthFirstCorrect.

(** X4. [simpleBFS] on an adjacency array of [n] nodes: it returns [null]
    exactly when [start] is [goal] or no chain of steps leads from [start]
    to [goal]; otherwise it returns a path that begins with [start], ends
    with [goal] and goes one step at a time, whatever the random order of
    the neighbours. *)
Theorem simpleBFS_correct (n : nat) (adj : list (list nat)) (start goal : nat)
    (randomize : bool) (shuffle : nat → list nat → list nat) (fuel sorts : nat) :
  adjInRange n adj →
  (∀ k l, shuffle k l ≡ₚ l) →
  (start < n)%nat → (2 * n + 1 ≤ fuel)%nat →
  ∃ r sorts',
    TopologyGenerator.simpleBFS fuel adj start goal randomize shuffle sorts
    = Ret (r, sorts')
    ∧ (r = None ↔ start = goal ∨ ¬ rtc (steps adj) start goal)
    ∧ (∀ p, r = Some p →
            head p = Some start ∧ last p = Some goal ∧ chained adj p).
Proof.
  intros Hadj Hperm Hs Hf.
  destruct (simpleBFS_total n adj start goal randomize shuffle fuel sorts
              Hadj Hperm Hs Hf) as (r & sorts' & Hrun & _).
  exists r, sorts'. split; [done|].
  unfold TopologyGenerator.simpleBFS in Hrun.
  destruct (TopologyGenerator.bfsLoop fuel adj goal randomize shuffle sorts _)
    as [[st' k]| |] eqn:Hloop; simpl in Hrun; try done.
  apply (bfsLoop_good adj start goal randomize shuffle Hperm) in Hloop
    as [Hgood Hexit].
  2: { constructor; simpl.
       - split; [set_solver | apply lookup_empty].
       - intros x c Hx. by rewrite lookup_empty in Hx.
       - intros x Hx Hne. apply elem_of_singleton in Hx. done.
       - intros x Hx. apply elem_of_singleton in Hx as ->. apply rtc_refl.
       - intros x Hx. apply elem_of_singleton in Hx as ->. left. by left. }
  2: { simpl. intros x Hx. apply list_elem_of_singleton in Hx as ->. set_solver. }
  destruct (TopologyGenerator.prev st' !! goal) as [c|] eqn:Eg.
  - destruct (TopologyGenerator.walkBack fuel _ (Some goal) []) as [p|] eqn:Hw;
      simpl in Hrun; [|done].
    injection Hrun as <- <-.
    destruct (good_prev _ _ _ _ _ Hgood goal c Eg) as (_ & _ & Hgv).
    split.
    + split; [done|]. intros [->|Hn].
      * destruct (good_start _ _ _ _ _ Hgood) as [_ H]. congruence.
      * exfalso. apply Hn. by apply (good_reachable _ _ _ _ _ Hgood).
    + intros p' [= <-].
      destruct (walkBack_chain adj start goal st' Hgood fuel goal [] p Hw Hgv)
        as (pre & -> & H1 & H2 & H3).
      rewrite app_nil_r. done.
  - injection Hrun as <- <-. split; [|done]. split; [|done]. intros _.
    destruct (decide (start = goal)) as [|Hne]; [by left|]. right. intros Hreach.
    assert (goal ∉ TopologyGenerator.visited st') as Hgv.
    { intros Hgv. destruct (good_reached _ _ _ _ _ Hgood goal Hgv) as [? ?]; [done|].
      congruence. }
    destruct Hexit as [?|Hempty]; [done|].
    apply Hgv. revert Hreach.
    apply (rtc_ind_r (λ z, z ∈ TopologyGenerator.visited st')).
    + apply (good_start _ _ _ _ _ Hgood).
    + intros x y _ Hstep Hx.
      destruct (good_closed _ _ _ _ _ Hgood x Hx) as [H|[H|[H|H]]].
      * rewrite Hempty in H. by apply elem_of_nil in H.
      * subst x. done.
      * done.
      * by apply H.
Qed.

Lemma simpleBFS_correct_witness :
  ∃ r sorts',
    TopologyGenerator.simpleBFS 9 [[1]; [0; 2]; [1]; []]%nat 0 2 true (λ _ l, reverse l) 0
    = Ret (r, sorts')
    ∧ ∃ p, r = Some p ∧ head p = Some 0%nat ∧ last p = Some 2%nat.
Proof.
  destruct (simpleBFS_correct 4 [[1]; [0; 2]; [1]; []]%nat 0 2 true (λ _ l, reverse l) 9 0)
    as (r & sorts' & Hrun & Hnone & Hsome).
  - split; [reflexivity|]. intros i l Hl.
    destruct i as [|[|[|[|i]]]]; simpl in Hl; try done;
      injection Hl as <-; repeat constructor; lia.
  - intros k l. apply reverse_Permutation.
  - lia.
  - simpl. lia.
  - exists r, sorts'. split; [exact Hrun|].
    destruct r as [p|].
    + exists p. split; [reflexivity|]. destruct (Hsome p eq_refl) as (H1 & H2 & _). done.
    + exfalso. destruct (proj1 Hnone eq_refl) as [H|H]; [lia|]. apply H.
      apply rtc_l with 1%nat; [exists [1%nat]; split; [done | by left]|].
      apply rtc_l with 2%nat; [exists [0; 2]%nat; split; [done | right; by left]|].
      apply rtc_refl.
Defined.

(** ** LevelManagerStackelberg.js: the enumeration of simple paths *)

Module StackelbergPaths.

(** The nodes an edge joins [start] to, in the order of [this.edges]:
    [if (edge[0] === start) neighbors.push(edge[1]);
     else if (edge[1] === start) neighbors.push(edge[0]);] *)
Definition neighborsOf (edges : list (nat * nat)) (start : nat) : list nat :=
  edges ≫= λ e, if decide (e.1 = start) then [e.2]
                else if decide (e.2 = start) then [e.1] else [].

(** [findAllPaths(start, end, path = [], visited = new Set())]. The callee
    gets copies of [path] and [visited], so nothing is shared. *)
Fixpoint findAllPaths (fuel : nat) (edges : list (nat * nat)) (start finish : nat)
    (path : list nat) (visited : gset nat) : outcome (list (list nat)) :=
  match fuel with
  | O => OutOfFuel
  | S fuel' =>
      let path' := path ++ [start] in
      let visited' := {[start]} ∪ visited in
      if decide (start = finish) then Ret [path']
      else
        foldl (λ acc neighbor,
                 allPaths ← acc;
                 if decide (neighbor ∈ visited') then Ret allPaths
                 else
                   newPaths ← findAllPaths fuel' edges neighbor finish path' visited';
                   Ret (allPaths ++ newPaths))
              (Ret []) (neighborsOf edges start)
  end.

End StackelbergPaths.

Example findAllPaths_diamond :
  StackelbergPaths.findAllPaths 9 [(0, 1); (0, 2); (1, 3); (2, 3); (1, 2)]%nat 0 3 [] ∅
  = Ret [[0; 1; 3]; [0; 1; 2; 3]; [0; 2; 3]; [0; 2; 1; 3]]%nat.
Proof. vm_compute. reflexivity. Qed.

(** A simple path from [s] to [e]: it follows edges and repeats no node. *)
Definition simplePath (edges : list (nat * nat)) (s e : nat) (p : list nat) : Prop :=
  head p = Some s ∧ last p = Some e ∧ linked edges p ∧ NoDup p.

(** Every node an edge touches. *)
Definition endpoints (edges : list (nat * nat)) : gset nat :=
  list_to_set (edges ≫= λ e, [e.1; e.2]).

Lemma size_list_to_set_le (l : list nat) :
  (size (list_to_set l : gset nat) ≤ length l)%nat.
Proof.
  induction l as [|x l IH].
  - rewrite list_to_set_nil, size_empty. done.
  - rewrite list_to_set_cons, size_union_alt, size_singleton.
    pose proof (subseteq_size (list_to_set l ∖ {[x]}) (list_to_set l : gset nat)
                  ltac:(set_solver)). simpl. lia.
Qed.

Section AllPaths.
Import StackelbergPaths.
Variable edges : list (nat * nat).
Variable finish : nat.

Lemma neighborsOf_adjacent (start y : nat) :
  y ∈ neighborsOf edges start ↔ adjacent edges start y.
Proof.
  unfold neighborsOf, adjacent. rewrite list_elem_of_bind. split.
  - intros ([a b] & Hy & He). simpl in Hy.
    destruct (decide (a = start)) as [->|Ha].
    + apply list_elem_of_singleton in Hy as ->. by left.
    + destruct (decide (b = start)) as [->|Hb]; [|by apply elem_of_nil in Hy].
      apply list_elem_of_singleton in Hy as ->. by right.
  - intros [H|H].
    + exists (start, y). split; [|done]. simpl. rewrite decide_True by done. by left.
    + exists (y, start). split; [|done]. simpl.
      destruct (decide (y = start)) as [->|Hne]; [by left|].
      rewrite decide_True by done. by left.
Qed.

Lemma neighborsOf_endpoints (start y : nat) :
  y ∈ neighborsOf edges start → y ∈ endpoints edges.
Proof.
  intros Hy. apply neighborsOf_adjacent in Hy. unfold endpoints.
  apply elem_of_list_to_set, list_elem_of_bind.
  destruct Hy as [H|H]; eexists; (split; [|exact H]); simpl.
  - right. by left.
  - by left.
Qed.

(** The paths that continue [path] from [start] to the end without
    touching [path] again. *)
Definition continues (path : list nat) (start : nat) (p : list nat) : Prop :=
  ∃ tail, p = path ++ tail ∧ simplePath edges start finish tail
          ∧ ∀ x, x ∈ tail → x ∉ path.

(** The loop over the neighbours collects what each unvisited neighbour
    gives. *)
Lemma collect_spec (f : nat → outcome (list (list nat))) (visited' : gset nat)
    (spec : nat → list nat → Prop) (l : list nat) :
  (∀ y, y ∈ l → y ∉ visited' → ∃ ps, f y = Ret ps ∧ ∀ p, p ∈ ps ↔ spec y p) →
  ∀ acc, ∃ ps,
    foldl (λ acc neighbor,
             allPaths ← acc;
             if decide (neighbor ∈ visited') then Ret allPaths
             else newPaths ← f neighbor; Ret (allPaths ++ newPaths))
          (Ret acc) l = Ret ps
    ∧ ∀ p, p ∈ ps ↔ p ∈ acc ∨ ∃ y, y ∈ l ∧ y ∉ visited' ∧ spec y p.
Proof.
  induction l as [|y l IH]; intros Hf acc; simpl.
  - exists acc. split; [done|]. intros p. split; [by left|].
    intros [?|(y & Hy & _)]; [done | by apply elem_of_nil in Hy].
  - destruct (decide (y ∈ visited')) as [Hin|Hnin].
    + destruct (IH (λ z Hz, Hf z (list_elem_of_further _ _ _ Hz)) acc) as (ps & Hps & Hspec).
      exists ps. split; [done|]. intros p. rewrite Hspec. split.
      * intros [?|(z & Hz & Hzv & Hs)]; [by left|]. right. exists z. split; [by right | done].
      * intros [?|(z & Hz & Hzv & Hs)]; [by left|]. right. exists z.
        apply elem_of_cons in Hz as [->|Hz]; done.
    + destruct (Hf y (list_elem_of_here _ _) Hnin) as (new & Hnew & Hnspec).
      rewrite Hnew. simpl.
      destruct (IH (λ z Hz, Hf z (list_elem_of_further _ _ _ Hz)) (acc ++ new))
        as (ps & Hps & Hspec).
      exists ps. split; [done|]. intros p. rewrite Hspec, elem_of_app, Hnspec. split.
      * intros [[?|?]|(z & Hz & Hzv & Hs)]; [by left | |].
        -- right. exists y. split; [by left | done].
        -- right. exists z. split; [by right | done].
      * intros [?|(z & Hz & Hzv & Hs)]; [left; by left|].
        apply elem_of_cons in Hz as [->|Hz]; [left; by right|].
        right. exists z. done.
Qed.

Lemma continues_here (path : list nat) (p : list nat) :
  finish ∉ path →
  (p = path ++ [finish] ↔ continues path finish p).
Proof.
  intros Hnot. split.
  - intros ->. exists [finish]. split; [done|]. split.
    + split; [done|]. split; [done|]. split; [done | apply NoDup_singleton].
    + intros x Hx. apply list_elem_of_singleton in Hx as ->. done.
  - intros (tail & -> & (Hh & Hl & _ & Hnd) & _).
    destruct tail as [|u tail]; [done|]. simpl in Hh. injection Hh as ->.
    destruct tail as [|v tail]; [done|]. exfalso.
    apply NoDup_cons in Hnd as [Hn _]. apply Hn.
    change (last (finish :: v :: tail)) with (last (v :: tail)) in Hl.
    apply last_Some in Hl as (l' & Hl'). rewrite Hl'. apply elem_of_app. right. by left.
Qed.

Lemma continues_step (path : list nat) (start : nat) (p : list nat) :
  start ≠ finish → start ∉ path →
  (continues path start p
   ↔ ∃ y, y ∈ neighborsOf edges start
          ∧ y ∉ ({[start]} ∪ list_to_set path : gset nat)
          ∧ continues (path ++ [start]) y p).
Proof.
  intros Hne Hnot. split.
  - intros (tail & -> & (Hh & Hl & Hlk & Hnd) & Hdis).
    destruct tail as [|u tail]; [done|]. simpl in Hh. injection Hh as ->.
    destruct tail as [|y tail]; [simpl in Hl; congruence|].
    destruct Hlk as [Hadj Hlk]. apply NoDup_cons in Hnd as [Hn Hnd].
    exists y. split; [by apply neighborsOf_adjacent|]. split.
    + rewrite elem_of_union, elem_of_singleton, elem_of_list_to_set.
      intros [->|Hy]; [apply Hn; by left|].
      apply (Hdis y); [right; by left | done].
    + exists (y :: tail). split; [by rewrite <- app_assoc|]. split; [done|].
      intros x Hx Hin. apply elem_of_app in Hin as [Hin|Hin].
      * apply (Hdis x); [by right | done].
      * apply list_elem_of_singleton in Hin as ->. done.
  - intros (y & Hy & Hyv & tail & -> & (Hh & Hl & Hlk & Hnd) & Hdis).
    exists (start :: tail). split; [by rewrite <- app_assoc|].
    destruct tail as [|u tail]; [done|]. simpl in Hh. injection Hh as ->.
    split.
    + split; [done|]. split; [done|]. split.
      * split; [by apply neighborsOf_adjacent | done].
      * apply NoDup_cons. split; [|done]. intros Hin.
        apply (Hdis start Hin). apply elem_of_app. right. by left.
    + intros x Hx Hin. apply elem_of_cons in Hx as [->|Hx]; [done|].
      apply (Hdis x Hx). apply elem_of_app. by left.
Qed.

(** The search below [start] returns the continuations of [path]. *)
Lemma findAllPaths_spec :
  ∀ fuel start path,
    start ∉ path →
    (size (endpoints edges ∖ ({[start]} ∪ list_to_set path)) < fuel)%nat →
    ∃ ps, findAllPaths fuel edges start finish path (list_to_set path) = Ret ps
          ∧ ∀ p, p ∈ ps ↔ continues path start p.
Proof.
  induction fuel as [|fuel IH]; intros start path Hnot Hfuel; [lia|].
  cbn [findAllPaths]. destruct (decide (start = finish)) as [->|Hne].
  - eexists. split; [done|]. intros p. rewrite list_elem_of_singleton.
    by apply continues_here.
  - destruct (collect_spec
                (λ y, findAllPaths fuel edges y finish (path ++ [start])
                        ({[start]} ∪ list_to_set path))
                ({[start]} ∪ list_to_set path)
                (λ y p, continues (path ++ [start]) y p)
                (neighborsOf edges start)) with (acc := @nil (list nat))
      as (ps & Hps & Hspec).
    + intros y Hy Hyv.
      assert (({[start]} ∪ list_to_set path : gset nat)
              = list_to_set (path ++ [start])) as Hset.
      { apply set_eq. intros x. rewrite list_to_set_app. simpl. set_solver. }
      rewrite Hset. apply IH.
      * intros Hin. apply Hyv. rewrite Hset. by apply elem_of_list_to_set.
      * rewrite <- Hset.
        assert (size (endpoints edges ∖ ({[y]} ∪ ({[start]} ∪ list_to_set path)))
                < size (endpoints edges ∖ ({[start]} ∪ list_to_set path)))%nat; [|lia].
        apply subset_size. apply neighborsOf_endpoints in Hy.
        split; [set_solver|]. intros Hsub.
        assert (y ∈ endpoints edges ∖ ({[start]} ∪ list_to_set path)) as Hin
          by (apply elem_of_difference; done).
        apply Hsub in Hin. set_solver.
    + exists ps. split; [exact Hps|]. intros p. rewrite Hspec.
      rewrite (continues_step path start p Hne Hnot). split.
      * intros [H|H]; [by apply elem_of_nil in H | done].
      * intros H. by right.
Qed.

End AllPaths.

(** X5. [findAllPaths(start, end)] enumerates the simple paths: what it
    returns are exactly the paths from [start] to [end] that follow edges
    (in either direction) and repeat no node. *)
Theorem findAllPaths_simple_paths (edges : list (nat * nat)) (start finish fuel : nat) :
  (2 * length edges < fuel)%nat →
  ∃ ps, StackelbergPaths.findAllPaths fuel edges start finish [] ∅ = Ret ps
        ∧ ∀ p, p ∈ ps ↔ simplePath edges start finish p.
Proof.
  intros Hfuel.
  destruct (findAllPaths_spec edges finish fuel start []) as (ps & Hps & Hspec).
  - apply not_elem_of_nil.
  - assert (size (endpoints edges) ≤ 2 * length edges)%nat as Hsize.
    { unfold endpoints. etransitivity; [apply size_list_to_set_le|].
      clear. induction edges as [|e l IH]; [simpl; lia|].
      rewrite bind_cons, length_app. simpl in *. lia. }
    pose proof (subseteq_size (endpoints edges ∖ ({[start]} ∪ list_to_set []))
                  (endpoints edges) ltac:(set_solver)). lia.
  - exists ps. split; [exact Hps|]. intros p. rewrite Hspec. unfold continues. split.
    + intros (tail & -> & Hs & _). done.
    + intros Hs. exists p. split; [done|]. split; [done|].
      intros x _. apply not_elem_of_nil.
Qed.

Lemma findAllPaths_simple_paths_witness :
  ∃ ps, StackelbergPaths.findAllPaths 11 [(0, 1); (0, 2); (1, 3); (2, 3); (1, 2)]%nat
          0 3 [] ∅ = Ret ps
        ∧ [0; 2; 1; 3]%nat ∈ ps.
Proof.
  destruct (findAllPaths_simple_paths [(0, 1); (0, 2); (1, 3); (2, 3); (1, 2)]%nat
              0 3 11) as (ps & Hps & Hiff).
  - simpl. lia.
  - exists ps. split; [exact Hps|]. apply Hiff.
    split; [done|]. split; [done|]. split.
    + split; [left; repeat constructor|].
      split; [right; repeat constructor|].
      split; [left; repeat constructor | exact I].
    + repeat (apply NoDup_cons; split; [rewrite ?elem_of_cons, elem_of_nil; lia|]).
      apply NoDup_nil_2.
Defined.

(** ** Re-routing that succeeds (Enemy.rerouteToNode) *)

Lemma linked_in_range (n : nat) (es : list (nat * nat)) (p : list nat) :
  edgesInRange n es → linked es p →
  (∀ a, head p = Some a → (a < n)%nat) →
  Forall (λ i, (i < n)%nat) p.
Proof.
  intros He. induction p as [|u p IH]; intros Hlk Hh; [constructor|].
  constructor; [by apply Hh|]. destruct p as [|v p]; [constructor|].
  destruct Hlk as [Hadj Hlk]. apply IH; [done|].
  intros a [= <-]. destruct Hadj as [H|H]; apply He in H; simpl in H; tauto.
Qed.

Lemma linked_app (es : list (nat * nat)) (p q : list nat) (x : nat) :
  linked es p → last p = Some x → linked es (x :: q) → linked es (p ++ q).
Proof.
  induction p as [|u p IH]; intros Hp Hl Hq; [done|].
  destruct p as [|v p].
  - simpl in Hl. injection Hl as ->. done.
  - destruct Hp as [H1 H2]. split; [done|]. by apply IH.
Qed.

(** What a route between two nodes of the agent's graph is. *)
Definition routeOf (es : list (nat * nat)) (n a b : nat) (p : list nat) : Prop :=
  head p = Some a ∧ last p = Some b ∧ linked es p
  ∧ Forall (λ i, (i < n)%nat) p.

Section RerouteSuccess.

Variable hypot : Q → Q → Q.
Hypothesis hypot_nonneg : ∀ a b, 0 <= hypot a b.

Lemma route_spec (fuel : nat) (e : Enemy.t) (es : list (nat * nat)) (a b : nat) :
  Enemy.edges e = Some es →
  edgesInRange (length (Enemy.nodes e)) es →
  (a < length (Enemy.nodes e))%nat → (b < length (Enemy.nodes e))%nat →
  (findPathFuel (length (Enemy.nodes e)) ≤ fuel)%nat →
  ∃ p, Enemy.route hypot fuel e a b = Ret p
       ∧ (p = [] ∧ ¬ connected es a b
          ∨ routeOf es (length (Enemy.nodes e)) a b p).
Proof.
  intros Hes He Ha Hb Hfuel. unfold Enemy.route. rewrite Hes.
  destruct (decide (a = b)) as [->|Hne].
  - exists [b]. unfold Pathfinding.findPath. rewrite decide_True by done.
    split; [done|]. right. split; [done|]. split; [done|]. split; [done|].
    by repeat constructor.
  - destruct (findPath_total hypot (λ _, 0) (Enemy.nodes e) es a b false
                hypot_nonneg ltac:(done) He Ha Hb Hne fuel Hfuel) as (p & Hp & Hpost).
    exists p. split; [done|].
    destruct Hpost as [?|(H1 & H2 & H3 & _)]; [by left|]. right.
    split; [done|]. split; [done|]. split; [done|].
    apply (linked_in_range _ es); [done | done |]. intros a' Ha'. congruence.
Qed.

(** The splice, when [H] leads to the goal and an entry node leads to [H]:
    the new path enters at [prev] or [next], goes to [H] and on to the
    goal. *)
Lemma splice_completes (fuel H : nat) (e1 : Enemy.t) (es : list (nat * nat))
    (prev next goal : nat) :
  Enemy.edges e1 = Some es →
  edgesInRange (length (Enemy.nodes e1)) es →
  (H < length (Enemy.nodes e1))%nat →
  (prev < length (Enemy.nodes e1))%nat →
  (next < length (Enemy.nodes e1))%nat →
  (goal < length (Enemy.nodes e1))%nat →
  (findPathFuel (length (Enemy.nodes e1)) ≤ fuel)%nat →
  connected es H goal →
  connected es prev H ∨ connected es next H →
  ∃ e' entry other viaH toGoal n0 n1,
    Enemy.splice hypot fuel H e1 prev next goal = Ret (e', Enemy.Completed)
    ∧ (entry = prev ∧ other = next ∨ entry = next ∧ other = prev)
    ∧ routeOf es (length (Enemy.nodes e1)) other H viaH
    ∧ routeOf es (length (Enemy.nodes e1)) H goal toGoal
    ∧ Enemy.path e' = entry :: viaH ++ drop 1 toGoal
    ∧ Enemy.currentPathIndex e' = O
    ∧ Enemy.attractedToNode e' = Enemy.attractedToNode e1
    ∧ Enemy.originalPath e' = Enemy.originalPath e1
    ∧ Enemy.processedHoneypots e' = Enemy.processedHoneypots e1
    ∧ Enemy.nodes e1 !! entry = Some n0 ∧ Enemy.nodes e1 !! other = Some n1
    ∧ Enemy.x e' = node_x n0 ∧ Enemy.y e' = node_y n0
    ∧ Enemy.targetX e' = node_x n1 ∧ Enemy.targetY e' = node_y n1
      ∧ Enemy.nodes e' = Enemy.nodes e1.
Proof.
  intros Hes He HH Hp Hn Hg Hfuel Hc3 Hc12. unfold Enemy.splice.
  destruct (route_spec fuel e1 es prev H Hes He Hp HH Hfuel) as (p1 & -> & H1).
  destruct (route_spec fuel e1 es next H Hes He Hn HH Hfuel) as (p2 & -> & H2).
  destruct (route_spec fuel e1 es H goal Hes He HH Hg Hfuel) as (p3 & -> & H3).
  destruct H3 as [[_ H3]|H3]; [done|].
  destruct (lookup_lt_is_Some_2 _ _ Hp) as [np Enp].
  destruct (lookup_lt_is_Some_2 _ _ Hn) as [nn Enn].
  assert (p3 ≠ []) as Hp3 by (destruct H3 as [Hh _]; by destruct p3).
  rewrite bool_decide_eq_false_2 by (by destruct p3).
  rewrite Enp, Enn.
  assert (∀ (useNext : bool) viaH,
    routeOf es (length (Enemy.nodes e1)) (if useNext then next else prev) H viaH →
    viaH = (if useNext then p2 else p1) →
    ∃ e' entry other n0 n1,
      (let pathToHp := if useNext then prev :: p2 else next :: p1 in
       let fullPath := pathToHp ++ drop 1 p3 in
       let e2 := Enemy.withRoute e1 fullPath O (Enemy.attractedToNode e1)
                   (Enemy.originalPath e1) (Enemy.processedHoneypots e1) in
       let e3 := match Enemy.nodeAt (Enemy.nodes e2) fullPath 0 with
                 | Some startNode =>
                     Enemy.withMotion e2 O (node_x startNode) (node_y startNode)
                       (Enemy.targetX e2) (Enemy.targetY e2) (Enemy.reachedGoal e2)
                 | None => e2
                 end in
       if bool_decide (1 < length fullPath)%nat then
         match Enemy.nodeAt (Enemy.nodes e3) fullPath 1 with
         | Some targetNode =>
             Ret (Enemy.withMotion e3 O (Enemy.x e3) (Enemy.y e3) (node_x targetNode)
                    (node_y targetNode) (Enemy.reachedGoal e3), Enemy.Completed)
         | None => Ret (e3, Enemy.Caught)
         end
       else Ret (e3, Enemy.Completed)) = Ret (e', Enemy.Completed)
      ∧ (entry = prev ∧ other = next ∨ entry = next ∧ other = prev)
      ∧ routeOf es (length (Enemy.nodes e1)) other H viaH
      ∧ Enemy.path e' = entry :: viaH ++ drop 1 p3
      ∧ Enemy.currentPathIndex e' = O
      ∧ Enemy.attractedToNode e' = Enemy.attractedToNode e1
      ∧ Enemy.originalPath e' = Enemy.originalPath e1
      ∧ Enemy.processedHoneypots e' = Enemy.processedHoneypots e1
      ∧ Enemy.nodes e1 !! entry = Some n0 ∧ Enemy.nodes e1 !! other = Some n1
      ∧ Enemy.x e' = node_x n0 ∧ Enemy.y e' = node_y n0
      ∧ Enemy.targetX e' = node_x n1 ∧ Enemy.targetY e' = node_y n1
      ∧ Enemy.nodes e' = Enemy.nodes e1) as Htail.
  { intros useNext viaH Hvia Heq.
    destruct Hvia as (Hh & Hl & Hlk & Hr).
    destruct viaH as [|o rest]; [done|]. simpl in Hh. injection Hh as ->.
    destruct useNext; rewrite <- Heq.
    - exists (Enemy.withMotion
                (Enemy.withMotion
                   (Enemy.withRoute e1 (prev :: (next :: rest) ++ drop 1 p3) O
                      (Enemy.attractedToNode e1) (Enemy.originalPath e1)
                      (Enemy.processedHoneypots e1))
                   O (node_x np) (node_y np) (Enemy.targetX e1) (Enemy.targetY e1)
                   (Enemy.reachedGoal e1))
                O (node_x np) (node_y np) (node_x nn) (node_y nn) (Enemy.reachedGoal e1)),
        prev, next, np, nn.
      cbn. unfold Enemy.nodeAt. cbn. rewrite Enp. cbn. rewrite Enn.
      split; [reflexivity|]. split; [by left|]. done.
    - exists (Enemy.withMotion
                (Enemy.withMotion
                   (Enemy.withRoute e1 (next :: (prev :: rest) ++ drop 1 p3) O
                      (Enemy.attractedToNode e1) (Enemy.originalPath e1)
                      (Enemy.processedHoneypots e1))
                   O (node_x nn) (node_y nn) (Enemy.targetX e1) (Enemy.targetY e1)
                   (Enemy.reachedGoal e1))
                O (node_x nn) (node_y nn) (node_x np) (node_y np) (Enemy.reachedGoal e1)),
        next, prev, nn, np.
      cbn. unfold Enemy.nodeAt. cbn. rewrite Enn. cbn. rewrite Enp.
      split; [reflexivity|]. split; [by right|]. done. }
  assert (∀ (useNext : bool) viaH,
    routeOf es (length (Enemy.nodes e1)) (if useNext then next else prev) H viaH →
    viaH = (if useNext then p2 else p1) →
    ∃ e' entry other viaH toGoal n0 n1,
      (let pathToHp := if useNext then prev :: p2 else next :: p1 in
       let fullPath := pathToHp ++ drop 1 p3 in
       let e2 := Enemy.withRoute e1 fullPath O (Enemy.attractedToNode e1)
                   (Enemy.originalPath e1) (Enemy.processedHoneypots e1) in
       let e3 := match Enemy.nodeAt (Enemy.nodes e2) fullPath 0 with
                 | Some startNode =>
                     Enemy.withMotion e2 O (node_x startNode) (node_y startNode)
                       (Enemy.targetX e2) (Enemy.targetY e2) (Enemy.reachedGoal e2)
                 | None => e2
                 end in
       if bool_decide (1 < length fullPath)%nat then
         match Enemy.nodeAt (Enemy.nodes e3) fullPath 1 with
         | Some targetNode =>
             Ret (Enemy.withMotion e3 O (Enemy.x e3) (Enemy.y e3) (node_x targetNode)
                    (node_y targetNode) (Enemy.reachedGoal e3), Enemy.Completed)
         | None => Ret (e3, Enemy.Caught)
         end
       else Ret (e3, Enemy.Completed)) = Ret (e', Enemy.Completed)
      ∧ (entry = prev ∧ other = next ∨ entry = next ∧ other = prev)
      ∧ routeOf es (length (Enemy.nodes e1)) other H viaH
      ∧ routeOf es (length (Enemy.nodes e1)) H goal toGoal
      ∧ Enemy.path e' = entry :: viaH ++ drop 1 toGoal
      ∧ Enemy.currentPathIndex e' = O
      ∧ Enemy.attractedToNode e' = Enemy.attractedToNode e1
      ∧ Enemy.originalPath e' = Enemy.originalPath e1
      ∧ Enemy.processedHoneypots e' = Enemy.processedHoneypots e1
      ∧ Enemy.nodes e1 !! entry = Some n0 ∧ Enemy.nodes e1 !! other = Some n1
      ∧ Enemy.x e' = node_x n0 ∧ Enemy.y e' = node_y n0
      ∧ Enemy.targetX e' = node_x n1 ∧ Enemy.targetY e' = node_y n1
      ∧ Enemy.nodes e' = Enemy.nodes e1) as Htail'.
  { intros useNext viaH Hvia Heq.
    destruct (Htail useNext viaH Hvia Heq) as (e' & entry & other & n0 & n1 & Hr & Ho & Hv & Hrest).
    exists e', entry, other, viaH, p3, n0, n1. done. }
  clear Htail.
  destruct H1 as [[-> Hn1]|H1].
  - destruct H2 as [[-> Hn2]|H2]; [destruct Hc12; done|].
    assert (p2 ≠ []) as Hp2 by (destruct H2 as [Hh _]; by destruct p2).
    rewrite bool_decide_eq_false_2 by (simpl; lia).
    rewrite (bool_decide_eq_false_2 (length p2 = O)) by (by destruct p2).
    apply (Htail' true p2); done.
  - assert (p1 ≠ []) as Hp1 by (destruct H1 as [Hh _]; by destruct p1).
    rewrite bool_decide_eq_true_2 by (destruct p1; [done | simpl; lia]).
    destruct (decide (prev = H)); [apply (Htail' false p1); done|].
    case_bool_decide as Hl2; [apply (Htail' false p1); done|].
    destruct H2 as [[-> _]|H2]; [done|].
    destruct (Qltb _ _); [apply (Htail' false p1) | apply (Htail' true p2)]; done.
Qed.

(** The agent once the attractor [H] is recorded: the state in which the
    routes are computed. *)
Definition committed (H : nat) (e : Enemy.t) : Enemy.t :=
  Enemy.withRoute e (Enemy.path e) (Enemy.currentPathIndex e) (Some H)
    (match Enemy.originalPath e with
     | Some p => Some p
     | None => Some (Enemy.path e)
     end)
    (Enemy.processedHoneypots e).

(** Past the guards, [rerouteToNode] is the splice on the committed agent. *)
Lemma reroute_reaches_splice (fuel H : nat) (e : Enemy.t) (prev next goal : nat) :
  H ∉ Enemy.processedHoneypots e →
  (Enemy.attractedToNode e = None
   ∨ (Enemy.attractedToNode e = Some H
      ∧ Enemy.path e !! Enemy.currentPathIndex e = Some H)) →
  Enemy.path e !! Enemy.currentPathIndex e = Some prev →
  Enemy.path e !! S (Enemy.currentPathIndex e) = Some next →
  last (Enemy.path e) = Some goal →
  Enemy.rerouteToNode hypot fuel H e
  = Enemy.splice hypot fuel H (committed H e) prev next goal.
Proof.
  intros Hnp Hattr Hprev Hnext Hgoal. unfold Enemy.rerouteToNode.
  rewrite decide_False by done.
  rewrite bool_decide_eq_false_2.
  2: { destruct Hattr as [Ha|[Ha _]]; rewrite Ha; intros [[? ?] ?]; done. }
  assert (bool_decide (Enemy.attractedToNode e = Some H)
          && negb (bool_decide (Enemy.path e !! Enemy.currentPathIndex e = Some H))
          = false) as ->.
  { destruct Hattr as [Ha|[Ha Hl]].
    - rewrite Ha. done.
    - rewrite (bool_decide_eq_true_2 _ Hl). by rewrite andb_false_r. }
  apply lookup_lt_Some in Hnext as Hlen.
  rewrite bool_decide_eq_false_2 by lia.
  rewrite bool_decide_eq_false_2 by lia.
  cbn [Enemy.path Enemy.currentPathIndex Enemy.withRoute].
  rewrite Hprev, Hnext, Hgoal. done.
Qed.

End RerouteSuccess.

(** X6. A re-route that finds its routes. For an agent on the edge
    [prev → next] that carries the edges of its graph and is free to be
    attracted by [H]: when [H] leads to the goal and [prev] or [next] leads
    to [H], [rerouteToNode(H)] runs to its end; the new path starts at one
    of [prev], [next], goes from the other one to [H] and from [H] on to the
    goal along edges; the traversal index is reset to 0, the agent is put on
    the first node with the second as target, [H] is recorded as the
    attractor and the path before the first re-route is kept. *)
Theorem reroute_passes_attractor (hypot : Q → Q → Q) (fuel H : nat) (e : Enemy.t)
    (es : list (nat * nat)) (prev next goal : nat) :
  (∀ a b, 0 <= hypot a b) →
  Enemy.edges e = Some es →
  edgesInRange (length (Enemy.nodes e)) es →
  (H < length (Enemy.nodes e))%nat →
  Forall (λ i, (i < length (Enemy.nodes e))%nat) (Enemy.path e) →
  (findPathFuel (length (Enemy.nodes e)) ≤ fuel)%nat →
  H ∉ Enemy.processedHoneypots e →
  (Enemy.attractedToNode e = None
   ∨ (Enemy.attractedToNode e = Some H
      ∧ Enemy.path e !! Enemy.currentPathIndex e = Some H)) →
  Enemy.path e !! Enemy.currentPathIndex e = Some prev →
  Enemy.path e !! S (Enemy.currentPathIndex e) = Some next →
  last (Enemy.path e) = Some goal →
  connected es H goal →
  connected es prev H ∨ connected es next H →
  ∃ e' entry other viaH toGoal n0 n1,
    Enemy.rerouteToNode hypot fuel H e = Ret (e', Enemy.Completed)
    ∧ (entry = prev ∧ other = next ∨ entry = next ∧ other = prev)
    ∧ routeOf es (length (Enemy.nodes e)) other H viaH
    ∧ routeOf es (length (Enemy.nodes e)) H goal toGoal
    ∧ Enemy.path e' = entry :: viaH ++ drop 1 toGoal
    ∧ last (Enemy.path e') = Some goal
    ∧ H ∈ Enemy.path e'
    ∧ linked es (viaH ++ drop 1 toGoal)
    ∧ Enemy.currentPathIndex e' = O
    ∧ Enemy.attractedToNode e' = Some H
    ∧ Enemy.originalPath e' = Some (default (Enemy.path e) (Enemy.originalPath e))
    ∧ Enemy.processedHoneypots e' = Enemy.processedHoneypots e
    ∧ Enemy.nodes e !! entry = Some n0 ∧ Enemy.nodes e !! other = Some n1
    ∧ Enemy.x e' = node_x n0 ∧ Enemy.y e' = node_y n0
    ∧ Enemy.targetX e' = node_x n1 ∧ Enemy.targetY e' = node_y n1.
Proof.
  intros Hh Hes He HH Hpath Hfuel Hnp Hattr Hprev Hnext Hgoal Hc3 Hc12.
  rewrite (reroute_reaches_splice hypot fuel H e prev next goal) by done.
  rewrite Forall_forall in Hpath.
  destruct (splice_completes hypot Hh fuel H (committed H e) es prev next goal)
    as (e' & entry & other & viaH & toGoal & n0 & n1 & Hrun & Hent & Hvia & Hto
        & Hp & Hi & Ha & Ho & Hpr & Hn0 & Hn1 & Hx & Hy & Htx & Hty & _); try done.
  - apply Hpath. by eapply list_elem_of_lookup_2.
  - apply Hpath. by eapply list_elem_of_lookup_2.
  - apply Hpath. apply last_Some in Hgoal as [l' ->]. apply elem_of_app. right. by left.
  - exists e', entry, other, viaH, toGoal, n0, n1.
    destruct Hvia as (Hv1 & Hv2 & Hv3 & Hv4). destruct Hto as (Ht1 & Ht2 & Ht3 & Ht4).
    assert (toGoal = H :: drop 1 toGoal) as HtoGoal.
    { destruct toGoal; [done|]. simpl in Ht1. injection Ht1 as ->. done. }
    split; [done|]. split; [done|]. split; [done|]. split; [done|].
    split; [done|]. split.
    { rewrite Hp. destruct (drop 1 toGoal) as [|z l] eqn:Ed.
      - rewrite app_nil_r. rewrite HtoGoal in Ht2. simpl in Ht2.
        rewrite <- Ht2. destruct viaH; [done|]. done.
      - rewrite HtoGoal in Ht2.
        change (last (H :: z :: l)) with (last (z :: l)) in Ht2.
        rewrite <- Ht2. rewrite app_comm_cons. apply last_app_cons. }
    split.
    { rewrite Hp. right. apply elem_of_app. left.
      apply last_Some in Hv2 as [l' ->]. apply elem_of_app. right. by left. }
    split.
    { eapply linked_app; [done | done |]. by rewrite <- HtoGoal. }
    split; [done|]. split; [done|]. split.
    { rewrite Ho. simpl. by destruct (Enemy.originalPath e). }
    done.
Qed.

Lemma line_connected_01 : connected line_edges 0 1.
Proof. apply rtc_once. left. by left. Qed.

Lemma line_connected_12 : connected line_edges 1 2.
Proof. apply rtc_once. left. right. by left. Qed.

Lemma reroute_passes_attractor_witness :
  ∃ e', Enemy.rerouteToNode manhattan (findPathFuel 4) 1
          (stranded_enemy (Some line_edges)) = Ret (e', Enemy.Completed)
        ∧ 1%nat ∈ Enemy.path e'
        ∧ last (Enemy.path e') = Some 2%nat
        ∧ Enemy.currentPathIndex e' = 0%nat.
Proof.
  destruct (reroute_passes_attractor manhattan (findPathFuel 4) 1
              (stranded_enemy (Some line_edges)) line_edges 0 1 2 manhattan_nonneg)
    as (e' & entry & other & viaH & toGoal & n0 & n1 & Hrun & _ & _ & _ & _
        & Hlast & Hin & _ & Hidx & _).
  - reflexivity.
  - apply line_edges_ok. simpl. lia.
  - simpl. lia.
  - simpl. repeat constructor.
  - apply le_n.
  - apply not_elem_of_empty.
  - by left.
  - reflexivity.
  - reflexivity.
  - reflexivity.
  - apply line_connected_12.
  - left. apply line_connected_01.
  - exists e'. done.
Defined.

(** X7. A re-route followed by [restoreOriginalPath()]. For an agent that
    had no saved path, the path before the re-route comes back and the
    attraction is cleared; the traversal index does not come back: it stays
    at the 0 the re-route set, and the target becomes the second node of the
    restored path. *)
Theorem restore_after_reroute (hypot : Q → Q → Q) (fuel H : nat) (e : Enemy.t)
    (es : list (nat * nat)) (prev next goal : nat) :
  (∀ a b, 0 <= hypot a b) →
  Enemy.edges e = Some es →
  edgesInRange (length (Enemy.nodes e)) es →
  (H < length (Enemy.nodes e))%nat →
  Forall (λ i, (i < length (Enemy.nodes e))%nat) (Enemy.path e) →
  (findPathFuel (length (Enemy.nodes e)) ≤ fuel)%nat →
  H ∉ Enemy.processedHoneypots e →
  Enemy.attractedToNode e = None →
  Enemy.originalPath e = None →
  Enemy.path e !! Enemy.currentPathIndex e = Some prev →
  Enemy.path e !! S (Enemy.currentPathIndex e) = Some next →
  last (Enemy.path e) = Some goal →
  connected es H goal →
  connected es prev H ∨ connected es next H →
  ∃ e' e'' second n1,
    Enemy.rerouteToNode hypot fuel H e = Ret (e', Enemy.Completed)
    ∧ Enemy.restoreOriginalPath e' = Ret e''
    ∧ Enemy.path e'' = Enemy.path e
    ∧ Enemy.attractedToNode e'' = None
    ∧ Enemy.originalPath e'' = None
    ∧ Enemy.processedHoneypots e'' = Enemy.processedHoneypots e
    ∧ Enemy.currentPathIndex e'' = O
    ∧ Enemy.path e !! 1%nat = Some second
    ∧ Enemy.nodes e !! second = Some n1
    ∧ Enemy.targetX e'' = node_x n1 ∧ Enemy.targetY e'' = node_y n1.
Proof.
  intros Hh Hes He HH Hpath Hfuel Hnp Hattr Horig Hprev Hnext Hgoal Hc3 Hc12.
  rewrite (reroute_reaches_splice hypot fuel H e prev next goal) by (by try left).
  rewrite Forall_forall in Hpath.
  destruct (splice_completes hypot Hh fuel H (committed H e) es prev next goal)
    as (e' & entry & other & viaH & toGoal & n0 & n1 & Hrun & Hent & Hvia & Hto
        & Hp & Hi & Ha & Ho & Hpr & Hn0 & Hn1 & Hx & Hy & Htx & Hty & Hnodes); try done.
  - apply Hpath. by eapply list_elem_of_lookup_2.
  - apply Hpath. by eapply list_elem_of_lookup_2.
  - apply Hpath. apply last_Some in Hgoal as [l' ->]. apply elem_of_app. right. by left.
  - apply lookup_lt_Some in Hnext as Hlen.
    destruct (lookup_lt_is_Some_2 (Enemy.path e) 1) as [second Hsecond]; [lia|].
    assert (second < length (Enemy.nodes e))%nat as Hsr.
    { apply Hpath. by eapply list_elem_of_lookup_2. }
    destruct (lookup_lt_is_Some_2 _ _ Hsr) as [m1 Hm1].
    exists e'. unfold Enemy.restoreOriginalPath. rewrite Ho. unfold committed.
    cbn [Enemy.originalPath Enemy.withRoute]. rewrite Horig.
    cbn [Enemy.currentPathIndex Enemy.path Enemy.withRoute Enemy.nodes].
    rewrite Hi. rewrite bool_decide_eq_true_2 by lia.
    unfold Enemy.nodeAt. rewrite Hsecond. cbn [mbind option_bind].
    rewrite Hnodes. unfold committed. cbn [Enemy.nodes Enemy.withRoute]. rewrite Hm1.
    eexists _, second, m1.
    split; [unfold committed in Hrun; rewrite Horig in Hrun; exact Hrun|].
    split; [reflexivity|]. cbn. rewrite Hpr. done.
Qed.

Lemma restore_after_reroute_witness :
  ∃ e' e'', Enemy.rerouteToNode manhattan (findPathFuel 4) 1
              (stranded_enemy (Some line_edges)) = Ret (e', Enemy.Completed)
            ∧ Enemy.restoreOriginalPath e' = Ret e''
            ∧ Enemy.path e'' = [0; 1; 2]%nat
            ∧ Enemy.currentPathIndex e'' = 0%nat.
Proof.
  destruct (restore_after_reroute manhattan (findPathFuel 4) 1
              (stranded_enemy (Some line_edges)) line_edges 0 1 2 manhattan_nonneg)
    as (e' & e'' & second & n1 & Hrun & Hres & Hp & _ & _ & _ & Hidx & _).
  - reflexivity.
  - apply line_edges_ok. simpl. lia.
  - simpl. lia.
  - simpl. repeat constructor.
  - apply le_n.
  - apply not_elem_of_empty.
  - reflexivity.
  - reflexivity.
  - reflexivity.
  - reflexivity.
  - reflexivity.
  - apply line_connected_12.
  - left. apply line_connected_01.
  - exists e', e''. done.
Defined.

(** ** Movement along the path (Enemy.update) *)

(** X8. An agent whose path consists of nodes never leaves it: [update]
    throws nothing, keeps the path, moves the traversal index forward by at
    most one, and keeps it below the length of the path for as long as the
    goal is not reached; [reachedGoal] is set exactly when the index arrives
    at the length of the path. Visited attractors are never forgotten. *)
Theorem update_stays_on_path (sqrt : Q → Q) (deltaTime : Q) (e : Enemy.t) :
  Forall (λ i, (i < length (Enemy.nodes e))%nat) (Enemy.path e) →
  (Enemy.reachedGoal e = false →
   (Enemy.currentPathIndex e < length (Enemy.path e))%nat) →
  ∃ e', Enemy.update sqrt deltaTime e = Ret e'
        ∧ Enemy.path e' = Enemy.path e
        ∧ Enemy.nodes e' = Enemy.nodes e
        ∧ (Enemy.currentPathIndex e ≤ Enemy.currentPathIndex e'
           ≤ S (Enemy.currentPathIndex e))%nat
        ∧ (Enemy.reachedGoal e' = false →
           (Enemy.currentPathIndex e' < length (Enemy.path e'))%nat)
        ∧ (Enemy.reachedGoal e = false → Enemy.reachedGoal e' = true →
           Enemy.currentPathIndex e' = length (Enemy.path e))
        ∧ Enemy.processedHoneypots e ⊆ Enemy.processedHoneypots e'.
Proof.
  intros Hpath Hidx. rewrite Forall_forall in Hpath. unfold Enemy.update.
  destruct (negb (Enemy.alive e) || Enemy.reachedGoal e) eqn:Edead.
  { exists e. split; [done|]. split; [done|]. split; [done|].
    split; [lia|]. split; [done|]. split; [congruence | done]. }
  apply orb_false_iff in Edead as [_ Hrg]. specialize (Hidx Hrg).
  destruct (if Qltb 0 (Enemy.attractionTimer e) then _ else _) as [aTimer sFactor].
  destruct (if Qltb 0 (Enemy.slowTimer e) then _ else _) as [sTimer sFactor'].
  cbn [Enemy.withStatus Enemy.targetX Enemy.targetY Enemy.x Enemy.y Enemy.speed
       Enemy.slowFactor Enemy.currentPathIndex Enemy.path Enemy.nodes].
  destruct (Qltb _ _).
  - case_bool_decide as Hend.
    + eexists. split; [reflexivity|]. cbn.
      split; [done|]. split; [done|]. split; [lia|]. split; [done|].
      split; [|done]. intros _ _. lia.
    + destruct (lookup_lt_is_Some_2 (Enemy.path e) (S (Enemy.currentPathIndex e)))
        as [id Hid]; [lia|].
      destruct (lookup_lt_is_Some_2 (Enemy.nodes e) id) as [node Hnode].
      { apply Hpath. by eapply list_elem_of_lookup_2. }
      assert (Enemy.nodeAt (Enemy.nodes e) (Enemy.path e) (S (Enemy.currentPathIndex e))
              = Some node) as ->.
      { unfold Enemy.nodeAt. rewrite Hid. exact Hnode. }
      cbn [orThrow mbind outcome_bind].
      match goal with
      | |- context [if bool_decide ?P then Enemy.withRoute ?a ?b ?c ?d ?f ?g else ?h] =>
          set (e3 := if bool_decide P then Enemy.withRoute a b c d f g else h)
      end.
      assert (Enemy.path e3 = Enemy.path e ∧ Enemy.nodes e3 = Enemy.nodes e
              ∧ Enemy.currentPathIndex e3 = S (Enemy.currentPathIndex e)
              ∧ Enemy.reachedGoal e3 = false
              ∧ Enemy.processedHoneypots e ⊆ Enemy.processedHoneypots e3)
        as (Hp3 & Hn3 & Hi3 & Hr3 & Hs3).
      { unfold e3. case_bool_decide; cbn; repeat split; try done. set_solver. }
      rewrite Hp3. case_bool_decide as Hmore.
      * destruct (lookup_lt_is_Some_2 (Enemy.path e) (S (S (Enemy.currentPathIndex e))))
          as [id2 Hid2]; [lia|].
        destruct (lookup_lt_is_Some_2 (Enemy.nodes e) id2) as [node2 Hnode2].
        { apply Hpath. by eapply list_elem_of_lookup_2. }
        assert (Enemy.nodeAt (Enemy.nodes e3) (Enemy.path e)
                  (S (S (Enemy.currentPathIndex e))) = Some node2) as ->.
        { unfold Enemy.nodeAt. rewrite Hid2, Hn3. exact Hnode2. }
        cbn [orThrow mbind outcome_bind].
        eexists. split; [reflexivity|]. cbn. rewrite ?Hp3, ?Hn3.
        split; [done|]. split; [done|]. split; [lia|]. split; [intros _; lia|].
        split; [done | done].
      * exists e3. split; [reflexivity|]. rewrite Hp3, Hn3, Hi3, Hr3.
        split; [done|]. split; [done|]. split; [lia|]. split; [intros _; lia|].
        split; [done | done].
  - eexists. split; [reflexivity|]. cbn.
    split; [done|]. split; [done|]. split; [lia|]. split; [done|].
    split; [done | done].
Qed.

Lemma update_stays_on_path_witness :
  ∃ e', Enemy.update (λ q, q) 16 (stranded_enemy None) = Ret e'
        ∧ (Enemy.currentPathIndex e' ≤ 1)%nat.
Proof.
  destruct (update_stays_on_path (λ q, q) 16 (stranded_enemy None))
    as (e' & Hrun & _ & _ & Hidx & _).
  - simpl. repeat constructor.
  - intros _. simpl. lia.
  - exists e'. split; [exact Hrun|]. simpl in Hidx. lia.
Defined.

(** X9. The slow effect only lasts while the agent is attracted. For a
    moving agent whose attraction timer is not running, [update] resets the
    slow factor to 1 before it moves: whatever [applySlow] had set, the
    arrival test and the step use the full speed, and the factor is 1
    afterwards. *)
Theorem update_discards_slow (sqrt : Q → Q) (deltaTime : Q) (e e' : Enemy.t) :
  Enemy.alive e = true → Enemy.reachedGoal e = false →
  Enemy.attractionTimer e <= 0 →
  Enemy.update sqrt deltaTime e = Ret e' →
  let dx := Enemy.targetX e - Enemy.x e in
  let dy := Enemy.targetY e - Enemy.y e in
  let distance := sqrt (dx * dx + dy * dy) in
  let fullSpeed := Enemy.speed e * 1 * (deltaTime / 16) in
  Enemy.slowFactor e' = 1
  ∧ (Qltb distance fullSpeed = false →
     Enemy.x e' = Enemy.x e + dx / distance * fullSpeed
     ∧ Enemy.y e' = Enemy.y e + dy / distance * fullSpeed
     ∧ Enemy.currentPathIndex e' = Enemy.currentPathIndex e)
  ∧ (Qltb distance fullSpeed = true →
     Enemy.currentPathIndex e' = S (Enemy.currentPathIndex e)).
Proof.
  intros Halive Hrg Hattr Hrun dx dy distance fullSpeed.
  unfold Enemy.update in Hrun. rewrite Halive, Hrg in Hrun. cbn [negb orb] in Hrun.
  rewrite (proj2 (Qltb_ge 0 (Enemy.attractionTimer e)) Hattr) in Hrun.
  assert (∃ sTimer,
    (if Qltb 0 (Enemy.slowTimer e)
     then (Enemy.slowTimer e - deltaTime,
           if Qle_bool (Enemy.slowTimer e - deltaTime) 0 then 1 else 1)
     else (Enemy.slowTimer e, 1)) = (sTimer, 1)) as [sTimer Hst].
  { destruct (Qltb 0 (Enemy.slowTimer e)); [|by eexists].
    destruct (Qle_bool _ 0); by eexists. }
  rewrite Hst in Hrun.
  cbn [Enemy.withStatus Enemy.targetX Enemy.targetY Enemy.x Enemy.y Enemy.speed
       Enemy.slowFactor Enemy.currentPathIndex Enemy.path Enemy.nodes] in Hrun.
  fold dx dy in Hrun. fold distance in Hrun. fold fullSpeed in Hrun.
  destruct (Qltb distance fullSpeed) eqn:Earr.
  - split; [|split; [done|intros _]].
    + case_bool_decide; [by injection Hrun as <-|].
      destruct (Enemy.nodeAt _ _ _) as [node|]; [|done].
      cbn [orThrow mbind outcome_bind] in Hrun.
      match type of Hrun with
      | context [if bool_decide ?P then Enemy.withRoute ?a ?b ?c ?d ?f ?g else ?h] =>
          set (e3 := if bool_decide P then Enemy.withRoute a b c d f g else h) in Hrun;
          assert (Enemy.slowFactor e3 = 1) as He3
            by (unfold e3; destruct (bool_decide _); reflexivity)
      end.
      case_bool_decide.
      * destruct (Enemy.nodeAt _ _ _) as [node2|]; [|done].
        injection Hrun as <-. exact He3.
      * by injection Hrun as <-.
    + case_bool_decide; [by injection Hrun as <-|].
      destruct (Enemy.nodeAt _ _ _) as [node|]; [|done].
      cbn [orThrow mbind outcome_bind] in Hrun.
      match type of Hrun with
      | context [if bool_decide ?P then Enemy.withRoute ?a ?b ?c ?d ?f ?g else ?h] =>
          set (e3 := if bool_decide P then Enemy.withRoute a b c d f g else h) in Hrun;
          assert (Enemy.currentPathIndex e3 = S (Enemy.currentPathIndex e)) as He3
            by (unfold e3; destruct (bool_decide _); reflexivity)
      end.
      case_bool_decide.
      * destruct (Enemy.nodeAt _ _ _) as [node2|]; [|done].
        by injection Hrun as <-.
      * by injection Hrun as <-.
  - injection Hrun as <-. split; [done|]. split; [done|]. done.
Qed.

(** The agent of the samples, slowed to a fifth of its speed. *)
Definition slowed_enemy : Enemy.t :=
  Enemy.applySlow (2 # 10) 1000 (stranded_enemy None).

Lemma update_discards_slow_witness :
  Enemy.slowFactor slowed_enemy == 2 # 10
  ∧ ∃ e', Enemy.update (λ q, q) 16 slowed_enemy = Ret e' ∧ Enemy.slowFactor e' = 1.
Proof.
  split; [reflexivity|]. eexists. split; [reflexivity|].
  eapply (update_discards_slow (λ q, q) 16 slowed_enemy).
  - reflexivity.
  - reflexivity.
  - discriminate.
  - reflexivity.
Defined.

(** ** Tower.js: targeting *)

Module TowerTargeting.

(** The enemies a tower may shoot at: alive, and not hidden from it
    ([if (enemy.config.stealthy && !enemy.revealed) { if (this.type !== 'IDS')
    continue; }]). *)
Definition visibleTo (tower : Tower.t) (enemy : Enemy.t) : bool :=
  negb (Config.ec_stealthy (Enemy.config enemy) && negb (Enemy.revealed enemy)
        && negb (bool_decide (Tower.type tower = "IDS"))).

(** The body of [for (const enemy of enemies)] in [findTarget]; the
    candidate is kept as its index in [enemies]. *)
Definition targetStep (hypot : Q → Q → Q) (tower : Tower.t) (acc : option nat * num)
    (ie : nat * Enemy.t) : option nat * num :=
  let enemy := ie.2 in
  if negb (Enemy.isAlive enemy) then acc
  else if negb (visibleTo tower enemy) then acc
  else
    let distance := Graphics.distance hypot (Tower.x tower) (Tower.y tower)
                      (Enemy.x enemy) (Enemy.y enemy) in
    if Qle_bool distance (Tower.range tower) && num_lt (Fin distance) acc.2
    then (Some ie.1, Fin distance)
    else acc.

(** [findTarget(enemies)]: [None] is [null]. *)
Definition findTarget (hypot : Q → Q → Q) (tower : Tower.t) (enemies : list Enemy.t)
  : option nat :=
  (foldl (targetStep hypot tower) (None, Inf) (imap pair enemies)).1.

(** [getDamageForEnemy(enemy)] *)
Definition getDamageForEnemy (tower : Tower.t) (enemy : Enemy.t) : Q :=
  if decide (Tower.type tower = "Firewall") then
    if Config.ec_stealthy (Enemy.config enemy) then 0 else Tower.damage tower
  else if decide (Tower.type tower = "IDS") then
    if Config.ec_stealthy (Enemy.config enemy) then 10 else 2
  else Tower.damage tower.

(** The body of the loop of [findNearestNode(nodes)]. *)
Definition nearestStep (hypot : Q → Q → Q) (tower : Tower.t) (acc : option nat * num)
    (inode : nat * Node) : option nat * num :=
  let distance := Graphics.distance hypot (Tower.x tower) (Tower.y tower)
                    (node_x inode.2) (node_y inode.2) in
  if num_lt (Fin distance) acc.2 then (Some inode.1, Fin distance) else acc.

(** [findNearestNode(nodes)] *)
Definition findNearestNode (hypot : Q → Q → Q) (tower : Tower.t) (nodes : list Node)
  : option nat :=
  (foldl (nearestStep hypot tower) (None, Inf) (imap pair nodes)).1.

End TowerTargeting.

(** A scan that keeps the first of the lowest scores among the eligible
    entries of a list. *)
Section FirstLowest.
Context {A : Type}.
Variable score : A → Q.
Variable eligible : A → bool.

Definition lowestEligible (acc : option nat * num) (ix : nat * A) : option nat * num :=
  if eligible ix.2 && num_lt (Fin (score ix.2)) acc.2
  then (Some ix.1, Fin (score ix.2)) else acc.

Lemma lowestEligible_spec (l : list A) :
  let r := foldl lowestEligible (None, Inf) (imap pair l) in
  (r.1 = None → r.2 = Inf ∧ ∀ x, x ∈ l → eligible x = false)
  ∧ (∀ i, r.1 = Some i →
          ∃ x, l !! i = Some x ∧ eligible x = true ∧ r.2 = Fin (score x)
               ∧ ∀ j y, l !! j = Some y → eligible y = true →
                        score x <= score y ∧ ((j < i)%nat → score x < score y)).
Proof.
  induction l as [|z l IH] using rev_ind.
  - simpl. split; [|done]. intros _. split; [done|].
    intros x Hx. by apply elem_of_nil in Hx.
  - rewrite imap_app, foldl_app. simpl. rewrite Nat.add_0_r.
    set (r := foldl lowestEligible (None, Inf) (imap pair l)) in *.
    destruct IH as [IHn IHs].
    assert (lowestEligible r (length l, z)
            = if eligible z && num_lt (Fin (score z)) r.2
              then (Some (length l), Fin (score z)) else r) as -> by done.
    destruct (eligible z) eqn:Ez; cbn [andb].
    + destruct (num_lt (Fin (score z)) r.2) eqn:Elt; cbn [fst snd].
      * split; [done|]. intros i Hi. injection Hi as <-. exists z.
        split; [by rewrite lookup_app_r, Nat.sub_diag by lia|].
        split; [done|]. split; [done|]. intros j y Hj Hy.
        destruct (decide (j < length l)%nat) as [Hlt|Hge].
        -- rewrite lookup_app_l in Hj by done.
           destruct r.1 as [i0|] eqn:Er.
           ++ destruct (IHs i0 eq_refl) as (x0 & Hx0 & _ & Hr2 & Hmin).
              rewrite Hr2 in Elt. simpl in Elt. apply Qltb_lt in Elt.
              destruct (Hmin j y Hj Hy) as [Hle _]. split; [lra|]. intros _. lra.
           ++ destruct (IHn eq_refl) as [_ Hnone].
              rewrite Hnone in Hy; [done|]. by eapply list_elem_of_lookup_2.
        -- assert (j = length l) as ->.
           { apply lookup_lt_Some in Hj. rewrite length_app in Hj. simpl in Hj. lia. }
           rewrite lookup_app_r, Nat.sub_diag in Hj by lia. injection Hj as <-.
           split; [lra | lia].
      * split.
        -- intros Hn. destruct (IHn Hn) as [Hinf _]. rewrite Hinf in Elt. done.
        -- intros i Hi. destruct (IHs i Hi) as (x & Hx & Hex & Hr2 & Hmin).
           exists x. split; [by apply lookup_app_l_Some|]. split; [done|].
           split; [done|]. intros j y Hj Hy.
           destruct (decide (j < length l)%nat) as [Hlt|Hge].
           ++ rewrite lookup_app_l in Hj by done. by apply Hmin.
           ++ assert (j = length l) as ->.
              { apply lookup_lt_Some in Hj. rewrite length_app in Hj. simpl in Hj. lia. }
              rewrite lookup_app_r, Nat.sub_diag in Hj by lia. injection Hj as <-.
              rewrite Hr2 in Elt. simpl in Elt. apply Qltb_ge in Elt.
              split; [done|]. intros Hji. apply lookup_lt_Some in Hx. lia.
    + split.
      * intros Hn. destruct (IHn Hn) as [Hinf Hnone]. split; [done|].
        intros x Hx. apply elem_of_app in Hx as [Hx|Hx]; [by apply Hnone|].
        apply list_elem_of_singleton in Hx as ->. done.
      * intros i Hi. destruct (IHs i Hi) as (x & Hx & Hex & Hr2 & Hmin).
        exists x. split; [by apply lookup_app_l_Some|]. split; [done|].
        split; [done|]. intros j y Hj Hy.
        destruct (decide (j < length l)%nat) as [Hlt|Hge].
        -- rewrite lookup_app_l in Hj by done. by apply Hmin.
        -- assert (j = length l) as ->.
           { apply lookup_lt_Some in Hj. rewrite length_app in Hj. simpl in Hj. lia. }
           rewrite lookup_app_r, Nat.sub_diag in Hj by lia. injection Hj as <-.
           congruence.
Qed.

End FirstLowest.

Lemma foldl_pointwise {A B : Type} (f g : A → B → A) (l : list B) (a : A) :
  (∀ a x, f a x = g a x) → foldl f a l = foldl g a l.
Proof.
  intros H. revert a. induction l as [|x l IH]; intros a; [done|].
  simpl. by rewrite H, IH.
Qed.

(** X10. [findTarget] picks the nearest enemy the tower may shoot at: the
    enemy it returns is alive, not hidden from the tower (an unrevealed
    stealthy enemy is hidden from every tower but the IDS), within range,
    and no other such enemy is nearer; of equally near ones it is the first
    in the list. It returns [null] exactly when there is no such enemy. A
    Firewall that does target a stealthy enemy deals it no damage. *)
Theorem findTarget_nearest (hypot : Q → Q → Q) (tower : Tower.t)
    (enemies : list Enemy.t) :
  let dist := λ en, Graphics.distance hypot (Tower.x tower) (Tower.y tower)
                      (Enemy.x en) (Enemy.y en) in
  let eligible := λ en, Enemy.isAlive en = true
                        ∧ TowerTargeting.visibleTo tower en = true
                        ∧ dist en <= Tower.range tower in
  (TowerTargeting.findTarget hypot tower enemies = None
   ↔ ∀ en, en ∈ enemies → ¬ eligible en)
  ∧ (∀ i, TowerTargeting.findTarget hypot tower enemies = Some i →
          ∃ en, enemies !! i = Some en ∧ eligible en
                ∧ ∀ j en', enemies !! j = Some en' → eligible en' →
                           dist en <= dist en' ∧ ((j < i)%nat → dist en < dist en'))
  ∧ (∀ en, Tower.type tower = "Firewall" →
           Config.ec_stealthy (Enemy.config en) = true →
           (TowerTargeting.visibleTo tower en = true → Enemy.revealed en = true)
           ∧ TowerTargeting.getDamageForEnemy tower en = 0).
Proof.
  intros dist eligible.
  set (elig := λ en, Enemy.isAlive en && TowerTargeting.visibleTo tower en
                     && Qle_bool (dist en) (Tower.range tower)).
  assert (∀ en, elig en = true ↔ eligible en) as Helig.
  { intros en. unfold elig, eligible. rewrite !andb_true_iff, Qle_bool_iff. tauto. }
  assert (TowerTargeting.findTarget hypot tower enemies
          = (foldl (lowestEligible dist elig) (None, Inf) (imap pair enemies)).1) as Hfold.
  { unfold TowerTargeting.findTarget. f_equal. apply foldl_pointwise.
    intros acc [i en]. unfold TowerTargeting.targetStep, lowestEligible, elig. simpl.
    fold (dist en).
    destruct (Enemy.isAlive en); [|done].
    destruct (TowerTargeting.visibleTo tower en); done. }
  destruct (lowestEligible_spec dist elig enemies) as [Hnone Hsome].
  rewrite Hfold. split; [|split].
  - split.
    + intros Hn en Hen Hel. destruct (Hnone Hn) as [_ H].
      apply Helig in Hel. rewrite (H en Hen) in Hel. done.
    + intros Hall.
      destruct ((foldl (lowestEligible dist elig) (None, Inf) (imap pair enemies)).1)
        as [i|] eqn:Er; [|done].
      destruct (Hsome i eq_refl) as (en & Hen & Hel & _). exfalso.
      apply (Hall en); [by eapply list_elem_of_lookup_2 | by apply Helig].
  - intros i Hi. destruct (Hsome i Hi) as (en & Hen & Hel & _ & Hmin).
    exists en. split; [done|]. split; [by apply Helig|].
    intros j en' Hj Hel'. apply (Hmin j en' Hj). by apply Helig.
  - intros en Hfw Hst. split.
    + unfold TowerTargeting.visibleTo. rewrite Hst, Hfw.
      rewrite bool_decide_eq_false_2 by done. by destruct (Enemy.revealed en).
    + unfold TowerTargeting.getDamageForEnemy. rewrite decide_True by done.
      by rewrite Hst.
Qed.

(** X11. [findNearestNode] returns [null] only for an empty node list;
    otherwise it returns the index of a node at the least distance from the
    tower, the first one of those. *)
Theorem findNearestNode_nearest (hypot : Q → Q → Q) (tower : Tower.t)
    (nodes : list Node) :
  let dist := λ node, Graphics.distance hypot (Tower.x tower) (Tower.y tower)
                        (node_x node) (node_y node) in
  (TowerTargeting.findNearestNode hypot tower nodes = None ↔ nodes = [])
  ∧ (∀ i, TowerTargeting.findNearestNode hypot tower nodes = Some i →
          ∃ node, nodes !! i = Some node
                  ∧ ∀ j node', nodes !! j = Some node' →
                               dist node <= dist node'
                               ∧ ((j < i)%nat → dist node < dist node')).
Proof.
  intros dist.
  assert (TowerTargeting.findNearestNode hypot tower nodes
          = (foldl (lowestEligible dist (λ _, true)) (None, Inf) (imap pair nodes)).1)
    as Hfold.
  { reflexivity. }
  destruct (lowestEligible_spec dist (λ _, true) nodes) as [Hnone Hsome].
  rewrite Hfold. split.
  - split.
    + intros Hn. destruct (Hnone Hn) as [_ H]. destruct nodes as [|node l]; [done|].
      by specialize (H node ltac:(by left)).
    + intros ->. done.
  - intros i Hi. destruct (Hsome i Hi) as (node & Hnode & _ & _ & Hmin).
    exists node. split; [done|]. intros j node' Hj. by apply (Hmin j node' Hj).
Qed.

(** ** LevelManager.js: money, core health and the end of a level *)

Module LevelManager.

(** The fields the methods below read and write; [waves], [totalPackets]
    and [successThreshold] are those of [this.level], [None] when the level
    does not define them (a comparison with [undefined] is false). *)
Record t : Type := mkLevelManager {
  mode : string;
  waves : option nat;
  totalPackets : option nat;
  successThreshold : option Q;
  money : Q;
  credits : Q;
  coreHealth : Q;
  score : Q;
  wave : nat;
  packetsSpawned : nat;
  packetsBlocked : nat;
  packetsLeaked : nat;
  levelComplete : bool;
  levelFailed : bool
}.

Definition withAccounts (lm : t) (money' credits' : Q) : t :=
  {| mode := mode lm; waves := waves lm; totalPackets := totalPackets lm;
     successThreshold := successThreshold lm; money := money'; credits := credits';
     coreHealth := coreHealth lm; score := score lm; wave := wave lm;
     packetsSpawned := packetsSpawned lm; packetsBlocked := packetsBlocked lm;
     packetsLeaked := packetsLeaked lm; levelComplete := levelComplete lm;
     levelFailed := levelFailed lm |}.

Definition withCore (lm : t) (health : Q) (failed : bool) : t :=
  {| mode := mode lm; waves := waves lm; totalPackets := totalPackets lm;
     successThreshold := successThreshold lm; money := money lm; credits := credits lm;
     coreHealth := health; score := score lm; wave := wave lm;
     packetsSpawned := packetsSpawned lm; packetsBlocked := packetsBlocked lm;
     packetsLeaked := packetsLeaked lm; levelComplete := levelComplete lm;
     levelFailed := failed |}.

Definition withCounts (lm : t) (score' : Q) (blocked leaked : nat) : t :=
  {| mode := mode lm; waves := waves lm; totalPackets := totalPackets lm;
     successThreshold := successThreshold lm; money := money lm; credits := credits lm;
     coreHealth := coreHealth lm; score := score'; wave := wave lm;
     packetsSpawned := packetsSpawned lm; packetsBlocked := blocked;
     packetsLeaked := leaked; levelComplete := levelComplete lm;
     levelFailed := levelFailed lm |}.

Definition withStatus (lm : t) (complete failed : bool) : t :=
  {| mode := mode lm; waves := waves lm; totalPackets := totalPackets lm;
     successThreshold := successThreshold lm; money := money lm; credits := credits lm;
     coreHealth := coreHealth lm; score := score lm; wave := wave lm;
     packetsSpawned := packetsSpawned lm; packetsBlocked := packetsBlocked lm;
     packetsLeaked := packetsLeaked lm; levelComplete := complete;
     levelFailed := failed |}.

(** [addMoney(amount)] *)
Definition addMoney (amount : Q) (lm : t) : t :=
  if decide (mode lm = "ECONOMIC_ENDLESS")
  then withAccounts lm (money lm) (credits lm + amount)
  else withAccounts lm (money lm + amount) (credits lm).

(** [spendMoney(amount)] *)
Definition spendMoney (amount : Q) (lm : t) : t * bool :=
  if decide (mode lm = "ECONOMIC_ENDLESS") then
    if Qle_bool amount (credits lm)
    then (withAccounts lm (money lm) (credits lm - amount), true)
    else (lm, false)
  else
    if Qle_bool amount (money lm)
    then (withAccounts lm (money lm - amount) (credits lm), true)
    else (lm, false).

(** [getMoney()] *)
Definition getMoney (lm : t) : Q :=
  if decide (mode lm = "ECONOMIC_ENDLESS") then credits lm else money lm.

(** [takeDamage(amount)] *)
Definition takeDamage (amount : Q) (lm : t) : t :=
  let health := coreHealth lm - amount in
  if Qle_bool health 0 then withCore lm 0 true
  else withCore lm health (levelFailed lm).

(** [enemyDestroyed(enemy)], with [enemy.getReward()] as [reward]. *)
Definition enemyDestroyed (reward : Q) (lm : t) : t :=
  addMoney reward
    (withCounts lm (score lm + reward) (S (packetsBlocked lm)) (packetsLeaked lm)).

(** [enemyReachedGoal(enemy)], with [enemy.config.legitimate]. *)
Definition enemyReachedGoal (legitimate : bool) (lm : t) : t :=
  if legitimate then lm
  else takeDamage 10
         (withCounts lm (score lm) (packetsBlocked lm) (S (packetsLeaked lm))).

(** [calculateSuccessRate()] *)
Definition calculateSuccessRate (lm : t) : Q :=
  let total := (packetsBlocked lm + packetsLeaked lm)%nat in
  if decide (total = O) then 0 else ofNat (packetsBlocked lm) / ofNat total * 100.

(** [checkWinCondition()] *)
Definition checkWinCondition (lm : t) : t :=
  if levelComplete lm || levelFailed lm then lm
  else if decide (mode lm = "ENDLESS") then
    match waves lm with
    | Some n => if bool_decide (n ≤ wave lm)%nat
                then withStatus lm true (levelFailed lm) else lm
    | None => lm
    end
  else if decide (mode lm = "NORMAL") then
    match totalPackets lm with
    | Some n =>
        if bool_decide (n ≤ packetsSpawned lm)%nat then
          if match successThreshold lm with
             | Some th => Qle_bool th (calculateSuccessRate lm)
             | None => false
             end
          then withStatus lm true (levelFailed lm)
          else if Qle_bool (coreHealth lm) 0
               then withStatus lm (levelComplete lm) true
               else lm
        else lm
    | None => lm
    end
  else lm.

(** [getDefenseRating()] *)
Definition getDefenseRating (lm : t) : nat :=
  if Qltb 0 (coreHealth lm) then 3%nat
  else
    let successRate := calculateSuccessRate lm in
    if Qle_bool 85 successRate then 3%nat
    else if Qle_bool 70 successRate then 2%nat
    else if Qle_bool 55 successRate then 1%nat
    else O.

(** What happens to the enemies of a level, one at a time. *)
Inductive event : Type :=
  | Destroyed (reward : Q)
  | ReachedGoal (legitimate : bool)
  | Damage (amount : Q)
  | Check.

Definition handle (lm : t) (ev : event) : t :=
  match ev with
  | Destroyed reward => enemyDestroyed reward lm
  | ReachedGoal legitimate => enemyReachedGoal legitimate lm
  | Damage amount => takeDamage amount lm
  | Check => checkWinCondition lm
  end.

End LevelManager.

(** X12. [spendMoney] never overdraws. It succeeds exactly when the balance
    of the mode's account covers the amount; then that balance goes down by
    the amount and the other account is untouched; when it fails nothing
    changes. A balance that is not negative stays so under amounts that are
    not negative, and [spendMoney(a)] undoes [addMoney(a)]. *)
Theorem spendMoney_never_overdraws (amount : Q) (lm : LevelManager.t) :
  let r := LevelManager.spendMoney amount lm in
  (r.2 = true ↔ amount <= LevelManager.getMoney lm)
  ∧ (r.2 = true →
     LevelManager.getMoney r.1 == LevelManager.getMoney lm - amount
     ∧ (LevelManager.mode lm = "ECONOMIC_ENDLESS" →
        LevelManager.money r.1 = LevelManager.money lm)
     ∧ (LevelManager.mode lm ≠ "ECONOMIC_ENDLESS" →
        LevelManager.credits r.1 = LevelManager.credits lm))
  ∧ (r.2 = false → r.1 = lm)
  ∧ (0 <= amount → 0 <= LevelManager.getMoney lm → 0 <= LevelManager.getMoney r.1)
  ∧ (0 <= LevelManager.getMoney lm →
     let back := LevelManager.spendMoney amount (LevelManager.addMoney amount lm) in
     back.2 = true ∧ LevelManager.getMoney back.1 == LevelManager.getMoney lm
     ∧ LevelManager.money back.1 == LevelManager.money lm
     ∧ LevelManager.credits back.1 == LevelManager.credits lm).
Proof.
  assert (∀ b : Q, 0 <= b → Qle_bool amount (b + amount) = true) as Hcover.
  { intros b Hb. apply Qle_bool_iff. lra. }
  unfold LevelManager.spendMoney, LevelManager.getMoney, LevelManager.addMoney.
  destruct (decide (LevelManager.mode lm = "ECONOMIC_ENDLESS")) as [Hm|Hm].
  - cbn [LevelManager.mode LevelManager.credits LevelManager.money
         LevelManager.withAccounts].
    rewrite ?decide_True by done.
    destruct (Qle_bool amount (LevelManager.credits lm)) eqn:E;
      cbn [fst snd LevelManager.mode LevelManager.credits LevelManager.money
           LevelManager.withAccounts]; rewrite ?decide_True by done.
    + apply Qle_bool_iff in E. split; [done|]. split; [intros _; split; [lra | done]|].
      split; [done|]. split; [intros; lra|]. intros H0. rewrite Hcover by done.
      cbn [fst snd LevelManager.mode LevelManager.credits LevelManager.money
           LevelManager.withAccounts]. rewrite ?decide_True by done.
      repeat split; lra.
    + apply Qle_bool_gt in E. split; [split; [done | intros; lra]|].
      split; [done|]. split; [done|]. split; [intros; lra|]. intros H0.
      rewrite Hcover by done.
      cbn [fst snd LevelManager.mode LevelManager.credits LevelManager.money
           LevelManager.withAccounts]. rewrite ?decide_True by done.
      repeat split; lra.
  - cbn [LevelManager.mode LevelManager.credits LevelManager.money
         LevelManager.withAccounts].
    rewrite ?decide_False by done.
    destruct (Qle_bool amount (LevelManager.money lm)) eqn:E;
      cbn [fst snd LevelManager.mode LevelManager.credits LevelManager.money
           LevelManager.withAccounts]; rewrite ?decide_False by done.
    + apply Qle_bool_iff in E. split; [done|]. split; [intros _; split; [lra | done]|].
      split; [done|]. split; [intros; lra|]. intros H0. rewrite Hcover by done.
      cbn [fst snd LevelManager.mode LevelManager.credits LevelManager.money
           LevelManager.withAccounts]. rewrite ?decide_False by done.
      repeat split; lra.
    + apply Qle_bool_gt in E. split; [split; [done | intros; lra]|].
      split; [done|]. split; [done|]. split; [intros; lra|]. intros H0.
      rewrite Hcover by done.
      cbn [fst snd LevelManager.mode LevelManager.credits LevelManager.money
           LevelManager.withAccounts]. rewrite ?decide_False by done.
      repeat split; lra.
Qed.

(** X13. Core health and the end of a level, over any sequence of enemies
    destroyed, enemies reaching the goal, direct damage and win checks: the
    core health is clamped at 0 by every damage, a level that has failed
    stays failed and cannot become complete afterwards, a completed level
    stays complete (it can still fail), resolved packets are only counted
    up, and in the modes other than 'ENDLESS' and 'NORMAL' none of these
    calls ever completes the level. *)
Theorem level_outcome_invariants (evs : list LevelManager.event) (lm : LevelManager.t) :
  let lm' := foldl LevelManager.handle lm evs in
  (0 <= LevelManager.coreHealth lm → 0 <= LevelManager.coreHealth lm')
  ∧ ((LevelManager.coreHealth lm <= 0 → LevelManager.levelFailed lm = true) →
     LevelManager.coreHealth lm' <= 0 → LevelManager.levelFailed lm' = true)
  ∧ (LevelManager.levelFailed lm = true → LevelManager.levelFailed lm' = true)
  ∧ (LevelManager.levelFailed lm = true → LevelManager.levelComplete lm = false →
     LevelManager.levelComplete lm' = false)
  ∧ (LevelManager.levelComplete lm = true → LevelManager.levelComplete lm' = true)
  ∧ (LevelManager.packetsBlocked lm ≤ LevelManager.packetsBlocked lm')%nat
  ∧ (LevelManager.packetsLeaked lm ≤ LevelManager.packetsLeaked lm')%nat
  ∧ (LevelManager.mode lm ≠ "ENDLESS" → LevelManager.mode lm ≠ "NORMAL" →
     LevelManager.levelComplete lm' = LevelManager.levelComplete lm).
Proof.
  revert lm. induction evs as [|ev evs IH] using rev_ind; intros lm.
  { simpl. repeat split; try done; lia. }
  cbn zeta. rewrite foldl_app. cbn [foldl].
  specialize (IH lm). cbn zeta in IH.
  set (l1 := foldl LevelManager.handle lm evs) in *.
  destruct IH as (I1 & I2 & I3 & I4 & I5 & I6 & I7 & I8).
  assert (LevelManager.mode l1 = LevelManager.mode lm) as Hmode.
  { unfold l1. clear. revert lm. induction evs as [|ev evs IH]; intros lm; [done|].
    simpl. rewrite IH. destruct ev as [r|[]|a|]; simpl; try done.
    - unfold LevelManager.enemyDestroyed, LevelManager.addMoney. simpl.
      by destruct (decide _).
    - unfold LevelManager.enemyReachedGoal, LevelManager.takeDamage. simpl.
      by destruct (Qle_bool _ _).
    - unfold LevelManager.takeDamage. by destruct (Qle_bool _ _).
    - unfold LevelManager.checkWinCondition.
      repeat (first [destruct (_ || _) | destruct (decide _) | destruct (LevelManager.waves _)
                    | destruct (LevelManager.totalPackets _)
                    | destruct (LevelManager.successThreshold _)
                    | destruct (bool_decide _) | destruct (Qle_bool _ _)]; simpl; try done). }
  assert (∀ a l, let l2 := LevelManager.takeDamage a l in
            0 <= LevelManager.coreHealth l2
            ∧ (LevelManager.coreHealth l2 <= 0 → LevelManager.levelFailed l2 = true)
            ∧ (LevelManager.levelFailed l = true → LevelManager.levelFailed l2 = true)
            ∧ LevelManager.levelComplete l2 = LevelManager.levelComplete l
            ∧ LevelManager.packetsBlocked l2 = LevelManager.packetsBlocked l
            ∧ LevelManager.packetsLeaked l2 = LevelManager.packetsLeaked l) as Hdmg.
  { intros a l. unfold LevelManager.takeDamage.
    destruct (Qle_bool (LevelManager.coreHealth l - a) 0) eqn:E; simpl.
    - repeat split; try done; try lra.
    - apply Qle_bool_gt in E. repeat split; try done; try lra; intros; lra. }
  destruct ev as [r|lg|a|]; cbn [LevelManager.handle].
  - unfold LevelManager.enemyDestroyed, LevelManager.addMoney.
    destruct (decide _); simpl; repeat split; auto; lia.
  - unfold LevelManager.enemyReachedGoal. destruct lg.
    + repeat split; auto.
    + match goal with |- context [LevelManager.takeDamage 10 ?l] =>
        destruct (Hdmg 10 l) as (D1 & D2 & D3 & D4 & D5 & D6) end.
      simpl in D3, D4, D5, D6. rewrite D4, D5, D6.
      repeat split; auto; try lia.
  - destruct (Hdmg a l1) as (D1 & D2 & D3 & D4 & D5 & D6).
    rewrite D4, D5, D6. repeat split; auto.
  - unfold LevelManager.checkWinCondition.
    destruct (LevelManager.levelComplete l1 || LevelManager.levelFailed l1) eqn:Eend.
    { repeat split; auto. }
    apply orb_false_iff in Eend as [Ec Ef].
    assert (LevelManager.levelFailed lm = false) as Hf0.
    { destruct (LevelManager.levelFailed lm); [|done]. rewrite I3 in Ef; done. }
    rewrite Hmode.
    destruct (decide (LevelManager.mode lm = "ENDLESS")) as [Hme|Hme].
    { destruct (LevelManager.waves l1); [|repeat split; auto].
      destruct (bool_decide _); simpl; repeat split; auto; congruence. }
    destruct (decide (LevelManager.mode lm = "NORMAL")) as [Hmn|Hmn];
      [|repeat split; auto].
    destruct (LevelManager.totalPackets l1); [|repeat split; auto].
    destruct (bool_decide _); [|repeat split; auto].
    destruct (match LevelManager.successThreshold l1 with Some _ => _ | None => _ end);
      simpl; [repeat split; auto; congruence|].
    destruct (Qle_bool (LevelManager.coreHealth l1) 0) eqn:Eh; simpl.
    + repeat split; auto; congruence.
    + repeat split; auto.
Qed.

(** ** LevelManager.js: the paths enemies are spawned on *)

Module LevelPaths.

(** [calculatePaths()]: a path per source and goal, kept when it is not
    empty. [rnds k] is the stream of [Math.random] samples of the [k]-th
    call of [findPath]. *)
Definition pairsOf (sources goals : list nat) : list (nat * nat) :=
  sources ≫= λ s, (λ g, (s, g)) <$> goals.

Definition addPath (hypot : Q → Q → Q) (fuel : nat) (rnds : nat → nat → Q)
    (nodes : list Node) (edges : list (nat * nat))
    (acc : outcome (list (list nat))) (kp : nat * (nat * nat))
  : outcome (list (list nat)) :=
  paths ← acc;
  path ← Pathfinding.findPath hypot fuel (rnds kp.1) nodes edges kp.2.1 kp.2.2 true;
  Ret (if bool_decide (0 < length path)%nat then paths ++ [path] else paths).

Definition calculatePaths (hypot : Q → Q → Q) (fuel : nat) (rnds : nat → nat → Q)
    (nodes : list Node) (edges : list (nat * nat)) (sources goals : list nat)
  : outcome (list (list nat)) :=
  foldl (addPath hypot fuel rnds nodes edges) (Ret []) (imap pair (pairsOf sources goals)).

(** [getRandomPath()] with the sample [r] of [Math.random]; [None] is
    [null] (or the [undefined] of an index past the end). *)
Definition getRandomPath (r : Q) (paths : list (list nat)) : option (list nat) :=
  if decide (length paths = O) then None
  else paths !! Z.to_nat (Qfloor (r * ofNat (length paths))).

End LevelPaths.

Section SpawnPaths.
Import LevelPaths.

Variable hypot : Q → Q → Q.
Variable fuel : nat.
Variable rnds : nat → nat → Q.
Variable nodes : list Node.
Variable edges : list (nat * nat).

Lemma calculatePaths_fold (pairs : list (nat * nat)) :
  (∀ k s g, pairs !! k = Some (s, g) →
            ∃ p, Pathfinding.findPath hypot fuel (rnds k) nodes edges s g true = Ret p) →
  ∃ paths,
    foldl (addPath hypot fuel rnds nodes edges) (Ret []) (imap pair pairs) = Ret paths
    ∧ ∀ p, p ∈ paths ↔
           ∃ k s g, pairs !! k = Some (s, g)
                    ∧ Pathfinding.findPath hypot fuel (rnds k) nodes edges s g true = Ret p
                    ∧ p ≠ [].
Proof.
  induction pairs as [|[s g] pairs IH] using rev_ind; intros Hall.
  - exists []. split; [done|]. intros p. split.
    + intros Hp. by apply elem_of_nil in Hp.
    + intros (k & s & g & Hk & _). by rewrite lookup_nil in Hk.
  - destruct IH as (paths & Hfold & Hspec).
    { intros k s' g' Hk. apply (Hall k). by apply lookup_app_l_Some. }
    rewrite imap_app, foldl_app, Hfold. simpl. rewrite Nat.add_0_r.
    destruct (Hall (length pairs) s g) as [path Hpath].
    { by rewrite lookup_app_r, Nat.sub_diag by lia. }
    unfold addPath. simpl. rewrite Hpath. simpl.
    eexists. split; [done|]. intros p.
    assert (∀ k s' g', (pairs ++ [(s, g)]) !! k = Some (s', g')
                       ↔ pairs !! k = Some (s', g')
                         ∨ (k = length pairs ∧ s' = s ∧ g' = g)) as Hlook.
    { intros k s' g'. destruct (decide (k < length pairs)%nat) as [Hlt|Hge].
      - rewrite lookup_app_l by done. split; [by left|].
        intros [? | [-> _]]; [done | lia].
      - rewrite lookup_app_r by lia. split.
        + intros Hk. right. destruct (k - length pairs)%nat as [|m] eqn:Em; [|done].
          simpl in Hk. injection Hk as <- <-. split; [lia | done].
        + intros [Hk | (-> & -> & ->)].
          * apply lookup_lt_Some in Hk. lia.
          * by rewrite Nat.sub_diag. }
    case_bool_decide as Hlen.
    + rewrite elem_of_app, Hspec, list_elem_of_singleton. split.
      * intros [(k & s' & g' & Hk & Hf & Hne) | ->].
        -- exists k, s', g'. split; [apply Hlook; by left | done].
        -- exists (length pairs), s, g. split; [apply Hlook; by right|].
           split; [done|]. destruct path; [simpl in Hlen; lia | done].
      * intros (k & s' & g' & Hk & Hf & Hne). apply Hlook in Hk as [Hk | (-> & -> & ->)].
        -- left. by exists k, s', g'.
        -- right. congruence.
    + rewrite Hspec. split.
      * intros (k & s' & g' & Hk & Hf & Hne).
        exists k, s', g'. split; [apply Hlook; by left | done].
      * intros (k & s' & g' & Hk & Hf & Hne). apply Hlook in Hk as [Hk | (-> & -> & ->)].
        -- by exists k, s', g'.
        -- rewrite Hpath in Hf. injection Hf as <-. destruct path; [done|]. simpl in Hlen. lia.
Qed.

End SpawnPaths.

Lemma pairsOf_spec (sources goals : list nat) (s g : nat) :
  (s, g) ∈ LevelPaths.pairsOf sources goals ↔ s ∈ sources ∧ g ∈ goals.
Proof.
  unfold LevelPaths.pairsOf. rewrite list_elem_of_bind. split.
  - intros (s' & Hin & Hs). apply list_elem_of_fmap in Hin as (g' & [= -> ->] & Hg). done.
  - intros [Hs Hg]. exists s. split; [|done]. apply list_elem_of_fmap. by exists g.
Qed.

(** X14. The paths of a level can be spawned on. On a topology whose
    edges, sources and goals are nodes, [calculatePaths] throws nothing; the
    paths it keeps are routes from a source to a goal, one for every source
    and goal that a route joins; [getRandomPath] returns one of them when
    there is any; and when no source is also a goal, the [Enemy]
    constructor accepts every one of them (for an enemy type of the
    configuration). *)
Theorem level_paths_spawnable (hypot : Q → Q → Q) (fuel : nat) (rnds : nat → nat → Q)
    (nodes : list Node) (edges : list (nat * nat)) (sources goals : list nat) :
  (∀ a b, 0 <= hypot a b) →
  (∀ k j, 0 <= rnds k j ∧ rnds k j < 1) →
  edgesInRange (length nodes) edges →
  Forall (λ i, (i < length nodes)%nat) sources →
  Forall (λ i, (i < length nodes)%nat) goals →
  (findPathFuel (length nodes) ≤ fuel)%nat →
  ∃ paths,
    LevelPaths.calculatePaths hypot fuel rnds nodes edges sources goals = Ret paths
    ∧ (∀ p, p ∈ paths →
            ∃ s g, s ∈ sources ∧ g ∈ goals
                   ∧ routeOf edges (length nodes) s g p)
    ∧ (∀ s g, s ∈ sources → g ∈ goals → connected edges s g →
              ∃ p, p ∈ paths ∧ head p = Some s ∧ last p = Some g)
    ∧ (∀ r, 0 <= r → r < 1 → paths ≠ [] →
            ∃ p, LevelPaths.getRandomPath r paths = Some p ∧ p ∈ paths)
    ∧ ((∀ s, s ∈ sources → s ∉ goals) →
       ∀ p r1 r2 type cfg, p ∈ paths → Config.ENEMIES type = Some cfg →
         ∃ e, Enemy.new r1 r2 type p nodes (Some edges) = Ret e).
Proof.
  intros Hh Hr He Hs Hg Hfuel. rewrite Forall_forall in Hs, Hg.
  assert (∀ k s g, s ∈ sources → g ∈ goals →
    ∃ p, Pathfinding.findPath hypot fuel (rnds k) nodes edges s g true = Ret p
         ∧ (p = [] ∧ ¬ connected edges s g ∨ routeOf edges (length nodes) s g p))
    as Hpair.
  { intros k s g Hsin Hgin. destruct (decide (s = g)) as [->|Hne].
    - exists [g]. unfold Pathfinding.findPath. rewrite decide_True by done.
      split; [done|]. right. split; [done|]. split; [done|]. split; [done|].
      repeat constructor. by apply Hg.
    - destruct (findPath_total hypot (rnds k) nodes edges s g true Hh (Hr k) He
                  (Hs s Hsin) (Hg g Hgin) Hne fuel Hfuel) as (p & Hp & Hpost).
      exists p. split; [done|].
      destruct Hpost as [?|(H1 & H2 & H3 & _)]; [by left|]. right.
      split; [done|]. split; [done|]. split; [done|].
      apply (linked_in_range _ edges); [done | done |].
      intros a Ha. rewrite H1 in Ha. injection Ha as <-. by apply Hs. }
  destruct (calculatePaths_fold hypot fuel rnds nodes edges
              (LevelPaths.pairsOf sources goals)) as (paths & Hrun & Hspec).
  { intros k s g Hk. apply list_elem_of_lookup_2, pairsOf_spec in Hk as [Hsin Hgin].
    destruct (Hpair k s g Hsin Hgin) as (p & Hp & _). by exists p. }
  exists paths. split; [exact Hrun|].
  assert (∀ p, p ∈ paths → ∃ s g, s ∈ sources ∧ g ∈ goals
                                  ∧ routeOf edges (length nodes) s g p) as Hroutes.
  { intros p Hp. apply Hspec in Hp as (k & s & g & Hk & Hf & Hne).
    apply list_elem_of_lookup_2, pairsOf_spec in Hk as [Hsin Hgin].
    exists s, g. split; [done|]. split; [done|].
    destruct (Hpair k s g Hsin Hgin) as (p' & Hp' & Hpost).
    rewrite Hf in Hp'. injection Hp' as <-. destruct Hpost as [[? _]|?]; done. }
  split; [exact Hroutes|]. split; [|split].
  - intros s g Hsin Hgin Hconn.
    assert ((s, g) ∈ LevelPaths.pairsOf sources goals) as Hin by (by apply pairsOf_spec).
    apply list_elem_of_lookup in Hin as [k Hk].
    destruct (Hpair k s g Hsin Hgin) as (p & Hp & Hpost).
    destruct Hpost as [[_ Hn]|(H1 & H2 & _)]; [done|].
    exists p. split; [|done]. apply Hspec. exists k, s, g.
    split; [done|]. split; [done|]. by destruct p.
  - intros r Hr0 Hr1 Hne. unfold LevelPaths.getRandomPath.
    rewrite decide_False by (by destruct paths).
    assert (0 <= Qfloor (r * ofNat (length paths))
            < Z.of_nat (length paths))%Z as [Hlo Hhi].
    { assert (0 < ofNat (length paths)) as Hlen.
      { unfold ofNat. destruct paths; [done|]. simpl length.
        rewrite <- (Zlt_Qlt 0). lia. }
      split.
      - change 0%Z with (Qfloor 0). apply Qfloor_resp_le. nra.
      - rewrite Zlt_Qlt. eapply Qle_lt_trans; [apply Qfloor_le|].
        fold (ofNat (length paths)). nra. }
    destruct (lookup_lt_is_Some_2 paths (Z.to_nat (Qfloor (r * ofNat (length paths)))))
      as [p Hp]; [lia|].
    exists p. split; [done|]. by eapply list_elem_of_lookup_2.
  - intros Hdis p r1 r2 type cfg Hp Hcfg.
    destruct (Hroutes p Hp) as (s & g & Hsin & Hgin & Hh1 & Hl1 & _ & Hrange).
    assert (s ≠ g) as Hne by (intros ->; by apply (Hdis g)).
    destruct p as [|a [|b p]]; [done| |].
    { simpl in Hh1, Hl1. congruence. }
    apply Forall_cons in Hrange as [Ha Hrange]. apply Forall_cons in Hrange as [Hb _].
    destruct (lookup_lt_is_Some_2 nodes a Ha) as [na Hna].
    destruct (lookup_lt_is_Some_2 nodes b Hb) as [nb Hnb].
    unfold Enemy.new, Enemy.nodeAt. simpl. rewrite Hna, Hnb. simpl. rewrite Hcfg. simpl.
    by eexists.
Qed.

Lemma level_paths_spawnable_witness :
  ∃ paths,
    LevelPaths.calculatePaths manhattan (findPathFuel 3) (λ _ _, 1 # 2) line_nodes
      line_edges [0%nat] [2%nat] = Ret paths
    ∧ ∃ p, p ∈ paths ∧ head p = Some 0%nat ∧ last p = Some 2%nat.
Proof.
  destruct (level_paths_spawnable manhattan (findPathFuel 3) (λ _ _, 1 # 2) line_nodes
              line_edges [0%nat] [2%nat] manhattan_nonneg)
    as (paths & Hrun & _ & Hall & _).
  - intros _ _. split; [discriminate | reflexivity].
  - apply line_edges_ok. simpl. lia.
  - repeat constructor.
  - repeat constructor.
  - apply le_n.
  - exists paths. split; [exact Hrun|].
    apply Hall; [by left | by left | apply connected_line].
Defined.

(** X15. A node that is both a source and a goal spoils the paths of a
    level: [calculatePaths] keeps the one-node path [[s]] that [findPath]
    answers for it, and the [Enemy] constructor throws on that path, whatever
    the enemy type. *)
Theorem level_paths_shared_endpoint (hypot : Q → Q → Q) (fuel : nat)
    (rnds : nat → nat → Q) (nodes : list Node) (edges : list (nat * nat))
    (sources goals : list nat) (s : nat) :
  (∀ a b, 0 <= hypot a b) →
  (∀ k j, 0 <= rnds k j ∧ rnds k j < 1) →
  edgesInRange (length nodes) edges →
  Forall (λ i, (i < length nodes)%nat) sources →
  Forall (λ i, (i < length nodes)%nat) goals →
  (findPathFuel (length nodes) ≤ fuel)%nat →
  s ∈ sources → s ∈ goals →
  ∃ paths,
    LevelPaths.calculatePaths hypot fuel rnds nodes edges sources goals = Ret paths
    ∧ [s] ∈ paths
    ∧ ∀ r1 r2 type es, Enemy.new r1 r2 type [s] nodes es = Threw.
Proof.
  intros Hh Hr He Hs Hg Hfuel Hsin Hgin. rewrite Forall_forall in Hs, Hg.
  destruct (calculatePaths_fold hypot fuel rnds nodes edges
              (LevelPaths.pairsOf sources goals)) as (paths & Hrun & Hspec).
  { intros k a b Hk. apply list_elem_of_lookup_2, pairsOf_spec in Hk as [Ha Hb].
    destruct (decide (a = b)) as [->|Hne].
    - exists [b]. unfold Pathfinding.findPath. by rewrite decide_True.
    - destruct (findPath_total hypot (rnds k) nodes edges a b true Hh (Hr k) He
                  (Hs a Ha) (Hg b Hb) Hne fuel Hfuel) as (p & Hp & _).
      by exists p. }
  exists paths. split; [exact Hrun|]. split.
  - assert ((s, s) ∈ LevelPaths.pairsOf sources goals) as Hin by (by apply pairsOf_spec).
    apply list_elem_of_lookup in Hin as [k Hk].
    apply Hspec. exists k, s, s. split; [done|]. split; [|done].
    unfold Pathfinding.findPath. by rewrite decide_True.
  - intros r1 r2 type es. unfold Enemy.new, Enemy.nodeAt. simpl.
    by destruct (nodes !! s).
Qed.

Lemma level_paths_shared_endpoint_witness :
  ∃ paths,
    LevelPaths.calculatePaths manhattan (findPathFuel 3) (λ _ _, 1 # 2) line_nodes
      line_edges [0%nat; 1%nat] [1%nat; 2%nat] = Ret paths
    ∧ [1%nat] ∈ paths
    ∧ ∀ r1 r2 type es, Enemy.new r1 r2 type [1%nat] line_nodes es = Threw.
Proof.
  apply (level_paths_shared_endpoint manhattan (findPathFuel 3) (λ _ _, 1 # 2) line_nodes
           line_edges [0%nat; 1%nat] [1%nat; 2%nat] 1%nat manhattan_nonneg).
  - intros _ _. split; [discriminate | reflexivity].
  - apply line_edges_ok. simpl. lia.
  - repeat constructor.
  - repeat constructor.
  - apply le_n.
  - apply list_elem_of_further, list_elem_of_here.
  - apply list_elem_of_here.
Defined.

(** ** The generated mesh (TopologyGenerator.generateStackelbergMap) *)

Section Mesh.
Import TopologyGenerator.

Lemma lcg_unit (seed : Z) : 0 <= (lcg seed).2 ∧ (lcg seed).2 < 1.
Proof.
  unfold lcg. cbn [snd].
  set (s := ((1664525 * seed + 1013904223) mod 2 ^ 32)%Z).
  assert (0 <= s < 2 ^ 32)%Z as [Hlo Hhi] by (apply Z.mod_pos_bound; lia).
  assert (0 < inject_Z (2 ^ 32)) as Hm by (rewrite <- (Zlt_Qlt 0); lia).
  split.
  - apply Qle_shift_div_l; [done|]. rewrite Qmult_0_l. rewrite <- (Zle_Qle 0). done.
  - apply Qlt_shift_div_r; [done|]. rewrite Qmult_1_l. by rewrite <- Zlt_Qlt.
Qed.

Lemma floor_below (r : Q) (k : nat) :
  0 <= r → r < 1 → (0 < k)%nat → (Z.to_nat (Qfloor (r * ofNat k)) < k)%nat.
Proof.
  intros H0 H1 Hk.
  assert (0 < ofNat k) as Hpos by (unfold ofNat; rewrite <- (Zlt_Qlt 0); lia).
  assert (Qfloor (r * ofNat k) < Z.of_nat k)%Z.
  { rewrite Zlt_Qlt. eapply Qle_lt_trans; [apply Qfloor_le|]. fold (ofNat k). nra. }
  lia.
Qed.

Lemma meshNode_step (pathY lw : Q) (m : mesh) (row : list nat) (nodeId l : nat) :
  ∃ m1 node, meshNode pathY lw (m, row, nodeId) l = (m1, row ++ [nodeId], S nodeId)
             ∧ m_nodes m1 = m_nodes m ++ [node] ∧ node_id node = nodeId
             ∧ m_edges m1 = m_edges m.
Proof.
  unfold meshNode, lcg. cbn.
  destruct (decide (l = 2%nat)); [by eexists _, _|].
  destruct (Qltb _ _); by eexists _, _.
Qed.

Lemma meshNode_fold (pathY lw : Q) (ls : list nat) (m : mesh) (row : list nat)
    (nodeId : nat) :
  ∃ m1 added,
    foldl (meshNode pathY lw) (m, row, nodeId) ls
    = (m1, row ++ seq nodeId (length ls), (nodeId + length ls)%nat)
    ∧ m_nodes m1 = m_nodes m ++ added
    ∧ node_id <$> added = seq nodeId (length ls)
    ∧ m_edges m1 = m_edges m.
Proof.
  revert m row nodeId. induction ls as [|l ls IH]; intros m row nodeId.
  - exists m, []. cbn. rewrite !app_nil_r, Nat.add_0_r. done.
  - cbn [foldl].
    destruct (meshNode_step pathY lw m row nodeId l) as (m1 & node & -> & Hn & Hid & He).
    destruct (IH m1 (row ++ [nodeId]) (S nodeId)) as (m2 & added & -> & Hn2 & Hid2 & He2).
    exists m2, (node :: added). cbn [length seq].
    rewrite <- app_assoc, Nat.add_succ_r. split; [done|].
    split; [by rewrite Hn2, Hn, <- app_assoc|].
    split; [by rewrite fmap_cons, Hid, Hid2 | congruence].
Qed.


Definition laneGrid (start layers count : nat) : list (list nat) :=
  (λ k, seq (start + k * layers) layers) <$> seq 0 count.

Lemma laneGrid_S (start layers count : nat) :
  laneGrid start layers (S count)
  = seq start layers :: laneGrid (start + layers) layers count.
Proof.
  unfold laneGrid. cbn [seq fmap list_fmap]. rewrite Nat.mul_0_l, Nat.add_0_r.
  f_equal. rewrite <- fmap_S_seq, <- list_fmap_compose.
  apply list_fmap_ext. intros _ k _. simpl. f_equal. lia.
Qed.

Lemma meshLane_fold (numPaths layers : nat) (lw : Q) (ps : list nat) (m : mesh)
    (grid : list (list nat)) (nodeId : nat) :
  ∃ m1 added,
    foldl (meshLane numPaths layers lw) (m, grid, nodeId) ps
    = (m1, grid ++ laneGrid nodeId layers (length ps),
       (nodeId + length ps * layers)%nat)
    ∧ m_nodes m1 = m_nodes m ++ added
    ∧ node_id <$> added = seq nodeId (length ps * layers)
    ∧ m_edges m1 = m_edges m.
Proof.
  revert m grid nodeId. induction ps as [|p ps IH]; intros m grid nodeId.
  - exists m, []. cbn. rewrite !app_nil_r, Nat.add_0_r. done.
  - cbn [foldl]. unfold meshLane at 2.
    destruct (meshNode_fold (150 + ofNat p * (700 - 2 * 150) / (ofNat numPaths - 1)) lw
                (seq 1 layers) m [] nodeId) as (m1 & added1 & -> & Hn & Hid & He).
    rewrite length_seq in *. cbn [app].
    destruct (IH m1 (grid ++ [seq nodeId layers]) (nodeId + layers)%nat)
      as (m2 & added2 & -> & Hn2 & Hid2 & He2).
    exists m2, (added1 ++ added2). cbn [length].
    rewrite laneGrid_S, <- app_assoc. cbn [app].
    split; [f_equal; lia|].
    split; [by rewrite Hn2, Hn, <- app_assoc|].
    split; [|congruence].
    rewrite fmap_app, Hid, Hid2. cbn [Nat.mul]. by rewrite seq_app.
Qed.

Lemma gridAt_laneGrid (start layers count p l : nat) :
  (p < count)%nat → (l < layers)%nat →
  gridAt (laneGrid start layers count) p l = Some (start + p * layers + l)%nat.
Proof.
  intros Hp Hl. unfold gridAt, laneGrid.
  rewrite list_lookup_fmap, lookup_seq_lt by done. cbn.
  by rewrite lookup_seq_lt.
Qed.

Lemma pushPairs_fold {B : Type} (f g : B → option nat) (xs : list B)
    (es : list (nat * nat)) :
  (∀ x, x ∈ xs → is_Some (f x) ∧ is_Some (g x)) →
  ∃ added,
    foldl (λ a x, es ← a; pushPair es (f x) (g x)) (Some es) xs = Some (es ++ added)
    ∧ ∀ u v, (u, v) ∈ added ↔ ∃ x, x ∈ xs ∧ f x = Some u ∧ g x = Some v.
Proof.
  revert es. induction xs as [|x xs IH]; intros es Hall.
  - exists []. rewrite app_nil_r. split; [done|]. intros u v. split.
    + by intros ?%elem_of_nil.
    + by intros (x & ?%elem_of_nil & _).
  - destruct (Hall x) as [[u Hu] [v Hv]]; [by left|].
    cbn [foldl]. cbn. unfold pushPair at 2. rewrite Hu, Hv. cbn.
    destruct (IH (es ++ [(u, v)])) as (added & -> & Hspec).
    { intros y Hy. apply Hall. by right. }
    exists ((u, v) :: added). rewrite <- app_assoc. split; [done|].
    intros u' v'. rewrite elem_of_cons, Hspec. split.
    + intros [[= -> ->] | (y & Hy & Hfy & Hgy)].
      * exists x. split; [by left | done].
      * exists y. split; [by right | done].
    + intros (y & Hy & Hfy & Hgy). apply elem_of_cons in Hy as [-> | Hy].
      * left. congruence.
      * right. by exists y.
Qed.

Lemma pushPairs_fold2 {B C : Type} (f g : B → C → option nat) (xs : list B)
    (ys : list C) (es : list (nat * nat)) :
  (∀ x y, x ∈ xs → y ∈ ys → is_Some (f x y) ∧ is_Some (g x y)) →
  ∃ added,
    foldl (λ a x, foldl (λ b y, es ← b; pushPair es (f x y) (g x y)) a ys) (Some es) xs
    = Some (es ++ added)
    ∧ ∀ u v, (u, v) ∈ added
             ↔ ∃ x y, x ∈ xs ∧ y ∈ ys ∧ f x y = Some u ∧ g x y = Some v.
Proof.
  revert es. induction xs as [|x xs IH]; intros es Hall.
  - exists []. rewrite app_nil_r. split; [done|]. intros u v. split.
    + by intros ?%elem_of_nil.
    + by intros (x & y & ?%elem_of_nil & _).
  - cbn [foldl].
    destruct (pushPairs_fold (f x) (g x) ys es) as (added1 & -> & Hspec1).
    { intros y Hy. apply Hall; [by left | done]. }
    destruct (IH (es ++ added1)) as (added2 & -> & Hspec2).
    { intros x' y Hx Hy. apply Hall; [by right | done]. }
    exists (added1 ++ added2). rewrite <- app_assoc. split; [done|].
    intros u v. rewrite elem_of_app, Hspec1, Hspec2. split.
    + intros [(y & Hy & Hf & Hg) | (x' & y & Hx & Hy & Hf & Hg)].
      * exists x, y. split; [by left | done].
      * exists x', y. split; [by right | done].
    + intros (x' & y & Hx & Hy & Hf & Hg). apply elem_of_cons in Hx as [-> | Hx].
      * left. by exists y.
      * right. by exists x', y.
Qed.

Lemma foldl_some {A B : Type} (P : A → Prop) (f : option A → B → option A)
    (l : list B) (a : A) :
  P a →
  (∀ a x, x ∈ l → P a → ∃ b, f (Some a) x = Some b ∧ P b) →
  ∃ b, foldl f (Some a) l = Some b ∧ P b.
Proof.
  revert a. induction l as [|x l IH]; intros a Ha Hstep; simpl; [by exists a|].
  destruct (Hstep a x) as (b & -> & Hb); [by left | done |].
  apply IH; [done|]. intros a' y Hy. apply Hstep. by right.
Qed.


(** An edge between two nodes of the lanes. *)
Definition laneEdge (count : nat) (e : nat * nat) : Prop :=
  (1 ≤ e.1 ≤ count)%nat ∧ (1 ≤ e.2 ≤ count)%nat.

Lemma meshCross_step (numPaths layers : nat) (crossProb : Q) (seed : Z)
    (es : list (nat * nat)) (l : nat) :
  (l < layers)%nat →
  ∃ seed' added,
    meshCross numPaths layers crossProb (laneGrid 1 layers numPaths) (Some (seed, es)) l
    = Some (seed', es ++ added)
    ∧ Forall (laneEdge (numPaths * layers)) added.
Proof.
  intros Hl. unfold meshCross.
  set (P := λ a : Z * list (nat * nat),
              ∃ added, a.2 = es ++ added ∧ Forall (laneEdge (numPaths * layers)) added).
  match goal with
  | |- context [foldl ?f (Some (seed, es)) ?xs] =>
      destruct (foldl_some P f xs (seed, es)) as ([seed1 es1] & -> & added1 & Hes1 & Hv1)
  end.
  { exists []. by rewrite app_nil_r. }
  { intros [s es'] p Hp (added & Hes & Hv). cbn in Hes. subst es'.
    apply elem_of_seq in Hp. cbn -[lcg].
    destruct (lcg s) as [s' r]. destruct (Qltb r crossProb).
    - rewrite !gridAt_laneGrid by lia. cbn.
      eexists. split; [done|]. exists (added ++ [(1 + p * layers + l, 1 + S p * layers + l)%nat]).
      split; [by rewrite <- app_assoc|].
      apply Forall_app. split; [done|]. apply Forall_singleton.
      unfold laneEdge. cbn [fst snd]. nia.
    - eexists. split; [done|]. by exists added. }
  cbn in Hes1. subst es1. cbn [mbind option_bind].
  destruct (bool_decide (3 ≤ numPaths)%nat) eqn:H3; cbn [andb];
    [|by exists seed1, added1].
  apply bool_decide_eq_true in H3.
  destruct (bool_decide (l = layers / 2)%nat); [|by exists seed1, added1].
  pose proof (lcg_unit seed1) as Hr1. destruct (lcg seed1) as [seed2 r1].
  destruct (Qltb r1 (2 # 10)); [|by exists seed2, added1].
  pose proof (lcg_unit seed2) as [Hr0 Hr2]. destruct (lcg seed2) as [seed3 r2].
  cbn [snd] in Hr0, Hr2.
  assert (Z.to_nat (Qfloor (r2 * (ofNat numPaths - 2))) < numPaths - 2)%nat as Hskip.
  { assert (3 <= ofNat numPaths) as Hn.
    { unfold ofNat. change 3 with (inject_Z 3). rewrite <- Zle_Qle. lia. }
    assert (Qfloor (r2 * (ofNat numPaths - 2)) < Z.of_nat numPaths - 2)%Z; [|lia].
    rewrite Zlt_Qlt. eapply Qle_lt_trans; [apply Qfloor_le|].
    unfold Z.sub. rewrite inject_Z_plus. fold (ofNat numPaths).
    change (inject_Z (- (2))) with (-2). nra. }
  remember (Z.to_nat (Qfloor (r2 * (ofNat numPaths - 2)))) as k eqn:Ek. clear Ek.
  rewrite !gridAt_laneGrid by lia. cbn.
  eexists _, (added1 ++ [_]). rewrite <- app_assoc. split; [done|].
  apply Forall_app. split; [done|]. apply Forall_singleton.
  unfold laneEdge. cbn [fst snd]. nia.
Qed.

Lemma meshCross_fold (numPaths layers : nat) (crossProb : Q) (seed : Z)
    (es : list (nat * nat)) :
  ∃ seed' added,
    foldl (meshCross numPaths layers crossProb (laneGrid 1 layers numPaths))
          (Some (seed, es)) (seq 0 layers)
    = Some (seed', es ++ added)
    ∧ Forall (laneEdge (numPaths * layers)) added.
Proof.
  set (P := λ a : Z * list (nat * nat),
              ∃ added, a.2 = es ++ added ∧ Forall (laneEdge (numPaths * layers)) added).
  match goal with
  | |- context [foldl ?f (Some (seed, es)) ?xs] =>
      destruct (foldl_some P f xs (seed, es)) as ([seed1 es1] & -> & added1 & Hes1 & Hv1)
  end.
  { exists []. by rewrite app_nil_r. }
  { intros [s es'] l Hl (added & Hes & Hv). cbn in Hes. subst es'.
    apply elem_of_seq in Hl.
    destruct (meshCross_step numPaths layers crossProb s (es ++ added) l)
      as (s' & added' & -> & Hv'); [lia|].
    eexists. split; [done|]. exists (added ++ added'). cbn.
    split; [by rewrite <- app_assoc|]. by apply Forall_app. }
  cbn in Hes1. subst es1. by exists seed1, added1.
Qed.


Lemma idMap_lookup (ns : list Node) (idx : nat) (node : Node) :
  NoDup (node_id <$> ns) → ns !! idx = Some node →
  foldl (λ (m : gmap nat nat) (p : nat * Node), <[node_id p.2 := p.1]> m) ∅
        (imap (λ idx node, (idx, node)) ns) !! node_id node = Some idx.
Proof.
  revert idx node. induction ns as [|x ns IH] using rev_ind; intros idx node Hnd Hl.
  - by rewrite lookup_nil in Hl.
  - rewrite fmap_app in Hnd. apply NoDup_app in Hnd as (Hnd & Hfresh & _).
    rewrite imap_app, foldl_app. cbn. rewrite Nat.add_0_r.
    destruct (decide (idx < length ns)%nat) as [Hlt|Hge].
    + rewrite lookup_app_l in Hl by done.
      rewrite lookup_insert_ne; [by apply IH|].
      intros Heq. apply (Hfresh (node_id node)).
      * apply list_elem_of_fmap. exists node. split; [done|].
        by eapply list_elem_of_lookup_2.
      * rewrite <- Heq. cbn. by left.
    + rewrite lookup_app_r in Hl by lia.
      destruct (idx - length ns)%nat as [|k] eqn:Ek; [|done].
      cbn in Hl. injection Hl as ->. rewrite lookup_insert_eq. f_equal. lia.
Qed.

Lemma mapM_remap (ρ : gmap nat nat) (h : nat → nat) (es : list (nat * nat)) :
  (∀ e, e ∈ es → ρ !! e.1 = Some (h e.1) ∧ ρ !! e.2 = Some (h e.2)) →
  mapM (λ e : nat * nat, a ← ρ !! e.1; b ← ρ !! e.2; Some (a, b)) es
  = Some ((λ e, (h e.1, h e.2)) <$> es).
Proof.
  induction es as [|e es IH]; intros Hall; [done|].
  destruct (Hall e) as [H1 H2]; [by left|].
  cbn. rewrite H1, H2. cbn. rewrite IH; [done|].
  intros e' He'. apply Hall. by right.
Qed.

Lemma identifyChokepoints_total (shuffle : nat → list nat → list nat)
    (ns : list Node) (es : list (nat * nat)) (srcs gls : list nat) (fuel : nat) :
  (∀ k l, shuffle k l ≡ₚ l) →
  edgesInRange (length ns) es →
  (∀ s, s ∈ srcs → (s < length ns)%nat) →
  (2 * length ns + 1 ≤ fuel)%nat →
  ∃ chk, identifyChokepoints fuel shuffle ns es srcs gls = Ret chk.
Proof.
  intros Hperm He Hs Hf.
  destruct (buildAdj_spec (length ns) es He) as (adj & Hadj & Hr & _).
  destruct (sample_total (length ns) shuffle Hperm fuel adj srcs gls Hr Hs Hf)
    as ([sc sorts] & Hsample & _).
  unfold identifyChokepoints. rewrite Hadj. simpl. rewrite Hsample. by eexists.
Qed.

(** X16. Every map of the Stackelberg policy is in one piece.
    [generateStackelbergMap] throws nothing, whatever the seed and whatever
    order [Math.random] gives the neighbours in the analyzer: it lays out 2
    to 4 lanes of 2 to 4 nodes between a source and a goal, numbers the
    nodes by their position, joins only nodes that exist, names node 0 the
    source and the last node the goal, and every node can be reached from
    the source along edges. *)
Theorem generateStackelbergMap_connected (fuel : nat) (now salt : Q)
    (shuffle : nat → list nat → list nat) :
  (∀ k l, shuffle k l ≡ₚ l) →
  (37 ≤ fuel)%nat →
  ∃ t numPaths layers,
    generateStackelbergMap fuel now salt shuffle = Ret t
    ∧ (2 ≤ numPaths ≤ 4)%nat ∧ (2 ≤ layers ≤ 4)%nat
    ∧ length (nodes t) = (numPaths * layers + 2)%nat
    ∧ (∀ i node, nodes t !! i = Some node → node_id node = i)
    ∧ edgesInRange (length (nodes t)) (edges t)
    ∧ sources t = [O] ∧ goals t = [(length (nodes t) - 1)%nat]
    ∧ (∀ i, (i < length (nodes t))%nat → connected (edges t) 0 i).
Proof.
  intros Hperm Hfuel. unfold generateStackelbergMap. cbv zeta.
  pose proof (lcg_unit (Qfloor (now * 10000) + Qfloor (salt * 10000000))) as [Hr1 Hr1'].
  destruct (lcg _) as [seed1 r1]. cbn [snd] in Hr1, Hr1'.
  pose proof (floor_below r1 3 Hr1 Hr1' ltac:(lia)) as HP.
  change (ofNat 3) with 3 in HP.
  remember (2 + Z.to_nat (Qfloor (r1 * 3)))%nat as numPaths eqn:EP.
  pose proof (lcg_unit seed1) as [Hr2 Hr2'].
  destruct (lcg seed1) as [seed2 r2]. cbn [snd] in Hr2, Hr2'.
  pose proof (floor_below r2 3 Hr2 Hr2' ltac:(lia)) as HL.
  change (ofNat 3) with 3 in HL.
  remember (2 + Z.to_nat (Qfloor (r2 * 3)))%nat as layers eqn:EL.
  assert (2 ≤ numPaths ≤ 4)%nat as HPr by lia.
  assert (2 ≤ layers ≤ 4)%nat as HLr by lia.
  clear EP EL HP HL.
  match goal with
  | |- context [foldl (meshLane numPaths layers ?lw) (?m0, [], 1%nat) _] =>
      destruct (meshLane_fold numPaths layers lw (seq 0 numPaths) m0 [] 1)
        as (m1 & added & Hfold & Hn & Hid & _)
  end.
  rewrite length_seq in Hfold, Hid. cbn [app m_nodes] in Hfold, Hn. rewrite Hfold.
  cbv beta iota. clear Hfold.
  set (grid := laneGrid 1 layers numPaths).
  assert (∀ p l, (p < numPaths)%nat → (l < layers)%nat →
                 gridAt grid p l = Some (1 + p * layers + l)%nat) as Hgrid.
  { intros p l Hp Hl. by apply gridAt_laneGrid. }
  destruct (pushPairs_fold (λ _ : nat, Some 0%nat) (λ p, gridAt grid p 0)
              (seq 0 numPaths) []) as (es1 & Hes1 & Hspec1).
  { intros p Hp%elem_of_seq. rewrite Hgrid by lia. split; by eexists. }
  rewrite Hes1. cbn [orThrow app]. unfold mbind at 1, outcome_bind at 1. cbv beta iota.
  clear Hes1.
  destruct (pushPairs_fold2 (λ p l, gridAt grid p l) (λ p l, gridAt grid p (S l))
              (seq 0 numPaths) (seq 0 (layers - 1)) es1) as (a2 & Hes2 & Hspec2).
  { intros p l Hp%elem_of_seq Hl%elem_of_seq. rewrite !Hgrid by lia. split; by eexists. }
  rewrite Hes2. cbn [orThrow]. unfold mbind at 1, outcome_bind at 1. cbv beta iota.
  clear Hes2.
  destruct (pushPairs_fold (λ p, gridAt grid p (layers - 1)) (λ _ : nat, Some 99%nat)
              (seq 0 numPaths) (es1 ++ a2)) as (a3 & Hes3 & Hspec3).
  { intros p Hp%elem_of_seq. rewrite Hgrid by lia. split; by eexists. }
  rewrite Hes3. cbn [orThrow]. unfold mbind at 1, outcome_bind at 1. cbv beta iota.
  clear Hes3.
  destruct (lcg (m_seed m1)) as [seed3 r3].
  destruct (meshCross_fold numPaths layers ((5 # 10) + r3 * (3 # 10)) seed3
              ((es1 ++ a2) ++ a3)) as (seed4 & a4 & Hes4 & Hv4).
  fold grid in Hes4. rewrite Hes4. cbn [orThrow]. unfold mbind at 1, outcome_bind at 1.
  cbv beta iota. clear Hes4.
  set (ns := m_nodes m1 ++ [_]).
  set (idMap := foldl _ ∅ (imap _ ns)).
  set (es4 := ((es1 ++ a2) ++ a3) ++ a4).
  pose (PL := (numPaths * layers)%nat).
  assert (PL ≤ 16)%nat as HPL by (unfold PL; nia).
  assert (node_id <$> ns = seq 0 (S PL) ++ [99%nat]) as Hids.
  { unfold ns. rewrite fmap_app, Hn. cbn. by rewrite Hid. }
  assert (length ns = PL + 2)%nat as Hlen.
  { rewrite <- (length_fmap node_id), Hids, length_app, length_seq. cbn. lia. }
  assert (NoDup (node_id <$> ns)) as Hnd.
  { rewrite Hids. apply NoDup_app. split; [apply NoDup_seq|].
    split; [|apply NoDup_singleton].
    intros x Hx%elem_of_seq ->%list_elem_of_singleton. lia. }
  set (h := λ i : nat, if decide (i = 99%nat) then S PL else i).
  assert (∀ i, (i ≤ PL)%nat ∨ i = 99%nat → idMap !! i = Some (h i)) as Hmap.
  { intros i Hi.
    assert (∃ node, ns !! h i = Some node ∧ node_id node = i) as (node & Hl & <-).
    { assert ((node_id <$> ns) !! h i = Some i) as Hl.
      { rewrite Hids. unfold h. destruct Hi as [Hi | ->].
        - rewrite decide_False by lia.
          rewrite lookup_app_l by (rewrite length_seq; lia). by rewrite lookup_seq_lt by lia.
        - rewrite decide_True by done.
          rewrite lookup_app_r; rewrite length_seq; [|lia]. by rewrite Nat.sub_diag. }
      rewrite list_lookup_fmap in Hl. destruct (ns !! h i) as [node|]; [|done].
      exists node. split; [done|]. by injection Hl. }
    by apply idMap_lookup. }
  assert (∀ e, e ∈ es4 → ((e.1 ≤ PL)%nat ∨ e.1 = 99%nat) ∧ ((e.2 ≤ PL)%nat ∨ e.2 = 99%nat))
    as Hvalid.
  { intros [u v]. unfold es4. rewrite !elem_of_app, Hspec1, Hspec2, Hspec3. cbn [fst snd].
    intros [[[(p & Hp%elem_of_seq & [= <-] & Hg)
             | (p & l & Hp%elem_of_seq & Hl%elem_of_seq & Hg1 & Hg2)]
            | (p & Hp%elem_of_seq & Hg & [= <-])] | Hin].
    - rewrite Hgrid in Hg by lia. injection Hg as <-. unfold PL. split; left; nia.
    - rewrite Hgrid in Hg1, Hg2 by lia. injection Hg1 as <-. injection Hg2 as <-.
      unfold PL. split; left; nia.
    - rewrite Hgrid in Hg by lia. injection Hg as <-. unfold PL.
      split; [left; nia | by right].
    - rewrite Forall_forall in Hv4. destruct (Hv4 _ Hin) as [Hu Hv]. cbn [fst snd] in Hu, Hv.
      unfold PL. split; left; lia. }
  rewrite (mapM_remap idMap h es4).
  2:{ intros e He. destruct (Hvalid e He). split; by apply Hmap. }
  cbn [orThrow]. unfold mbind at 1, outcome_bind at 1. cbv beta iota.
  match goal with
  | |- context [identifyChokepoints fuel shuffle ?c ?fe _ _] =>
      set (centred := c); set (finalEdges := fe)
  end.
  assert (length centred = PL + 2)%nat as Hlenc.
  { unfold centred. by rewrite length_fmap, length_imap. }
  assert (∀ i, (i ≤ PL)%nat ∨ i = 99%nat → (h i < PL + 2)%nat) as Hh.
  { intros i Hi. unfold h. case_decide; lia. }
  assert (edgesInRange (length centred) finalEdges) as Hrange.
  { intros e He. unfold finalEdges in He.
    apply list_elem_of_fmap in He as (e0 & -> & He0). cbn [fst snd].
    destruct (Hvalid e0 He0). rewrite Hlenc. split; by apply Hh. }
  assert (∃ chk, identifyChokepoints fuel shuffle centred finalEdges [0%nat]
                   [(length centred - 1)%nat] = Ret chk) as [chk Hchk].
  { apply identifyChokepoints_total; [done | done | |].
    - intros s0 ->%list_elem_of_singleton. rewrite Hlenc. lia.
    - rewrite Hlenc. lia. }
  rewrite Hchk. unfold mbind at 1, outcome_bind at 1. cbv beta iota.
  destruct (lcg seed4) as [seed5 r5].
  eexists _, numPaths, layers. split; [reflexivity|].
  cbn [nodes edges sources goals].
  assert (length (retype chk centred) = length centred) as Hlenr.
  { unfold retype. by rewrite length_imap. }
  rewrite Hlenr, Hlenc. fold PL.
  split; [done|]. split; [done|]. split; [done|]. split.
  { intros i node. unfold retype, centred. rewrite list_lookup_imap, list_lookup_fmap,
      list_lookup_imap.
    destruct (ns !! i) as [node0|]; [|done]. cbn. intros [= <-].
    case_bool_decide; [done|]. by case_decide. }
  split; [by rewrite <- Hlenc|]. split; [done|]. split; [done|].
  assert (∀ u v, (u, v) ∈ es4 → (u ≤ PL)%nat →
                 adjacent finalEdges u (if decide (v = 99%nat) then S PL else v)) as Hadj.
  { intros u v Hin Hu. left. unfold finalEdges. apply list_elem_of_fmap.
    exists (u, v). split; [|done]. cbn [fst snd]. unfold h.
    by rewrite (decide_False (P := u = 99%nat)) by lia. }
  assert (∀ p l, (p < numPaths)%nat → (l < layers)%nat →
                 connected finalEdges 0 (1 + p * layers + l)) as Hlane.
  { intros p l Hp. induction l as [|l IH]; intros Hl.
    - apply rtc_once.
      assert ((0, 1 + p * layers + 0)%nat ∈ es4) as Hin.
      { unfold es4. rewrite !elem_of_app. do 3 left.
        apply Hspec1. exists p. split; [apply elem_of_seq; lia|].
        split; [done|]. apply Hgrid; lia. }
      apply Hadj in Hin; [|lia]. rewrite decide_False in Hin by (unfold PL in *; nia).
      exact Hin.
    - eapply rtc_r; [apply IH; lia|].
      assert ((1 + p * layers + l, 1 + p * layers + S l)%nat ∈ es4) as Hin.
      { unfold es4. rewrite !elem_of_app. do 2 left. right.
        apply Hspec2. exists p, l. split; [apply elem_of_seq; lia|].
        split; [apply elem_of_seq; lia|].
        split; [apply Hgrid; lia|]. apply Hgrid; lia. }
      apply Hadj in Hin; [|unfold PL; nia].
      rewrite decide_False in Hin by (unfold PL in *; nia). exact Hin. }
  assert (connected finalEdges 0 (S PL)) as Hgoal.
  { eapply rtc_r; [apply (Hlane 0%nat (layers - 1)%nat); lia|].
    assert ((1 + 0 * layers + (layers - 1), 99)%nat ∈ es4) as Hin.
    { unfold es4. rewrite !elem_of_app. left. right.
      apply Hspec3. exists 0%nat. split; [apply elem_of_seq; lia|].
      split; [apply Hgrid; lia | done]. }
    apply Hadj in Hin; [|unfold PL; nia]. by rewrite decide_True in Hin. }
  intros i Hi.
  destruct (decide (i = 0%nat)) as [-> | Hi0]; [apply rtc_refl|].
  destruct (decide (i = S PL)) as [-> | HiG]; [exact Hgoal|].
  pose proof (Nat.div_mod_eq (i - 1) layers) as Hdm.
  assert ((i - 1) mod layers < layers)%nat as Hmod by (apply Nat.mod_upper_bound; lia).
  assert ((i - 1) / layers < numPaths)%nat as Hdiv.
  { apply Nat.Div0.div_lt_upper_bound. unfold PL in *. nia. }
  assert (i = 1 + (i - 1) / layers * layers + (i - 1) mod layers)%nat as -> by lia.
  by apply Hlane.
Qed.

End Mesh.

Lemma generateStackelbergMap_connected_witness :
  ∃ t, TopologyGenerator.generateStackelbergMap 37 0 0 (λ _ l, l) = Ret t
       ∧ TopologyGenerator.sources t = [0%nat]
       ∧ connected (TopologyGenerator.edges t) 0
           (length (TopologyGenerator.nodes t) - 1).
Proof.
  destruct (generateStackelbergMap_connected 37 0 0 (λ _ l, l))
    as (t & numPaths & layers & Hrun & _ & _ & Hlen & _ & _ & Hsrc & _ & Hconn).
  - intros k l. reflexivity.
  - apply le_n.
  - exists t. split; [exact Hrun|]. split; [exact Hsrc|]. apply Hconn. lia.
Defined.

(** ** The parametrized grid (TopologyGenerator.generateRLTopology) *)

(** Edges whose tails can all be reached from node 0. *)
Definition rooted (n : nat) (es : list (nat * nat)) : Prop :=
  edgesInRange n es ∧ ∀ u v, (u, v) ∈ es → connected es 0 u.

Lemma connected_mono (es es' : list (nat * nat)) (a b : nat) :
  es ⊆ es' → connected es a b → connected es' a b.
Proof.
  intros Hsub. apply rtc_subrel. intros u v [H | H]; [left | right]; by apply Hsub.
Qed.

Lemma rooted_head (n : nat) (es : list (nat * nat)) (u v : nat) :
  rooted n es → (u, v) ∈ es → connected es 0 v.
Proof.
  intros [_ Hroot] Hin. eapply rtc_r; [by eapply Hroot | by left].
Qed.

Lemma rooted_app (n : nat) (es added : list (nat * nat)) :
  rooted n es →
  (∀ u v, (u, v) ∈ added → connected es 0 u ∧ (u < n)%nat ∧ (v < n)%nat) →
  rooted n (es ++ added).
Proof.
  intros [Hr Hroot] Hadd. split.
  - intros [u v] [Hin | Hin]%elem_of_app; [by apply Hr|].
    destruct (Hadd u v Hin) as (_ & ? & ?). done.
  - intros u v [Hin | Hin]%elem_of_app.
    + eapply connected_mono; [|by eapply Hroot]. intros e He. apply elem_of_app. by left.
    + eapply connected_mono; [|by apply (Hadd u v)]. intros e He. apply elem_of_app. by left.
Qed.

(** The layers are non-empty lists of nodes. *)
Definition layered (n : nat) (layers : list (list nat)) : Prop :=
  ∀ layer, layer ∈ layers → layer ≠ [] ∧ ∀ v, v ∈ layer → (v < n)%nat.

Section Layers.
Import TopologyGenerator.

Variable rnd : nat → Q.
Hypothesis rnd_range : ∀ k, 0 <= rnd k ∧ rnd k < 1.

Lemma pick_some (arr : list nat) (r : Q) :
  0 <= r → r < 1 → arr ≠ [] → ∃ x, pick arr r = Some x ∧ x ∈ arr.
Proof.
  intros H0 H1 Hne. unfold pick.
  assert (0 < length arr)%nat as Hlen by (destruct arr; [done | simpl; lia]).
  pose proof (floor_below r (length arr) H0 H1 Hlen) as Hlt.
  assert (0 <= Qfloor (r * ofNat (length arr)))%Z as Hpos.
  { change 0%Z with (Qfloor 0). apply Qfloor_resp_le.
    assert (0 <= ofNat (length arr)) by (unfold ofNat; rewrite <- (Zle_Qle 0); lia). nra. }
  destruct (Z.ltb_spec (Qfloor (r * ofNat (length arr))) 0) as [?|_]; [lia|].
  destruct (lookup_lt_is_Some_2 arr _ Hlt) as [x Hx].
  exists x. split; [done|]. by eapply list_elem_of_lookup_2.
Qed.


Variable n : nat.

Lemma fanOut_fold (next us : list nat) (es : list (nat * nat)) (k : nat) :
  rooted n es → next ≠ [] → (∀ v, v ∈ next → (v < n)%nat) →
  (∀ u, u ∈ us → connected es 0 u ∧ (u < n)%nat) →
  ∃ es' k', foldl (fanOut rnd next) (Ret (es, k)) us = Ret (es', k')
            ∧ rooted n es' ∧ es ⊆ es'.
Proof.
  intros Hgood Hne Hnext. revert es k Hgood.
  induction us as [|u us IH]; intros es k Hgood Hus.
  - by exists es, k.
  - destruct (Hus u) as [Hu Hun]; [by left|].
    destruct (rnd_range k) as [H0 H1].
    destruct (pick_some next (rnd k) H0 H1 Hne) as (target & Hpick & Htarget).
    destruct (rnd_range (S (S k))) as [H0' H1'].
    destruct (pick_some next (rnd (S (S k))) H0' H1' Hne) as (target2 & Hpick2 & Htarget2).
    assert (∃ es1 k1, fanOut rnd next (Ret (es, k)) u = Ret (es1, k1)
                      ∧ rooted n es1 ∧ es ⊆ es1) as (es1 & k1 & Hstep & Hgood1 & Hsub1).
    { unfold fanOut. cbn [mbind outcome_bind]. rewrite Hpick. cbn [orThrow mbind outcome_bind].
      assert (rooted n (es ++ [(u, target)])) as Hg1.
      { apply rooted_app; [done|]. intros u' v' [= -> ->]%list_elem_of_singleton.
        split; [done|]. split; [done|]. by apply Hnext. }
      destruct (Qltb (rnd (S k)) (1 # 2)).
      - rewrite Hpick2. cbn [orThrow mbind outcome_bind].
        eexists _, _. split; [done|]. case_decide.
        + split.
          * apply rooted_app; [done|]. intros u' v' [= -> ->]%list_elem_of_singleton.
            split; [|split; [done | by apply Hnext]].
            eapply connected_mono; [|exact Hu]. intros e He. apply elem_of_app. by left.
          * intros e He. rewrite !elem_of_app. by do 2 left.
        + split; [done|]. intros e He. rewrite elem_of_app. by left.
      - eexists _, _. split; [done|]. split; [done|].
        intros e He. rewrite elem_of_app. by left. }
    cbn [foldl]. rewrite Hstep.
    destruct (IH es1 k1 Hgood1) as (es' & k' & Hfold & Hgood' & Hsub').
    { intros u' Hu'. destruct (Hus u') as [? ?]; [by right|].
      split; [|done]. by eapply connected_mono. }
    exists es', k'. split; [done|]. split; [done|]. by etrans.
Qed.

Lemma fanIn_fold (current vs : list nat) (es : list (nat * nat)) (k : nat) :
  rooted n es → current ≠ [] →
  (∀ u, u ∈ current → connected es 0 u ∧ (u < n)%nat) →
  (∀ v, v ∈ vs → (v < n)%nat) →
  ∃ es' k', foldl (fanIn rnd current) (Ret (es, k)) vs = Ret (es', k')
            ∧ rooted n es' ∧ es ⊆ es'
            ∧ ∀ v, v ∈ vs → connected es' 0 v.
Proof.
  intros Hgood Hne Hcur. revert es k Hgood Hcur.
  induction vs as [|v vs IH]; intros es k Hgood Hcur Hvs.
  - exists es, k. split; [done|]. split; [done|]. split; [done|]. by intros v ?%elem_of_nil.
  - assert (∃ es1 k1, fanIn rnd current (Ret (es, k)) v = Ret (es1, k1)
                      ∧ rooted n es1 ∧ es ⊆ es1 ∧ connected es1 0 v)
      as (es1 & k1 & Hstep & Hgood1 & Hsub1 & Hv).
    { unfold fanIn. cbn [mbind outcome_bind].
      destruct (existsb _ es) eqn:Hex.
      - exists es, k. split; [done|]. split; [done|]. split; [done|].
        apply existsb_exists in Hex as ([u v'] & Hin & Heq).
        apply bool_decide_eq_true in Heq. cbn in Heq. subst v'.
        apply (rooted_head n es u v); [done|]. by apply list_elem_of_In.
      - destruct (rnd_range k) as [H0 H1].
        destruct (pick_some current (rnd k) H0 H1 Hne) as (src & Hpick & Hsrc).
        rewrite Hpick. cbn [orThrow mbind outcome_bind].
        destruct (Hcur src Hsrc) as [Hreach Hlt].
        assert (rooted n (es ++ [(src, v)])) as Hg1.
        { apply rooted_app; [done|]. intros u' v' [= -> ->]%list_elem_of_singleton.
          split; [done|]. split; [done|]. apply Hvs. by left. }
        eexists _, _. split; [done|]. split; [done|].
        split; [intros e He; rewrite elem_of_app; by left|].
        apply (rooted_head n _ src v); [done|]. rewrite elem_of_app. right. by left. }
    cbn [foldl]. rewrite Hstep.
    destruct (IH es1 k1 Hgood1) as (es' & k' & Hfold & Hgood' & Hsub' & Hall).
    { intros u Hu. destruct (Hcur u Hu). split; [|done]. by eapply connected_mono. }
    { intros v' Hv'. apply Hvs. by right. }
    exists es', k'. split; [done|]. split; [done|]. split; [by etrans|].
    intros v' [-> | Hv']%elem_of_cons; [by eapply connected_mono | by apply Hall].
Qed.


Lemma connectLayers_step (type : string) (layers : list (list nat))
    (es : list (nat * nat)) (k i : nat) (current next : list nat) :
  layers !! i = Some current → layers !! S i = Some next → layered n layers →
  rooted n es → (∀ u, u ∈ current → connected es 0 u) →
  ∃ es' k', connectLayers rnd type layers (Ret (es, k)) i = Ret (es', k')
            ∧ rooted n es' ∧ es ⊆ es'
            ∧ ∀ v, v ∈ next → connected es' 0 v.
Proof.
  intros Hc Hn Hlay Hgood Hcur.
  destruct (Hlay current) as [Hcne Hcr]; [by eapply list_elem_of_lookup_2|].
  destruct (Hlay next) as [Hnne Hnr]; [by eapply list_elem_of_lookup_2|].
  unfold connectLayers. rewrite Hc, Hn. cbn [default]. unfold id. case_decide.
  - cbn [mbind outcome_bind]. eexists _, _. split; [done|].
    assert (∀ u v, (u, v) ∈ (current ≫= λ u, (λ v, (u, v)) <$> next)
                   ↔ u ∈ current ∧ v ∈ next) as Hpairs.
    { intros u v. rewrite list_elem_of_bind. split.
      - intros (u' & Hin & Hu'). apply list_elem_of_fmap in Hin as (v' & [= -> ->] & Hv').
        done.
      - intros [Hu Hv]. exists u. split; [|done]. apply list_elem_of_fmap. by exists v. }
    assert (rooted n (es ++ (current ≫= λ u, (λ v, (u, v)) <$> next))) as Hg.
    { apply rooted_app; [done|]. intros u v [Hu Hv]%Hpairs.
      split; [by apply Hcur|]. split; [by apply Hcr | by apply Hnr]. }
    split; [done|]. split; [intros e He; rewrite elem_of_app; by left|].
    intros v Hv. destruct current as [|u current]; [done|].
    apply (rooted_head n _ u v); [done|]. rewrite elem_of_app. right.
    apply Hpairs. split; [by left | done].
  - destruct (fanOut_fold next current es k) as (es1 & k1 & -> & Hg1 & Hsub1);
      [done | done | done | |].
    { intros u Hu. split; [by apply Hcur | by apply Hcr]. }
    destruct (fanIn_fold current next es1 k1) as (es2 & k2 & -> & Hg2 & Hsub2 & Hall);
      [done | done | | done |].
    { intros u Hu. split; [|by apply Hcr]. eapply connected_mono; [done|]. by apply Hcur. }
    exists es2, k2. split; [done|]. split; [done|]. split; [by etrans | done].
Qed.

Lemma connect_fold (type : string) (layers : list (list nat)) (m a : nat)
    (es : list (nat * nat)) (k : nat) :
  layered n layers → (a + m < length layers)%nat → rooted n es →
  (∀ j layer, (j ≤ a)%nat → layers !! j = Some layer →
              ∀ v, v ∈ layer → connected es 0 v) →
  ∃ es' k', foldl (connectLayers rnd type layers) (Ret (es, k)) (seq a m) = Ret (es', k')
            ∧ rooted n es' ∧ es ⊆ es'
            ∧ ∀ j layer, (j ≤ a + m)%nat → layers !! j = Some layer →
                         ∀ v, v ∈ layer → connected es' 0 v.
Proof.
  intros Hlay. revert a es k. induction m as [|m IH]; intros a es k Hlen Hgood Hreach.
  - exists es, k. rewrite Nat.add_0_r. done.
  - destruct (lookup_lt_is_Some_2 layers a) as [current Hc]; [lia|].
    destruct (lookup_lt_is_Some_2 layers (S a)) as [next Hn]; [lia|].
    destruct (connectLayers_step type layers es k a current next)
      as (es1 & k1 & Hstep & Hg1 & Hsub1 & Hnext); [done | done | done | done | |].
    { by apply (Hreach a). }
    cbn [seq foldl]. rewrite Hstep.
    destruct (IH (S a) es1 k1) as (es' & k' & Hfold & Hg' & Hsub' & Hall);
      [lia | done | |].
    { intros j layer Hj Hl v Hv. destruct (decide (j = S a)) as [-> | Hne].
      - rewrite Hn in Hl. injection Hl as <-. by apply Hnext.
      - eapply connected_mono; [done|]. apply (Hreach j layer); [lia | done | done]. }
    exists es', k'. split; [done|]. split; [done|]. split; [by etrans|].
    intros j layer Hj. apply Hall. lia.
Qed.

Lemma crossLayer_step (acc : list (nat * nat) * nat) (layer : list nat) :
  rooted n acc.1 → (∀ u, u ∈ layer → connected acc.1 0 u ∧ (u < n)%nat) →
  rooted n (crossLayer rnd acc layer).1 ∧ acc.1 ⊆ (crossLayer rnd acc layer).1.
Proof.
  intros Hgood Hlayer. unfold crossLayer. case_bool_decide; [|done].
  apply (foldl_invariant (λ a, rooted n a.1 ∧ acc.1 ⊆ a.1)); [done|].
  intros [es k] j _ [Hg Hsub]. cbn [fst snd] in *.
  destruct (layer !! j) as [u|] eqn:Hu; [|done].
  destruct (layer !! S j) as [v|] eqn:Hv; [|done].
  destruct (Qltb (rnd k) (3 # 10)); [|done]. cbn [fst].
  apply list_elem_of_lookup_2 in Hu, Hv.
  destruct (Hlayer u Hu) as [Hru Hun]. destruct (Hlayer v Hv) as [_ Hvn].
  split.
  - apply rooted_app; [done|]. intros u' v' [= -> ->]%list_elem_of_singleton.
    split; [by eapply connected_mono | done].
  - intros e He. rewrite elem_of_app. left. by apply Hsub.
Qed.

Lemma cross_fold (layers : list (list nat)) (es : list (nat * nat)) (k : nat) :
  rooted n es →
  (∀ layer, layer ∈ layers → ∀ u, u ∈ layer → connected es 0 u ∧ (u < n)%nat) →
  rooted n (foldl (crossLayer rnd) (es, k) layers).1
  ∧ es ⊆ (foldl (crossLayer rnd) (es, k) layers).1.
Proof.
  intros Hgood Hlayers.
  apply (foldl_invariant (λ a, rooted n a.1 ∧ es ⊆ a.1)); [done|].
  intros acc layer Hin [Hg Hsub].
  destruct (crossLayer_step acc layer) as [Hg' Hsub']; [done | |].
  { intros u Hu. destruct (Hlayers layer Hin u Hu). split; [|done].
    by eapply connected_mono. }
  split; [done | by etrans].
Qed.


(** [count] of the layer loop. *)
Definition layerCount (type : string) (nodesPerLayer i : nat) : nat :=
  if bool_decide (type = "EVASIVE") && bool_decide (i mod 2 = 0)%nat
  then S nodesPerLayer else nodesPerLayer.

Lemma placeNode_fold (type : string) (randomness layerX spacing : Q) (count : nat)
    (js : list nat) (g : gen) (row : list nat) (idx : nat) :
  ∃ g' added,
    foldl (placeNode rnd type randomness layerX spacing count) (g, row, idx) js
    = (g', row ++ seq idx (length js), (idx + length js)%nat)
    ∧ g_nodes g' = g_nodes g ++ added
    ∧ node_id <$> added = seq idx (length js).
Proof.
  revert g row idx. induction js as [|j js IH]; intros g row idx.
  - exists g, []. cbn. rewrite !app_nil_r, Nat.add_0_r. done.
  - cbn [foldl]. unfold placeNode at 2. cbv beta iota zeta.
    match goal with
    | |- context [foldl _ (?g1, _, _) js] =>
        destruct (IH g1 (row ++ [idx]) (S idx)) as (g' & added & -> & Hn & Hid)
    end.
    cbn [g_nodes] in Hn.
    eexists g', (_ :: added). cbn [length seq].
    rewrite <- app_assoc, Nat.add_succ_r. split; [done|].
    split; [by rewrite Hn, <- app_assoc|]. by rewrite fmap_cons, Hid.
Qed.

Lemma placeLayer_fold (type : string) (nodesPerLayer : nat) (randomness lw : Q)
    (layerNos : list nat) (g : gen) (layers : list (list nat)) (idx : nat) :
  (0 < nodesPerLayer)%nat →
  ∃ g' new added,
    let total := sum_list (layerCount type nodesPerLayer <$> layerNos) in
    foldl (placeLayer rnd type nodesPerLayer randomness lw) (g, layers, idx) layerNos
    = (g', layers ++ new, (idx + total)%nat)
    ∧ length new = length layerNos
    ∧ concat new = seq idx total
    ∧ Forall (λ layer, layer ≠ []) new
    ∧ g_nodes g' = g_nodes g ++ added
    ∧ node_id <$> added = seq idx total.
Proof.
  intros Hpos. revert g layers idx. induction layerNos as [|i layerNos IH]; intros g layers idx.
  - exists g, [], []. cbn. rewrite !app_nil_r, Nat.add_0_r. done.
  - cbn [foldl]. unfold placeLayer at 2. cbv beta iota zeta.
    fold (layerCount type nodesPerLayer i).
    set (count := layerCount type nodesPerLayer i).
    assert (0 < count)%nat as Hcount.
    { unfold count, layerCount. destruct (_ && _); lia. }
    match goal with
    | |- context [foldl (placeNode rnd type randomness ?lx ?sp count) _ _] =>
        destruct (placeNode_fold type randomness lx sp count (seq 0 count) g [] idx)
          as (g1 & added1 & -> & Hn1 & Hid1)
    end.
    rewrite length_seq in *. cbn [app].
    destruct (IH g1 (layers ++ [seq idx count]) (idx + count)%nat)
      as (g' & new & added & Hfold & Hlen & Hcat & Hne & Hn & Hid).
    cbv zeta in Hfold. rewrite Hfold.
    exists g', (seq idx count :: new), (added1 ++ added). cbv zeta.
    cbn [fmap list_fmap sum_list sum_list_with]. unfold id. fold count.
    rewrite <- app_assoc. cbn [app].
    split; [f_equal; lia|]. split; [cbn; lia|].
    split; [cbn [concat]; by rewrite Hcat, seq_app|].
    split.
    { apply Forall_cons. split; [|done]. destruct count; [lia | done]. }
    split; [by rewrite Hn, Hn1, <- app_assoc|].
    by rewrite fmap_app, Hid1, Hid, seq_app.
Qed.

End Layers.

Section GridTopology.
Import TopologyGenerator.

Lemma elem_of_concat (ls : list (list nat)) (x : nat) :
  x ∈ concat ls ↔ ∃ l, l ∈ ls ∧ x ∈ l.
Proof.
  rewrite list_elem_of_In, in_concat. split.
  - intros (l & Hl & Hx). exists l. by rewrite !list_elem_of_In.
  - intros (l & Hl & Hx). exists l. by rewrite <- !list_elem_of_In.
Qed.

Lemma generateRLTopology_rooted (fuel : nat) (rnd : nat → Q)
    (shuffle : nat → list nat → list nat) (type currentAction strategy : string) :
  (∀ k, 0 <= rnd k ∧ rnd k < 1) →
  (∀ k l, shuffle k l ≡ₚ l) →
  (39 ≤ fuel)%nat →
  ∃ t ns,
    generateRLTopology fuel rnd shuffle type currentAction strategy = Ret t
    ∧ nodes t = markIdentified (chokepoints t) ns
    ∧ sources t = [O] ∧ goals t = [(length ns - 1)%nat]
    ∧ node_id <$> ns = seq 0 (length ns)
    ∧ length ns = (if decide (type = "DIRECT") then 8
                   else if decide (type = "EVASIVE") then 19 else 10)%nat
    ∧ rooted (length ns) (edges t)
    ∧ (∀ i, (i < length ns)%nat → connected (edges t) 0 i).
Proof.
  intros Hrnd Hperm Hfuel. unfold generateRLTopology. cbv zeta.
  destruct (layerParams type) as [[numLayers nodesPerLayer] randomness] eqn:Eparams.
  set (total := sum_list (layerCount type nodesPerLayer <$> seq 1 numLayers)).
  assert ((3 ≤ numLayers)%nat ∧ (0 < nodesPerLayer)%nat
          ∧ S (S total) = (if decide (type = "DIRECT") then 8
                           else if decide (type = "EVASIVE") then 19 else 10)%nat)
    as (HnumLayers & Hnpl & Htotal).
  { unfold total, layerCount. unfold layerParams in Eparams.
    repeat case_decide; injection Eparams as <- <- <-; subst;
      rewrite ?bool_decide_eq_true_2 by done; rewrite ?bool_decide_eq_false_2 by done;
      cbn; repeat case_bool_decide; try lia; (split; [lia | split; [lia | done]]). }
  match goal with
  | |- context [foldl (placeLayer rnd type nodesPerLayer randomness ?lw)
                      (?g0, [], 1%nat) _] =>
      destruct (placeLayer_fold rnd type nodesPerLayer randomness lw (seq 1 numLayers)
                  g0 [] 1 Hnpl)
        as (g1 & layers & added & Hfold & Hlen & Hcat & Hne & Hn & Hid)
  end.
  cbv zeta in Hfold, Hcat, Hid. fold total in Hfold, Hcat, Hid.
  rewrite length_seq in Hlen. cbn [app g_nodes] in Hfold, Hn.
  rewrite Hfold. cbv beta iota. clear Hfold.
  clearbody total.
  set (goalIndex := (1 + total)%nat).
  pose (n := S goalIndex).
  assert (layered n layers) as Hlay.
  { intros layer Hin. rewrite Forall_forall in Hne. split; [by apply Hne|].
    intros v Hv. assert (v ∈ concat layers) as Hc by (apply elem_of_concat; eauto).
    rewrite Hcat in Hc. apply elem_of_seq in Hc. unfold n, goalIndex. lia. }
  destruct (lookup_lt_is_Some_2 layers 0) as [layer0 Hl0]; [lia|].
  rewrite Hl0. cbn [default]. unfold id.
  set (es1 := (λ idx : nat, (0%nat, idx)) <$> layer0).
  assert (rooted n es1) as Hg1.
  { split.
    - intros e (idx & -> & Hidx)%list_elem_of_fmap. cbn [fst snd].
      split; [unfold n; lia|]. eapply Hlay; [|done]. by eapply list_elem_of_lookup_2.
    - intros u v (idx & [= -> ->] & _)%list_elem_of_fmap. apply rtc_refl. }
  destruct (connect_fold rnd Hrnd n type layers (length layers - 1) 0 es1 (g_calls g1))
    as (es2 & k2 & Hcf & Hg2 & Hsub2 & Hreach2); [done | lia | done | |].
  { intros j layer Hj Hl v Hv. assert (j = 0%nat) as -> by lia.
    rewrite Hl0 in Hl. injection Hl as <-. apply rtc_once. left.
    apply list_elem_of_fmap. by exists v. }
  rewrite Hcf. unfold mbind at 1, outcome_bind at 1. cbv beta iota. clear Hcf.
  destruct (lookup_lt_is_Some_2 layers (length layers - 1)) as [lastLayer Hll]; [lia|].
  rewrite Hll. cbn [default]. unfold id.
  set (es3 := es2 ++ ((λ idx : nat, (idx, goalIndex)) <$> lastLayer)).
  assert (rooted n es3) as Hg3.
  { apply rooted_app; [done|]. intros u v (idx & [= -> ->] & Hidx)%list_elem_of_fmap.
    split; [apply (Hreach2 (length layers - 1)%nat lastLayer); [lia | done | done]|].
    split; [|unfold n; lia]. eapply Hlay; [|done]. by eapply list_elem_of_lookup_2. }
  assert (es2 ⊆ es3) as Hsub3 by (intros e He; apply elem_of_app; by left).
  assert (∀ i, (i < n)%nat → connected es3 0 i) as Hall3.
  { intros i Hi.
    destruct (decide (i = 0%nat)) as [-> | Hi0]; [apply rtc_refl|].
    destruct (decide (i = goalIndex)) as [-> | HiG].
    - destruct (Hlay lastLayer) as [Hlne _]; [by eapply list_elem_of_lookup_2|].
      destruct lastLayer as [|u lastLayer]; [done|].
      apply (rooted_head n es3 u); [done|]. apply elem_of_app. right.
      apply list_elem_of_fmap. exists u. split; [done | by left].
    - assert (i ∈ concat layers) as Hc.
      { rewrite Hcat. apply elem_of_seq. unfold n, goalIndex in *. lia. }
      apply elem_of_concat in Hc as (layer & Hin & Hil).
      apply list_elem_of_lookup in Hin as [j Hj].
      eapply connected_mono; [exact Hsub3|].
      apply (Hreach2 j layer); [|done | done].
      apply lookup_lt_Some in Hj. lia. }
  match goal with
  | |- context [if ?c then foldl (crossLayer rnd) _ _ else _] =>
      assert (∃ es4 k4, (if c then foldl (crossLayer rnd) (es3, k2) layers else (es3, k2))
                        = (es4, k4) ∧ rooted n es4 ∧ es3 ⊆ es4)
        as (es4 & k4 & Hcross & Hg4 & Hsub4)
  end.
  { destruct (_ && _).
    - destruct (cross_fold rnd n layers es3 k2) as [Hg Hs]; [done | |].
      { intros layer Hin u Hu. assert (u < n)%nat by (by eapply Hlay).
        split; [by apply Hall3 | done]. }
      destruct (foldl (crossLayer rnd) (es3, k2) layers) as [es4 k4].
      by exists es4, k4.
    - by exists es3, k2. }
  fold es3. rewrite Hcross. cbv beta iota. clear Hcross.
  set (ns := g_nodes g1 ++ [_]).
  assert (node_id <$> ns = seq 0 n) as Hids.
  { unfold ns. rewrite fmap_app, Hn. cbn [fmap list_fmap app node_id]. rewrite Hid.
    unfold n. rewrite (seq_S goalIndex). unfold goalIndex. done. }
  assert (length ns = n) as Hlenns.
  { by rewrite <- (length_fmap node_id), Hids, length_seq. }
  assert (n ≤ 19)%nat as Hn19.
  { unfold n, goalIndex. cbn [Nat.add]. rewrite Htotal. repeat case_decide; lia. }
  destruct (identifyChokepoints_total shuffle ns es4 [0%nat] [goalIndex] fuel Hperm)
    as [chk Hchk].
  { rewrite Hlenns. apply Hg4. }
  { intros s0 ->%list_elem_of_singleton. rewrite Hlenns. unfold n. lia. }
  { rewrite Hlenns. lia. }
  rewrite Hchk. unfold mbind at 1, outcome_bind at 1. cbv beta iota.
  eexists _, ns. split; [reflexivity|]. cbn [nodes edges sources goals chokepoints].
  rewrite Hlenns. split; [done|]. split; [done|].
  split; [unfold n; do 2 f_equal; lia|]. split; [done|].
  split; [unfold n, goalIndex; cbn [Nat.add]; exact Htotal|].
  split; [done|].
  intros i Hi. eapply connected_mono; [exact Hsub4|]. by apply Hall3.
Qed.

(** X17. Every map of the parametrized-grid policy is in one piece.
    [generateRLTopology] throws nothing, whatever the style, the samples of
    [Math.random] and the order of the neighbours in the analyzer: the map
    has 8 nodes for 'DIRECT', 19 for 'EVASIVE' and 10 for every other
    style, the nodes are numbered by their position, edges join only nodes
    that exist, node 0 is the source and the last node the goal, and every
    node can be reached from the source along edges. *)
Theorem generateRLTopology_connected (fuel : nat) (rnd : nat → Q)
    (shuffle : nat → list nat → list nat) (type currentAction strategy : string) :
  (∀ k, 0 <= rnd k ∧ rnd k < 1) →
  (∀ k l, shuffle k l ≡ₚ l) →
  (39 ≤ fuel)%nat →
  ∃ t,
    generateRLTopology fuel rnd shuffle type currentAction strategy = Ret t
    ∧ length (nodes t) = (if decide (type = "DIRECT") then 8
                          else if decide (type = "EVASIVE") then 19 else 10)%nat
    ∧ (∀ i node, nodes t !! i = Some node → node_id node = i)
    ∧ edgesInRange (length (nodes t)) (edges t)
    ∧ sources t = [O] ∧ goals t = [(length (nodes t) - 1)%nat]
    ∧ (∀ i, (i < length (nodes t))%nat → connected (edges t) 0 i).
Proof.
  intros Hrnd Hperm Hfuel.
  destruct (generateRLTopology_rooted fuel rnd shuffle type currentAction strategy
              Hrnd Hperm Hfuel)
    as (t & ns & Hrun & Hnodes & Hsrc & Hgoal & Hids & Hlen & [Hrange _] & Hconn).
  assert (length (nodes t) = length ns) as Hlenm.
  { rewrite Hnodes. unfold markIdentified. by rewrite length_imap. }
  exists t. rewrite Hlenm. split; [done|]. split; [done|]. split.
  { intros i node. rewrite Hnodes. unfold markIdentified. rewrite list_lookup_imap.
    destruct (ns !! i) as [node0|] eqn:Hi; [|done]. cbn. intros [= <-].
    assert ((node_id <$> ns) !! i = Some (node_id node0)) as Hl.
    { by rewrite list_lookup_fmap, Hi. }
    rewrite Hids in Hl. apply lookup_seq in Hl as [Hl _].
    case_bool_decide; cbn; lia. }
  done.
Qed.

Lemma generateRLTopology_connected_witness :
  ∃ t, generateRLTopology 39 (λ _, 1 # 2) (λ _ l, l) "EVASIVE" "DEFENSIVE" "IDS_FOCUSED"
       = Ret t
       ∧ sources t = [0%nat]
       ∧ connected (edges t) 0 (length (nodes t) - 1).
Proof.
  destruct (generateRLTopology_connected 39 (λ _, 1 # 2) (λ _ l, l)
              "EVASIVE" "DEFENSIVE" "IDS_FOCUSED")
    as (t & Hrun & Hlen & _ & _ & Hsrc & _ & Hconn).
  - intros _. split; [discriminate | reflexivity].
  - intros k l. reflexivity.
  - apply le_n.
  - exists t. split; [exact Hrun|]. split; [exact Hsrc|]. apply Hconn.
    rewrite Hlen. repeat case_decide; lia.
Defined.

End GridTopology.

(** ** Topology rotation of the economic level (EconomicRL.js,
    LevelManagerEconomic.js) *)

Module EconomicTopology.

(** The first step of [generateDynamicTopology(towers)]: the strategy read
    off the towers. [counts[t.type]++] counts the towers of the three known
    types. *)
Definition playerStrategy (towers : option (list Tower.t)) : string :=
  match towers with
  | Some (tower :: rest) =>
      let types := Tower.type <$> tower :: rest in
      let count := λ key : string, ofNat (length (filter (λ ty, ty = key) types)) in
      let total := ofNat (length types) in
      if Qltb (5 # 10) (count "Firewall" / total) then "FIREWALL_HEAVY"
      else if Qltb (4 # 10) (count "IDS" / total) then "IDS_FOCUSED"
      else if Qltb (3 # 10) (count "Honeypot" / total) then "HONEYPOT_TRAP"
      else "BALANCED"
  | _ => "BALANCED"
  end.

(** The second step: the style of the map. [currentAction] is
    [this.currentAction] as the template literal prints it. *)
Definition topologyType (currentAction strategy : string) : string :=
  if decide (currentAction = "AGGRESSIVE") then "DIRECT"
  else if decide (currentAction = "DEFENSIVE") then
    if decide (strategy = "FIREWALL_HEAVY") then "SPREAD"
    else if decide (strategy = "IDS_FOCUSED") then "EVASIVE"
    else "EVASIVE"
  else "BALANCED".

(** [generateDynamicTopology(towers)] *)
Definition generateDynamicTopology (fuel : nat) (rnd : nat → Q)
    (shuffle : nat → list nat → list nat) (currentAction : string)
    (towers : option (list Tower.t)) : outcome TopologyGenerator.topology :=
  let strategy := playerStrategy towers in
  let topoType := topologyType currentAction strategy in
  TopologyGenerator.generateRLTopology fuel rnd shuffle topoType currentAction strategy.

End EconomicTopology.

Module LevelManagerEconomic.

(** The fields [rotateTopology] reads and writes; [rotations] are the
    ['economicTopologyRotation'] events sent so far. *)
Record t : Type := mkLM {
  topology : option string;
  nodes : list Node;
  edges : list (nat * nat);
  sources : list nat;
  goals : list nat;
  chokepoints : list nat;
  paths : list (list nat);
  topologyVariants : list string;
  wavesSinceSwitch : nat;
  wave : nat;
  rotations : list (string * nat)
}.

(** [do { nextIndex = Math.floor(Math.random() * this.topologyVariants.length); }
    while (this.topologyVariants[nextIndex] === this.level.topology);] *)
Fixpoint pickVariant (fuel : nat) (rnd : nat → Q) (k : nat) (variants : list string)
    (current : option string) : outcome (option string) :=
  match fuel with
  | O => OutOfFuel
  | S fuel' =>
      let nextIndex := Qfloor (rnd k * ofNat (length variants)) in
      let variant := if (nextIndex <? 0)%Z then None else variants !! Z.to_nat nextIndex in
      if decide (variant = current) then pickVariant fuel' rnd (S k) variants current
      else Ret variant
  end.

(** The end of [rotateTopology]: the new topology is stored, the paths are
    recalculated and the rotation is announced. *)
Definition install (hypot : Q → Q → Q) (fuel : nat) (rnds : nat → nat → Q)
    (topologyData : TopologyGenerator.topology) (topologyName : string) (lm : t)
  : outcome t :=
  ps ← LevelPaths.calculatePaths hypot fuel rnds
         (TopologyGenerator.nodes topologyData) (TopologyGenerator.edges topologyData)
         (TopologyGenerator.sources topologyData) (TopologyGenerator.goals topologyData);
  Ret {| topology := Some topologyName;
         nodes := TopologyGenerator.nodes topologyData;
         edges := TopologyGenerator.edges topologyData;
         sources := TopologyGenerator.sources topologyData;
         goals := TopologyGenerator.goals topologyData;
         chokepoints := TopologyGenerator.chokepoints topologyData;
         paths := ps;
         topologyVariants := topologyVariants lm;
         wavesSinceSwitch := O;
         wave := wave lm;
         rotations := rotations lm ++ [(topologyName, wave lm)] |}.

(** [rotateTopology(towers)]; [towers] is [None] when the argument is left
    out. [TOPOLOGIES] is [Config.TOPOLOGIES]. The generator returns an
    object whenever it returns, so the string fallback of the dynamic branch
    is never taken. [genFuel] bounds the loops of the generator and of the
    variant choice, [pathFuel] those of [findPath]. *)
Definition rotateTopology (hypot : Q → Q → Q) (genFuel pathFuel : nat)
    (rnd : nat → Q) (rnds : nat → nat → Q) (shuffle : nat → list nat → list nat)
    (TOPOLOGIES : gmap string TopologyGenerator.topology) (currentAction : string)
    (towers : option (list Tower.t)) (lm : t) : outcome t :=
  match towers with
  | Some _ =>
      generated ← EconomicTopology.generateDynamicTopology genFuel rnd shuffle
                    currentAction towers;
      install hypot pathFuel rnds generated (TopologyGenerator.name generated) lm
  | None =>
      variant ← pickVariant genFuel rnd 0 (topologyVariants lm) (topology lm);
      match variant with
      | Some topologyName =>
          match TOPOLOGIES !! topologyName with
          | Some topologyData => install hypot pathFuel rnds topologyData topologyName lm
          | None => Ret lm
          end
      | None => Ret lm
      end
  end.

End LevelManagerEconomic.

(** The number of nodes of a grid of style [type]. *)
Definition gridNodes (type : string) : nat :=
  if decide (type = "DIRECT") then 8%nat
  else if decide (type = "EVASIVE") then 19%nat else 10%nat.

(** X18. A rotation with towers yields a level that can be played.
    [rotateTopology(towers)] throws nothing: it installs a generated map
    with node 0 as the only source and the last node as the only goal,
    [calculatePaths] keeps exactly one path, a route along the new edges
    from the source to the goal, the wave counter of the rotation is reset,
    [getRandomPath] returns that path and the [Enemy] constructor accepts
    it. *)
Theorem rotateTopology_playable (hypot : Q → Q → Q) (genFuel pathFuel : nat)
    (rnd : nat → Q) (rnds : nat → nat → Q) (shuffle : nat → list nat → list nat)
    (TOPOLOGIES : gmap string TopologyGenerator.topology) (currentAction : string)
    (towers : list Tower.t) (lm : LevelManagerEconomic.t) :
  (∀ a b, 0 <= hypot a b) →
  (∀ k, 0 <= rnd k ∧ rnd k < 1) →
  (∀ k j, 0 <= rnds k j ∧ rnds k j < 1) →
  (∀ k l, shuffle k l ≡ₚ l) →
  (39 ≤ genFuel)%nat →
  (findPathFuel
     (gridNodes (EconomicTopology.topologyType currentAction
                   (EconomicTopology.playerStrategy (Some towers)))) ≤ pathFuel)%nat →
  ∃ lm' p,
    LevelManagerEconomic.rotateTopology hypot genFuel pathFuel rnd rnds shuffle
      TOPOLOGIES currentAction (Some towers) lm = Ret lm'
    ∧ LevelManagerEconomic.paths lm' = [p]
    ∧ LevelManagerEconomic.sources lm' = [0%nat]
    ∧ LevelManagerEconomic.goals lm' = [(length (LevelManagerEconomic.nodes lm') - 1)%nat]
    ∧ routeOf (LevelManagerEconomic.edges lm') (length (LevelManagerEconomic.nodes lm'))
              0 (length (LevelManagerEconomic.nodes lm') - 1) p
    ∧ LevelManagerEconomic.wavesSinceSwitch lm' = 0%nat
    ∧ (∀ r, 0 <= r → r < 1 →
            LevelPaths.getRandomPath r (LevelManagerEconomic.paths lm') = Some p)
    ∧ (∀ r1 r2 type cfg, Config.ENEMIES type = Some cfg →
         ∃ e, Enemy.new r1 r2 type p (LevelManagerEconomic.nodes lm')
                (Some (LevelManagerEconomic.edges lm')) = Ret e).
Proof.
  intros Hh Hrnd Hrnds Hperm Hgen Hpath.
  unfold LevelManagerEconomic.rotateTopology, EconomicTopology.generateDynamicTopology.
  cbv zeta.
  set (strategy := EconomicTopology.playerStrategy (Some towers)) in *.
  set (type := EconomicTopology.topologyType currentAction strategy) in *.
  destruct (generateRLTopology_rooted genFuel rnd shuffle type currentAction strategy
              Hrnd Hperm Hgen)
    as (t & ns & Hrun & Hnodes & Hsrc & Hgoal & Hids & Hlen & [Hrange _] & Hconn).
  fold (gridNodes type) in Hlen.
  assert (length (TopologyGenerator.nodes t) = length ns) as Hlenm.
  { rewrite Hnodes. unfold TopologyGenerator.markIdentified. by rewrite length_imap. }
  assert (8 ≤ length ns)%nat as Hbig.
  { rewrite Hlen. unfold gridNodes. repeat case_decide; lia. }
  rewrite Hrun. unfold mbind at 1, outcome_bind at 1. cbv beta iota.
  assert (edgesInRange (length (TopologyGenerator.nodes t)) (TopologyGenerator.edges t))
    as He by (by rewrite Hlenm).
  assert (findPathFuel (length (TopologyGenerator.nodes t)) ≤ pathFuel)%nat as Hfuel.
  { rewrite Hlenm, Hlen. exact Hpath. }
  destruct (findPath_total hypot (rnds 0%nat) (TopologyGenerator.nodes t)
              (TopologyGenerator.edges t) 0 (length ns - 1) true Hh (Hrnds 0%nat) He
              ltac:(lia) ltac:(lia) ltac:(lia) pathFuel Hfuel)
    as (p & Hp & Hroute).
  destruct Hroute as [[_ Hno] | (Hhead & Hlast & Hlinked & _)].
  { exfalso. apply Hno. apply Hconn. lia. }
  assert (p ≠ []) as Hpne by (by destruct p).
  unfold LevelManagerEconomic.install, LevelPaths.calculatePaths, LevelPaths.pairsOf.
  rewrite Hsrc, Hgoal. cbn [mbind list_bind fmap list_fmap app imap foldl].
  unfold LevelPaths.addPath at 1. cbn [fst snd]. rewrite Hp. cbn [mbind outcome_bind].
  rewrite bool_decide_eq_true_2 by (destruct p; [done | simpl; lia]). cbn [app].
  eexists _, p. split; [reflexivity|].
  cbn [LevelManagerEconomic.paths LevelManagerEconomic.sources LevelManagerEconomic.goals
       LevelManagerEconomic.nodes LevelManagerEconomic.edges
       LevelManagerEconomic.wavesSinceSwitch].
  rewrite Hlenm.
  assert (Forall (λ i, (i < length ns)%nat) p) as Hin.
  { apply (linked_in_range _ (TopologyGenerator.edges t)); [done | done |].
    intros a Ha. rewrite Hhead in Ha. injection Ha as <-. lia. }
  split; [done|]. split; [done|]. split; [done|]. split; [done|]. split; [done|]. split.
  - intros r Hr0 Hr1. unfold LevelPaths.getRandomPath. cbn [length].
    rewrite decide_False by done.
    pose proof (floor_below r 1 Hr0 Hr1 ltac:(lia)) as Hidx.
    destruct (Z.to_nat (Qfloor (r * ofNat 1))) as [|k] eqn:Ek; [done | lia].
  - intros r1 r2 type0 cfg Hcfg.
    destruct p as [|a [|b p]]; [done | |].
    { simpl in Hhead, Hlast. injection Hhead as ->. injection Hlast as Hl. lia. }
    apply Forall_cons in Hin as [Ha Hin]. apply Forall_cons in Hin as [Hb _].
    rewrite <- Hlenm in Ha, Hb.
    destruct (lookup_lt_is_Some_2 _ a Ha) as [na Hna].
    destruct (lookup_lt_is_Some_2 _ b Hb) as [nb Hnb].
    unfold Enemy.new, Enemy.nodeAt. simpl. rewrite Hna, Hnb. simpl. rewrite Hcfg. simpl.
    by eexists.
Qed.

Lemma rotateTopology_playable_witness :
  ∃ lm' p,
    LevelManagerEconomic.rotateTopology manhattan 39 (findPathFuel 8) (λ _, 1 # 2)
      (λ _ _, 1 # 2) (λ _ l, l) ∅ "AGGRESSIVE" (Some [])
      (LevelManagerEconomic.mkLM None [] [] [] [] [] [] [] 0 0 []) = Ret lm'
    ∧ LevelManagerEconomic.paths lm' = [p].
Proof.
  destruct (rotateTopology_playable manhattan 39 (findPathFuel 8) (λ _, 1 # 2)
              (λ _ _, 1 # 2) (λ _ l, l) ∅ "AGGRESSIVE" []
              (LevelManagerEconomic.mkLM None [] [] [] [] [] [] [] 0 0 [])
              manhattan_nonneg)
    as (lm' & p & Hrun & Hpaths & _).
  - intros _. split; [discriminate | reflexivity].
  - intros _ _. split; [discriminate | reflexivity].
  - intros k l. reflexivity.
  - apply le_n.
  - apply le_n.
  - exists lm', p. split; [exact Hrun | exact Hpaths].
Defined.

(** ** The weakest paths (PerfectAI.findWeakestPaths) *)

(** [coverage[n].damagePerSecond], summed along a path. *)
Definition damageAt (coverage : list PerfectAI.nodeCoverage) (n : nat) : Q :=
  default 0 (PerfectAI.damagePerSecond <$> coverage !! n).

Definition damageAlong (coverage : list PerfectAI.nodeCoverage) (p : list nat) : Q :=
  foldr Qplus 0 (damageAt coverage <$> p).

(** The order of the sorted analysis: by total damage, and by path index
    among equals. *)
Definition weakerFirst (a b : PerfectAI.pathInfo) : Prop :=
  PerfectAI.totalDamage a <= PerfectAI.totalDamage b
  ∧ (PerfectAI.totalDamage a == PerfectAI.totalDamage b →
     (PerfectAI.pathIndex a < PerfectAI.pathIndex b)%nat).

Lemma StronglySorted_lookup {A : Type} (R : A → A → Prop) (l : list A) (i j : nat)
    (a b : A) :
  StronglySorted R l → (i < j)%nat → l !! i = Some a → l !! j = Some b → R a b.
Proof.
  intros Hs. revert i j. induction Hs as [|x l Hs IH Hx]; intros i j Hij Ha Hb.
  - by rewrite lookup_nil in Ha.
  - destruct j as [|j]; [lia|]. cbn in Hb. destruct i as [|i].
    + cbn in Ha. injection Ha as <-. rewrite Forall_forall in Hx. apply Hx.
      by eapply list_elem_of_lookup_2.
    + cbn in Ha. apply (IH i j); [lia | done | done].
Qed.

Section WeakestPaths.
Import PerfectAI.

Variable coverage : list nodeCoverage.

Lemma scan_spec (nodes : list nat) (t0 : Q) (m0 : num) (w0 : option nat) :
  (∀ n, n ∈ nodes → (n < length coverage)%nat) →
  ∃ t m w,
    foldl (scanNode coverage) (Some (t0, m0, w0)) nodes = Some (t, m, w)
    ∧ t == t0 + damageAlong coverage nodes
    ∧ num_le m m0
    ∧ (∀ n, n ∈ nodes → num_le m (Fin (damageAt coverage n)))
    ∧ ((m = m0 ∧ w = w0)
       ∨ ∃ n, n ∈ nodes ∧ m = Fin (damageAt coverage n) ∧ w = Some n).
Proof.
  revert t0 m0 w0. induction nodes as [|n nodes IH]; intros t0 m0 w0 Hr.
  - exists t0, m0, w0. split; [done|]. split; [unfold damageAlong; simpl; lra|].
    split; [apply num_le_refl|]. split; [by intros n ?%elem_of_nil | by left].
  - destruct (lookup_lt_is_Some_2 coverage n) as [cov Hcov]; [apply Hr; by left|].
    assert (damageAt coverage n = damagePerSecond cov) as Hdmg.
    { unfold damageAt. by rewrite Hcov. }
    cbn [foldl]. unfold scanNode at 2. cbn [mbind option_bind]. rewrite Hcov.
    cbn [mbind option_bind]. rewrite <- Hdmg.
    assert (damageAlong coverage (n :: nodes)
            = damageAt coverage n + damageAlong coverage nodes) as Hsum by done.
    destruct (num_lt (Fin (damageAt coverage n)) m0) eqn:Hlt.
    + destruct (IH (t0 + damageAt coverage n) (Fin (damageAt coverage n)) (Some n))
        as (t & m & w & -> & Ht & Hm & Hall & Hw).
      { intros n' Hn'. apply Hr. by right. }
      exists t, m, w. split; [done|]. split; [rewrite Hsum; lra|].
      split; [eapply num_le_trans; [done|]; by apply num_lt_le|].
      split.
      * intros n' [-> | Hn']%elem_of_cons; [done | by apply Hall].
      * right. destruct Hw as [[-> ->] | (n' & Hn' & -> & ->)].
        -- exists n. split; [by left | done].
        -- exists n'. split; [by right | done].
    + destruct (IH (t0 + damageAt coverage n) m0 w0) as (t & m & w & -> & Ht & Hm & Hall & Hw).
      { intros n' Hn'. apply Hr. by right. }
      exists t, m, w. split; [done|]. split; [rewrite Hsum; lra|].
      split; [done|]. split.
      * intros n' [-> | Hn']%elem_of_cons; [|by apply Hall].
        eapply num_le_trans; [done|]. by apply num_lt_ge.
      * destruct Hw as [? | (n' & Hn' & -> & ->)]; [by left|].
        right. exists n'. split; [by right | done].
Qed.

Lemma insertByDamage_sorted (x : pathInfo) (l : list pathInfo) :
  StronglySorted weakerFirst l →
  Forall (λ y, (pathIndex y < pathIndex x)%nat) l →
  StronglySorted weakerFirst (insertByDamage x l).
Proof.
  induction l as [|y l IH]; intros Hs Hidx; cbn [insertByDamage].
  - repeat constructor.
  - apply StronglySorted_inv in Hs as [Hs Hy].
    apply Forall_cons in Hidx as [Hyx Hidx].
    destruct (Qltb (totalDamage x) (totalDamage y)) eqn:Hlt.
    + apply Qltb_lt in Hlt. constructor; [by constructor|].
      constructor.
      * split; [lra|]. intros Heq. lra.
      * eapply Forall_impl; [exact Hy|]. intros z [Hyz _]. split; [lra|].
        intros Heq. lra.
    + apply Qltb_ge in Hlt. constructor; [by apply IH|].
      rewrite insertByDamage_perm. constructor; [|done].
      split; [done|]. by intros _.
Qed.

Lemma sortByDamage_sorted (raw : list pathInfo) :
  (∀ i info, raw !! i = Some info → pathIndex info = i) →
  StronglySorted weakerFirst (sortByDamage raw).
Proof.
  induction raw as [|x raw IH] using rev_ind; intros Hidx; [constructor|].
  unfold sortByDamage. rewrite foldl_app. cbn [foldl]. fold (sortByDamage raw).
  apply insertByDamage_sorted.
  - apply IH. intros i info Hi. apply Hidx. by apply lookup_app_l_Some.
  - rewrite sortByDamage_perm. apply Forall_forall. intros y Hy.
    apply list_elem_of_lookup in Hy as [i Hi].
    rewrite (Hidx i y) by (by apply lookup_app_l_Some).
    rewrite (Hidx (length raw) x).
    + by eapply lookup_lt_Some.
    + by rewrite lookup_app_r, Nat.sub_diag by lia.
Qed.


(** X19. The analysis of the paths comes weakest first. When the coverage
    has an entry for every node of every path, [findWeakestPaths] throws
    nothing and returns one entry per path, ordered by total damage, paths
    of equal damage in their original order; the total of an entry is the
    damage per second summed along its path, and its weakest node is a node
    of the path where that damage is least ([null] with [Infinity] only for
    an empty path). *)
Theorem findWeakestPaths_sorted (lm : level) :
  (∀ p, p ∈ lm_paths lm → ∀ n, n ∈ p → (n < length coverage)%nat) →
  ∃ infos,
    findWeakestPaths lm coverage = Ret infos
    ∧ pathIndex <$> infos ≡ₚ seq 0 (length (lm_paths lm))
    ∧ (∀ i j a b, (i < j)%nat → infos !! i = Some a → infos !! j = Some b →
                  weakerFirst a b)
    ∧ ∀ info, info ∈ infos →
        lm_paths lm !! pathIndex info = Some (path info)
        ∧ totalDamage info == damageAlong coverage (path info)
        ∧ match weakestNode info with
          | Some w => w ∈ path info
                      ∧ minDamage info = Fin (damageAt coverage w)
                      ∧ ∀ n, n ∈ path info → damageAt coverage w <= damageAt coverage n
          | None => path info = [] ∧ minDamage info = Inf
          end.
Proof.
  intros Hr. unfold findWeakestPaths.
  set (entry := λ ip : nat * list nat, _).
  assert (∀ i p, lm_paths lm !! i = Some p →
            ∃ info, entry (i, p) = Some info
                    ∧ pathIndex info = i ∧ path info = p
                    ∧ totalDamage info == damageAlong coverage p
                    ∧ match weakestNode info with
                      | Some w => w ∈ p
                                  ∧ minDamage info = Fin (damageAt coverage w)
                                  ∧ ∀ n, n ∈ p → damageAt coverage w <= damageAt coverage n
                      | None => p = [] ∧ minDamage info = Inf
                      end) as Hentry.
  { intros i p Hp. unfold entry. cbn [fst snd].
    destruct (scan_spec p 0 Inf None) as (t & m & w & -> & Ht & _ & Hall & Hw).
    { apply Hr. by eapply list_elem_of_lookup_2. }
    cbn [mbind option_bind]. eexists. split; [done|]. cbn.
    split; [done|]. split; [done|]. split; [lra|].
    destruct Hw as [[-> ->] | (n & Hn & -> & ->)].
    - split; [|done]. destruct p as [|n p]; [done|].
      specialize (Hall n ltac:(by left)). done.
    - split; [done|]. split; [done|]. intros n' Hn'. apply (Hall n' Hn'). }
  assert (∃ raw, mapM entry (imap (λ i p, (i, p)) (lm_paths lm)) = Some raw
                 ∧ length raw = length (lm_paths lm)
                 ∧ ∀ i info, raw !! i = Some info →
                     ∃ p, lm_paths lm !! i = Some p ∧ entry (i, p) = Some info)
    as (raw & -> & Hlen & Hraw).
  { destruct (mapM entry _) as [raw|] eqn:Hm.
    - exists raw. split; [done|]. apply mapM_Some in Hm.
      split; [by rewrite <- (Forall2_length _ _ _ Hm), length_imap|].
      intros i info Hi.
      destruct (Forall2_lookup_r _ _ _ _ _ Hm Hi) as ([i' p] & Hip & He).
      rewrite list_lookup_imap in Hip.
      destruct (lm_paths lm !! i) as [p'|]; [|done]. cbn in Hip. injection Hip as <- <-.
      by exists p'.
    - exfalso. revert Hm. apply (not_eq_None_Some (mapM _ _)), mapM_is_Some, Forall_forall.
      intros [i p] Hin. apply elem_of_lookup_imap in Hin as (i' & p' & [= -> ->] & Hp).
      destruct (Hentry i' p' Hp) as (info & Hinfo & _). by exists info. }
  cbn [orThrow mbind outcome_bind]. eexists. split; [done|].
  assert (∀ i info, raw !! i = Some info → pathIndex info = i) as Hidx.
  { intros i info Hi. destruct (Hraw i info Hi) as (p & Hp & He).
    destruct (Hentry i p Hp) as (info' & He' & Hi' & _). congruence. }
  split.
  { rewrite sortByDamage_perm.
    assert (pathIndex <$> raw = seq 0 (length (lm_paths lm))) as ->; [|done].
    rewrite <- Hlen. apply list_eq. intros i. rewrite list_lookup_fmap.
    destruct (decide (i < length raw)%nat) as [Hlt | Hge].
    - rewrite lookup_seq_lt by done.
      destruct (lookup_lt_is_Some_2 raw i Hlt) as [info Hi]. rewrite Hi. cbn.
      by rewrite (Hidx i info Hi).
    - rewrite lookup_seq_ge by lia. by rewrite lookup_ge_None_2 by lia. }
  split.
  { intros i j a b Hij Ha Hb.
    pose proof (sortByDamage_sorted raw Hidx) as Hsorted.
    by apply (StronglySorted_lookup weakerFirst (sortByDamage raw) i j). }
  intros info Hin. rewrite sortByDamage_perm in Hin.
  apply list_elem_of_lookup in Hin as [i Hi].
  destruct (Hraw i info Hi) as (p & Hp & He).
  destruct (Hentry i p Hp) as (info' & He' & Hi' & Hp' & Ht & Hw).
  assert (info' = info) as -> by congruence. rewrite Hi', Hp'. done.
Qed.

End WeakestPaths.

Lemma findWeakestPaths_sorted_witness :
  ∃ infos,
    PerfectAI.findWeakestPaths (PerfectAI.mkLevel [] [[0; 1]; [1]]%nat [])
      [PerfectAI.mkCoverage 5 ∅ true; PerfectAI.mkCoverage 1 ∅ true] = Ret infos
    ∧ ∀ a b, infos !! 0%nat = Some a → infos !! 1%nat = Some b →
             PerfectAI.totalDamage a <= PerfectAI.totalDamage b.
Proof.
  destruct (findWeakestPaths_sorted
              [PerfectAI.mkCoverage 5 ∅ true; PerfectAI.mkCoverage 1 ∅ true]
              (PerfectAI.mkLevel [] [[0; 1]; [1]]%nat []))
    as (infos & Hrun & _ & Hsorted & _).
  - intros p Hp n Hn.
    assert (Forall (Forall (λ n, (n < 2)%nat)) [[0; 1]; [1]]%nat) as Hall
      by (repeat constructor).
    rewrite Forall_forall in Hall. specialize (Hall p Hp).
    rewrite Forall_forall in Hall. exact (Hall n Hn).
  - exists infos. split; [exact Hrun|]. intros a b Ha Hb.
    apply (Hsorted 0%nat 1%nat a b); [lia | exact Ha | exact Hb].
Defined.

(** ** The enemy types of the equilibrium attacker (PerfectAI.js) *)

Section ThreatsOnly.
Import PerfectAI.

Lemma rollMix_key (roll cumulative : Q) (mix : list (string * Q)) :
  rollMix roll cumulative mix = "BASIC" ∨ rollMix roll cumulative mix ∈ mix.*1.
Proof.
  revert cumulative. induction mix as [|[type probability] mix IH]; intros cumulative.
  - by left.
  - cbn [rollMix]. destruct (Qle_bool _ _).
    + right. by left.
    + destruct (IH (cumulative + probability)) as [? | ?]; [by left|].
      right. by right.
Qed.

Lemma strategyFor_keys (posture : Posture) (info : pathInfo) :
  (enemyMix (strategyFor posture info)).*1 = candidates.
Proof.
  unfold strategyFor. cbn [enemyMix]. rewrite <- !list_fmap_compose.
  rewrite <- (list_fmap_id candidates) at 2. by apply list_fmap_ext.
Qed.

Lemma strategy_values (posture : Posture) (infos : list pathInfo)
    (m : gmap nat pathStrategy) (i : nat) (s : pathStrategy) :
  (∀ j s', m !! j = Some s' → ∃ info, s' = strategyFor posture info) →
  foldl (λ strategy info, <[pathIndex info := strategyFor posture info]> strategy) m infos
  !! i = Some s →
  ∃ info, s = strategyFor posture info.
Proof.
  revert m. induction infos as [|x infos IH]; intros m Hm; cbn [foldl].
  - apply Hm.
  - apply IH. intros j s' Hj.
    destruct (decide (pathIndex x = j)) as [<- | Hne].
    + rewrite lookup_insert_eq in Hj. injection Hj as <-. by exists x.
    + rewrite lookup_insert_ne in Hj by done. by eapply Hm.
Qed.

End ThreatsOnly.

(** X20. The equilibrium attacker never sends legitimate traffic. Whatever
    the committed towers, the analysis of the paths, the path asked for and
    the roll, [getEnemyTypeForPath] on the strategy that
    [calculateOptimalAttack] builds returns one of BASIC, FAST, TANK,
    STEALTH, ENCRYPTED and ADAPTIVE. *)
Theorem getEnemyTypeForPath_threat (lm : PerfectAI.level)
    (coverage : list PerfectAI.nodeCoverage) (pathAnalysis : list PerfectAI.pathInfo)
    (pathIndex : nat) (roll : Q) :
  let perfectStrategy := (PerfectAI.calculateOptimalAttack lm coverage pathAnalysis).1 in
  let type := PerfectAI.getEnemyTypeForPath (Some perfectStrategy) pathIndex roll in
  type ∈ ["BASIC"; "FAST"; "TANK"; "STEALTH"; "ENCRYPTED"; "ADAPTIVE"]
  ∧ type ≠ "LEGITIMATE".
Proof.
  intros perfectStrategy type.
  assert (type ∈ PerfectAI.candidates) as Hin.
  { unfold type, PerfectAI.getEnemyTypeForPath.
    destruct (perfectStrategy !! pathIndex) as [s|] eqn:Hs; [|by left].
    unfold perfectStrategy, PerfectAI.calculateOptimalAttack in Hs. cbn [fst] in Hs.
    apply strategy_values in Hs as [info ->]; [|by intros j s' ?].
    destruct (rollMix_key roll 0 (PerfectAI.enemyMix
                (PerfectAI.strategyFor (PerfectAI.postureOf (PerfectAI.lm_committedTowers lm))
                   info))) as [-> | Hkey]; [by left|].
    by rewrite strategyFor_keys in Hkey. }
  rewrite candidates_eq in Hin. unfold threatTypes in Hin.
  split; [exact Hin|].
  intros Heq. rewrite Heq in Hin.
  rewrite !elem_of_cons, elem_of_nil in Hin.
  destruct Hin as [H | [H | [H | [H | [H | [H | []]]]]]]; discriminate H.
Qed.

(** ** The order of the phases (LevelManagerStackelberg.js) *)

(** The place of a phase in the game. *)
Definition phaseRank (p : LevelManagerStackelberg.Phase) : nat :=
  match p with
  | LevelManagerStackelberg.commitment => 0
  | LevelManagerStackelberg.training => 1
  | LevelManagerStackelberg.battle => 2
  | LevelManagerStackelberg.scoring => 3
  end.

(** The phases announced through ['phaseChange'], oldest first, and the
    number of ['stackelbergComplete'] events. *)
Definition announced (evs : list LevelManagerStackelberg.event)
  : list LevelManagerStackelberg.Phase :=
  omap (λ e, match e with
             | LevelManagerStackelberg.phaseChange p _ => Some p
             | _ => None
             end) evs.

Definition completions (evs : list LevelManagerStackelberg.event) : nat :=
  length (omap (λ e, match e with
                     | LevelManagerStackelberg.stackelbergComplete score _ _ => Some score
                     | _ => None
                     end) evs).

Definition inOrder (l : LevelManagerStackelberg.t) : Prop :=
  let phase := LevelManagerStackelberg.currentPhase l in
  (LevelManagerStackelberg.towersLocked l = true
   ↔ phase ≠ LevelManagerStackelberg.commitment)
  ∧ (LevelManagerStackelberg.battleActive l = true
     ↔ phase = LevelManagerStackelberg.battle)
  ∧ announced (LevelManagerStackelberg.emitted l)
    = take (S (phaseRank phase))
           [LevelManagerStackelberg.commitment; LevelManagerStackelberg.training;
            LevelManagerStackelberg.battle; LevelManagerStackelberg.scoring]
  ∧ completions (LevelManagerStackelberg.emitted l)
    = (if decide (phase = LevelManagerStackelberg.scoring) then 1 else 0)%nat.

Section PhaseOrder.
Import LevelManagerStackelberg GameEngine.
Variable hypot : Q → Q → Q.

Lemma announced_app (evs evs' : list event) :
  announced (evs ++ evs') = announced evs ++ announced evs'.
Proof. unfold announced. by rewrite omap_app. Qed.

Lemma completions_app (evs evs' : list event) :
  completions (evs ++ evs') = (completions evs + completions evs')%nat.
Proof. unfold completions. by rewrite omap_app, length_app. Qed.

Lemma updatePhase_inOrder (dt : Q) (l : t) :
  inOrder l →
  inOrder (updatePhase dt l)
  ∧ (phaseRank (currentPhase l) ≤ phaseRank (currentPhase (updatePhase dt l))
     ≤ S (phaseRank (currentPhase l)))%nat.
Proof.
  intros (Hlock & Hactive & Hann & Hdone).
  unfold updatePhase, inOrder. destruct (Qle_bool _ 0).
  - unfold advancePhase. cbn [currentPhase withPhase].
    destruct (currentPhase l) eqn:Hp;
      unfold startTrainingPhase, startBattlePhase, startScoringPhase;
      cbn [currentPhase towersLocked battleActive emitted withPhase withAnalysis];
      rewrite ?Hp, ?announced_app, ?completions_app, Hann, Hdone; cbn;
      (split; [split|]; [..|lia]); try done.
    + split; [split; [intros Hb; by apply Hactive in Hb | done] | done].
    + split; [done | intros _; by apply Hlock].
    + split; [done | intros _; by apply Hlock].
  - cbn [currentPhase towersLocked battleActive emitted withPhase].
    rewrite ?announced_app, ?completions_app, Hann, Hdone. cbn.
    rewrite app_nil_r, Nat.add_0_r. split; [done | lia].
Qed.

Lemma analysisCallback_inOrder (l : t) :
  inOrder l → inOrder (analysisCallback hypot l).
Proof.
  intros (Hlock & Hactive & Hann & Hdone). unfold analysisCallback.
  destruct (PerfectAI.analyzeAndGenerate _ _ _); [|done..].
  unfold inOrder. cbn [currentPhase towersLocked battleActive emitted withAnalysis].
  rewrite announced_app, completions_app, Hann, Hdone. cbn.
  by rewrite app_nil_r, Nat.add_0_r.
Qed.

Lemma update_inOrder (dt : Q) (s : PlayingState.t) :
  inOrder (PlayingState.levelManager s) →
  inOrder (PlayingState.levelManager (PlayingState.update dt s))
  ∧ (phaseRank (currentPhase (PlayingState.levelManager s))
     ≤ phaseRank (currentPhase (PlayingState.levelManager (PlayingState.update dt s)))
     ≤ S (phaseRank (currentPhase (PlayingState.levelManager s))))%nat.
Proof.
  intros Hin. unfold PlayingState.update.
  destruct (PlayingState.paused s); [split; [done | lia]|].
  destruct (updatePhase_inOrder dt _ Hin) as [Hin1 Hrank].
  set (l1 := updatePhase dt (PlayingState.levelManager s)) in *.
  assert (∀ l2 spawn, shouldSpawnEnemy dt l1 = (l2, spawn) →
            currentPhase l2 = currentPhase l1 ∧ towersLocked l2 = towersLocked l1
            ∧ battleActive l2 = battleActive l1 ∧ emitted l2 = emitted l1) as Hsame.
  { intros l2 spawn. unfold shouldSpawnEnemy, baseShouldSpawnEnemy.
    repeat case_match; intros [= <- <-]; done. }
  destruct (shouldSpawnEnemy dt l1) as [l2 spawn] eqn:Hs.
  destruct (Hsame l2 spawn eq_refl) as (H1 & H2 & H3 & H4).
  match goal with
  | |- context [foldl PlayingState.handle ?s0 ?evs] =>
      destruct (handle_levelManager evs s0) as [-> _]
  end.
  cbn [PlayingState.levelManager PlayingState.withLevelManager].
  destruct Hin1 as (Hlock & Hactive & Hann & Hdone).
  destruct (spawn && _); unfold inOrder;
    cbn [currentPhase towersLocked battleActive emitted withSpawn];
    rewrite H1, H2, H3, H4; done.
Qed.

Lemma frame_inOrder (w : world) (T : Q) :
  inOrder (lm w) →
  inOrder (lm (frame w T))
  ∧ (phaseRank (currentPhase (lm w)) ≤ phaseRank (currentPhase (lm (frame w T)))
     ≤ S (phaseRank (currentPhase (lm w))))%nat.
Proof.
  intros Hin. unfold frame. cbn zeta. rewrite lm_withLevelManager.
  set (dt := if Qltb 100 (T - lastTime w) then 100 else T - lastTime w).
  destruct (update_inOrder dt (state w) Hin) as [(Hlock & Hactive & Hann & Hdone) Hrank].
  split; [|exact Hrank]. unfold inOrder.
  cbn [currentPhase towersLocked battleActive emitted withPhase].
  rewrite app_nil_r. done.
Qed.

Lemma runTimeout_inOrder (w : world) (now : Q) :
  inOrder (lm w) →
  inOrder (lm (runTimeout hypot w now))
  ∧ currentPhase (lm (runTimeout hypot w now)) = currentPhase (lm w).
Proof.
  intros Hin. unfold runTimeout.
  destruct (timers w) as [|due rest]; [done|].
  destruct (Qle_bool due now); [|done].
  rewrite lm_withLevelManager. split; [by apply analysisCallback_inOrder|].
  apply analysisCallback_fields.
Qed.

Lemma placeTower_inOrder (tower : PerfectAI.Tower) (s : PlayingState.t) :
  inOrder (PlayingState.levelManager s) →
  inOrder (PlayingState.levelManager (PlayingState.placeTower tower s))
  ∧ currentPhase (PlayingState.levelManager (PlayingState.placeTower tower s))
    = currentPhase (PlayingState.levelManager s).
Proof.
  intros Hin. unfold PlayingState.placeTower.
  by destruct (PlayingState.towersLocked s).
Qed.

End PhaseOrder.

(** X21. The four phases run in order, one at a time. Over every run of the
    engine on a fresh Stackelberg level (frames at any times; timeouts run
    by the host, pauses and tower placements in between): a step keeps the
    phase or moves it to the next one, the
    phases announced through 'phaseChange' are exactly the phases entered
    so far in the order commitment, training, battle, scoring, the towers
    are locked from the training phase on, spawning is active exactly in
    the battle phase, and 'stackelbergComplete' has been sent once if the
    level is in its scoring phase and not at all before. *)
Theorem phases_run_in_order (hypot : Q → Q → Q) (commit train fight : Q)
    (ns : list Node) (ps : list (list nat)) (k : nat) (health interval : Q)
    (inputs : list GameEngine.input) :
  let level := LevelManagerStackelberg.new commit train fight ns ps k health interval in
  let w := GameEngine.run hypot (GameEngine.start level) inputs in
  let l := GameEngine.lm w in
  let phase := LevelManagerStackelberg.currentPhase l in
  (∀ i, (phaseRank phase
         ≤ phaseRank (LevelManagerStackelberg.currentPhase
                        (GameEngine.lm (GameEngine.step hypot w i)))
         ≤ S (phaseRank phase))%nat)
  ∧ announced (LevelManagerStackelberg.emitted l)
    = take (S (phaseRank phase))
           [LevelManagerStackelberg.commitment; LevelManagerStackelberg.training;
            LevelManagerStackelberg.battle; LevelManagerStackelberg.scoring]
  ∧ (LevelManagerStackelberg.towersLocked l = true
     ↔ phase ≠ LevelManagerStackelberg.commitment)
  ∧ (LevelManagerStackelberg.battleActive l = true
     ↔ phase = LevelManagerStackelberg.battle)
  ∧ completions (LevelManagerStackelberg.emitted l)
    = (if decide (phase = LevelManagerStackelberg.scoring) then 1 else 0)%nat.
Proof.
  intros level w l phase.
  assert (∀ w0 i, inOrder (GameEngine.lm w0) →
            inOrder (GameEngine.lm (GameEngine.step hypot w0 i))
            ∧ (phaseRank (LevelManagerStackelberg.currentPhase (GameEngine.lm w0))
               ≤ phaseRank (LevelManagerStackelberg.currentPhase
                              (GameEngine.lm (GameEngine.step hypot w0 i)))
               ≤ S (phaseRank (LevelManagerStackelberg.currentPhase (GameEngine.lm w0))))%nat)
    as Hstep.
  { intros w0 [T|now| |tower] Hin; cbn [GameEngine.step].
    - by apply frame_inOrder.
    - destruct (runTimeout_inOrder hypot w0 now Hin) as [Hin' ->].
      split; [exact Hin' | lia].
    - split; [done | unfold GameEngine.lm; simpl; lia].
    - unfold GameEngine.lm. cbn [GameEngine.state].
      destruct (placeTower_inOrder tower (GameEngine.state w0) Hin) as [Hin' ->].
      split; [exact Hin' | lia]. }
  assert (inOrder l) as Hin.
  { unfold l, w, GameEngine.run.
    apply (foldl_invariant (λ w0, inOrder (GameEngine.lm w0))).
    - unfold inOrder. cbn. done.
    - intros w0 i _ Hw0. by apply Hstep. }
  destruct Hin as (Hlock & Hactive & Hann & Hdone).
  split; [intros i; by apply Hstep|]. done.
Qed.

(** ** EventBus.js *)

Module EventBus.

(** [this.listeners] is a [gmap string (list nat)]: the callbacks of each
    event in subscription order. A callback is a function object, compared
    by identity: a number here. *)

(** [on(event, callback)]; the unsubscribe function it returns is
    [off(event, callback)]. *)
Definition on (event : string) (callback : nat) (bus : gmap string (list nat))
  : gmap string (list nat) :=
  let bus1 := if decide (is_Some (bus !! event)) then bus else <[event := []]> bus in
  alter (λ callbacks, callbacks ++ [callback]) event bus1.

(** [callbacks.indexOf(callback)]; [None] is [-1]. *)
Definition indexOf (callback : nat) (callbacks : list nat) : option nat :=
  fst <$> list_find (λ c, c = callback) callbacks.

(** [off(event, callback)] *)
Definition off (event : string) (callback : nat) (bus : gmap string (list nat))
  : gmap string (list nat) :=
  match bus !! event with
  | None => bus
  | Some callbacks =>
      match indexOf callback callbacks with
      | Some index => <[event := delete index callbacks]> bus
      | None => bus
      end
  end.

(** [emit(event, data)]: the callbacks that were called, oldest call first,
    and the number of errors logged; [throws c] tells whether callback [c]
    throws on [data]. *)
Definition emit (throws : nat → bool) (event : string)
    (bus : gmap string (list nat)) : list nat * nat :=
  match bus !! event with
  | None => ([], O)
  | Some callbacks =>
      foldl (λ (acc : list nat * nat) callback,
               if throws callback then (acc.1 ++ [callback], S acc.2)
               else (acc.1 ++ [callback], acc.2))
            ([], O) callbacks
  end.

(** [clear(event)]; an empty name is as good as none. *)
Definition clear (event : option string) (bus : gmap string (list nat))
  : gmap string (list nat) :=
  match event with
  | Some name => if decide (name = "") then ∅ else delete name bus
  | None => ∅
  end.

End EventBus.

(** The callbacks [emit] would call. *)
Definition listenersOf (bus : gmap string (list nat)) (event : string) : list nat :=
  default [] (bus !! event).

Lemma emit_calls (throws : nat → bool) (event : string) (bus : gmap string (list nat)) :
  (EventBus.emit throws event bus).1 = listenersOf bus event
  ∧ (EventBus.emit throws event bus).2
    = length (filter (λ c, throws c = true) (listenersOf bus event)).
Proof.
  unfold EventBus.emit, listenersOf.
  destruct (bus !! event) as [callbacks|]; [|done]. cbn [default].
  assert (∀ acc : list nat * nat,
            (foldl (λ (acc : list nat * nat) callback,
                      if throws callback then (acc.1 ++ [callback], S acc.2)
                      else (acc.1 ++ [callback], acc.2)) acc callbacks).1
            = acc.1 ++ callbacks
            ∧ (foldl (λ (acc : list nat * nat) callback,
                        if throws callback then (acc.1 ++ [callback], S acc.2)
                        else (acc.1 ++ [callback], acc.2)) acc callbacks).2
              = (acc.2 + length (filter (λ c, throws c = true) callbacks))%nat) as H.
  { induction callbacks as [|c callbacks IH]; intros acc; cbn [foldl].
    - rewrite app_nil_r. cbn. split; [done | lia].
    - destruct (IH (if throws c then (acc.1 ++ [c], S acc.2) else (acc.1 ++ [c], acc.2)))
        as [-> ->].
      rewrite filter_cons. destruct (throws c) eqn:Hc; cbn [fst snd].
      + rewrite decide_True by done. rewrite <- app_assoc. cbn. split; [done | lia].
      + rewrite decide_False by done. rewrite <- app_assoc. cbn. split; [done | lia]. }
  apply (H ([], O)).
Qed.

Lemma on_listeners (event : string) (callback : nat) (bus : gmap string (list nat)) (e : string) :
  listenersOf (EventBus.on event callback bus) e
  = if decide (e = event) then listenersOf bus event ++ [callback] else listenersOf bus e.
Proof.
  unfold EventBus.on, listenersOf. cbv zeta. destruct (decide (e = event)) as [-> | He].
  - rewrite lookup_alter_eq. case_decide as Hs.
    + destruct Hs as [l Hl]. by rewrite Hl.
    + rewrite lookup_insert_eq. cbn.
      destruct (bus !! event) as [l|] eqn:Hl; [|done]. exfalso. apply Hs. by eexists.
  - rewrite lookup_alter_ne by done. case_decide; [done|].
    by rewrite lookup_insert_ne.
Qed.

Lemma off_listeners (event : string) (callback : nat) (bus : gmap string (list nat)) (e : string) :
  listenersOf (EventBus.off event callback bus) e
  = if decide (e = event) then
      match EventBus.indexOf callback (listenersOf bus event) with
      | Some index => delete index (listenersOf bus event)
      | None => listenersOf bus event
      end
    else listenersOf bus e.
Proof.
  unfold EventBus.off, listenersOf. destruct (decide (e = event)) as [-> | He].
  - destruct (bus !! event) as [callbacks|] eqn:Hl; cbn [default]; unfold id;
      [|by rewrite Hl].
    destruct (EventBus.indexOf callback callbacks).
    + by rewrite lookup_insert_eq.
    + by rewrite Hl.
  - destruct (bus !! event) as [callbacks|]; [|done].
    destruct (EventBus.indexOf callback callbacks); [|done].
    by rewrite lookup_insert_ne.
Qed.

Lemma indexOf_first (callback : nat) (callbacks : list nat) :
  match EventBus.indexOf callback callbacks with
  | Some index => callbacks !! index = Some callback
                  ∧ ∀ j c, (j < index)%nat → callbacks !! j = Some c → c ≠ callback
  | None => callback ∉ callbacks
  end.
Proof.
  unfold EventBus.indexOf.
  destruct (list_find (λ c, c = callback) callbacks) as [[i c]|] eqn:Hf; cbn.
  - apply list_find_Some in Hf as (Hi & -> & Hbefore). split; [done|].
    intros j c' Hj Hc'. by apply (Hbefore j).
  - apply list_find_None in Hf. rewrite Forall_forall in Hf.
    intros Hin. by apply (Hf callback).
Qed.

Lemma delete_app_l {A : Type} (l k : list A) (i : nat) :
  (i < length l)%nat → delete i (l ++ k) = delete i l ++ k.
Proof.
  intros Hi. rewrite !delete_take_drop.
  rewrite take_app_le, drop_app_le by lia. by rewrite app_assoc.
Qed.

(** X22. Unsubscribing removes the oldest subscription of a callback, not
    the one the unsubscribe function came from. After [on(event, callback)]
    followed by the unsubscribe function it returns, the listeners of every
    other event are as before and those of [event] are the same callbacks
    with the same multiplicity; they are in the same order when the callback
    was new to the event, and otherwise the earliest occurrence is gone and
    the callback is called last. [emit] calls every listener once, in that
    order, and logs one error for each listener that throws. *)
Theorem unsubscribe_after_subscribe (event : string) (callback : nat)
    (bus : gmap string (list nat)) :
  let bus' := EventBus.off event callback (EventBus.on event callback bus) in
  (∀ e, e ≠ event → listenersOf bus' e = listenersOf bus e)
  ∧ listenersOf bus' event ≡ₚ listenersOf bus event
  ∧ (callback ∉ listenersOf bus event → listenersOf bus' event = listenersOf bus event)
  ∧ (∀ index, EventBus.indexOf callback (listenersOf bus event) = Some index →
              listenersOf bus' event
              = delete index (listenersOf bus event) ++ [callback])
  ∧ ∀ throws e,
      (EventBus.emit throws e bus').1 = listenersOf bus' e
      ∧ (EventBus.emit throws e bus').2
        = length (filter (λ c, throws c = true) (listenersOf bus' e)).
Proof.
  intros bus'.
  assert (∀ e, listenersOf bus' e
               = if decide (e = event) then
                   match EventBus.indexOf callback (listenersOf bus event ++ [callback]) with
                   | Some index => delete index (listenersOf bus event ++ [callback])
                   | None => listenersOf bus event ++ [callback]
                   end
                 else listenersOf bus e) as Hbus'.
  { intros e. unfold bus'. rewrite off_listeners, !on_listeners.
    rewrite (decide_True (P := event = event)) by done.
    destruct (decide (e = event)); done. }
  set (old := listenersOf bus event) in *.
  pose proof (indexOf_first callback (old ++ [callback])) as Hnew.
  pose proof (indexOf_first callback old) as Hold.
  assert (∃ index, EventBus.indexOf callback (old ++ [callback]) = Some index
                   ∧ (index ≤ length old)%nat
                   ∧ (index < length old → EventBus.indexOf callback old = Some index)%nat
                   ∧ (index = length old → callback ∉ old))
    as (index & Hindex & Hle & Hin & Hout).
  { destruct (EventBus.indexOf callback (old ++ [callback])) as [index|] eqn:Hi.
    - destruct Hnew as [Hat Hfirst]. exists index. split; [done|].
      assert (index ≤ length old)%nat as Hle.
      { destruct (decide (index ≤ length old)%nat) as [? | Hgt]; [done|]. exfalso.
        apply (Hfirst (length old) callback); [lia | | done].
        by rewrite lookup_app_r, Nat.sub_diag by lia. }
      split; [done|]. split.
      + intros Hlt. rewrite lookup_app_l in Hat by done.
        destruct (EventBus.indexOf callback old) as [i|] eqn:Ho.
        * destruct Hold as [Hat' Hfirst']. f_equal.
          destruct (Nat.lt_trichotomy i index) as [Hlt' | [-> | Hgt]]; [|done|].
          -- exfalso. apply (Hfirst i callback); [done | | done].
             rewrite lookup_app_l; [done|]. lia.
          -- exfalso. by apply (Hfirst' index callback).
        * exfalso. apply Hold. by eapply list_elem_of_lookup_2.
      + intros -> Hin. apply list_elem_of_lookup in Hin as [j Hj].
        apply (Hfirst j callback); [by eapply lookup_lt_Some | | done].
        rewrite lookup_app_l; [done|]. by eapply lookup_lt_Some.
    - exfalso. apply Hnew. apply elem_of_app. right. by left. }
  assert (listenersOf bus' event = delete index (old ++ [callback])) as Hevent.
  { rewrite Hbus', decide_True by done. by rewrite Hindex. }
  assert (listenersOf bus' event ≡ₚ old) as Hperm.
  { rewrite Hevent. pose proof (indexOf_first callback (old ++ [callback])) as Hat.
    rewrite Hindex in Hat. destruct Hat as [Hat _].
    apply (delete_Permutation _ _ _) in Hat.
    apply (Permutation_cons_inv (a := callback)). rewrite <- Hat.
    by rewrite Permutation_app_comm. }
  split; [|split; [|split; [|split]]].
  - intros e He. by rewrite Hbus', decide_False.
  - exact Hperm.
  - intros Hnot. rewrite Hevent.
    destruct (decide (index = length old)) as [-> | Hne].
    + by rewrite delete_middle, app_nil_r.
    + exfalso. pose proof (indexOf_first callback old) as Ho.
      rewrite Hin in Ho by lia. destruct Ho as [Ho _].
      apply Hnot. by eapply list_elem_of_lookup_2.
  - intros i Hi. rewrite Hevent.
    pose proof (indexOf_first callback old) as Ho. rewrite Hi in Ho. destruct Ho as [Ho _].
    destruct (decide (index = length old)) as [-> | Hne].
    + exfalso. apply Hout; [done|]. by eapply list_elem_of_lookup_2.
    + rewrite Hin in Hi by lia. injection Hi as <-. apply delete_app_l. lia.
  - intros throws e. apply emit_calls.
Qed.

(** ** The greedy action (EconomicRL.getBestAction) *)

Section Greedy.
Import EconomicRL.

(** The loop of [getBestAction] over a row that holds a number for each of
    the three actions. *)
Lemma bestOf_row (row : gmap string cell) (qa qb qd : Q) :
  row !! "AGGRESSIVE" = Some (Num qa) →
  row !! "BALANCED" = Some (Num qb) →
  row !! "DEFENSIVE" = Some (Num qd) →
  ∃ best q,
    foldl (λ (acc : string * cell) action,
             if cell_gt (readCell row action) acc.2
             then (action, readCell row action) else acc)
          ("AGGRESSIVE", readCell row "AGGRESSIVE") actions = (best, Num q)
    ∧ row !! best = Some (Num q)
    ∧ qa <= q ∧ qb <= q ∧ qd <= q
    ∧ ((best = "AGGRESSIVE")
       ∨ (best = "BALANCED" ∧ qa < q)
       ∨ (best = "DEFENSIVE" ∧ qa < q ∧ qb < q)).
Proof.
  intros Ha Hb Hd.
  assert (readCell row "AGGRESSIVE" = Num qa) as Hra by (unfold readCell; by rewrite Ha).
  assert (readCell row "BALANCED" = Num qb) as Hrb by (unfold readCell; by rewrite Hb).
  assert (readCell row "DEFENSIVE" = Num qd) as Hrd by (unfold readCell; by rewrite Hd).
  unfold actions. cbn [foldl]. rewrite Hra. cbn [snd cell_gt].
  destruct (Qltb qa qa) eqn:E0; [apply Qltb_lt in E0; lra|].
  rewrite Hrb. cbn [snd cell_gt].
  destruct (Qltb qa qb) eqn:E1; rewrite Hrd; cbn [snd cell_gt].
  - apply Qltb_lt in E1. destruct (Qltb qb qd) eqn:E2.
    + apply Qltb_lt in E2. exists "DEFENSIVE", qd. split; [done|]. split; [done|].
      split; [lra|]. split; [lra|]. split; [lra|]. right. right. split; [done|]. lra.
    + apply Qltb_ge in E2. exists "BALANCED", qb. split; [done|]. split; [done|].
      split; [lra|]. split; [lra|]. split; [lra|]. right. left. done.
  - apply Qltb_ge in E1. destruct (Qltb qa qd) eqn:E2.
    + apply Qltb_lt in E2. exists "DEFENSIVE", qd. split; [done|]. split; [done|].
      split; [lra|]. split; [lra|]. split; [lra|]. right. right. split; [done|]. lra.
    + apply Qltb_ge in E2. exists "AGGRESSIVE", qa. split; [done|]. split; [done|].
      split; [lra|]. split; [lra|]. split; [lra|]. by left.
Qed.

End Greedy.

(** X23. The greedy action is a best action of its row. When the row of
    [state], if there is one, holds a number for each action,
    [getBestAction] leaves the rows of the other states alone, creates the
    row of [state] from three samples of [Math.random] if it is missing and
    keeps it otherwise, and returns an action whose value in that row is
    the largest; among equal values it returns the first of AGGRESSIVE,
    BALANCED, DEFENSIVE. *)
Theorem getBestAction_greedy (rnd : nat → Q) (ag : EconomicRL.agent) (state : string) :
  (∀ row, EconomicRL.Qtable ag !! state = Some row →
          ∀ a, a ∈ EconomicRL.actions → ∃ q, row !! a = Some (EconomicRL.Num q)) →
  let r := EconomicRL.getBestAction rnd ag state in
  ∃ row best,
    EconomicRL.Qtable r.1 !! state = Some row
    ∧ (∀ s, s ≠ state → EconomicRL.Qtable r.1 !! s = EconomicRL.Qtable ag !! s)
    ∧ row = default (EconomicRL.initRow rnd (EconomicRL.calls ag))
                    (EconomicRL.Qtable ag !! state)
    ∧ EconomicRL.calls r.1
      = match EconomicRL.Qtable ag !! state with
        | Some _ => EconomicRL.calls ag
        | None => S (S (S (EconomicRL.calls ag)))
        end
    ∧ r.2 ∈ EconomicRL.actions
    ∧ row !! r.2 = Some (EconomicRL.Num best)
    ∧ (∀ a q, a ∈ EconomicRL.actions → row !! a = Some (EconomicRL.Num q) → q <= best)
    ∧ (∀ i j a q, EconomicRL.actions !! i = Some a → EconomicRL.actions !! j = Some r.2 →
                  (i < j)%nat → row !! a = Some (EconomicRL.Num q) → q < best).
Proof.
  intros Hrow r.
  set (row := default (EconomicRL.initRow rnd (EconomicRL.calls ag))
                      (EconomicRL.Qtable ag !! state)).
  assert (∃ qa qb qd, row !! "AGGRESSIVE" = Some (EconomicRL.Num qa)
                      ∧ row !! "BALANCED" = Some (EconomicRL.Num qb)
                      ∧ row !! "DEFENSIVE" = Some (EconomicRL.Num qd))
    as (qa & qb & qd & Ha & Hb & Hd).
  { unfold row. destruct (EconomicRL.Qtable ag !! state) as [row0|] eqn:Hs; cbn [default].
    - destruct (Hrow row0 eq_refl "AGGRESSIVE") as [qa Ha]; [by left|].
      destruct (Hrow row0 eq_refl "BALANCED") as [qb Hb]; [right; by left|].
      destruct (Hrow row0 eq_refl "DEFENSIVE") as [qd Hd]; [right; right; by left|].
      by exists qa, qb, qd.
    - unfold EconomicRL.initRow. eexists _, _, _.
      split; [|split].
      + by rewrite lookup_insert_eq.
      + rewrite lookup_insert_ne by done. by rewrite lookup_insert_eq.
      + rewrite !lookup_insert_ne by done. by rewrite lookup_singleton_eq. }
  destruct (bestOf_row row qa qb qd Ha Hb Hd) as (best & q & Hfold & Hbest & Hqa & Hqb & Hqd & Hfirst).
  assert (r.2 = best
          ∧ EconomicRL.Qtable r.1 !! state = Some row
          ∧ (∀ s, s ≠ state → EconomicRL.Qtable r.1 !! s = EconomicRL.Qtable ag !! s)
          ∧ EconomicRL.calls r.1
            = match EconomicRL.Qtable ag !! state with
              | Some _ => EconomicRL.calls ag
              | None => S (S (S (EconomicRL.calls ag)))
              end) as (Hr2 & Hr1 & Hothers & Hcalls).
  { unfold r, EconomicRL.getBestAction, row in *.
    destruct (EconomicRL.Qtable ag !! state) as [row0|] eqn:Hs; cbn [default] in *.
    - rewrite Hs. cbn [default]. unfold id in *. rewrite Hfold. cbn. done.
    - rewrite lookup_insert_eq. cbn [default]. unfold id in *. rewrite Hfold. cbn.
      rewrite lookup_insert_eq. split; [done|]. split; [done|]. split; [|done].
      intros s Hne. by rewrite lookup_insert_ne. }
  exists row, q. rewrite Hr2.
  split; [done|]. split; [done|]. split; [done|]. split; [done|].
  assert (∀ a q', a ∈ EconomicRL.actions → row !! a = Some (EconomicRL.Num q') →
                  (a = "AGGRESSIVE" ∧ q' = qa) ∨ (a = "BALANCED" ∧ q' = qb)
                  ∨ (a = "DEFENSIVE" ∧ q' = qd)) as Hcases.
  { intros a q' Hin Hq. unfold EconomicRL.actions in Hin.
    rewrite !elem_of_cons, elem_of_nil in Hin.
    destruct Hin as [-> | [-> | [-> | []]]]; [left | right; left | right; right];
      split; congruence. }
  split.
  { destruct Hfirst as [-> | [[-> _] | [-> _]]]; unfold EconomicRL.actions;
      rewrite !elem_of_cons; tauto. }
  split; [done|]. split.
  - intros a q' Hin Hq.
    destruct (Hcases a q' Hin Hq) as [[_ ->] | [[_ ->] | [_ ->]]]; done.
  - intros i j a q' Hi Hj Hij Hq.
    assert (a ∈ EconomicRL.actions) as Hin by (by eapply list_elem_of_lookup_2).
    unfold EconomicRL.actions in Hi, Hj.
    destruct Hfirst as [-> | [[-> Hlt] | [-> [Hlt1 Hlt2]]]].
    + destruct j as [|[|[|j]]]; cbn in Hj; try done. lia.
    + destruct j as [|[|[|j]]]; cbn in Hj; try done.
      destruct i as [|i]; [|lia]. cbn in Hi. injection Hi as <-.
      rewrite Ha in Hq. by injection Hq as <-.
    + destruct j as [|[|[|j]]]; cbn in Hj; try done.
      destruct i as [|[|i]]; [| |lia]; cbn in Hi; injection Hi as <-.
      * rewrite Ha in Hq. by injection Hq as <-.
      * rewrite Hb in Hq. by injection Hq as <-.
Qed.

Lemma getBestAction_greedy_witness :
  ∃ row best,
    EconomicRL.Qtable (EconomicRL.getBestAction (λ k, ofNat k) (EconomicRL.new None)
                         "LOW_SPARSE_BALANCED_ATTACKER_STRONG").1
      !! "LOW_SPARSE_BALANCED_ATTACKER_STRONG" = Some row
    ∧ row !! (EconomicRL.getBestAction (λ k, ofNat k) (EconomicRL.new None)
                "LOW_SPARSE_BALANCED_ATTACKER_STRONG").2 = Some (EconomicRL.Num best)
    ∧ ∀ a q, a ∈ EconomicRL.actions → row !! a = Some (EconomicRL.Num q) → q <= best.
Proof.
  destruct (getBestAction_greedy (λ k, ofNat k) (EconomicRL.new None)
              "LOW_SPARSE_BALANCED_ATTACKER_STRONG")
    as (row & best & Hrow & _ & _ & _ & _ & Hbest & Hmax & _).
  - intros row Hrow. unfold EconomicRL.new in Hrow. cbn [EconomicRL.Qtable] in Hrow.
    rewrite lookup_empty in Hrow. discriminate Hrow.
  - exists row, best. split; [exact Hrow|]. split; [exact Hbest | exact Hmax].
Defined.
